(** * Maestro-Player: the wavetable synthesizer of the offline renderer

    A shallow embedding of the synthesizer bundled in [rendererWorker.js]
    (sample table, event scheduler, amplitude envelope, wavetable oscillator,
    processor core, reverb and the offline render driver), followed by the
    properties of it that the specification states.

    Conventions of the embedding.
    - A JavaScript number that counts something (frames, MIDI keys, banks,
      channels, sequence numbers, sample indices) is a [Z]; a number that
      measures something (amplitudes, times, speeds, PCM values) is an exact
      rational [Q].  Rounding, infinities and NaN are not represented:
      a property proved here holds of the computation carried out exactly.
      The amplitude envelope is also embedded over binary64 floating-point
      numbers, the numbers of the code ([Binary64]), where its amplitudes
      are evaluated as the code computes them and its forced stop is
      followed through the rounding of every operation.
    - [Math.pow], [Math.log10], [Math.sin], [Math.cos] and [Math.PI] are the
      fields of the class [MathOps]; nothing is assumed about them.
    - An object used as a dictionary with integer keys is a [gmap Z]; a
      [for .. in] over it visits the keys in ascending order.
    - A [throw] is the [Throw] constructor of [Result]; the one identifier
      that the bundle reads from the host's global scope, [sampleRate], is
      the field [hostSampleRate] of [Host]. *)

From Stdlib Require Import ZArith QArith Qround Qminmax Qpower Lqa Lia List String.
From Stdlib Require PrimFloat Floats.
From stdpp Require Import base option list gmap sorting.
From Equations Require Import Equations.

Set Default Proof Using "Type".
Open Scope Z_scope.

(** ** Errors *)

Inductive JSError : Type :=
| ReferenceError (identifier : string)
| Error (message : string).

Inductive Result (A : Type) : Type :=
| Ok (a : A)
| Throw (e : JSError).
Arguments Ok {A} a.
Arguments Throw {A} e.

Definition rbind {A B} (r : Result A) (k : A -> Result B) : Result B :=
  match r with
  | Ok a => k a
  | Throw e => Throw e
  end.

Notation "'try!' x <- r ; k" := (rbind r (fun x => k))
  (at level 10, x pattern, r at level 100, k at level 200).

(** The globals of the scope the bundle runs in.  An audio worklet scope
    binds [sampleRate]; a dedicated worker scope does not. *)
Record Host : Type := { hostSampleRate : option Q }.

Definition workerScope : Host := {| hostSampleRate := None |}.
Definition audioWorkletScope (rate : Q) : Host := {| hostSampleRate := Some rate |}.

(** ** [Math] *)

Class MathOps : Type := {
  Math_pow : Q -> Q -> Q;
  Math_log10 : Q -> Q;
  Math_sin : Q -> Q;
  Math_cos : Q -> Q;
  Math_PI : Q
}.

(** ** Sample parameters *)

Inductive LoopType : Type := no_loop | loop_continuous | loop_sustain.

Record Loop : Type := {
  loop_type : LoopType;
  loop_start : Z;
  loop_end : Z
}.

Record AmplitudeEnvelopeParameter : Type := {
  attackTime : Q;
  holdTime : Q;
  decayTime : Q;
  sustainLevel : Q;
  releaseTime : Q
}.

Module SampleParameter.
Record t : Type := {
  sampleID : Z;
  pitch : Q;
  loop : Loop;
  sampleStart : Z;
  sampleEnd : Z;
  sampleRate : Q;
  amplitudeEnvelope : AmplitudeEnvelopeParameter;
  scaleTuning : Q;
  pan : Q;
  exclusiveClass : option Z;
  volume : Q
}.
End SampleParameter.

Record SampleRange : Type := {
  bank : Z;
  instrument : Z;
  keyRange : Z * Z;
  velRange : Z * Z
}.

(** [{ ...parameter, velRange }], the entry pushed on a key's list. *)
Record RegisteredParameter : Type := {
  parameter : SampleParameter.t;
  registeredVelRange : Z * Z
}.

(** [{ ...parameter, buffer }], what [getSamples] hands to a voice. *)
Record Sample : Type := {
  registered : RegisteredParameter;
  buffer : list Q
}.

Definition sampleParameter (s : Sample) : SampleParameter.t := parameter (registered s).

(** ** SampleTable *)

Module SampleTable.

Record t : Type := {
  samples : gmap Z (list Q);
  sampleParameters : gmap Z (gmap Z (gmap Z (list RegisteredParameter)))
}.

Definition empty : t := {| samples := ∅; sampleParameters := ∅ |}.

Definition addSample (data : list Q) (id : Z) (tbl : t) : t :=
  {| samples := <[id := data]> (samples tbl);
     sampleParameters := sampleParameters tbl |}.

(** One turn of the loop of [addSampleParameter], for the key [i]. *)
Definition addSampleParameterAt (p : SampleParameter.t) (range : SampleRange)
    (sp : gmap Z (gmap Z (gmap Z (list RegisteredParameter)))) (i : Z)
    : gmap Z (gmap Z (gmap Z (list RegisteredParameter))) :=
  let ofBank := default ∅ (sp !! bank range) in
  let ofInstrument := default ∅ (ofBank !! instrument range) in
  let ofKey := default [] (ofInstrument !! i) in
  let pushed := ofKey ++ [ {| parameter := p; registeredVelRange := velRange range |} ] in
  <[bank range := <[instrument range := <[i := pushed]> ofInstrument]> ofBank]> sp.

Definition keysOf (range : SampleRange) : list Z :=
  seqZ (fst (keyRange range)) (snd (keyRange range) - fst (keyRange range) + 1).

Definition addSampleParameter (p : SampleParameter.t) (range : SampleRange) (tbl : t) : t :=
  {| samples := samples tbl;
     sampleParameters :=
       fold_left (addSampleParameterAt p range) (keysOf range) (sampleParameters tbl) |}.

Definition velocityInRange (velocity : Z) (s : RegisteredParameter) : bool :=
  (fst (registeredVelRange s) <=? velocity) && (velocity <=? snd (registeredVelRange s)).

Definition instrumentParametersOf (tbl : t) (b i : Z)
    : option (gmap Z (list RegisteredParameter)) :=
  sampleParameters tbl !! b ≫= (.!! i).

(** The loop of [getSamples]: a parameter whose sample is not loaded is
    skipped with a warning. *)
Definition withBuffer (tbl : t) (s : RegisteredParameter) : option Sample :=
  match samples tbl !! SampleParameter.sampleID (parameter s) with
  | Some data => Some {| registered := s; buffer := data |}
  | None => None
  end.

Definition getSamples (tbl : t) (b i key velocity : Z) : list Sample :=
  let instrumentParameters :=
    match instrumentParametersOf tbl b i with
    | Some found => Some found
    | None => instrumentParametersOf tbl 0 i
    end in
  let parameters :=
    match instrumentParameters ≫= (.!! key) with
    | Some registeredAtKey => List.filter (velocityInRange velocity) registeredAtKey
    | None => []
    end in
  omap (withBuffer tbl) parameters.

End SampleTable.

(** ** Events *)

Inductive ChannelEventBody : Type :=
| NoteOn (noteNumber velocity : Z)
| NoteOff (noteNumber velocity : Z)
| PitchBend (value : Z)
| ProgramChange (value : Z)
| Controller (controllerType value : Z)
| OtherChannelEvent.

(** An event of a MIDI file: a channel event, or one without a [channel]
    field (meta, system exclusive). *)
Inductive AnyEvent : Type :=
| ChannelEvent (channel : Z) (body : ChannelEventBody)
| NonChannelEvent.

Definition channelOf (e : AnyEvent) : option Z :=
  match e with
  | ChannelEvent c _ => Some c
  | NonChannelEvent => None
  end.

(** The events [addEvent] accepts.  Only the last two carry [delayTime]. *)
Inductive SynthEvent : Type :=
| LoadSampleEvent (data : list Q) (id : Z)
| SampleParameterEvent (p : SampleParameter.t) (range : SampleRange)
| ReverbControlEvent (amount : Q) (delayTime : Z)
| MIDIEvent (midi : AnyEvent) (delayTime : Z) (sequenceNumber : Z).

(** ** insertSorted *)

Definition midpoint (low high : nat) : nat := Nat.div2 (low + high).

Lemma midpoint_bounds (low high : nat) :
  (low < high)%nat -> (low <= midpoint low high < high)%nat.
Proof.
  intros Hlt. unfold midpoint. rewrite Nat.div2_div. split.
  - apply Nat.div_le_lower_bound; lia.
  - apply Nat.Div0.div_lt_upper_bound; lia.
Qed.

Section InsertSorted.
Context {A : Type} (prop : A -> Z).

#[local] Opaque midpoint.

(** The [while (low < high)] loop; the result is the final [low]. *)
Equations? searchSlot (arr : list A) (item : A) (low high : nat) : nat
    by wf (high - low)%nat lt :=
  searchSlot arr item low high with decide (low < high)%nat => {
    | right _ := low
    | left _ with arr !! midpoint low high => {
        | Some x :=
            if decide (prop x < prop item)
            then searchSlot arr item (midpoint low high + 1)%nat high
            else searchSlot arr item low (midpoint low high)
        | None := low } }.
Proof.
  all: pose proof (midpoint_bounds low high); lia.
Qed.

(** [arr.splice(low, 0, item)] *)
Definition splice (arr : list A) (low : nat) (item : A) : list A :=
  take low arr ++ item :: drop low arr.

Definition insertSorted (arr : list A) (item : A) : list A :=
  splice arr (searchSlot arr item 0 (length arr)) item.

End InsertSorted.

(** ** SynthEventScheduler *)

Module SynthEventScheduler.

(** [{ ...e, scheduledFrame }] for a MIDI event [e]. *)
Record ScheduledEvent : Type := {
  midi : AnyEvent;
  delayTime : Z;
  sequenceNumber : Z;
  scheduledFrame : Z
}.

Record ScheduledReverbEvent : Type := {
  amount : Q;
  reverbDelayTime : Z;
  reverbScheduledFrame : Z
}.

Record t : Type := {
  scheduledEvents : list ScheduledEvent;
  scheduledReverbEvents : list ScheduledReverbEvent;
  currentEvents : list ScheduledEvent;
  currentReverbEvents : list ScheduledReverbEvent
}.

Definition empty : t :=
  {| scheduledEvents := []; scheduledReverbEvents := [];
     currentEvents := []; currentReverbEvents := [] |}.

Definition sortEvents (a b : ScheduledEvent) : Z :=
  if scheduledFrame a <? scheduledFrame b then -1
  else if scheduledFrame a >? scheduledFrame b then 1
  else if sequenceNumber a <? sequenceNumber b then -1
  else if sequenceNumber a >? sequenceNumber b then 1
  else 0.

(** [Array.prototype.sort] with a comparator: a stable sort. *)
Fixpoint sortInsert (compare : ScheduledEvent -> ScheduledEvent -> Z)
    (x : ScheduledEvent) (sorted : list ScheduledEvent) : list ScheduledEvent :=
  match sorted with
  | [] => [x]
  | y :: rest =>
      if compare x y <=? 0 then x :: y :: rest
      else y :: sortInsert compare x rest
  end.

Definition sort (compare : ScheduledEvent -> ScheduledEvent -> Z)
    (arr : list ScheduledEvent) : list ScheduledEvent :=
  foldr (sortInsert compare) [] arr.

Definition onOtherChannel (channel : Z) (e : ScheduledEvent) : bool :=
  match channelOf (midi e) with
  | Some c => negb (c =? channel)
  | None => true
  end.

Definition removeScheduledEvents (channel : Z) (s : t) : t :=
  {| scheduledEvents := List.filter (onOtherChannel channel) (scheduledEvents s);
     scheduledReverbEvents := scheduledReverbEvents s;
     currentEvents := List.filter (onOtherChannel channel) (currentEvents s);
     currentReverbEvents := currentReverbEvents s |}.

(** The first [while (true)] loop of [processScheduledEvents]: the due
    events at the head of [scheduledEvents] move to the end of
    [currentEvents]. *)
Fixpoint popDue (currentFrame : Z) (scheduled current : list ScheduledEvent)
    : list ScheduledEvent * list ScheduledEvent :=
  match scheduled with
  | [] => ([], current)
  | e :: rest =>
      if scheduledFrame e >? currentFrame then (scheduled, current)
      else popDue currentFrame rest (current ++ [e])
  end.

(** The scheduler lives inside the object its callbacks mutate: [W] is
    that object, [this] reads the scheduler out of it and [setThis]
    writes it back. *)
Section Callbacks.
Context {W : Type}.
Variable this : W -> t.
Variable setThis : t -> W -> W.
Variable onImmediateEvent : SynthEvent -> W -> W.
Variable onDelayableEvent : AnyEvent -> W -> W.

Definition addEvent (currentFrame : Z) (e : SynthEvent) (w : W) : W :=
  match e with
  | ReverbControlEvent a d =>
      if d >? 0 then
        let s := this w in
        let item := {| amount := a; reverbDelayTime := d;
                       reverbScheduledFrame := currentFrame + d |} in
        setThis {| scheduledEvents := scheduledEvents s;
                   scheduledReverbEvents :=
                     insertSorted reverbScheduledFrame (scheduledReverbEvents s) item;
                   currentEvents := currentEvents s;
                   currentReverbEvents := currentReverbEvents s |} w
      else onImmediateEvent e w
  | MIDIEvent m d n =>
      let s := this w in
      let item := {| midi := m; delayTime := d; sequenceNumber := n;
                     scheduledFrame := currentFrame + d |} in
      setThis {| scheduledEvents := insertSorted scheduledFrame (scheduledEvents s) item;
                 scheduledReverbEvents := scheduledReverbEvents s;
                 currentEvents := currentEvents s;
                 currentReverbEvents := currentReverbEvents s |} w
  | _ => onImmediateEvent e w
  end.

(** The loop over [scheduledReverbEvents].  [fuel] bounds the number of
    turns; the length of the queue on entry is enough when the callback
    leaves the queue alone. *)
Fixpoint processReverbEvents (fuel : nat) (currentFrame : Z) (w : W) : W :=
  match fuel with
  | O => w
  | S fuel' =>
      let s := this w in
      match scheduledReverbEvents s with
      | [] => w
      | e :: rest =>
          if reverbScheduledFrame e >? currentFrame then w
          else
            let shifted := setThis {| scheduledEvents := scheduledEvents s;
                                      scheduledReverbEvents := rest;
                                      currentEvents := currentEvents s;
                                      currentReverbEvents := currentReverbEvents s |} w in
            processReverbEvents fuel' currentFrame
              (onImmediateEvent (ReverbControlEvent (amount e) (reverbDelayTime e)) shifted)
      end
  end.

(** The last loop: [currentEvents.shift()] and dispatch, until the
    batch is empty.  The second component lists the scheduled events
    whose payload went to [onDelayableEvent], in order. *)
Fixpoint dispatchCurrent (fuel : nat) (w : W) : W * list ScheduledEvent :=
  match fuel with
  | O => (w, [])
  | S fuel' =>
      let s := this w in
      match currentEvents s with
      | [] => (w, [])
      | e :: rest =>
          let shifted := setThis {| scheduledEvents := scheduledEvents s;
                                    scheduledReverbEvents := scheduledReverbEvents s;
                                    currentEvents := rest;
                                    currentReverbEvents := currentReverbEvents s |} w in
          let '(w', dispatched) := dispatchCurrent fuel' (onDelayableEvent (midi e) shifted) in
          (w', e :: dispatched)
      end
  end.

Definition processScheduledEvents (currentFrame : Z) (w : W) : W * list ScheduledEvent :=
  let w1 := processReverbEvents (length (scheduledReverbEvents (this w))) currentFrame w in
  let s := this w1 in
  match scheduledEvents s with
  | [] => (w1, [])
  | _ :: _ =>
      let '(scheduled, current) := popDue currentFrame (scheduledEvents s) (currentEvents s) in
      let batch := sort sortEvents current in
      let w2 := setThis {| scheduledEvents := scheduled;
                           scheduledReverbEvents := scheduledReverbEvents s;
                           currentEvents := batch;
                           currentReverbEvents := currentReverbEvents s |} w1 in
      dispatchCurrent (length batch) w2
  end.

End Callbacks.

End SynthEventScheduler.

(** ** AmplitudeEnvelope *)

Module EnvelopePhase.
Inductive t : Type := attack | hold | decay | sustain | release | forceStop | stopped.

Definition eqb (a b : t) : bool :=
  match a, b with
  | attack, attack | hold, hold | decay, decay | sustain, sustain
  | release, release | forceStop, forceStop | stopped, stopped => true
  | _, _ => false
  end.
End EnvelopePhase.

Definition forceStopReleaseTime : Q := 1 # 10.

Module AmplitudeEnvelope.

Record t : Type := {
  parameter : AmplitudeEnvelopeParameter;
  _phase : EnvelopePhase.t;
  isNoteOff : bool;
  phaseTime : Q;
  decayLevel : Q;
  lastAmplitude : Q;
  sampleRate : Q
}.

Definition new (p : AmplitudeEnvelopeParameter) (rate : Q) : t :=
  {| parameter := p; _phase := EnvelopePhase.stopped; isNoteOff := false;
     phaseTime := 0; decayLevel := 0; lastAmplitude := 0; sampleRate := rate |}.

Definition phase (env : t) : EnvelopePhase.t := _phase env.

(** [set phase(phase)]: a change of phase resets [phaseTime]. *)
Definition setPhase (p : EnvelopePhase.t) (env : t) : t :=
  if EnvelopePhase.eqb (_phase env) p then env
  else {| parameter := parameter env; _phase := p; isNoteOff := isNoteOff env;
          phaseTime := 0; decayLevel := decayLevel env;
          lastAmplitude := lastAmplitude env; sampleRate := sampleRate env |}.

Definition noteOn (env : t) : t :=
  let env1 := setPhase EnvelopePhase.attack env in
  {| parameter := parameter env1; _phase := _phase env1; isNoteOff := false;
     phaseTime := 0; decayLevel := sustainLevel (parameter env1);
     lastAmplitude := lastAmplitude env1; sampleRate := sampleRate env1 |}.

Definition noteOff (env : t) : t :=
  {| parameter := parameter env; _phase := _phase env; isNoteOff := true;
     phaseTime := phaseTime env; decayLevel := decayLevel env;
     lastAmplitude := lastAmplitude env; sampleRate := sampleRate env |}.

Definition forceStop (env : t) : t := setPhase EnvelopePhase.forceStop env.

Section WithMath.
Context {M : MathOps}.

Definition linearToDecibel (value : Q) : Q := (20 * Math_log10 value)%Q.
Definition decibelToLinear (value : Q) : Q := Math_pow 10 (value / 20)%Q.
Definition logAttenuation (fromLevel attenuationDecibel duration time : Q) : Q :=
  (fromLevel * decibelToLinear ((attenuationDecibel / duration) * time))%Q.

(** Returns the envelope after the phase changes of the call, and the
    amplitude. *)
Definition calculateAmplitude (bufferSize : Z) (env0 : t) : t * Q :=
  let p := parameter env0 in
  let rate := sampleRate env0 in
  let env :=
    if isNoteOff env0 &&
       (EnvelopePhase.eqb (phase env0) EnvelopePhase.decay ||
        EnvelopePhase.eqb (phase env0) EnvelopePhase.sustain)
    then
      let env1 := setPhase EnvelopePhase.release env0 in
      {| parameter := parameter env1; _phase := _phase env1;
         isNoteOff := isNoteOff env1; phaseTime := phaseTime env1;
         decayLevel := lastAmplitude env1;
         lastAmplitude := lastAmplitude env1; sampleRate := sampleRate env1 |}
    else env0 in
  match phase env with
  | EnvelopePhase.attack =>
      let amplificationPerFrame := ((1 / (attackTime p * rate)) * inject_Z bufferSize)%Q in
      let value := (lastAmplitude env + amplificationPerFrame)%Q in
      if Qle_bool 1 value then (setPhase EnvelopePhase.hold env, 1%Q)
      else (env, value)
  | EnvelopePhase.hold =>
      if Qle_bool (holdTime p) (phaseTime env)
      then (setPhase EnvelopePhase.decay env, lastAmplitude env)
      else (env, lastAmplitude env)
  | EnvelopePhase.decay =>
      let attenuationDecibel := linearToDecibel (sustainLevel p / 1)%Q in
      let value := logAttenuation 1 attenuationDecibel (decayTime p) (phaseTime env) in
      if negb (Qle_bool (phaseTime env) (decayTime p)) then
        if Qle_bool (sustainLevel p) 0 then (setPhase EnvelopePhase.stopped env, 0%Q)
        else (setPhase EnvelopePhase.sustain env, sustainLevel p)
      else (env, value)
  | EnvelopePhase.sustain => (env, sustainLevel p)
  | EnvelopePhase.release =>
      let value := logAttenuation (decayLevel env) (-100) (releaseTime p) (phaseTime env) in
      if negb (Qle_bool (phaseTime env) (releaseTime p)) || Qle_bool value 0
      then (setPhase EnvelopePhase.stopped env, 0%Q)
      else (env, value)
  | EnvelopePhase.forceStop =>
      let attenuationPerFrame :=
        ((1 / (forceStopReleaseTime * rate)) * inject_Z bufferSize)%Q in
      let value := (lastAmplitude env - attenuationPerFrame)%Q in
      if Qle_bool value 0 then (setPhase EnvelopePhase.stopped env, 0%Q)
      else (env, value)
  | EnvelopePhase.stopped => (env, 0%Q)
  end.

(** The [sampleRate] of the last statement is not [this.sampleRate]: it
    is looked up in the global scope. *)
Definition getAmplitude (host : Host) (bufferSize : Z) (env : t) : Result (t * Q) :=
  let '(env1, value) := calculateAmplitude bufferSize env in
  match hostSampleRate host with
  | None => Throw (ReferenceError "sampleRate")
  | Some globalRate =>
      Ok ({| parameter := parameter env1; _phase := _phase env1;
             isNoteOff := isNoteOff env1;
             phaseTime := (phaseTime env1 + inject_Z bufferSize / globalRate)%Q;
             decayLevel := decayLevel env1;
             lastAmplitude := value; sampleRate := sampleRate env1 |}, value)
  end.

End WithMath.

Definition isPlaying (env : t) : bool :=
  negb (EnvelopePhase.eqb (phase env) EnvelopePhase.stopped).

End AmplitudeEnvelope.

(** ** The amplitude envelope over binary64

    The numbers of the bundle are binary64 floating-point numbers.  The
    class [AmplitudeEnvelope] is embedded here a second time over them,
    operation for operation, for what rounding does to the amplitudes. *)

Module Binary64.
Import PrimFloat.
#[local] Set Warnings "-inexact-float".
#[local] Open Scope float_scope.

Record Host : Type := { hostSampleRate : option float }.

Definition audioWorkletScope (rate : float) : Host := {| hostSampleRate := Some rate |}.

Class MathOps : Type := {
  Math_pow : float -> float -> float;
  Math_log10 : float -> float
}.

Record AmplitudeEnvelopeParameter : Type := {
  attackTime : float;
  holdTime : float;
  decayTime : float;
  sustainLevel : float;
  releaseTime : float
}.

Definition forceStopReleaseTime : float := 0.1.

Module AmplitudeEnvelope.

Record t : Type := {
  parameter : AmplitudeEnvelopeParameter;
  _phase : EnvelopePhase.t;
  isNoteOff : bool;
  phaseTime : float;
  decayLevel : float;
  lastAmplitude : float;
  sampleRate : float
}.

Definition new (p : AmplitudeEnvelopeParameter) (rate : float) : t :=
  {| parameter := p; _phase := EnvelopePhase.stopped; isNoteOff := false;
     phaseTime := 0; decayLevel := 0; lastAmplitude := 0; sampleRate := rate |}.

Definition phase (env : t) : EnvelopePhase.t := _phase env.

Definition setPhase (p : EnvelopePhase.t) (env : t) : t :=
  if EnvelopePhase.eqb (_phase env) p then env
  else {| parameter := parameter env; _phase := p; isNoteOff := isNoteOff env;
          phaseTime := 0; decayLevel := decayLevel env;
          lastAmplitude := lastAmplitude env; sampleRate := sampleRate env |}.

Definition noteOn (env : t) : t :=
  let env1 := setPhase EnvelopePhase.attack env in
  {| parameter := parameter env1; _phase := _phase env1; isNoteOff := false;
     phaseTime := 0; decayLevel := sustainLevel (parameter env1);
     lastAmplitude := lastAmplitude env1; sampleRate := sampleRate env1 |}.

Definition noteOff (env : t) : t :=
  {| parameter := parameter env; _phase := _phase env; isNoteOff := true;
     phaseTime := phaseTime env; decayLevel := decayLevel env;
     lastAmplitude := lastAmplitude env; sampleRate := sampleRate env |}.

Definition forceStop (env : t) : t := setPhase EnvelopePhase.forceStop env.

Section WithMath.
Context {M : MathOps}.

Definition linearToDecibel (value : float) : float := 20 * Math_log10 value.
Definition decibelToLinear (value : float) : float := Math_pow 10 (value / 20).
Definition logAttenuation (fromLevel attenuationDecibel duration time : float) : float :=
  fromLevel * decibelToLinear ((attenuationDecibel / duration) * time).

Definition calculateAmplitude (bufferSize : float) (env0 : t) : t * float :=
  let p := parameter env0 in
  let rate := sampleRate env0 in
  let env :=
    if isNoteOff env0 &&
       (EnvelopePhase.eqb (phase env0) EnvelopePhase.decay ||
        EnvelopePhase.eqb (phase env0) EnvelopePhase.sustain)
    then
      let env1 := setPhase EnvelopePhase.release env0 in
      {| parameter := parameter env1; _phase := _phase env1;
         isNoteOff := isNoteOff env1; phaseTime := phaseTime env1;
         decayLevel := lastAmplitude env1;
         lastAmplitude := lastAmplitude env1; sampleRate := sampleRate env1 |}
    else env0 in
  match phase env with
  | EnvelopePhase.attack =>
      let amplificationPerFrame := (1 / (attackTime p * rate)) * bufferSize in
      let value := lastAmplitude env + amplificationPerFrame in
      if 1 <=? value then (setPhase EnvelopePhase.hold env, 1)
      else (env, value)
  | EnvelopePhase.hold =>
      if holdTime p <=? phaseTime env
      then (setPhase EnvelopePhase.decay env, lastAmplitude env)
      else (env, lastAmplitude env)
  | EnvelopePhase.decay =>
      let attenuationDecibel := linearToDecibel (sustainLevel p / 1) in
      let value := logAttenuation 1 attenuationDecibel (decayTime p) (phaseTime env) in
      if decayTime p <? phaseTime env then
        if sustainLevel p <=? 0 then (setPhase EnvelopePhase.stopped env, 0)
        else (setPhase EnvelopePhase.sustain env, sustainLevel p)
      else (env, value)
  | EnvelopePhase.sustain => (env, sustainLevel p)
  | EnvelopePhase.release =>
      let value := logAttenuation (decayLevel env) (-100) (releaseTime p) (phaseTime env) in
      if (releaseTime p <? phaseTime env) || (value <=? 0)
      then (setPhase EnvelopePhase.stopped env, 0)
      else (env, value)
  | EnvelopePhase.forceStop =>
      let attenuationPerFrame := (1 / (forceStopReleaseTime * rate)) * bufferSize in
      let value := lastAmplitude env - attenuationPerFrame in
      if value <=? 0 then (setPhase EnvelopePhase.stopped env, 0)
      else (env, value)
  | EnvelopePhase.stopped => (env, 0)
  end.

Definition getAmplitude (host : Host) (bufferSize : float) (env : t) : Result (t * float) :=
  let '(env1, value) := calculateAmplitude bufferSize env in
  match hostSampleRate host with
  | None => Throw (ReferenceError "sampleRate")
  | Some globalRate =>
      Ok ({| parameter := parameter env1; _phase := _phase env1;
             isNoteOff := isNoteOff env1;
             phaseTime := phaseTime env1 + bufferSize / globalRate;
             decayLevel := decayLevel env1;
             lastAmplitude := value; sampleRate := sampleRate env1 |}, value)
  end.

End WithMath.

Definition isPlaying (env : t) : bool :=
  negb (EnvelopePhase.eqb (phase env) EnvelopePhase.stopped).

End AmplitudeEnvelope.

(** [n] successive calls of [getAmplitude(bufferSize)]: the envelope after
    them and the amplitudes they return, oldest first. *)
Fixpoint getAmplitudes {M : MathOps} (host : Host) (bufferSize : float) (n : nat)
    (env : AmplitudeEnvelope.t) : Result (AmplitudeEnvelope.t * list float) :=
  match n with
  | O => Ok (env, [])
  | S n' =>
      try! (env1, value) <- AmplitudeEnvelope.getAmplitude host bufferSize env;
      try! (env2, values) <- getAmplitudes host bufferSize n' env1;
      Ok (env2, value :: values)
  end.

End Binary64.

(** ** LFO *)

Module LFO.

Record t : Type := {
  frequency : Q;
  phase : Q;
  sampleRate : Q
}.

Definition new (rate : Q) : t := {| frequency := 5; phase := 0; sampleRate := rate |}.

Definition setFrequency (f : Q) (lfo : t) : t :=
  {| frequency := f; phase := phase lfo; sampleRate := sampleRate lfo |}.

Definition getValue {M : MathOps} (bufferSize : Z) (lfo : t) : t * Q :=
  ({| frequency := frequency lfo;
      phase := (phase lfo +
                ((Math_PI * 2 * frequency lfo) / sampleRate lfo) * inject_Z bufferSize)%Q;
      sampleRate := sampleRate lfo |},
   Math_sin (phase lfo)).

End LFO.

(** ** WavetableOscillator *)

(** A stereo pair of [Float32Array]s. *)
Definition Outputs : Type := (list Q * list Q)%type.

(** [arr[i] += x]; an index outside a typed array is ignored. *)
Definition addAt (i : nat) (x : Q) (arr : list Q) : list Q :=
  alter (fun y => (y + x)%Q) i arr.

(** [arr[i] = x], with the same rule. *)
Definition writeAt (i : Z) (x : Q) (arr : list Q) : list Q :=
  if i <? 0 then arr else <[Z.to_nat i := x]> arr.

(** [arr[i]] for a typed array.  A read outside the array gives NaN in
    JavaScript, which the rationals do not have: it reads 0. *)
Definition readAt (data : list Q) (i : Z) : Q :=
  if i <? 0 then 0%Q else nth (Z.to_nat i) data 0%Q.

Module WavetableOscillator.

Record t : Type := {
  sample : Sample;
  sampleIndex : Q;
  _isPlaying : bool;
  _isNoteOff : bool;
  baseSpeed : Q;
  envelope : AmplitudeEnvelope.t;
  pitchLFO : LFO.t;
  sampleRate : Q;
  speed : Q;
  velocity : Q;
  volume : Q;
  modulation : Q;
  modulationDepthRange : Q;
  pan : Q;
  isHold : bool
}.

Definition new (s : Sample) (rate : Q) : t :=
  {| sample := s; sampleIndex := 0; _isPlaying := false; _isNoteOff := false;
     baseSpeed := 1;
     envelope := AmplitudeEnvelope.new (SampleParameter.amplitudeEnvelope (sampleParameter s)) rate;
     pitchLFO := LFO.new rate; sampleRate := rate; speed := 1; velocity := 1;
     volume := 1; modulation := 0; modulationDepthRange := 50; pan := 0;
     isHold := false |}.

Definition setEnvelope (env : AmplitudeEnvelope.t) (osc : t) : t :=
  {| sample := sample osc; sampleIndex := sampleIndex osc; _isPlaying := _isPlaying osc;
     _isNoteOff := _isNoteOff osc; baseSpeed := baseSpeed osc; envelope := env;
     pitchLFO := pitchLFO osc; sampleRate := sampleRate osc; speed := speed osc;
     velocity := velocity osc; volume := volume osc; modulation := modulation osc;
     modulationDepthRange := modulationDepthRange osc; pan := pan osc;
     isHold := isHold osc |}.

Definition setPitchLFO (lfo : LFO.t) (osc : t) : t :=
  {| sample := sample osc; sampleIndex := sampleIndex osc; _isPlaying := _isPlaying osc;
     _isNoteOff := _isNoteOff osc; baseSpeed := baseSpeed osc; envelope := envelope osc;
     pitchLFO := lfo; sampleRate := sampleRate osc; speed := speed osc;
     velocity := velocity osc; volume := volume osc; modulation := modulation osc;
     modulationDepthRange := modulationDepthRange osc; pan := pan osc;
     isHold := isHold osc |}.

(** [this.sampleIndex = index] and [this._isPlaying = playing]. *)
Definition setPointer (index : Q) (playing : bool) (osc : t) : t :=
  {| sample := sample osc; sampleIndex := index; _isPlaying := playing;
     _isNoteOff := _isNoteOff osc; baseSpeed := baseSpeed osc; envelope := envelope osc;
     pitchLFO := pitchLFO osc; sampleRate := sampleRate osc; speed := speed osc;
     velocity := velocity osc; volume := volume osc; modulation := modulation osc;
     modulationDepthRange := modulationDepthRange osc; pan := pan osc;
     isHold := isHold osc |}.

Definition setIsNoteOff (flag : bool) (osc : t) : t :=
  {| sample := sample osc; sampleIndex := sampleIndex osc; _isPlaying := _isPlaying osc;
     _isNoteOff := flag; baseSpeed := baseSpeed osc; envelope := envelope osc;
     pitchLFO := pitchLFO osc; sampleRate := sampleRate osc; speed := speed osc;
     velocity := velocity osc; volume := volume osc; modulation := modulation osc;
     modulationDepthRange := modulationDepthRange osc; pan := pan osc;
     isHold := isHold osc |}.

Definition setIsHold (flag : bool) (osc : t) : t :=
  {| sample := sample osc; sampleIndex := sampleIndex osc; _isPlaying := _isPlaying osc;
     _isNoteOff := _isNoteOff osc; baseSpeed := baseSpeed osc; envelope := envelope osc;
     pitchLFO := pitchLFO osc; sampleRate := sampleRate osc; speed := speed osc;
     velocity := velocity osc; volume := volume osc; modulation := modulation osc;
     modulationDepthRange := modulationDepthRange osc; pan := pan osc;
     isHold := flag |}.

(** The four assignments the core makes before it renders a voice. *)
Definition setChannelControls (newSpeed newVolume newPan newModulation : Q) (osc : t) : t :=
  {| sample := sample osc; sampleIndex := sampleIndex osc; _isPlaying := _isPlaying osc;
     _isNoteOff := _isNoteOff osc; baseSpeed := baseSpeed osc; envelope := envelope osc;
     pitchLFO := pitchLFO osc; sampleRate := sampleRate osc; speed := newSpeed;
     velocity := velocity osc; volume := newVolume; modulation := newModulation;
     modulationDepthRange := modulationDepthRange osc; pan := newPan;
     isHold := isHold osc |}.

Definition noteOn {M : MathOps} (notePitch : Z) (noteVelocity : Q) (osc : t) : t :=
  let p := sampleParameter (sample osc) in
  {| sample := sample osc;
     sampleIndex := inject_Z (SampleParameter.sampleStart p);
     _isPlaying := true;
     _isNoteOff := _isNoteOff osc;
     baseSpeed := Math_pow 2 (((inject_Z notePitch - SampleParameter.pitch p) / 12) * SampleParameter.scaleTuning p)%Q;
     envelope := AmplitudeEnvelope.noteOn (envelope osc);
     pitchLFO := LFO.setFrequency 5 (pitchLFO osc);
     sampleRate := sampleRate osc; speed := speed osc;
     velocity := noteVelocity; volume := volume osc; modulation := modulation osc;
     modulationDepthRange := modulationDepthRange osc; pan := pan osc;
     isHold := isHold osc |}.

Definition noteOff (osc : t) : t :=
  setIsNoteOff true (setEnvelope (AmplitudeEnvelope.noteOff (envelope osc)) osc).

Definition forceStop (osc : t) : t :=
  setEnvelope (AmplitudeEnvelope.forceStop (envelope osc)) osc.

Definition isPlaying (osc : t) : bool :=
  _isPlaying osc && AmplitudeEnvelope.isPlaying (envelope osc).

Definition isNoteOff (osc : t) : bool := _isNoteOff osc.

Definition exclusiveClass (osc : t) : option Z :=
  SampleParameter.exclusiveClass (sampleParameter (sample osc)).

(** The test that guards the wrap, without its last conjunct. *)
Definition loopEnabled (osc : t) : bool :=
  match loop_type (SampleParameter.loop (sampleParameter (sample osc))) with
  | loop_continuous => true
  | loop_sustain => negb (_isNoteOff osc)
  | no_loop => false
  end.

(** [loopIndex]: [Some] where the source assigns it, [None] for [null]. *)
Definition loopIndexOf (osc : t) (advancedIndex : Q) : option Q :=
  let lp := SampleParameter.loop (sampleParameter (sample osc)) in
  if loopEnabled osc && Qle_bool (inject_Z (loop_end lp)) advancedIndex
  then Some (inject_Z (loop_start lp) + (advancedIndex - inject_Z (Qfloor advancedIndex)))%Q
  else None.

(** One turn of the [for] loop of [process], for the frame [i].  The
    boolean is [false] when the turn ends in [break]. *)
Definition processFrame (modulatedSpeed leftGain rightGain : Q) (i : nat)
    (osc : t) (outputs : Outputs) : t * Outputs * bool :=
  let p := sampleParameter (sample osc) in
  let index := Qfloor (sampleIndex osc) in
  let advancedIndex := (sampleIndex osc + modulatedSpeed)%Q in
  let loopIndex := loopIndexOf osc advancedIndex in
  let nextIndex :=
    match loopIndex with
    | Some wrapped => Qfloor wrapped
    | None => Z.min (index + 1) (SampleParameter.sampleEnd p - 1)
    end in
  let current := readAt (buffer (sample osc)) index in
  let next := readAt (buffer (sample osc)) nextIndex in
  let level := (current + (next - current) * (sampleIndex osc - inject_Z index))%Q in
  let outputs' := (addAt i (level * leftGain)%Q (fst outputs),
                   addAt i (level * rightGain)%Q (snd outputs)) in
  let newIndex := default advancedIndex loopIndex in
  if Qle_bool (inject_Z (SampleParameter.sampleEnd p)) newIndex
  then (setPointer newIndex false osc, outputs', false)
  else (setPointer newIndex (_isPlaying osc) osc, outputs', true).

(** The [for] loop from frame [i], for [count] more frames at most. *)
Fixpoint processFrames (modulatedSpeed leftGain rightGain : Q) (count i : nat)
    (osc : t) (outputs : Outputs) : t * Outputs :=
  match count with
  | O => (osc, outputs)
  | S count' =>
      let '(osc', outputs', continue) :=
        processFrame modulatedSpeed leftGain rightGain i osc outputs in
      if continue
      then processFrames modulatedSpeed leftGain rightGain count' (S i) osc' outputs'
      else (osc', outputs')
  end.

Definition process {M : MathOps} (host : Host) (osc : t) (outputs : Outputs)
    : Result (t * Outputs) :=
  if negb (_isPlaying osc) then Ok (osc, outputs)
  else
    let p := sampleParameter (sample osc) in
    let frameCount := length (fst outputs) in
    let bufferSize := Z.of_nat frameCount in
    let playSpeed :=
      ((baseSpeed osc * speed osc * SampleParameter.sampleRate p) / sampleRate osc)%Q in
    let gainOfVolume :=
      (((velocity osc * volume osc) * (velocity osc * volume osc))
       * SampleParameter.volume p)%Q in
    let panTheta :=
      (((Qmin 1 (Qmax (-1) (pan osc + SampleParameter.pan p)) + 1) * Math_PI) / 4)%Q in
    let leftPanVolume := Math_cos panTheta in
    let rightPanVolume := Math_sin panTheta in
    try! (env, gain) <- AmplitudeEnvelope.getAmplitude host bufferSize (envelope osc);
    let leftGain := (gain * gainOfVolume * leftPanVolume)%Q in
    let rightGain := (gain * gainOfVolume * rightPanVolume)%Q in
    let '(lfo, pitchLFOValue) := LFO.getValue bufferSize (pitchLFO osc) in
    let pitchModulation :=
      (pitchLFOValue * modulation osc * (modulationDepthRange osc / 1200))%Q in
    let modulatedSpeed := (playSpeed * (1 + pitchModulation))%Q in
    Ok (processFrames modulatedSpeed leftGain rightGain frameCount 0
          (setPitchLFO lfo (setEnvelope env osc)) outputs).

End WavetableOscillator.

(** ** ReverbProcessor *)

Module ReverbProcessor.

Record t : Type := {
  sampleRate : Q;
  delayLines : list (list Q);
  delayIndices : list Z;
  delayTimes : list Z;
  feedbacks : list Q;
  gains : list Q;
  wetLevel : Q;
  dryLevel : Q
}.

Definition new (rate : Q) : t :=
  let delayTimesMs := [19; 29; 41; 53; 67; 79; 97; 113] in
  let times := map (fun ms => Qfloor ((inject_Z ms * rate) / 1000)%Q) delayTimesMs in
  {| sampleRate := rate;
     delayLines := map (fun delayTime => replicate (Z.to_nat delayTime) 0%Q) times;
     delayIndices := replicate (length times) 0;
     delayTimes := times;
     feedbacks := [7 # 10; 65 # 100; 6 # 10; 55 # 100; 5 # 10; 45 # 100; 4 # 10; 35 # 100]%Q;
     gains := [8 # 10; 75 # 100; 7 # 10; 65 # 100; 6 # 10; 55 # 100; 5 # 10; 45 # 100]%Q;
     wetLevel := 0;
     dryLevel := 1 |}.

Definition setReverb (amount : Q) (r : t) : t :=
  let wet := Qmax 0 (Qmin 1 amount) in
  {| sampleRate := sampleRate r; delayLines := delayLines r;
     delayIndices := delayIndices r; delayTimes := delayTimes r;
     feedbacks := feedbacks r; gains := gains r;
     wetLevel := wet;
     dryLevel := (1 - wet * (7 # 10))%Q |}.

(** The body of the loop over the delay lines, for the line [d]: the
    state is the delay lines, their indices and [reverbSample]. *)
Definition tap (r : t) (inputSample : Q) (st : list (list Q) * list Z * Q) (d : nat)
    : list (list Q) * list Z * Q :=
  let '(lines, indices, reverbSample) := st in
  let delayLine := nth d lines [] in
  let delayIndex := nth d indices 0 in
  let delayTime := nth d (delayTimes r) 0 in
  let delayedSample := readAt delayLine delayIndex in
  let written :=
    writeAt delayIndex (inputSample + delayedSample * nth d (feedbacks r) 0)%Q delayLine in
  (<[d := written]> lines,
   <[d := (delayIndex + 1) mod delayTime]> indices,
   (reverbSample + delayedSample * nth d (gains r) 0)%Q).

(** The body of the loop over the frames, for the frame [i]. *)
Definition processSample (leftInput rightInput : list Q) (st : t * Outputs) (i : nat)
    : t * Outputs :=
  let '(r, (leftOutput, rightOutput)) := st in
  let inputSample :=
    ((readAt leftInput (Z.of_nat i) + readAt rightInput (Z.of_nat i)) * (1 # 2))%Q in
  let '(lines, indices, summed) :=
    fold_left (tap r inputSample) (seq 0 (length (delayLines r)))
      (delayLines r, delayIndices r, 0%Q) in
  let reverbSample := (summed * (3 # 10))%Q in
  let dryLeft := (readAt leftInput (Z.of_nat i) * dryLevel r)%Q in
  let dryRight := (readAt rightInput (Z.of_nat i) * dryLevel r)%Q in
  let wetLeft := (reverbSample * wetLevel r)%Q in
  let wetRight := (reverbSample * wetLevel r)%Q in
  ({| sampleRate := sampleRate r; delayLines := lines; delayIndices := indices;
      delayTimes := delayTimes r; feedbacks := feedbacks r; gains := gains r;
      wetLevel := wetLevel r; dryLevel := dryLevel r |},
   (<[i := (dryLeft + wetLeft)%Q]> leftOutput,
    <[i := (dryRight + wetRight)%Q]> rightOutput)).

Definition process (r : t) (leftInput rightInput : list Q) (outputs : Outputs)
    : t * Outputs :=
  fold_left (processSample leftInput rightInput) (seq 0 (length leftInput)) (r, outputs).

End ReverbProcessor.

(** ** Channel state *)

Module MIDIControlEvents.
Definition MSB_BANK : Z := 0x00.
Definition MSB_MODWHEEL : Z := 0x01.
Definition MSB_DATA_ENTRY : Z := 0x06.
Definition MSB_MAIN_VOLUME : Z := 0x07.
Definition MSB_PAN : Z := 0x0a.
Definition MSB_EXPRESSION : Z := 0x0b.
Definition LSB_BANK : Z := 0x20.
Definition LSB_DATA_ENTRY : Z := 0x26.
Definition SUSTAIN : Z := 0x40.
Definition NONREG_PARM_NUM_LSB : Z := 0x62.
Definition NONREG_PARM_NUM_MSB : Z := 0x63.
Definition REGIST_PARM_NUM_LSB : Z := 0x64.
Definition REGIST_PARM_NUM_MSB : Z := 0x65.
Definition ALL_SOUNDS_OFF : Z := 0x78.
Definition RESET_CONTROLLERS : Z := 0x79.
Definition ALL_NOTES_OFF : Z := 0x7b.
End MIDIControlEvents.

Module ChannelState.

Record t : Type := {
  volume : Q;
  bank : Z;
  instrument : Z;
  pitchBend : Q;
  pitchBendSensitivity : Q;
  oscillators : gmap Z (list WavetableOscillator.t);
  expression : Q;
  pan : Q;
  modulation : Q;
  hold : bool
}.

Definition initialChannelState : t :=
  {| volume := 1; bank := 0; instrument := 0; pitchBend := 0;
     pitchBendSensitivity := 2; oscillators := ∅; expression := 1; pan := 0;
     modulation := 0; hold := false |}.

Definition setVolume (x : Q) (r : t) : t :=
  {| volume := x; bank := bank r; instrument := instrument r;
     pitchBend := pitchBend r; pitchBendSensitivity := pitchBendSensitivity r;
     oscillators := oscillators r; expression := expression r; pan := pan r;
     modulation := modulation r; hold := hold r |}.

Definition setBank (x : Z) (r : t) : t :=
  {| volume := volume r; bank := x; instrument := instrument r;
     pitchBend := pitchBend r; pitchBendSensitivity := pitchBendSensitivity r;
     oscillators := oscillators r; expression := expression r; pan := pan r;
     modulation := modulation r; hold := hold r |}.

Definition setInstrument (x : Z) (r : t) : t :=
  {| volume := volume r; bank := bank r; instrument := x; pitchBend := pitchBend r;
     pitchBendSensitivity := pitchBendSensitivity r; oscillators := oscillators r;
     expression := expression r; pan := pan r; modulation := modulation r;
     hold := hold r |}.

Definition setPitchBend (x : Q) (r : t) : t :=
  {| volume := volume r; bank := bank r; instrument := instrument r; pitchBend := x;
     pitchBendSensitivity := pitchBendSensitivity r; oscillators := oscillators r;
     expression := expression r; pan := pan r; modulation := modulation r;
     hold := hold r |}.

Definition setPitchBendSensitivity (x : Q) (r : t) : t :=
  {| volume := volume r; bank := bank r; instrument := instrument r;
     pitchBend := pitchBend r; pitchBendSensitivity := x;
     oscillators := oscillators r; expression := expression r; pan := pan r;
     modulation := modulation r; hold := hold r |}.

Definition setOscillators (x : gmap Z (list WavetableOscillator.t)) (r : t) : t :=
  {| volume := volume r; bank := bank r; instrument := instrument r;
     pitchBend := pitchBend r; pitchBendSensitivity := pitchBendSensitivity r;
     oscillators := x; expression := expression r; pan := pan r;
     modulation := modulation r; hold := hold r |}.

Definition setExpression (x : Q) (r : t) : t :=
  {| volume := volume r; bank := bank r; instrument := instrument r;
     pitchBend := pitchBend r; pitchBendSensitivity := pitchBendSensitivity r;
     oscillators := oscillators r; expression := x; pan := pan r;
     modulation := modulation r; hold := hold r |}.

Definition setPan (x : Q) (r : t) : t :=
  {| volume := volume r; bank := bank r; instrument := instrument r;
     pitchBend := pitchBend r; pitchBendSensitivity := pitchBendSensitivity r;
     oscillators := oscillators r; expression := expression r; pan := x;
     modulation := modulation r; hold := hold r |}.

Definition setModulation (x : Q) (r : t) : t :=
  {| volume := volume r; bank := bank r; instrument := instrument r;
     pitchBend := pitchBend r; pitchBendSensitivity := pitchBendSensitivity r;
     oscillators := oscillators r; expression := expression r; pan := pan r;
     modulation := x; hold := hold r |}.

Definition setHold (x : bool) (r : t) : t :=
  {| volume := volume r; bank := bank r; instrument := instrument r;
     pitchBend := pitchBend r; pitchBendSensitivity := pitchBendSensitivity r;
     oscillators := oscillators r; expression := expression r; pan := pan r;
     modulation := modulation r; hold := x |}.
(** [for (const key in state.oscillators) for (const osc of ...)] with a
    body that only updates [osc]. *)
Definition forEachOscillator (f : WavetableOscillator.t -> WavetableOscillator.t)
    (r : t) : t :=
  setOscillators (fmap (M := gmap Z) (map f) (oscillators r)) r.

End ChannelState.

Definition RHYTHM_CHANNEL : Z := 9.
Definition RHYTHM_BANK : Z := 128.

(** The keys of a dictionary in the order of [for .. in]. *)
Definition keysInOrder {V : Type} (m : gmap Z V) : list Z :=
  merge_sort Z.le (map fst (map_to_list m)).

(** A loop whose body may throw. *)
Fixpoint forEachResult {A S : Type} (body : S -> A -> Result S) (items : list A) (s : S)
    : Result S :=
  match items with
  | [] => Ok s
  | x :: rest => try! s' <- body s x; forEachResult body rest s'
  end.

(** [x << 7] on 32-bit integers. *)
Definition toInt32 (z : Z) : Z := (z + 2 ^ 31) mod 2 ^ 32 - 2 ^ 31.
Definition shiftLeft (x n : Z) : Z := toInt32 (Z.shiftl x n).

(** ** Buffer *)

(** [x >> n] and [x & y] on 32-bit integers. *)
Definition shiftRight (x n : Z) : Z := Z.shiftr (toInt32 x) n.
Definition bitAnd (x y : Z) : Z := toInt32 (Z.land (toInt32 x) (toInt32 y)).

(** [str.charCodeAt(i)] for every [i], for a string of 8-bit characters. *)
Definition toCharCodes (str : string) : list Z :=
  map (fun c => Z.of_N (Ascii.N_of_ascii c)) (list_ascii_of_string str).

Module Buffer.

Record t : Type := {
  data : list Z;
  position : Z
}.

Definition new : t := {| data := []; position := 0 |}.

Definition length (b : t) : Z := Z.of_nat (List.length (data b)).

Definition writeByte (v : Z) (b : t) : t :=
  {| data := data b ++ [v]; position := position b + 1 |}.

Definition writeBytes (arr : list Z) (b : t) : t :=
  fold_left (fun buf v => writeByte v buf) arr b.

Definition writeStr (str : string) (b : t) : t := writeBytes (toCharCodes str) b.

Definition writeInt32 (v : Z) (b : t) : t :=
  writeByte (bitAnd v 0xff)
    (writeByte (bitAnd (shiftRight v 8) 0xff)
       (writeByte (bitAnd (shiftRight v 16) 0xff)
          (writeByte (bitAnd (shiftRight v 24) 0xff) b))).

Definition writeInt16 (v : Z) (b : t) : t :=
  writeByte (bitAnd v 0xff) (writeByte (bitAnd (shiftRight v 8) 0xff) b).

(** [func] receives a new buffer and writes the chunk to it. *)
Definition writeChunk (id : string) (func : t -> t) (b : t) : t :=
  let b1 := writeStr id b in
  let chunkBuf := func new in
  let b2 := writeInt32 (length chunkBuf) b1 in
  writeBytes (data chunkBuf) b2.

(** [new Uint8Array(this.data)]: each number modulo 256. *)
Definition toBytes (b : t) : list Z := map (fun v => v mod 256) (data b).

End Buffer.

(** ** SynthProcessorCore, with the SynthEventHandler it owns *)

(** What the handler remembers of the controller events of a channel: the
    [value] of each. *)
Record RPN : Type := {
  rpnMSB : option Z;
  rpnLSB : option Z;
  dataMSB : option Z;
  dataLSB : option Z
}.

Definition noRPN : RPN := {| rpnMSB := None; rpnLSB := None; dataMSB := None; dataLSB := None |}.

Module SynthProcessorCore.

Record t : Type := {
  sampleRate : Q;
  sampleTable : SampleTable.t;
  channels : gmap Z ChannelState.t;
  eventScheduler : SynthEventScheduler.t;
  reverbProcessor : ReverbProcessor.t;
  rpnEvents : gmap Z RPN;
  bankSelectMSB : gmap Z Z
}.

Definition new (rate : Q) : t :=
  {| sampleRate := rate; sampleTable := SampleTable.empty; channels := ∅;
     eventScheduler := SynthEventScheduler.empty;
     reverbProcessor := ReverbProcessor.new rate;
     rpnEvents := ∅; bankSelectMSB := ∅ |}.

Definition setSampleTable (x : SampleTable.t) (r : t) : t :=
  {| sampleRate := sampleRate r; sampleTable := x; channels := channels r;
     eventScheduler := eventScheduler r; reverbProcessor := reverbProcessor r;
     rpnEvents := rpnEvents r; bankSelectMSB := bankSelectMSB r |}.

Definition setChannels (x : gmap Z ChannelState.t) (r : t) : t :=
  {| sampleRate := sampleRate r; sampleTable := sampleTable r; channels := x;
     eventScheduler := eventScheduler r; reverbProcessor := reverbProcessor r;
     rpnEvents := rpnEvents r; bankSelectMSB := bankSelectMSB r |}.

Definition setEventScheduler (x : SynthEventScheduler.t) (r : t) : t :=
  {| sampleRate := sampleRate r; sampleTable := sampleTable r; channels := channels r;
     eventScheduler := x; reverbProcessor := reverbProcessor r;
     rpnEvents := rpnEvents r; bankSelectMSB := bankSelectMSB r |}.

Definition setReverbProcessor (x : ReverbProcessor.t) (r : t) : t :=
  {| sampleRate := sampleRate r; sampleTable := sampleTable r; channels := channels r;
     eventScheduler := eventScheduler r; reverbProcessor := x;
     rpnEvents := rpnEvents r; bankSelectMSB := bankSelectMSB r |}.

Definition setRpnEvents (x : gmap Z RPN) (r : t) : t :=
  {| sampleRate := sampleRate r; sampleTable := sampleTable r; channels := channels r;
     eventScheduler := eventScheduler r; reverbProcessor := reverbProcessor r;
     rpnEvents := x; bankSelectMSB := bankSelectMSB r |}.

Definition setBankSelectMSB (x : gmap Z Z) (r : t) : t :=
  {| sampleRate := sampleRate r; sampleTable := sampleTable r; channels := channels r;
     eventScheduler := eventScheduler r; reverbProcessor := reverbProcessor r;
     rpnEvents := rpnEvents r; bankSelectMSB := x |}.
(** The state of a channel, created on first use. *)
Definition getChannelState (channel : Z) (core : t) : ChannelState.t * t :=
  match channels core !! channel with
  | Some state => (state, core)
  | None =>
      (ChannelState.initialChannelState,
       setChannels (<[channel := ChannelState.initialChannelState]> (channels core)) core)
  end.

(** A method that gets the state of a channel and updates it in place. *)
Definition onChannelState (channel : Z) (f : ChannelState.t -> ChannelState.t)
    (core : t) : t :=
  let '(state, core1) := getChannelState channel core in
  setChannels (<[channel := f state]> (channels core1)) core1.

Definition getSamples (channel notePitch velocity : Z) (core : t) : list Sample * t :=
  let '(state, core1) := getChannelState channel core in
  let bank := if channel =? RHYTHM_CHANNEL then RHYTHM_BANK else ChannelState.bank state in
  (SampleTable.getSamples (sampleTable core1) bank (ChannelState.instrument state)
     notePitch velocity, core1).

Definition addSample (data : list Q) (id : Z) (core : t) : t :=
  setSampleTable (SampleTable.addSample data id (sampleTable core)) core.

Definition addSampleParameter (p : SampleParameter.t) (range : SampleRange) (core : t) : t :=
  setSampleTable (SampleTable.addSampleParameter p range (sampleTable core)) core.

(** The inner test of the sweep of [noteOn]. *)
Definition stealFrom (cls : Z) (osc : WavetableOscillator.t) : WavetableOscillator.t :=
  if decide (WavetableOscillator.exclusiveClass osc = Some cls)
  then WavetableOscillator.forceStop osc
  else osc.

Section WithMath.
Context {M : MathOps}.

(** One turn of the loop of [noteOn], for the sample [s]. *)
Definition startVoice (rate : Q) (notePitch velocity : Z)
    (oscs : gmap Z (list WavetableOscillator.t)) (s : Sample)
    : gmap Z (list WavetableOscillator.t) :=
  let volume := (inject_Z velocity / 127)%Q in
  let oscillator :=
    WavetableOscillator.noteOn notePitch volume (WavetableOscillator.new s rate) in
  let oscs1 :=
    match oscs !! notePitch with
    | None => <[notePitch := []]> oscs
    | Some _ => oscs
    end in
  let oscs2 :=
    match SampleParameter.exclusiveClass (sampleParameter s) with
    | Some cls => fmap (M := gmap Z) (map (stealFrom cls)) oscs1
    | None => oscs1
    end in
  <[notePitch := default [] (oscs2 !! notePitch) ++ [oscillator]]> oscs2.

Definition noteOn (channel notePitch velocity : Z) (core : t) : t :=
  let '(state, core1) := getChannelState channel core in
  let '(samples, core2) := getSamples channel notePitch velocity core1 in
  match samples with
  | [] => core2
  | _ :: _ =>
      let oscs :=
        fold_left (startVoice (sampleRate core2) notePitch velocity) samples
          (ChannelState.oscillators state) in
      setChannels (<[channel := ChannelState.setOscillators oscs state]> (channels core2))
        core2
  end.

End WithMath.

Definition releaseOrHold (held : bool) (osc : WavetableOscillator.t)
    : WavetableOscillator.t :=
  if negb (WavetableOscillator.isNoteOff osc) then
    if held then WavetableOscillator.setIsHold true osc
    else WavetableOscillator.noteOff osc
  else osc.

Definition noteOff (channel notePitch : Z) (core : t) : t :=
  onChannelState channel (fun state =>
    match ChannelState.oscillators state !! notePitch with
    | None => state
    | Some voices =>
        ChannelState.setOscillators
          (<[notePitch := map (releaseOrHold (ChannelState.hold state)) voices]>
             (ChannelState.oscillators state)) state
    end) core.

Definition pitchBend (channel value : Z) (core : t) : t :=
  onChannelState channel (fun state =>
    ChannelState.setPitchBend
      ((inject_Z value / inject_Z 0x2000 - 1) * ChannelState.pitchBendSensitivity state)%Q
      state) core.

Definition programChange (channel value : Z) (core : t) : t :=
  onChannelState channel (ChannelState.setInstrument value) core.

Definition setPitchBendSensitivity (channel value : Z) (core : t) : t :=
  onChannelState channel (ChannelState.setPitchBendSensitivity (inject_Z value)) core.

Definition setMainVolume (channel value : Z) (core : t) : t :=
  onChannelState channel (ChannelState.setVolume (inject_Z value / 127)%Q) core.

Definition expression (channel value : Z) (core : t) : t :=
  onChannelState channel (ChannelState.setExpression (inject_Z value / 127)%Q) core.

Definition allSoundsOff (channel : Z) (core : t) : t :=
  let core1 :=
    setEventScheduler
      (SynthEventScheduler.removeScheduledEvents channel (eventScheduler core)) core in
  onChannelState channel (ChannelState.forEachOscillator WavetableOscillator.forceStop) core1.

Definition allNotesOff (channel : Z) (core : t) : t :=
  onChannelState channel (ChannelState.forEachOscillator WavetableOscillator.noteOff) core.

Definition hold (channel value : Z) (core : t) : t :=
  let held := 64 <=? value in
  onChannelState channel (fun state =>
    let state1 := ChannelState.setHold held state in
    if held then state1
    else
      ChannelState.forEachOscillator
        (fun osc => if WavetableOscillator.isHold osc then WavetableOscillator.noteOff osc
                    else osc) state1) core.

Definition setPan (channel value : Z) (core : t) : t :=
  onChannelState channel
    (ChannelState.setPan ((inject_Z value / 127 - (1 # 2)) * 2)%Q) core.

Definition bankSelect (channel value : Z) (core : t) : t :=
  onChannelState channel (ChannelState.setBank value) core.

Definition modulation (channel value : Z) (core : t) : t :=
  onChannelState channel (ChannelState.setModulation (inject_Z value / 127)%Q) core.

Definition resetChannel (channel : Z) (core : t) : t :=
  setChannels (delete channel (channels core)) core.

Definition setReverb (amount : Q) (core : t) : t :=
  setReverbProcessor (ReverbProcessor.setReverb amount (reverbProcessor core)) core.

(** *** SynthEventHandler *)

Definition updateRPN (channel : Z) (f : RPN -> RPN) (core : t) : t :=
  setRpnEvents (<[channel := f (default noRPN (rpnEvents core !! channel))]> (rpnEvents core))
    core.

Definition handleImmediateEvent (e : SynthEvent) (core : t) : t :=
  match e with
  | SampleParameterEvent p range => addSampleParameter p range core
  | LoadSampleEvent data id => addSample data id core
  | ReverbControlEvent amount _ => setReverb amount core
  | MIDIEvent _ _ _ => core
  end.

Section WithMath.
Context {M : MathOps}.

Definition handleController (channel controllerType value : Z) (core : t) : t :=
  if (controllerType =? MIDIControlEvents.NONREG_PARM_NUM_MSB)
     || (controllerType =? MIDIControlEvents.NONREG_PARM_NUM_LSB)
  then setRpnEvents (delete channel (rpnEvents core)) core
  else if controllerType =? MIDIControlEvents.REGIST_PARM_NUM_MSB then
    if value =? 127 then setRpnEvents (delete channel (rpnEvents core)) core
    else updateRPN channel (fun old =>
           {| rpnMSB := Some value; rpnLSB := rpnLSB old;
              dataMSB := dataMSB old; dataLSB := dataLSB old |}) core
  else if controllerType =? MIDIControlEvents.REGIST_PARM_NUM_LSB then
    if value =? 127 then setRpnEvents (delete channel (rpnEvents core)) core
    else updateRPN channel (fun old =>
           {| rpnMSB := rpnMSB old; rpnLSB := Some value;
              dataMSB := dataMSB old; dataLSB := dataLSB old |}) core
  else if controllerType =? MIDIControlEvents.MSB_DATA_ENTRY then
    let old := default noRPN (rpnEvents core !! channel) in
    let core1 := updateRPN channel (fun old =>
           {| rpnMSB := rpnMSB old; rpnLSB := rpnLSB old;
              dataMSB := Some value; dataLSB := dataLSB old |}) core in
    match rpnLSB old with
    | Some 0 => setPitchBendSensitivity channel value core1
    | _ => core1
    end
  else if controllerType =? MIDIControlEvents.LSB_DATA_ENTRY then
    updateRPN channel (fun old =>
      {| rpnMSB := rpnMSB old; rpnLSB := rpnLSB old;
         dataMSB := dataMSB old; dataLSB := Some value |}) core
  else if controllerType =? MIDIControlEvents.MSB_MAIN_VOLUME then
    setMainVolume channel value core
  else if controllerType =? MIDIControlEvents.MSB_EXPRESSION then
    expression channel value core
  else if controllerType =? MIDIControlEvents.ALL_SOUNDS_OFF then
    allSoundsOff channel core
  else if controllerType =? MIDIControlEvents.ALL_NOTES_OFF then
    allNotesOff channel core
  else if controllerType =? MIDIControlEvents.SUSTAIN then
    hold channel value core
  else if controllerType =? MIDIControlEvents.MSB_PAN then
    setPan channel value core
  else if controllerType =? MIDIControlEvents.MSB_MODWHEEL then
    modulation channel value core
  else if controllerType =? MIDIControlEvents.MSB_BANK then
    setBankSelectMSB (<[channel := value]> (bankSelectMSB core)) core
  else if controllerType =? MIDIControlEvents.LSB_BANK then
    match bankSelectMSB core !! channel with
    | Some msb => bankSelect channel (shiftLeft msb 7 + value) core
    | None => core
    end
  else if controllerType =? MIDIControlEvents.RESET_CONTROLLERS then
    resetChannel channel core
  else core.

Definition handleDelayableEvent (e : AnyEvent) (core : t) : t :=
  match e with
  | ChannelEvent channel body =>
      match body with
      | NoteOn noteNumber velocity => noteOn channel noteNumber velocity core
      | NoteOff noteNumber _ => noteOff channel noteNumber core
      | PitchBend value => pitchBend channel value core
      | ProgramChange value => programChange channel value core
      | Controller controllerType value => handleController channel controllerType value core
      | OtherChannelEvent => core
      end
  | NonChannelEvent => core
  end.

(** *** The methods of the core that go through the scheduler *)

Definition addEvent (currentFrame : Z) (e : SynthEvent) (core : t) : t :=
  SynthEventScheduler.addEvent eventScheduler setEventScheduler handleImmediateEvent
    currentFrame e core.

Definition processScheduledEvents (currentFrame : Z) (core : t)
    : t * list SynthEventScheduler.ScheduledEvent :=
  SynthEventScheduler.processScheduledEvents eventScheduler setEventScheduler
    handleImmediateEvent handleDelayableEvent currentFrame core.

(** The callback of [filter] in [process], over the voices of one key:
    the voices that still play, and the dry buffers. *)
Fixpoint renderVoices (host : Host) (state : ChannelState.t)
    (voices : list WavetableOscillator.t) (dry : Outputs)
    : Result (list WavetableOscillator.t * Outputs) :=
  match voices with
  | [] => Ok ([], dry)
  | oscillator :: rest =>
      let controlled :=
        WavetableOscillator.setChannelControls
          (Math_pow 2 (ChannelState.pitchBend state / 12)%Q)
          (ChannelState.volume state * ChannelState.expression state)%Q
          (ChannelState.pan state)
          (ChannelState.modulation state) oscillator in
      try! (rendered, dry1) <- WavetableOscillator.process host controlled dry;
      try! (kept, dry2) <- renderVoices host state rest dry1;
      Ok (if WavetableOscillator.isPlaying rendered then rendered :: kept else kept, dry2)
  end.

(** The loop over the keys of one channel. *)
Definition renderKey (host : Host) (st : ChannelState.t * Outputs) (key : Z)
    : Result (ChannelState.t * Outputs) :=
  let '(state, dry) := st in
  match ChannelState.oscillators state !! key with
  | None => Ok (state, dry)
  | Some voices =>
      try! (kept, dry1) <- renderVoices host state voices dry;
      Ok (ChannelState.setOscillators (<[key := kept]> (ChannelState.oscillators state))
            state, dry1)
  end.

(** The loop over the channels. *)
Definition renderChannel (host : Host) (st : gmap Z ChannelState.t * Outputs) (channel : Z)
    : Result (gmap Z ChannelState.t * Outputs) :=
  let '(chs, dry) := st in
  match chs !! channel with
  | None => Ok (chs, dry)
  | Some state =>
      try! (state1, dry1) <-
        forEachResult (renderKey host) (keysInOrder (ChannelState.oscillators state))
          (state, dry);
      Ok (<[channel := state1]> chs, dry1)
  end.

Definition process (host : Host) (currentFrame : Z) (outputs : Outputs) (core : t)
    : Result (t * Outputs) :=
  let core1 := fst (processScheduledEvents currentFrame core) in
  let dryLeft := replicate (length (fst outputs)) 0%Q in
  let dryRight := replicate (length (snd outputs)) 0%Q in
  try! (chs, dry) <-
    forEachResult (renderChannel host) (keysInOrder (channels core1))
      (channels core1, (dryLeft, dryRight));
  let '(reverb, outputs1) :=
    ReverbProcessor.process (reverbProcessor core1) (fst dry) (snd dry) outputs in
  Ok (setReverbProcessor reverb (setChannels chs core1), outputs1).

End WithMath.

End SynthProcessorCore.

(** ** renderAudio *)

Module RenderAudioOptions.
(** [cancel] reads state that the caller may change while the render
    awaits: its answer is a function of the turn [i] of the loop in which
    it is polled.  [waitForEventLoop] only suspends the render and
    [onProgress] only receives numbers; the calls of [onProgress] are
    kept in the result. *)
Record t : Type := {
  sampleRate : option Q;
  bufferSize : option Z;
  cancel : option (Z -> bool)
}.
End RenderAudioOptions.

Module AudioData.
Record t : Type := {
  length : Z;
  leftData : list Q;
  rightData : list Q;
  sampleRate : Q;
  progress : list (Z * Z)
}.
End AudioData.

(** [max(arr)]: [None] for [undefined]. *)
Definition maxOf (arr : list Z) : option Z :=
  match arr with
  | [] => None
  | first :: rest => Some (fold_left (fun m x => if x >? m then x else m) rest first)
  end.

Definition getSongLength (events : list SynthEvent) : Z :=
  default 0
    (maxOf (map (fun e => match e with MIDIEvent _ d _ => d | _ => 0 end) events)).

Definition silentTimeoutSec : Q := 5.

Definition isArrayZero (arr : list Q) : bool :=
  forallb (fun x => Qeq_bool x 0) arr.

(** [{ ...e, sequenceNumber }] *)
Definition withSequenceNumber (n : Z) (e : SynthEvent) : SynthEvent :=
  match e with
  | MIDIEvent m d _ => MIDIEvent m d n
  | _ => e
  end.

(** [target.set(source, offset)] where the source fits. *)
Definition setRange (offset : Z) (source target : list Q) : list Q :=
  take (Z.to_nat offset) target ++ source
    ++ drop (Z.to_nat offset + List.length source) target.

Section RenderAudio.
Context {M : MathOps}.

(** [list.forEach((e) => synth.addEvent({ ...e, sequenceNumber: sequenceNumber++ }))],
    at frame 0. *)
Definition addAll (events : list SynthEvent) (st : SynthProcessorCore.t * Z)
    : SynthProcessorCore.t * Z :=
  fold_left (fun '(synth, sequenceNumber) e =>
               (SynthProcessorCore.addEvent 0 (withSequenceNumber sequenceNumber e) synth,
                sequenceNumber + 1))
    events st.

(** The state of the [for] loop of [renderAudio]. *)
Record RenderState : Type := {
  synth : SynthProcessorCore.t;
  currentFrame : Z;
  leftData : list Q;
  rightData : list Q;
  reported : list (Z * Z)
}.

(** The loop from the turn [i], for [count] more turns at most. *)
Fixpoint renderLoop (host : Host) (options : RenderAudioOptions.t)
    (bufSize iterCount audioBufferSize : Z) (count : nat) (i : Z) (st : RenderState)
    : Result RenderState :=
  match count with
  | O => Ok st
  | S count' =>
      let silence := replicate (Z.to_nat bufSize) 0%Q in
      try! (synth1, buffer) <-
        SynthProcessorCore.process host (currentFrame st) (silence, silence) (synth st);
      let offset := i * bufSize in
      let st1 :=
        {| synth := synth1;
           currentFrame := currentFrame st + bufSize;
           leftData := setRange offset (fst buffer) (leftData st);
           rightData := setRange offset (snd buffer) (rightData st);
           reported := reported st |} in
      if (i >? iterCount) && isArrayZero (fst buffer) && isArrayZero (snd buffer)
      then Ok st1
      else if Z.rem i 1000 =? 0 then
        let st2 :=
          {| synth := synth st1; currentFrame := currentFrame st1;
             leftData := leftData st1; rightData := rightData st1;
             reported := reported st1 ++ [(offset, audioBufferSize)] |} in
        match RenderAudioOptions.cancel options with
        | Some cancelled =>
            if cancelled i then Throw (Error "renderAudio cancelled")
            else renderLoop host options bufSize iterCount audioBufferSize count' (i + 1) st2
        | None =>
            renderLoop host options bufSize iterCount audioBufferSize count' (i + 1) st2
        end
      else renderLoop host options bufSize iterCount audioBufferSize count' (i + 1) st1
  end.

Definition renderAudio (host : Host) (samples events : list SynthEvent)
    (options : RenderAudioOptions.t) : Result AudioData.t :=
  let sampleRate := default 44100%Q (RenderAudioOptions.sampleRate options) in
  let bufSize := default 500 (RenderAudioOptions.bufferSize options) in
  let synth0 := SynthProcessorCore.new sampleRate in
  let '(synth1, _) := addAll events (addAll samples (synth0, 0)) in
  let songLengthFrame := getSongLength events in
  let iterCount := Qceiling (inject_Z songLengthFrame / inject_Z bufSize)%Q in
  let additionalIterCount := Qceiling ((silentTimeoutSec * sampleRate) / inject_Z bufSize)%Q in
  let allIterCount := iterCount + additionalIterCount in
  let audioBufferSize := allIterCount * bufSize in
  let zeros := replicate (Z.to_nat audioBufferSize) 0%Q in
  try! final <-
    renderLoop host options bufSize iterCount audioBufferSize (Z.to_nat allIterCount) 0
      {| synth := synth1; currentFrame := 0; leftData := zeros; rightData := zeros;
         reported := [] |};
  let trimmedLeft := take (Z.to_nat (currentFrame final)) (leftData final) in
  let trimmedRight := take (Z.to_nat (currentFrame final)) (rightData final) in
  Ok {| AudioData.length := Z.of_nat (List.length trimmedLeft);
        AudioData.leftData := trimmedLeft;
        AudioData.rightData := trimmedRight;
        AudioData.sampleRate := sampleRate;
        AudioData.progress := reported final |}.

End RenderAudio.

(** * Properties *)

(** ** Typed arrays *)

Lemma readAt_lookup (data : list Q) (i : nat) (x : Q) :
  data !! i = Some x -> readAt data (Z.of_nat i) = x.
Proof.
  intros Hx. unfold readAt.
  destruct (Z.ltb_spec (Z.of_nat i) 0) as [Hneg | _]; [lia |].
  rewrite Nat2Z.id. apply nth_lookup_Some with (d := 0%Q) in Hx. exact Hx.
Qed.

(** ** ReverbProcessor *)

Section ReverbFacts.
Import ReverbProcessor.

Variables leftInput rightInput : list Q.

(** One frame writes the mix of the dry input and of some wet value at
    its own index, and nothing else in the output. *)
Lemma processSample_mix (r : t) (outs : Outputs) (i : nat) :
  let r' := fst (processSample leftInput rightInput (r, outs) i) in
  let outs' := snd (processSample leftInput rightInput (r, outs) i) in
  wetLevel r' = wetLevel r /\ dryLevel r' = dryLevel r /\
  exists reverbSample : Q,
    fst outs' =
      <[i := (readAt leftInput (Z.of_nat i) * dryLevel r + reverbSample * wetLevel r)%Q]>
        (fst outs) /\
    snd outs' =
      <[i := (readAt rightInput (Z.of_nat i) * dryLevel r + reverbSample * wetLevel r)%Q]>
        (snd outs).
Proof.
  destruct outs as [lo ro]. unfold processSample.
  destruct (fold_left _ _ _) as [[lines indices] summed]. simpl.
  repeat split; eauto.
Qed.

(** The outputs after the first [k] frames. *)
Lemma process_prefix (r : t) (outs : Outputs) (k : nat) :
  let st := fold_left (processSample leftInput rightInput) (seq 0 k) (r, outs) in
  wetLevel (fst st) = wetLevel r /\ dryLevel (fst st) = dryLevel r /\
  length (fst (snd st)) = length (fst outs) /\
  length (snd (snd st)) = length (snd outs) /\
  (forall i, (k <= i)%nat ->
     fst (snd st) !! i = fst outs !! i /\ snd (snd st) !! i = snd outs !! i) /\
  (forall i, (i < k)%nat ->
     exists reverbSample : Q,
       ((i < length (fst outs))%nat ->
        fst (snd st) !! i =
          Some (readAt leftInput (Z.of_nat i) * dryLevel r + reverbSample * wetLevel r)%Q) /\
       ((i < length (snd outs))%nat ->
        snd (snd st) !! i =
          Some (readAt rightInput (Z.of_nat i) * dryLevel r + reverbSample * wetLevel r)%Q)).
Proof.
  induction k as [| k IH].
  - simpl. repeat split; auto. intros i Hi. lia.
  - rewrite seq_S, fold_left_app. simpl.
    destruct (fold_left _ (seq 0 k) _) as [rk outsk] eqn:Hk. cbn [fst snd] in IH.
    destruct IH as (Hw & Hd & Hll & Hlr & Hrest & Hdone).
    pose proof (processSample_mix rk outsk k) as Hmix. cbv zeta in Hmix.
    destruct (processSample leftInput rightInput (rk, outsk) k) as [r' outs'].
    cbn [fst snd] in *. destruct Hmix as (Hw' & Hd' & rs & Hl & Hr).
    rewrite Hl, Hr, !length_insert, Hw', Hd'.
    rewrite Hw, Hd in Hl, Hr.
    repeat split; try congruence.
    + rewrite list_lookup_insert_ne by lia. apply Hrest. lia.
    + rewrite list_lookup_insert_ne by lia. apply Hrest. lia.
    + intros i Hi. destruct (decide (i = k)) as [-> | Hne].
      * exists rs. rewrite Hw, Hd.
        split; intros Hlen; apply list_lookup_insert_eq; lia.
      * destruct (Hdone i) as (rs' & Hleft & Hright); [lia |].
        exists rs'. split; intros Hlen; rewrite list_lookup_insert_ne by lia; auto.
Qed.

End ReverbFacts.

(** C7. After [setReverb(0)] the dry level is 1 and the wet level 0, and
    [process] copies each input buffer to the output buffer of the same
    length, whatever the delay lines hold; after [setReverb(1)] the dry
    level is 0.3. *)
Theorem reverb_amount_zero_is_dry (r : ReverbProcessor.t)
    (leftInput rightInput : list Q) (outputs : Outputs) :
  length rightInput = length leftInput ->
  length (fst outputs) = length leftInput ->
  length (snd outputs) = length leftInput ->
  let silent := ReverbProcessor.setReverb 0 r in
  let result := ReverbProcessor.process silent leftInput rightInput outputs in
  (ReverbProcessor.dryLevel silent == 1)%Q /\
  ReverbProcessor.wetLevel silent = 0%Q /\
  Forall2 Qeq (fst (snd result)) leftInput /\
  Forall2 Qeq (snd (snd result)) rightInput /\
  (ReverbProcessor.dryLevel (ReverbProcessor.setReverb 1 r) == 3 # 10)%Q.
Proof.
  intros Hright Hlo Hro silent result.
  assert (Hdry : (ReverbProcessor.dryLevel silent == 1)%Q) by reflexivity.
  assert (Hwet : ReverbProcessor.wetLevel silent = 0%Q) by reflexivity.
  pose proof (process_prefix leftInput rightInput silent outputs (length leftInput))
    as (_ & _ & Hll & Hlr & _ & Hdone).
  fold (ReverbProcessor.process silent leftInput rightInput outputs) in Hll, Hlr, Hdone.
  fold result in Hll, Hlr, Hdone.
  repeat split; try reflexivity.
  - apply Forall2_same_length_lookup. split; [congruence |].
    intros i x y Hx Hy.
    pose proof (lookup_lt_Some _ _ _ Hy) as Hi.
    destruct (Hdone i Hi) as (rs & Hleft & _).
    rewrite Hleft in Hx by lia. apply (inj Some) in Hx.
    rewrite <- Hx, (readAt_lookup _ _ _ Hy), Hwet, Hdry. ring.
  - apply Forall2_same_length_lookup. split; [congruence |].
    intros i x y Hx Hy.
    pose proof (lookup_lt_Some _ _ _ Hy) as Hi.
    destruct (Hdone i ltac:(lia)) as (rs & _ & Hrightmix).
    rewrite Hrightmix in Hx by lia. apply (inj Some) in Hx.
    rewrite <- Hx, (readAt_lookup _ _ _ Hy), Hwet, Hdry. ring.
Qed.

(** ** SampleTable *)

(** The entry of a key in the three-level dictionary. *)
Definition registeredAt (sp : gmap Z (gmap Z (gmap Z (list RegisteredParameter))))
    (b i key : Z) : option (list RegisteredParameter) :=
  (sp !! b ≫= (.!! i)) ≫= (.!! key).

Definition registeredEntry (p : SampleParameter.t) (range : SampleRange)
    : RegisteredParameter :=
  {| parameter := p; registeredVelRange := velRange range |}.

Section SampleTableFacts.
Import SampleTable.

Lemma instrumentParameters_addSampleParameterAt p range sp k0 b i :
  addSampleParameterAt p range sp k0 !! b ≫= (.!! i) =
    if decide (b = bank range /\ i = instrument range)
    then Some (<[k0 := default [] (registeredAt sp b i k0) ++ [registeredEntry p range]]>
                 (default ∅ (sp !! b ≫= (.!! i))))
    else sp !! b ≫= (.!! i).
Proof.
  unfold addSampleParameterAt, registeredAt, registeredEntry.
  destruct (decide (b = bank range)) as [-> | Hb].
  - rewrite lookup_insert_eq. simpl.
    destruct (decide (i = instrument range)) as [-> | Hi].
    + rewrite lookup_insert_eq.
      rewrite decide_True by done.
      destruct (sp !! bank range) as [ofBank |]; simpl; [| done].
      destruct (ofBank !! instrument range) as [ofInstrument |]; simpl; done.
    + rewrite lookup_insert_ne by done.
      rewrite decide_False by (intros [_ ?]; done).
      destruct (sp !! bank range) as [ofBank |]; simpl; done.
  - rewrite lookup_insert_ne by done.
    rewrite decide_False by (intros [? _]; done). done.
Qed.

Lemma registeredAt_addSampleParameterAt p range sp k0 b i key :
  registeredAt (addSampleParameterAt p range sp k0) b i key =
    if decide (b = bank range /\ i = instrument range /\ key = k0)
    then Some (default [] (registeredAt sp b i key) ++ [registeredEntry p range])
    else registeredAt sp b i key.
Proof.
  unfold registeredAt at 1.
  rewrite instrumentParameters_addSampleParameterAt.
  destruct (decide (b = bank range /\ i = instrument range)) as [[-> ->] | Hne].
  - simpl. destruct (decide (key = k0)) as [-> | Hk].
    + rewrite lookup_insert_eq, decide_True by done. done.
    + rewrite lookup_insert_ne by done.
      rewrite decide_False by (intros (_ & _ & ?); done).
      unfold registeredAt.
      destruct (sp !! bank range ≫= (.!! instrument range)); done.
  - rewrite decide_False by (intros (? & ? & _); apply Hne; done). done.
Qed.

(** The loop of [addSampleParameter] over keys that are all different. *)
Lemma registeredAt_fold p range keys : forall sp b i key,
  NoDup keys ->
  registeredAt (fold_left (addSampleParameterAt p range) keys sp) b i key =
    if decide (b = bank range /\ i = instrument range /\ key ∈ keys)
    then Some (default [] (registeredAt sp b i key) ++ [registeredEntry p range])
    else registeredAt sp b i key.
Proof.
  induction keys as [| k0 keys IH]; intros sp b i key Hnodup; simpl.
  - rewrite decide_False; [done |]. intros (_ & _ & Hin). by apply elem_of_nil in Hin.
  - apply NoDup_cons in Hnodup as [Hfresh Hnodup].
    rewrite IH by done. rewrite registeredAt_addSampleParameterAt.
    destruct (decide (b = bank range /\ i = instrument range /\ key ∈ keys))
      as [(-> & -> & Hin) | Hout].
    + rewrite decide_False by (intros (_ & _ & ->); done).
      rewrite decide_True; [done |]. repeat split; auto. by apply list_elem_of_further.
    + destruct (decide (b = bank range /\ i = instrument range /\ key = k0))
        as [(-> & -> & ->) | Hne].
      * rewrite decide_True; [done |]. repeat split; auto. apply list_elem_of_here.
      * rewrite decide_False; [done |]. intros (? & ? & Hin).
        apply elem_of_cons in Hin as [? | ?]; [apply Hne | apply Hout]; done.
Qed.

Lemma instrumentParameters_fold p range keys : forall sp b i,
  is_Some (fold_left (addSampleParameterAt p range) keys sp !! b ≫= (.!! i)) <->
  is_Some (sp !! b ≫= (.!! i)) \/ (b = bank range /\ i = instrument range /\ keys <> []).
Proof.
  induction keys as [| k0 keys IH]; intros sp b i; simpl.
  - split; [auto | intros [? | (_ & _ & ?)]; done].
  - rewrite IH, instrumentParameters_addSampleParameterAt.
    destruct (decide (b = bank range /\ i = instrument range)) as [[-> ->] | Hne].
    + split; [intros _; right; done | intros _; left; eauto].
    + split; [intros [? | (? & ? & _)]; [auto | exfalso; apply Hne; done] |].
      intros [? | (? & ? & _)]; [auto | exfalso; apply Hne; done].
Qed.

Lemma keysOf_spec range key :
  key ∈ keysOf range <-> fst (keyRange range) <= key <= snd (keyRange range).
Proof. unfold keysOf. rewrite elem_of_seqZ. lia. Qed.

Lemma keysOf_length range :
  length (keysOf range) = Z.to_nat (snd (keyRange range) - fst (keyRange range) + 1).
Proof. unfold keysOf. apply length_seqZ. Qed.

End SampleTableFacts.

(** *** The table as the calls made on it *)

Inductive TableCall : Type :=
| CallAddSample (data : list Q) (id : Z)
| CallAddSampleParameter (p : SampleParameter.t) (range : SampleRange).

Definition applyTableCall (tbl : SampleTable.t) (call : TableCall) : SampleTable.t :=
  match call with
  | CallAddSample data id => SampleTable.addSample data id tbl
  | CallAddSampleParameter p range => SampleTable.addSampleParameter p range tbl
  end.

Definition tableAfter (calls : list TableCall) : SampleTable.t :=
  fold_left applyTableCall calls SampleTable.empty.

(** The registrations that name the bank [b] and the instrument [i] and
    whose key range contains [key], oldest first. *)
Definition registrationsAt (calls : list TableCall) (b i key : Z)
    : list RegisteredParameter :=
  flat_map (fun call =>
              match call with
              | CallAddSampleParameter p range =>
                  if decide (b = bank range /\ i = instrument range /\
                             fst (keyRange range) <= key <= snd (keyRange range))
                  then [registeredEntry p range] else []
              | CallAddSample _ _ => []
              end) calls.

(** Whether a registration names [b] and [i] with a key range that is not
    empty. *)
Definition registersUnder (calls : list TableCall) (b i : Z) : bool :=
  existsb (fun call =>
             match call with
             | CallAddSampleParameter _ range =>
                 bool_decide (b = bank range /\ i = instrument range /\
                              fst (keyRange range) <= snd (keyRange range))
             | CallAddSample _ _ => false
             end) calls.

(** The data of the last [addSample] for [id]. *)
Definition loadedBuffer (calls : list TableCall) (id : Z) : option (list Q) :=
  fold_left (fun found call =>
               match call with
               | CallAddSample data id' => if decide (id' = id) then Some data else found
               | CallAddSampleParameter _ _ => found
               end) calls None.

(** What [getSamples] is to return, read off the calls: the registrations
    of the resolved bank whose velocity range contains [velocity] and whose
    sample is loaded, each with its buffer. *)
Definition expectedSamples (calls : list TableCall) (b i key velocity : Z) : list Sample :=
  let resolvedBank := if registersUnder calls b i then b else 0 in
  omap (fun s =>
          (fun data => {| registered := s; buffer := data |}) <$>
            loadedBuffer calls (SampleParameter.sampleID (parameter s)))
       (List.filter (SampleTable.velocityInRange velocity)
          (registrationsAt calls resolvedBank i key)).

Section TableHistory.
Import SampleTable.

Lemma tableAfter_snoc calls call :
  tableAfter (calls ++ [call]) = applyTableCall (tableAfter calls) call.
Proof. unfold tableAfter. by rewrite fold_left_app. Qed.

Lemma samples_tableAfter calls id :
  samples (tableAfter calls) !! id = loadedBuffer calls id.
Proof.
  induction calls as [| call calls IH] using rev_ind; [done |].
  rewrite tableAfter_snoc. unfold loadedBuffer. rewrite fold_left_app. simpl.
  fold (loadedBuffer calls id). rewrite <- IH.
  destruct call as [data id' | p range]; simpl; [| done].
  destruct (decide (id' = id)) as [-> | Hne].
  - by rewrite lookup_insert_eq.
  - by rewrite lookup_insert_ne.
Qed.

Lemma registeredAt_tableAfter calls b i key :
  registeredAt (sampleParameters (tableAfter calls)) b i key =
    match registrationsAt calls b i key with
    | [] => None
    | found => Some found
    end.
Proof.
  induction calls as [| call calls IH] using rev_ind; [done |].
  rewrite tableAfter_snoc. unfold registrationsAt. rewrite flat_map_app. simpl.
  fold (registrationsAt calls b i key). rewrite app_nil_r.
  destruct call as [data id' | p range]; simpl.
  - rewrite app_nil_r. exact IH.
  - rewrite registeredAt_fold by apply NoDup_seqZ. rewrite IH.
    destruct (decide (b = bank range /\ i = instrument range /\
                      fst (keyRange range) <= key <= snd (keyRange range)))
      as [(-> & -> & Hkey) | Hout].
    + rewrite decide_True by (repeat split; auto; by apply keysOf_spec).
      destruct (registrationsAt calls (bank range) (instrument range) key); done.
    + rewrite decide_False.
      * rewrite app_nil_r. done.
      * intros (? & ? & Hin). apply Hout. repeat split; auto; by apply keysOf_spec.
Qed.

Lemma instrumentParametersOf_tableAfter calls b i :
  is_Some (instrumentParametersOf (tableAfter calls) b i) <-> registersUnder calls b i = true.
Proof.
  unfold instrumentParametersOf.
  induction calls as [| call calls IH] using rev_ind.
  - simpl. rewrite lookup_empty. simpl. split; [intros [? ?]; done | done].
  - rewrite tableAfter_snoc. unfold registersUnder. rewrite existsb_app. simpl.
    fold (registersUnder calls b i). rewrite orb_false_r, orb_true_iff, <- IH.
    destruct call as [data id' | p range]; simpl.
    + split; [auto | intros [? | ?]; done].
    + rewrite instrumentParameters_fold, bool_decide_eq_true.
      assert (Hkeys : keysOf range <> [] <-> fst (keyRange range) <= snd (keyRange range)).
      { split.
        - intros Hne. destruct (keysOf range) as [| k ks] eqn:Hk; [done |].
          assert (Hin : k ∈ keysOf range) by (rewrite Hk; apply list_elem_of_here).
          apply keysOf_spec in Hin. lia.
        - intros Hle Hnil.
          assert (Hin : fst (keyRange range) ∈ keysOf range) by (apply keysOf_spec; lia).
          rewrite Hnil in Hin. by apply elem_of_nil in Hin. }
      rewrite Hkeys. done.
Qed.

Lemma withBuffer_tableAfter calls s :
  withBuffer (tableAfter calls) s =
    (fun data => {| registered := s; buffer := data |}) <$>
      loadedBuffer calls (SampleParameter.sampleID (parameter s)).
Proof.
  unfold withBuffer. rewrite samples_tableAfter.
  destruct (loadedBuffer calls _); done.
Qed.

(** [getSamples] in the bank it resolves to. *)
Lemma getSamples_resolved calls b i key velocity :
  getSamples (tableAfter calls) b i key velocity =
    omap (withBuffer (tableAfter calls))
      (List.filter (velocityInRange velocity)
         (registrationsAt calls (if registersUnder calls b i then b else 0) i key)).
Proof.
  unfold getSamples.
  pose proof (instrumentParametersOf_tableAfter calls b i) as Hown.
  pose proof (registeredAt_tableAfter calls b i key) as Hb.
  pose proof (registeredAt_tableAfter calls 0 i key) as H0.
  unfold registeredAt in Hb, H0. unfold instrumentParametersOf in *.
  destruct (sampleParameters (tableAfter calls) !! b ≫= (.!! i)) as [found |] eqn:Hfound.
  - assert (Hreg : registersUnder calls b i = true) by (apply Hown; eauto).
    rewrite Hreg. simpl in Hb. simpl. rewrite Hb.
    destruct (registrationsAt calls b i key); done.
  - assert (Hreg : registersUnder calls b i = false).
    { destruct (registersUnder calls b i); [| done].
      destruct Hown as [_ Hown]. destruct (Hown eq_refl); done. }
    rewrite Hreg, H0.
    destruct (registrationsAt calls 0 i key); done.
Qed.

End TableHistory.

(** *** Example data *)

Definition exampleEnvelope : AmplitudeEnvelopeParameter :=
  {| attackTime := 1 # 100; holdTime := 0; decayTime := 1 # 10;
     sustainLevel := 1 # 2; releaseTime := 1 # 10 |}.

Definition exampleParameter (id : Z) (cls : option Z) : SampleParameter.t :=
  {| SampleParameter.sampleID := id;
     SampleParameter.pitch := 60;
     SampleParameter.loop := {| loop_type := no_loop; loop_start := 0; loop_end := 0 |};
     SampleParameter.sampleStart := 0;
     SampleParameter.sampleEnd := 4;
     SampleParameter.sampleRate := 100;
     SampleParameter.amplitudeEnvelope := exampleEnvelope;
     SampleParameter.scaleTuning := 1;
     SampleParameter.pan := 0;
     SampleParameter.exclusiveClass := cls;
     SampleParameter.volume := 1 |}.

Definition exampleRange (b lowKey highKey : Z) : SampleRange :=
  {| bank := b; instrument := 0; keyRange := (lowKey, highKey); velRange := (0, 127) |}.

Lemma omap_pointwise {A B : Type} (f g : A -> option B) (l : list A) :
  (forall x, f x = g x) -> omap f l = omap g l.
Proof.
  intros Hfg. induction l as [| x l IH]; [done |].
  cbn. rewrite Hfg, IH. done.
Qed.

(** C2 (amended).  After any sequence of [addSample] and
    [addSampleParameter] calls, [getSamples] returns, oldest first, the
    parameters registered for the key under the resolved bank (the given
    bank if a registration names it with the instrument, bank 0 otherwise)
    whose inclusive velocity range contains the velocity and whose sample
    has been loaded, each with the buffer last loaded for it; it is the
    empty list when nothing is registered there.  [addSampleParameter]
    appends its parameter to the list of each of the N keys of its range
    and changes no other list. *)
Theorem getSamples_returns_loaded_registrations
    (calls : list TableCall) (b i key velocity : Z) :
  SampleTable.getSamples (tableAfter calls) b i key velocity
    = expectedSamples calls b i key velocity /\
  (forall (tbl : SampleTable.t) (p : SampleParameter.t) (range : SampleRange) (b' i' key' : Z),
     registeredAt
       (SampleTable.sampleParameters (SampleTable.addSampleParameter p range tbl)) b' i' key'
     = if decide (b' = bank range /\ i' = instrument range /\
                  fst (keyRange range) <= key' <= snd (keyRange range))
       then Some (default [] (registeredAt (SampleTable.sampleParameters tbl) b' i' key')
                    ++ [registeredEntry p range])
       else registeredAt (SampleTable.sampleParameters tbl) b' i' key') /\
  (forall range : SampleRange,
     length (SampleTable.keysOf range)
     = Z.to_nat (snd (keyRange range) - fst (keyRange range) + 1)).
Proof.
  split; [| split].
  - rewrite getSamples_resolved. unfold expectedSamples.
    apply omap_pointwise. intros s. apply withBuffer_tableAfter.
  - intros tbl p range b' i' key'. simpl.
    rewrite registeredAt_fold by apply NoDup_seqZ.
    destruct (decide (b' = bank range /\ i' = instrument range /\
                      fst (keyRange range) <= key' <= snd (keyRange range)))
      as [(-> & -> & Hkey) | Hout].
    + rewrite decide_True; [done |]. repeat split; auto. by apply keysOf_spec.
    + rewrite decide_False; [done |]. intros (? & ? & Hin). apply Hout.
      repeat split; auto; by apply keysOf_spec.
  - apply keysOf_length.
Qed.

(** C2 as stated fails: a registered parameter whose velocity range
    contains the velocity is not returned when its sample is not loaded. *)
Lemma getSamples_omits_unloaded_sample :
  map registered
    (SampleTable.getSamples
       (tableAfter [CallAddSampleParameter (exampleParameter 7 None) (exampleRange 0 60 60)])
       0 0 60 100)
  <> List.filter (SampleTable.velocityInRange 100)
       (registrationsAt
          [CallAddSampleParameter (exampleParameter 7 None) (exampleRange 0 60 60)] 0 0 60).
Proof. vm_compute. discriminate. Qed.

(** C9. The fall-back to bank 0 is decided by the pair of bank and
    instrument: when no registration names the pair, [getSamples] answers
    as it does for bank 0 and the same instrument, also when the bank holds
    other instruments; when one does, only the registrations of the given
    bank are consulted, also for a key that none of them covers. *)
Theorem getSamples_fallback_is_per_instrument
    (calls : list TableCall) (b i key velocity : Z) :
  SampleTable.getSamples (tableAfter calls) b i key velocity
  = if registersUnder calls b i
    then omap (SampleTable.withBuffer (tableAfter calls))
           (List.filter (SampleTable.velocityInRange velocity) (registrationsAt calls b i key))
    else SampleTable.getSamples (tableAfter calls) 0 i key velocity.
Proof.
  rewrite !getSamples_resolved.
  destruct (registersUnder calls b i); [done |].
  destruct (registersUnder calls 0 i); done.
Qed.

(** ** Sorted arrays *)

Lemma StronglySorted_lookup {A : Type} (R : relation A) (l : list A) (i j : nat) (x y : A) :
  StronglySorted R l -> l !! i = Some x -> l !! j = Some y -> (i < j)%nat -> R x y.
Proof.
  intros Hsorted. revert i j.
  induction Hsorted as [| a l Hsorted IH Hhead]; intros i j Hx Hy Hij; [done |].
  destruct j as [| j]; [lia |]. simpl in Hy.
  destruct i as [| i]; simpl in Hx.
  - injection Hx as ->. rewrite Forall_forall in Hhead.
    apply Hhead, list_elem_of_lookup. eauto.
  - apply (IH i j); auto. lia.
Qed.

Lemma StronglySorted_sublist {A : Type} (R : relation A) (l k : list A) :
  sublist l k -> StronglySorted R k -> StronglySorted R l.
Proof.
  induction 1 as [| x l k Hsub IH | x l k Hsub IH]; intros Hsorted.
  - constructor.
  - apply StronglySorted_inv in Hsorted as [Hsorted Hhead].
    constructor; [auto |].
    rewrite Forall_forall in *. intros y Hy. apply Hhead.
    by eapply elem_of_sublist.
  - apply StronglySorted_inv in Hsorted as [Hsorted _]. auto.
Qed.

Lemma sublist_filter {A : Type} (f : A -> bool) (l : list A) : sublist (List.filter f l) l.
Proof.
  induction l as [| x l IH]; simpl; [constructor |].
  destruct (f x); by constructor.
Qed.

(** ** insertSorted *)

Section InsertSortedFacts.
Context {A : Type} (prop : A -> Z).

Definition sortedBy : list A -> Prop := StronglySorted (fun x y => prop x <= prop y).

(** The loop ends on the first index whose element is not below [item]. *)
Lemma searchSlot_spec (arr : list A) (item : A) (low high : nat) :
  sortedBy arr ->
  (low <= high <= length arr)%nat ->
  (forall i x, (i < low)%nat -> arr !! i = Some x -> prop x < prop item) ->
  (forall i x, (high <= i)%nat -> arr !! i = Some x -> prop item <= prop x) ->
  let k := searchSlot prop arr item low high in
  (low <= k <= high)%nat /\
  (forall i x, (i < k)%nat -> arr !! i = Some x -> prop x < prop item) /\
  (forall i x, (k <= i)%nat -> arr !! i = Some x -> prop item <= prop x).
Proof.
  intros Hsorted. funelim (searchSlot prop arr item low high); intros Hrange Hbelow Habove.
  - (* low = high *)
    assert (Hsame : high = low) by lia. rewrite Hsame in Habove.
    repeat split; auto; lia.
  - (* the element at the midpoint decides *)
    match goal with
    | Hlt : (low < high)%nat |- _ => pose proof (midpoint_bounds low high Hlt) as Hmid
    end.
    match goal with
    | Hm : arr !! midpoint low high = Some _ |- _ => rename Hm into Hx
    end.
    destruct (decide (prop x < prop item)) as [Hlt | Hge].
    + match goal with
      | IH : prop x < prop item -> _ |- _ => destruct (IH Hlt Hsorted) as (Hk & Hb & Ha)
      end; [lia | | auto |].
      { intros i y Hi Hy.
        destruct (decide (i = midpoint low high)) as [-> | Hne]; [rewrite Hx in Hy; injection Hy as <-; lia |].
        assert (Hle : prop y <= prop x).
        { apply (StronglySorted_lookup (fun a b => prop a <= prop b) arr
                   i (midpoint low high) y x Hsorted Hy Hx). lia. }
        lia. }
      repeat split; auto; lia.
    + match goal with
      | IH : ~ prop x < prop item -> _ |- _ => destruct (IH Hge Hsorted) as (Hk & Hb & Ha)
      end; [lia | auto | |].
      { intros i y Hi Hy.
        destruct (decide (i = midpoint low high)) as [-> | Hne]; [rewrite Hx in Hy; injection Hy as <-; lia |].
        assert (Hle : prop x <= prop y).
        { apply (StronglySorted_lookup (fun a b => prop a <= prop b) arr
                   (midpoint low high) i x y Hsorted Hx Hy). lia. }
        lia. }
      repeat split; auto; lia.
  - (* the midpoint is inside the array *)
    match goal with
    | Hlt : (low < high)%nat |- _ => pose proof (midpoint_bounds low high Hlt) as Hmid
    end.
    match goal with
    | Hm : arr !! midpoint low high = None |- _ => apply lookup_ge_None in Hm
    end.
    lia.
Qed.

Lemma insertSorted_sorted (arr : list A) (item : A) :
  sortedBy arr -> sortedBy (insertSorted prop arr item).
Proof.
  intros Hsorted. unfold insertSorted, splice.
  destruct (searchSlot_spec arr item 0 (length arr)) as (Hk & Hbelow & Habove);
    [done | lia | intros; lia | |].
  { intros i x Hi Hx. apply lookup_lt_Some in Hx. lia. }
  set (k := searchSlot prop arr item 0 (length arr)) in *.
  rewrite <- (take_drop k arr) in Hsorted.
  apply StronglySorted_app in Hsorted as (Hcross & Htake & Hdrop).
  apply StronglySorted_app_2; [| done |].
  - intros x y Hx Hy. apply elem_of_cons in Hy as [-> | Hy]; [| auto].
    apply elem_of_take in Hx as (i & Hi & Hlt).
    pose proof (Hbelow i x Hlt Hi). lia.
  - constructor; [done |].
    rewrite Forall_forall. intros y Hy.
    apply list_elem_of_lookup in Hy as [i Hi].
    rewrite lookup_drop in Hi. apply (Habove (k + i)%nat y); [lia | done].
Qed.

Lemma insertSorted_elem_of (arr : list A) (item x : A) :
  x ∈ insertSorted prop arr item <-> x = item \/ x ∈ arr.
Proof.
  unfold insertSorted, splice.
  set (k := searchSlot prop arr item 0 (length arr)).
  rewrite elem_of_app, elem_of_cons.
  assert (Hsplit : x ∈ arr <-> x ∈ take k arr \/ x ∈ drop k arr).
  { rewrite <- elem_of_app, take_drop. done. }
  rewrite Hsplit. tauto.
Qed.

End InsertSortedFacts.

(** ** SynthEventScheduler *)

Section SchedulerFacts.
Import SynthEventScheduler.

(** The order of [sortEvents]: by frame, then by sequence number. *)
Definition dispatchOrder (a b : ScheduledEvent) : Prop :=
  scheduledFrame a < scheduledFrame b \/
  (scheduledFrame a = scheduledFrame b /\ sequenceNumber a <= sequenceNumber b).

Lemma sortEvents_order (a b : ScheduledEvent) :
  sortEvents a b <= 0 <-> dispatchOrder a b.
Proof.
  unfold sortEvents, dispatchOrder.
  destruct (Z.ltb_spec (scheduledFrame a) (scheduledFrame b));
    [lia |].
  destruct (Z.gtb_spec (scheduledFrame a) (scheduledFrame b)); [lia |].
  destruct (Z.ltb_spec (sequenceNumber a) (sequenceNumber b)); [lia |].
  destruct (Z.gtb_spec (sequenceNumber a) (sequenceNumber b)); lia.
Qed.

Lemma sortInsert_Permutation (x : ScheduledEvent) (l : list ScheduledEvent) :
  sortInsert sortEvents x l ≡ₚ x :: l.
Proof.
  induction l as [| y l IH]; simpl; [done |].
  destruct (sortEvents x y <=? 0); [done |].
  rewrite IH. apply Permutation_swap.
Qed.

Lemma sort_Permutation (l : list ScheduledEvent) : sort sortEvents l ≡ₚ l.
Proof.
  induction l as [| x l IH]; simpl; [done |].
  rewrite sortInsert_Permutation. by rewrite IH.
Qed.

Lemma sortInsert_sorted (x : ScheduledEvent) (l : list ScheduledEvent) :
  StronglySorted dispatchOrder l -> StronglySorted dispatchOrder (sortInsert sortEvents x l).
Proof.
  induction 1 as [| y l Hsorted IH Hhead]; simpl.
  - repeat constructor.
  - destruct (Z.leb_spec (sortEvents x y) 0) as [Hle | Hgt].
    + apply sortEvents_order in Hle.
      constructor; [by constructor |].
      constructor; [done |].
      rewrite Forall_forall in *. intros z Hz. specialize (Hhead z Hz).
      unfold dispatchOrder in *. lia.
    + assert (Hyx : dispatchOrder y x).
      { pose proof (sortEvents_order x y) as Hiff. unfold dispatchOrder in *. lia. }
      constructor; [done |].
      rewrite Forall_forall in *. intros z Hz.
      rewrite sortInsert_Permutation in Hz.
      apply elem_of_cons in Hz as [-> | Hz]; auto.
Qed.

Lemma sort_sorted (l : list ScheduledEvent) : StronglySorted dispatchOrder (sort sortEvents l).
Proof.
  induction l as [| x l IH]; simpl; [constructor |].
  by apply sortInsert_sorted.
Qed.

(** On a queue in frame order, [popDue] takes exactly the due events. *)
Lemma popDue_spec (currentFrame : Z) (scheduled : list ScheduledEvent) :
  forall current,
  sortedBy scheduledFrame scheduled ->
  exists due later,
    scheduled = due ++ later /\
    popDue currentFrame scheduled current = (later, current ++ due) /\
    Forall (fun e => scheduledFrame e <= currentFrame) due /\
    Forall (fun e => currentFrame < scheduledFrame e) later.
Proof.
  induction scheduled as [| e rest IH]; intros current Hsorted; simpl.
  - exists [], [].
    split; [done |]. split; [by rewrite app_nil_r |]. split; constructor.

  - apply StronglySorted_inv in Hsorted as [Hsorted Hhead].
    destruct (Z.gtb_spec (scheduledFrame e) currentFrame) as [Hgt | Hle].
    + exists [], (e :: rest).
      split; [done |]. split; [by rewrite app_nil_r |]. split; [constructor |].
      constructor; [lia |].
      eapply Forall_impl; [exact Hhead |]. simpl. intros; lia.
    + destruct (IH (current ++ [e]) Hsorted) as (due & later & -> & Hpop & Hdue & Hlater).
      exists (e :: due), later. rewrite Hpop, <- app_assoc.
      split; [done |]. split; [done |]. split; [| done].
      constructor; [lia | done].
Qed.

Lemma removeScheduledEvents_sublist (channel : Z) (s : t) :
  sublist (scheduledEvents (removeScheduledEvents channel s)) (scheduledEvents s) /\
  sublist (currentEvents (removeScheduledEvents channel s)) (currentEvents s).
Proof. split; apply sublist_filter. Qed.

End SchedulerFacts.

Lemma filter_of_filter {A : Type} (keep other : A -> bool) (l : list A) :
  (forall x, keep x = true -> other x = true) ->
  List.filter keep (List.filter other l) = List.filter keep l.
Proof.
  intros Himp. induction l as [| x l IH]; simpl; [done |].
  destruct (other x) eqn:Hother; simpl.
  - by rewrite IH.
  - destruct (keep x) eqn:Hkeep; [| done].
    apply Himp in Hkeep. congruence.
Qed.

Lemma onOtherChannel_spec (channel : Z) (e : SynthEventScheduler.ScheduledEvent) :
  SynthEventScheduler.onOtherChannel channel e = true <->
  channelOf (SynthEventScheduler.midi e) <> Some channel.
Proof.
  unfold SynthEventScheduler.onOtherChannel.
  destruct (channelOf (SynthEventScheduler.midi e)) as [c |]; [| done].
  destruct (Z.eqb_spec c channel) as [-> | Hne]; simpl; split; try done.
  intros _ [=]. done.
Qed.

(** C6. [removeScheduledEvents(c)] leaves, in the pending queue and in the
    popped batch, no event whose payload carries the channel [c]; the events
    that do not carry it (other channels, no channel) stay, each as many
    times as before and in the same order; the queues of reverb events are
    untouched. *)
Theorem removeScheduledEvents_only_that_channel
    (channel : Z) (s : SynthEventScheduler.t) :
  let s' := SynthEventScheduler.removeScheduledEvents channel s in
  Forall (fun e => channelOf (SynthEventScheduler.midi e) <> Some channel)
    (SynthEventScheduler.scheduledEvents s' ++ SynthEventScheduler.currentEvents s') /\
  (forall keep : SynthEventScheduler.ScheduledEvent -> bool,
     (forall e, keep e = true -> channelOf (SynthEventScheduler.midi e) <> Some channel) ->
     List.filter keep (SynthEventScheduler.scheduledEvents s')
       = List.filter keep (SynthEventScheduler.scheduledEvents s) /\
     List.filter keep (SynthEventScheduler.currentEvents s')
       = List.filter keep (SynthEventScheduler.currentEvents s)) /\
  sublist (SynthEventScheduler.scheduledEvents s') (SynthEventScheduler.scheduledEvents s) /\
  sublist (SynthEventScheduler.currentEvents s') (SynthEventScheduler.currentEvents s) /\
  SynthEventScheduler.scheduledReverbEvents s' = SynthEventScheduler.scheduledReverbEvents s /\
  SynthEventScheduler.currentReverbEvents s' = SynthEventScheduler.currentReverbEvents s.
Proof.
  intros s'. split; [| split; [| split; [| split; [| split]]]]; try done.
  - apply Forall_app. split; apply Forall_forall; intros e He;
      apply list_elem_of_In, filter_In in He as [_ He]; by apply onOtherChannel_spec.
  - intros keep Hkeep.
    split; apply filter_of_filter; intros e He; apply onOtherChannel_spec; auto.
  - apply sublist_filter.
  - apply sublist_filter.
Qed.

(** *** The scheduler inside the object its callbacks mutate *)

Inductive SchedulerCall : Type :=
| CallAddEvent (e : SynthEvent)
| CallProcessScheduledEvents.

Section SchedulerRuns.
Import SynthEventScheduler.
Context {W : Type}.
Variable this : W -> t.
Variable setThis : t -> W -> W.
Variable onImmediateEvent : SynthEvent -> W -> W.
Variable onDelayableEvent : AnyEvent -> W -> W.

Hypothesis this_setThis : forall s w, this (setThis s w) = s.
Hypothesis immediate_keeps : forall e w, this (onImmediateEvent e w) = this w.
Hypothesis delayable_purges : forall m w,
  this (onDelayableEvent m w) = this w \/
  exists channel, this (onDelayableEvent m w) = removeScheduledEvents channel (this w).

Lemma processReverbEvents_keeps (fuel : nat) (currentFrame : Z) :
  forall w,
  scheduledEvents (this (processReverbEvents this setThis onImmediateEvent fuel currentFrame w))
    = scheduledEvents (this w) /\
  currentEvents (this (processReverbEvents this setThis onImmediateEvent fuel currentFrame w))
    = currentEvents (this w).
Proof using this_setThis immediate_keeps.
  induction fuel as [| fuel IH]; intros w; simpl; [done |].
  destruct (scheduledReverbEvents (this w)) as [| e rest]; [done |].
  destruct (reverbScheduledFrame e >? currentFrame); [done |].
  destruct (IH (onImmediateEvent (ReverbControlEvent (amount e) (reverbDelayTime e))
                  (setThis {| scheduledEvents := scheduledEvents (this w);
                              scheduledReverbEvents := rest;
                              currentEvents := currentEvents (this w);
                              currentReverbEvents := currentReverbEvents (this w) |} w)))
    as [Hs Hc].
  rewrite Hs, Hc, immediate_keeps, this_setThis. done.
Qed.

(** The batch is dispatched to the end; what a callback purges on the way
    is neither dispatched nor left behind. *)
Lemma dispatchCurrent_spec (fuel : nat) :
  forall w,
  (length (currentEvents (this w)) <= fuel)%nat ->
  let result := dispatchCurrent this setThis onDelayableEvent fuel w in
  currentEvents (this (fst result)) = [] /\
  sublist (snd result) (currentEvents (this w)) /\
  sublist (scheduledEvents (this (fst result))) (scheduledEvents (this w)).
Proof using this_setThis delayable_purges.
  induction fuel as [| fuel IH]; intros w Hfuel; simpl.
  - destruct (currentEvents (this w)); [done | simpl in Hfuel; lia].
  - destruct (currentEvents (this w)) as [| e rest] eqn:Hcurrent; [done |].
    set (shifted := setThis _ w).
    assert (Hshifted : this shifted =
              {| scheduledEvents := scheduledEvents (this w);
                 scheduledReverbEvents := scheduledReverbEvents (this w);
                 currentEvents := rest;
                 currentReverbEvents := currentReverbEvents (this w) |})
      by apply this_setThis.
    set (called := onDelayableEvent (midi e) shifted).
    assert (Hcalled : sublist (currentEvents (this called)) rest /\
                      sublist (scheduledEvents (this called)) (scheduledEvents (this w))).
    { destruct (delayable_purges (midi e) shifted) as [Hsame | [channel Hpurged]];
        fold called in Hsame || fold called in Hpurged.
      - rewrite Hsame, Hshifted. done.
      - rewrite Hpurged, Hshifted. simpl. split; apply sublist_filter. }
    destruct Hcalled as [Hc Hs].
    specialize (IH called).
    destruct (dispatchCurrent this setThis onDelayableEvent fuel called) as [w' dispatched].
    simpl in *.
    destruct IH as (Hempty & Hd & Hq).
    { apply sublist_length in Hc. lia. }
    repeat split; [done | | by etrans].
    apply sublist_skip. by etrans.
Qed.

Lemma processScheduledEvents_spec (currentFrame : Z) (w : W) :
  currentEvents (this w) = [] ->
  sortedBy scheduledFrame (scheduledEvents (this w)) ->
  let result :=
    processScheduledEvents this setThis onImmediateEvent onDelayableEvent currentFrame w in
  currentEvents (this (fst result)) = [] /\
  sublist (scheduledEvents (this (fst result))) (scheduledEvents (this w)) /\
  Forall (fun e => currentFrame < scheduledFrame e) (scheduledEvents (this (fst result))) /\
  StronglySorted dispatchOrder (snd result) /\
  Forall (fun e => e ∈ scheduledEvents (this w) /\ scheduledFrame e <= currentFrame)
    (snd result).
Proof using this_setThis immediate_keeps delayable_purges.
  intros Hcurrent Hsorted. unfold processScheduledEvents.
  set (w1 := processReverbEvents this setThis onImmediateEvent _ currentFrame w).
  destruct (processReverbEvents_keeps (length (scheduledReverbEvents (this w))) currentFrame w)
    as [Hs1 Hc1].
  fold w1 in Hs1, Hc1.
  destruct (scheduledEvents (this w1)) as [| first others] eqn:Hqueue.
  - simpl. rewrite Hqueue, Hc1, Hcurrent.
    repeat split; [apply sublist_nil_l | constructor | constructor | constructor].
  - rewrite Hs1, Hc1, Hcurrent.
    destruct (popDue_spec currentFrame (scheduledEvents (this w)) [] Hsorted)
      as (due & later & Hsplit & Hpop & Hdue & Hlater).
    rewrite Hpop. simpl.
    set (w2 := setThis _ w1).
    assert (Hw2 : this w2 =
              {| scheduledEvents := later;
                 scheduledReverbEvents := scheduledReverbEvents (this w1);
                 currentEvents := sort sortEvents due;
                 currentReverbEvents := currentReverbEvents (this w1) |})
      by apply this_setThis.
    pose proof (dispatchCurrent_spec (length (sort sortEvents due)) w2) as Hdispatch.
    rewrite Hw2 in Hdispatch. simpl in Hdispatch.
    destruct (dispatchCurrent this setThis onDelayableEvent _ w2) as [w' dispatched].
    simpl in *. destruct Hdispatch as (Hempty & Hd & Hq); [done |].
    repeat split.
    + done.
    + rewrite Hsplit. by apply sublist_inserts_l.
    + apply Forall_forall. intros e He.
      rewrite Forall_forall in Hlater. apply Hlater. by eapply elem_of_sublist.
    + eapply StronglySorted_sublist; [exact Hd | apply sort_sorted].
    + apply Forall_forall. intros e He.
      assert (Hin : e ∈ due).
      { rewrite <- (sort_Permutation due). by eapply elem_of_sublist. }
      rewrite Forall_forall in Hdue. split; [| auto].
      rewrite Hsplit. apply elem_of_app. by left.
Qed.

Lemma addEvent_spec (currentFrame : Z) (e : SynthEvent) (w : W) :
  currentEvents (this (addEvent this setThis onImmediateEvent currentFrame e w))
    = currentEvents (this w) /\
  scheduledEvents (this (addEvent this setThis onImmediateEvent currentFrame e w))
    = match e with
      | MIDIEvent m d n =>
          insertSorted scheduledFrame (scheduledEvents (this w))
            {| midi := m; delayTime := d; sequenceNumber := n;
               scheduledFrame := currentFrame + d |}
      | _ => scheduledEvents (this w)
      end.
Proof using this_setThis immediate_keeps.
  destruct e as [data id | p range | a d | m d n]; simpl;
    rewrite ?immediate_keeps; try done.
  - destruct (d >? 0); rewrite ?immediate_keeps, ?this_setThis; done.
  - rewrite this_setThis. done.
Qed.

(** A run of the scheduler: each call with the current frame it reads.
    The second component collects the dispatched events. *)
Definition stepCall (st : W * list ScheduledEvent) (call : Z * SchedulerCall)
    : W * list ScheduledEvent :=
  match snd call with
  | CallAddEvent e => (addEvent this setThis onImmediateEvent (fst call) e (fst st), snd st)
  | CallProcessScheduledEvents =>
      let result :=
        processScheduledEvents this setThis onImmediateEvent onDelayableEvent
          (fst call) (fst st) in
      (fst result, snd st ++ snd result)
  end.

Definition runCalls (calls : list (Z * SchedulerCall)) (w : W) : W * list ScheduledEvent :=
  fold_left stepCall calls (w, []).

Lemma runCalls_snoc calls call w :
  runCalls (calls ++ [call]) w = stepCall (runCalls calls w) call.
Proof. unfold runCalls. by rewrite fold_left_app. Qed.


Definition wellFormed (st : W * list ScheduledEvent) : Prop :=
  currentEvents (this (fst st)) = [] /\
  sortedBy scheduledFrame (scheduledEvents (this (fst st))).

Lemma wellFormed_step (st : W * list ScheduledEvent) (call : Z * SchedulerCall) :
  wellFormed st -> wellFormed (stepCall st call).
Proof using this_setThis immediate_keeps delayable_purges.
  intros [Hcurrent Hsorted]. destruct call as [currentFrame [e |]]; unfold stepCall; simpl.
  - destruct (addEvent_spec currentFrame e (fst st)) as [Hc Hs].
    unfold wellFormed. simpl. rewrite Hc, Hs. split; [done |].
    destruct e; try done. by apply insertSorted_sorted.
  - pose proof (processScheduledEvents_spec currentFrame (fst st) Hcurrent Hsorted) as Hspec.
    simpl in Hspec. destruct Hspec as (Hempty & Hsub & _).
    split; [done |]. by eapply StronglySorted_sublist.
Qed.

Lemma runCalls_wellFormed (calls : list (Z * SchedulerCall)) (w : W) :
  this w = empty -> wellFormed (runCalls calls w).
Proof using this_setThis immediate_keeps delayable_purges.
  intros Hempty. induction calls as [| call calls IH] using rev_ind.
  - unfold wellFormed, runCalls. simpl. rewrite Hempty. split; [done | constructor].
  - rewrite runCalls_snoc. by apply wellFormed_step.
Qed.

(** A dispatched event was due at the frame of some call. *)
Lemma dispatched_was_due (calls : list (Z * SchedulerCall)) (w : W) (y : ScheduledEvent) :
  this w = empty ->
  y ∈ snd (runCalls calls w) ->
  exists currentFrame, currentFrame ∈ map fst calls /\ scheduledFrame y <= currentFrame.
Proof using this_setThis immediate_keeps delayable_purges.
  intros Hempty. induction calls as [| [currentFrame call] calls IH] using rev_ind.
  - intros Hy. by apply elem_of_nil in Hy.
  - rewrite runCalls_snoc, map_app. simpl.
    destruct (runCalls_wellFormed calls w Hempty) as [Hcurrent Hsorted].
    destruct call as [e |]; unfold stepCall; simpl.
    + intros Hy. destruct (IH Hy) as (cf & Hcf & Hle).
      exists cf. split; [| done]. apply elem_of_app. by left.
    + pose proof (processScheduledEvents_spec currentFrame _ Hcurrent Hsorted) as Hspec.
      simpl in Hspec. destruct Hspec as (_ & _ & _ & _ & Hdue).
      rewrite Forall_forall in Hdue.
      intros Hy. apply elem_of_app in Hy as [Hy | Hy].
      * destruct (IH Hy) as (cf & Hcf & Hle).
        exists cf. split; [| done]. apply elem_of_app. by left.
      * exists currentFrame. split; [| by apply Hdue].
        apply elem_of_app. right. apply list_elem_of_here.
Qed.

(** A pending or dispatched event is the entry of a submitted MIDI event. *)
Lemma scheduled_was_submitted (calls : list (Z * SchedulerCall)) (w : W)
    (y : ScheduledEvent) :
  this w = empty ->
  y ∈ snd (runCalls calls w) \/ y ∈ scheduledEvents (this (fst (runCalls calls w))) ->
  exists currentFrame,
    (currentFrame,
     CallAddEvent (MIDIEvent (midi y) (delayTime y) (sequenceNumber y))) ∈ calls /\
    scheduledFrame y = currentFrame + delayTime y.
Proof using this_setThis immediate_keeps delayable_purges.
  intros Hempty. induction calls as [| [currentFrame call] calls IH] using rev_ind.
  - unfold runCalls. simpl. rewrite Hempty. simpl.
    intros [Hy | Hy]; by apply elem_of_nil in Hy.
  - rewrite runCalls_snoc.
    destruct (runCalls_wellFormed calls w Hempty) as [Hcurrent Hsorted].
    assert (Hold : y ∈ snd (runCalls calls w) \/
                   y ∈ scheduledEvents (this (fst (runCalls calls w))) ->
                   exists cf,
                     (cf, CallAddEvent (MIDIEvent (midi y) (delayTime y) (sequenceNumber y)))
                       ∈ calls ++ [(currentFrame, call)] /\
                     scheduledFrame y = cf + delayTime y).
    { intros Hy. destruct (IH Hy) as (cf & Hcf & Heq).
      exists cf. split; [| done]. apply elem_of_app. by left. }
    destruct call as [e |]; unfold stepCall; simpl.
    + destruct (addEvent_spec currentFrame e (fst (runCalls calls w))) as [_ Hs].
      rewrite Hs. intros [Hy | Hy]; [auto |].
      destruct e as [data id | p range | a d | m d n]; auto.
      apply insertSorted_elem_of in Hy as [-> | Hy]; [| auto].
      exists currentFrame. simpl. split; [| done].
      apply elem_of_app. right. apply list_elem_of_here.
    + pose proof (processScheduledEvents_spec currentFrame _ Hcurrent Hsorted) as Hspec.
      simpl in Hspec. destruct Hspec as (_ & Hsub & _ & _ & Hdue).
      rewrite Forall_forall in Hdue.
      intros [Hy | Hy].
      * apply elem_of_app in Hy as [Hy | Hy]; [auto |].
        apply Hold. right. by apply Hdue.
      * apply Hold. right. by eapply elem_of_sublist.
Qed.

(** [before x y]: the event [x] has to be dispatched before [y]. *)
Variable before : ScheduledEvent -> ScheduledEvent -> Prop.
Hypothesis before_order : forall x y, before x y -> ~ dispatchOrder y x.

Definition runInvariant (st : W * list ScheduledEvent) : Prop :=
  currentEvents (this (fst st)) = [] /\
  sortedBy scheduledFrame (scheduledEvents (this (fst st))) /\
  StronglySorted (fun y x => ~ before x y) (snd st) /\
  (forall y x, y ∈ snd st -> x ∈ scheduledEvents (this (fst st)) -> ~ before x y).

Lemma runInvariant_process (currentFrame : Z) (st : W * list ScheduledEvent) :
  runInvariant st -> runInvariant (stepCall st (currentFrame, CallProcessScheduledEvents)).
Proof using this_setThis immediate_keeps delayable_purges before_order.
  intros (Hcurrent & Hsorted & Hlog & Hpending). unfold stepCall. simpl.
  pose proof (processScheduledEvents_spec currentFrame (fst st) Hcurrent Hsorted) as Hspec.
  destruct (processScheduledEvents this setThis onImmediateEvent onDelayableEvent
              currentFrame (fst st)) as [w' dispatched].
  simpl in Hspec. destruct Hspec as (Hempty & Hsub & Hlater & Hd & Hdue).
  rewrite Forall_forall in Hlater, Hdue.
  split; [done |]. split; [by eapply StronglySorted_sublist |]. simpl. split.
  - apply StronglySorted_app_2; [| done |].
    + intros y x Hy Hx. apply Hpending; [done |]. by apply Hdue.
    + clear -Hd before_order.
      induction Hd as [| y l Hd IH Hhead]; constructor; [done |].
      eapply Forall_impl; [exact Hhead |]. simpl. intros x Hyx Hb.
      by apply (before_order x y).
  - intros y x Hy Hx. apply elem_of_app in Hy as [Hy | Hy].
    + apply Hpending; [done |]. by eapply elem_of_sublist.
    + intros Hb. apply (before_order x y Hb).
      left. specialize (Hlater x Hx). destruct (Hdue y Hy) as [_ Hle]. lia.
Qed.

Lemma runInvariant_addEvent (currentFrame : Z) (e : SynthEvent)
    (st : W * list ScheduledEvent) :
  runInvariant st ->
  (forall m d n y, e = MIDIEvent m d n -> y ∈ snd st ->
     ~ before {| midi := m; delayTime := d; sequenceNumber := n;
                 scheduledFrame := currentFrame + d |} y) ->
  runInvariant (stepCall st (currentFrame, CallAddEvent e)).
Proof using this_setThis immediate_keeps.
  intros (Hcurrent & Hsorted & Hlog & Hpending) Hnew. unfold stepCall. simpl.
  destruct (addEvent_spec currentFrame e (fst st)) as [Hc Hs].
  unfold runInvariant. simpl. rewrite Hc, Hs.
  destruct e as [data id | p range | a d | m d n]; try done.
  split; [done |]. split; [by apply insertSorted_sorted |]. split; [done |].
  intros y x Hy Hx. apply insertSorted_elem_of in Hx as [-> | Hx]; [| by apply Hpending].
  by apply Hnew.
Qed.

Lemma runCalls_invariant (calls : list (Z * SchedulerCall)) (w : W) :
  this w = empty ->
  (forall earlier currentFrame m d n later y,
     calls = earlier ++ (currentFrame, CallAddEvent (MIDIEvent m d n)) :: later ->
     y ∈ snd (runCalls earlier w) ->
     ~ before {| midi := m; delayTime := d; sequenceNumber := n;
                 scheduledFrame := currentFrame + d |} y) ->
  runInvariant (runCalls calls w).
Proof using this_setThis immediate_keeps delayable_purges before_order.
  intros Hempty. induction calls as [| [currentFrame call] calls IH] using rev_ind;
    intros Hnew.
  - unfold runInvariant, runCalls. simpl. rewrite Hempty. simpl.
    repeat split; try constructor. intros y x Hy. by apply elem_of_nil in Hy.
  - rewrite runCalls_snoc.
    assert (Hinv : runInvariant (runCalls calls w)).
    { apply IH. intros earlier cf m d n later y Heq.
      apply (Hnew earlier cf m d n (later ++ [(currentFrame, call)])).
      rewrite Heq, <- app_assoc. done. }
    destruct call as [e |].
    + apply runInvariant_addEvent; [done |].
      intros m d n y -> Hy. apply (Hnew calls currentFrame m d n [] y); done.
    + by apply runInvariant_process.
Qed.

End SchedulerRuns.

(** *** The scheduler of the core *)

Section CoreScheduler.
Import SynthProcessorCore.
Context {M : MathOps}.

Lemma eventScheduler_onChannelState channel f core :
  eventScheduler (onChannelState channel f core) = eventScheduler core.
Proof.
  unfold onChannelState, getChannelState. by destruct (channels core !! channel).
Qed.

Lemma eventScheduler_noteOn channel notePitch velocity core :
  eventScheduler (noteOn channel notePitch velocity core) = eventScheduler core.
Proof.
  unfold noteOn, getSamples, getChannelState.
  destruct (channels core !! channel) as [state |] eqn:Hstate; simpl.
  - rewrite Hstate. by destruct (SampleTable.getSamples _ _ _ _ _).
  - rewrite lookup_insert_eq. by destruct (SampleTable.getSamples _ _ _ _ _).
Qed.

Lemma handleImmediateEvent_scheduler e core :
  eventScheduler (handleImmediateEvent e core) = eventScheduler core.
Proof. by destruct e. Qed.

(** Only the controller "all sounds off" reaches the scheduler. *)
Lemma handleDelayableEvent_scheduler m core :
  eventScheduler (handleDelayableEvent m core) = eventScheduler core \/
  exists channel,
    eventScheduler (handleDelayableEvent m core)
    = SynthEventScheduler.removeScheduledEvents channel (eventScheduler core).
Proof.
  destruct m as [channel body |]; [| by left].
  destruct body as [n v | n v | v | v | controllerType v |]; simpl.
  - left. apply eventScheduler_noteOn.
  - left. apply eventScheduler_onChannelState.
  - left. apply eventScheduler_onChannelState.
  - left. apply eventScheduler_onChannelState.
  - unfold handleController.
    repeat match goal with
           | |- context [if ?b then _ else _] => destruct b
           end;
      try (left; done);
      try (left; unfold updateRPN; done);
      try (left; apply eventScheduler_onChannelState).
    + left. destruct (rpnLSB _) as [[| ? | ?] |]; try done.
      unfold setPitchBendSensitivity. by rewrite eventScheduler_onChannelState.
    + right. exists channel. unfold allSoundsOff.
      by rewrite eventScheduler_onChannelState.
    + left. destruct (bankSelectMSB core !! channel); [| done].
      apply eventScheduler_onChannelState.
  - by left.
Qed.

(** The calls made on the core, and what they dispatch and leave. *)
Definition runCore (calls : list (Z * SchedulerCall)) (core : t)
    : t * list SynthEventScheduler.ScheduledEvent :=
  runCalls eventScheduler setEventScheduler handleImmediateEvent handleDelayableEvent
    calls core.

Definition dispatchLog (calls : list (Z * SchedulerCall)) (core : t)
    : list SynthEventScheduler.ScheduledEvent :=
  snd (runCore calls core).

Definition pendingEvents (calls : list (Z * SchedulerCall)) (core : t)
    : list SynthEventScheduler.ScheduledEvent :=
  SynthEventScheduler.scheduledEvents (eventScheduler (fst (runCore calls core))).

(** A step of [runCore] is a call of [addEvent] or of
    [processScheduledEvents]. *)
Lemma runCore_step calls currentFrame call core :
  runCore (calls ++ [(currentFrame, call)]) core
  = match call with
    | CallAddEvent e =>
        (addEvent currentFrame e (fst (runCore calls core)), snd (runCore calls core))
    | CallProcessScheduledEvents =>
        (fst (processScheduledEvents currentFrame (fst (runCore calls core))),
         snd (runCore calls core)
           ++ snd (processScheduledEvents currentFrame (fst (runCore calls core))))
    end.
Proof. unfold runCore. rewrite runCalls_snoc. by destruct call. Qed.

End CoreScheduler.

(** The frame at which a scheduled event was submitted. *)
Definition submissionFrame (e : SynthEventScheduler.ScheduledEvent) : Z :=
  SynthEventScheduler.scheduledFrame e - SynthEventScheduler.delayTime e.

(** The sequence numbers of the MIDI events of a run, in submission order. *)
Definition sequenceNumbers (calls : list (Z * SchedulerCall)) : list Z :=
  omap (fun call =>
          match snd call with
          | CallAddEvent (MIDIEvent _ _ n) => Some n
          | _ => None
          end) calls.

Lemma order_of_log {A : Type} (before : A -> A -> Prop) (log : list A) (a b : A) (i j : nat) :
  StronglySorted (fun y x => ~ before x y) log ->
  ~ before a a ->
  before a b -> log !! i = Some a -> log !! j = Some b -> (i < j)%nat.
Proof.
  intros Hlog Hirr Hab Ha Hb.
  destruct (lt_eq_lt_dec i j) as [[Hlt | ->] | Hgt]; [done | |].
  - rewrite Ha in Hb. injection Hb as ->. done.
  - exfalso. by apply (StronglySorted_lookup _ log j i b a Hlog Hb Ha Hgt).
Qed.

(** C1. In a run of [addEvent] and [processScheduledEvents] calls whose
    current frames do not decrease, from an empty scheduler: of two MIDI
    events submitted at the same frame with delays [0 <= d1 < d2], the first
    is dispatched before the second, whatever the order of submission, and
    is no longer pending once the second has been dispatched; when the
    sequence numbers grow with the submissions, the same holds of two events
    scheduled for the same frame, the smaller sequence number first; and a
    call of [processScheduledEvents] leaves no due event pending. *)
Theorem scheduler_dispatch_order {M : MathOps}
    (calls : list (Z * SchedulerCall)) (core : SynthProcessorCore.t) :
  SynthProcessorCore.eventScheduler core = SynthEventScheduler.empty ->
  StronglySorted Z.le (map fst calls) ->
  let log := dispatchLog calls core in
  let pending := pendingEvents calls core in
  (forall a b,
     submissionFrame a = submissionFrame b ->
     0 <= SynthEventScheduler.delayTime a < SynthEventScheduler.delayTime b ->
     (forall i j, log !! i = Some a -> log !! j = Some b -> (i < j)%nat) /\
     (b ∈ log -> a ∉ pending)) /\
  (StronglySorted Z.lt (sequenceNumbers calls) ->
   forall a b,
     SynthEventScheduler.scheduledFrame a = SynthEventScheduler.scheduledFrame b ->
     SynthEventScheduler.sequenceNumber a < SynthEventScheduler.sequenceNumber b ->
     (forall i j, log !! i = Some a -> log !! j = Some b -> (i < j)%nat) /\
     (b ∈ log -> a ∉ pending)) /\
  (forall earlier currentFrame,
     calls = earlier ++ [(currentFrame, CallProcessScheduledEvents)] ->
     Forall (fun e => currentFrame < SynthEventScheduler.scheduledFrame e) pending).
Proof.
  intros Hempty Hframes log pending.
  pose proof (fun s w => eq_refl : SynthProcessorCore.eventScheduler
                                     (SynthProcessorCore.setEventScheduler s w) = s) as Hset.
  split; [| split].
  - (* same submission frame, different delays *)
    set (before := fun x y : SynthEventScheduler.ScheduledEvent =>
                     submissionFrame x = submissionFrame y /\
                     0 <= SynthEventScheduler.delayTime x < SynthEventScheduler.delayTime y).
    assert (Horder : forall x y, before x y -> ~ dispatchOrder y x).
    { unfold before, dispatchOrder, submissionFrame. intros x y. lia. }
    assert (Hinv : runInvariant SynthProcessorCore.eventScheduler before (runCore calls core)).
    { apply runCalls_invariant; auto using handleImmediateEvent_scheduler,
        handleDelayableEvent_scheduler.
      intros earlier currentFrame m d n later y Hcalls Hy [Hsame Hdelay].
      destruct (dispatched_was_due _ _ _ _ Hset handleImmediateEvent_scheduler
                  handleDelayableEvent_scheduler earlier core y Hempty Hy)
        as (cf & Hcf & Hdue).
      rewrite Hcalls, map_app in Hframes. simpl in Hframes.
      apply StronglySorted_app in Hframes as (Hcross & _ & _).
      specialize (Hcross cf currentFrame Hcf (list_elem_of_here _ _)).
      unfold submissionFrame in Hsame. simpl in *. lia. }
    destruct Hinv as (_ & _ & Hlog & Hpending).
    intros a b Hsame Hdelay. split.
    + intros i j. apply (order_of_log before); [done | | done].
      unfold before. lia.
    + intros Hb Ha. by apply (Hpending b a Hb Ha).
  - (* same scheduled frame, different sequence numbers *)
    intros Hseq.
    set (before := fun x y : SynthEventScheduler.ScheduledEvent =>
                     SynthEventScheduler.scheduledFrame x = SynthEventScheduler.scheduledFrame y /\
                     SynthEventScheduler.sequenceNumber x < SynthEventScheduler.sequenceNumber y).
    assert (Horder : forall x y, before x y -> ~ dispatchOrder y x).
    { unfold before, dispatchOrder. intros x y. lia. }
    assert (Hinv : runInvariant SynthProcessorCore.eventScheduler before (runCore calls core)).
    { apply runCalls_invariant; auto using handleImmediateEvent_scheduler,
        handleDelayableEvent_scheduler.
      intros earlier currentFrame m d n later y Hcalls Hy [Hsame Hless].
      destruct (scheduled_was_submitted _ _ _ _ Hset handleImmediateEvent_scheduler
                  handleDelayableEvent_scheduler earlier core y Hempty (or_introl Hy))
        as (cf & Hcall & _).
      assert (Hin : SynthEventScheduler.sequenceNumber y ∈ sequenceNumbers earlier).
      { unfold sequenceNumbers. apply list_elem_of_omap. eexists. split; [exact Hcall | done]. }
      rewrite Hcalls in Hseq. unfold sequenceNumbers in Hseq.
      rewrite omap_app in Hseq. simpl in Hseq.
      apply StronglySorted_app in Hseq as (Hcross & _ & _).
      specialize (Hcross _ n Hin (list_elem_of_here _ _)).
      simpl in *. lia. }
    destruct Hinv as (_ & _ & Hlog & Hpending).
    intros a b Hsame Hless. split.
    + intros i j. apply (order_of_log before); [done | | done].
      unfold before. lia.
    + intros Hb Ha. by apply (Hpending b a Hb Ha).
  - (* nothing due is left behind *)
    intros earlier currentFrame ->. unfold pending, pendingEvents, runCore.
    rewrite runCalls_snoc. unfold stepCall. simpl.
    destruct (runCalls_wellFormed _ _ _ _ Hset handleImmediateEvent_scheduler
                handleDelayableEvent_scheduler earlier core Hempty) as [Hcurrent Hsorted].
    pose proof (processScheduledEvents_spec _ _ _ _ Hset handleImmediateEvent_scheduler
                  handleDelayableEvent_scheduler currentFrame _ Hcurrent Hsorted) as Hspec.
    simpl in Hspec. by destruct Hspec as (_ & _ & Hlater & _).
Qed.

(** ** AmplitudeEnvelope *)

(** [n] successive calls of [getAmplitude(bufferSize)]: the envelope after
    them and the amplitudes they return, oldest first. *)
Fixpoint getAmplitudes {M : MathOps} (host : Host) (bufferSize : Z) (n : nat)
    (env : AmplitudeEnvelope.t) : Result (AmplitudeEnvelope.t * list Q) :=
  match n with
  | O => Ok (env, [])
  | S n' =>
      try! (env1, value) <- AmplitudeEnvelope.getAmplitude host bufferSize env;
      try! (env2, values) <- getAmplitudes host bufferSize n' env1;
      Ok (env2, value :: values)
  end.

Definition countQ (n : nat) : Q := inject_Z (Z.of_nat n).

Lemma countQ_S (n : nat) : (countQ (S n) == countQ n + 1)%Q.
Proof. unfold countQ. rewrite Nat2Z.inj_succ, <- Z.add_1_r, inject_Z_plus. reflexivity. Qed.

Section ForceStopRamp.
Import AmplitudeEnvelope.
Context {M : MathOps}.
Variable host : Host.
Variable globalRate : Q.
Hypothesis host_binds_sampleRate : hostSampleRate host = Some globalRate.
Variable bufferSize : Z.
Variable rate : Q.
Variable start : Q.

(** What one call takes off the amplitude in the forced-stop phase. *)
Definition attenuationPerCall : Q :=
  ((1 / (forceStopReleaseTime * rate)) * inject_Z bufferSize)%Q.

(** The envelope after [k] calls since [forceStop()]: still ramping down
    from [start], or stopped at 0. *)
Definition rampState (k : nat) (env : t) : Prop :=
  sampleRate env = rate /\
  ((phase env = EnvelopePhase.forceStop /\
    (lastAmplitude env == start - countQ k * attenuationPerCall)%Q /\
    ((0 < k)%nat -> (0 < lastAmplitude env)%Q)) \/
   (phase env = EnvelopePhase.stopped /\
    lastAmplitude env = 0%Q /\
    (start - countQ k * attenuationPerCall <= 0)%Q)).

(** The amplitude that the call number [k] returns. *)
Definition rampValue (k : nat) (x : Q) : Prop :=
  (x = 0%Q /\ (start - countQ k * attenuationPerCall <= 0)%Q) \/
  ((0 < x)%Q /\ (x == start - countQ k * attenuationPerCall)%Q).

Hypothesis attenuation_positive : (0 < attenuationPerCall)%Q.

Lemma getAmplitude_ramp (k : nat) (env : t) :
  rampState k env ->
  exists env' value,
    getAmplitude host bufferSize env = Ok (env', value) /\
    rampState (S k) env' /\ rampValue (S k) value.
Proof using host_binds_sampleRate attenuation_positive.
  intros [Hrate [(Hphase & Hlast & Hpos) | (Hphase & Hlast & Hdone)]].
  - unfold getAmplitude, calculateAmplitude. unfold phase in *.
    rewrite Hphase, andb_false_r. cbn [EnvelopePhase.eqb orb]. rewrite Hphase.
    rewrite Hrate. fold attenuationPerCall.
    destruct (Qle_bool (lastAmplitude env - attenuationPerCall) 0) eqn:Hle.
    + apply Qle_bool_iff in Hle.
      unfold setPhase. rewrite Hphase. cbn [EnvelopePhase.eqb].
      rewrite host_binds_sampleRate.
      eexists _, _. split; [reflexivity |].
      assert (Hnext : (start - countQ (S k) * attenuationPerCall <= 0)%Q).
      { rewrite countQ_S. rewrite Hlast in Hle. lra. }
      split; [split; [done | right; done] | left; done].
    + assert (Hgt : (0 < lastAmplitude env - attenuationPerCall)%Q).
      { apply Qnot_le_lt. intros Hle'. apply Qle_bool_iff in Hle'. congruence. }
      rewrite host_binds_sampleRate.
      eexists _, _. split; [reflexivity |].
      assert (Hnext : (lastAmplitude env - attenuationPerCall
                       == start - countQ (S k) * attenuationPerCall)%Q).
      { rewrite countQ_S, Hlast. ring. }
      split; [split; [done | left; done] | right; done].
  - unfold getAmplitude, calculateAmplitude. unfold phase in *.
    rewrite Hphase, andb_false_r. cbn [EnvelopePhase.eqb orb]. rewrite Hphase.
    rewrite host_binds_sampleRate.
    eexists _, _. split; [reflexivity |].
    assert (Hnext : (start - countQ (S k) * attenuationPerCall <= 0)%Q).
    { rewrite countQ_S. lra. }
    split; [split; [done | right; done] | left; done].
Qed.

Lemma getAmplitudes_ramp (n : nat) : forall (k : nat) (env : t),
  rampState k env ->
  exists env' values,
    getAmplitudes host bufferSize n env = Ok (env', values) /\
    length values = n /\
    rampState (k + n) env' /\
    (forall i x, values !! i = Some x -> rampValue (k + S i) x).
Proof using host_binds_sampleRate attenuation_positive.
  induction n as [| n IH]; intros k env Hstate.
  - exists env, []. rewrite Nat.add_0_r.
    split; [done |]. split; [done |]. split; [done |]. intros i x Hx. done.
  - destruct (getAmplitude_ramp k env Hstate) as (env1 & value & Hcall & Hstate1 & Hvalue).
    destruct (IH (S k) env1 Hstate1) as (env2 & values & Hrest & Hlen & Hstate2 & Hvalues).
    exists env2, (value :: values). simpl. rewrite Hcall. simpl. rewrite Hrest. simpl.
    replace (k + S n)%nat with (S k + n)%nat by lia.
    split; [done |]. split; [by rewrite Hlen |]. split; [done |].
    intros [| i] x Hx; simpl in Hx.
    + injection Hx as <-. by rewrite Nat.add_1_r.
    + replace (k + S (S i))%nat with (S k + S i)%nat by lia. auto.
Qed.

End ForceStopRamp.

Lemma countQ_le (m n : nat) : (m <= n)%nat -> (countQ m <= countQ n)%Q.
Proof. intros Hle. unfold countQ. rewrite <- Zle_Qle. lia. Qed.

(** The calls that a forced stop may take, and why they are enough: over
    them the attenuation adds up to 1 at least. *)
Lemma forceStop_budget (rate : Q) (bufferSize : Z) :
  (0 < rate)%Q -> 0 < bufferSize ->
  let budget := Z.to_nat (Qceiling (forceStopReleaseTime * rate / inject_Z bufferSize)) in
  (0 < attenuationPerCall bufferSize rate)%Q /\
  (1 <= budget)%nat /\
  (1 <= countQ budget * attenuationPerCall bufferSize rate)%Q.
Proof.
  intros Hrate Hsize budget.
  assert (Hsize' : (0 < inject_Z bufferSize)%Q)
    by (change 0%Q with (inject_Z 0); rewrite <- Zlt_Qlt; lia).
  set (r := (forceStopReleaseTime * rate / inject_Z bufferSize)%Q) in *.
  assert (Hr : (0 < r)%Q).
  { unfold r, forceStopReleaseTime. apply Qlt_shift_div_l; [done |]. lra. }
  assert (Hstep : (0 < attenuationPerCall bufferSize rate)%Q).
  { unfold attenuationPerCall, forceStopReleaseTime.
    apply Qmult_lt_0_compat; [| done].
    apply Qlt_shift_div_l; lra. }
  assert (Hone : (r * attenuationPerCall bufferSize rate == 1)%Q).
  { unfold r, attenuationPerCall, forceStopReleaseTime. field. split; lra. }
  pose proof (Qle_ceiling r) as Hceil.
  assert (Hpos : 0 < Qceiling r).
  { rewrite Zlt_Qlt. change (inject_Z 0) with 0%Q. lra. }
  assert (Hbudget : (countQ budget == inject_Z (Qceiling r))%Q).
  { unfold countQ, budget. rewrite Z2Nat.id by lia. reflexivity. }
  split; [done |]. split; [unfold budget; lia |].
  rewrite Hbudget, <- Hone.
  apply Qmult_le_compat_r; lra.
Qed.

(** The forced stop over the rationals, where no operation rounds: in a
    scope that binds [sampleRate], after [forceStop()], with a last
    amplitude of 1 at most, every call of [getAmplitude(bufferSize)]
    returns; the amplitudes returned never grow, and fall strictly as long
    as they are positive; from the call number
    [ceil(forceStopReleaseTime * sampleRate / bufferSize)] on they are
    exactly 0 and the phase is stopped.  The code subtracts in binary64,
    and there this number of calls is not always enough: see below. *)
Lemma forceStop_reaches_zero_without_rounding {M : MathOps}
    (host : Host) (globalRate : Q) (env : AmplitudeEnvelope.t) (bufferSize : Z) :
  hostSampleRate host = Some globalRate ->
  (0 < AmplitudeEnvelope.sampleRate env)%Q ->
  0 < bufferSize ->
  (AmplitudeEnvelope.lastAmplitude env <= 1)%Q ->
  let budget :=
    Z.to_nat (Qceiling (forceStopReleaseTime * AmplitudeEnvelope.sampleRate env
                        / inject_Z bufferSize)) in
  forall n : nat,
  exists env' values,
    getAmplitudes host bufferSize n (AmplitudeEnvelope.forceStop env) = Ok (env', values) /\
    length values = n /\
    (forall i x y, values !! i = Some x -> values !! S i = Some y ->
       (y <= x)%Q /\ ((0 < x)%Q -> (y < x)%Q)) /\
    (forall i x, values !! i = Some x -> x = 0%Q \/ (0 < x)%Q) /\
    (forall i x, (budget <= S i)%nat -> values !! i = Some x -> x = 0%Q) /\
    ((budget <= n)%nat -> AmplitudeEnvelope.phase env' = EnvelopePhase.stopped).
Proof.
  intros Hhost Hrate Hsize Hlast budget n.
  set (rate := AmplitudeEnvelope.sampleRate env) in *.
  set (start := AmplitudeEnvelope.lastAmplitude env) in *.
  destruct (forceStop_budget rate bufferSize Hrate Hsize) as (Hstep & Hone & Hsum).
  fold budget in Hone, Hsum.
  set (step := attenuationPerCall bufferSize rate) in *.
  assert (Hinit : rampState bufferSize rate start 0 (AmplitudeEnvelope.forceStop env)).
  { unfold AmplitudeEnvelope.forceStop, AmplitudeEnvelope.setPhase, rampState,
      AmplitudeEnvelope.phase.
    destruct (EnvelopePhase.eqb (AmplitudeEnvelope._phase env) EnvelopePhase.forceStop)
      eqn:Hphase; simpl.
    - split; [done |]. left. split; [| split; [| lia]].
      + by destruct (AmplitudeEnvelope._phase env).
      + unfold countQ. simpl. fold start. ring.
    - split; [done |]. left. split; [done |]. split; [| lia].
      unfold countQ. simpl. fold start. ring. }
  destruct (getAmplitudes_ramp host globalRate Hhost bufferSize rate start Hstep n 0 _ Hinit)
    as (env' & values & Hrun & Hlen & Hfinal & Hvalues).
  fold step in Hvalues, Hfinal.
  assert (Hpast : forall k, (budget <= k)%nat -> (start - countQ k * step <= 0)%Q).
  { intros k Hk. pose proof (countQ_le budget k Hk) as Hcount.
    assert (Hmul : (countQ budget * step <= countQ k * step)%Q)
      by (apply Qmult_le_compat_r; lra).
    lra. }
  exists env', values. split; [done |]. split; [done |]. split; [| split; [| split]].
  - intros i x y Hx Hy.
    pose proof (Hvalues i x Hx) as Hvx. pose proof (Hvalues (S i) y Hy) as Hvy.
    simpl in Hvx, Hvy. unfold rampValue in Hvx, Hvy. fold step in Hvx, Hvy.
    pose proof (countQ_S (S i)) as Hnext.
    destruct Hvx as [[-> Hx0] | [Hxpos Hxeq]], Hvy as [[-> Hy0] | [Hypos Hyeq]].
    + split; [lra | intros; lra].
    + exfalso. rewrite Hnext in Hyeq. lra.
    + split; [lra | done].
    + rewrite Hnext in Hyeq. split; [lra | intros; lra].
  - intros i x Hx. destruct (Hvalues i x Hx) as [[-> _] | [Hpos _]]; auto.
  - intros i x Hi Hx. destruct (Hvalues i x Hx) as [[-> _] | [Hpos Heq]]; [done |].
    exfalso. simpl in Heq. fold step in Heq. pose proof (Hpast (S i) Hi). lra.
  - intros Hn. destruct Hfinal as [_ [(_ & Heq & Hpos) | (Hphase & _)]]; [| done].
    exfalso. simpl in Heq. fold step in Heq.
    pose proof (Hpast n Hn). specialize (Hpos ltac:(lia)). lra.
Qed.

(** *** The forced stop in binary64 *)

Section ForceStopBinary64.
Import PrimFloat.
#[local] Set Warnings "-inexact-float".
#[local] Open Scope float_scope.

Definition exampleParameter64 : Binary64.AmplitudeEnvelopeParameter :=
  {| Binary64.attackTime := 0.01; Binary64.holdTime := 1; Binary64.decayTime := 0.1;
     Binary64.sustainLevel := 0.5; Binary64.releaseTime := 0.1 |}.

(** [Math.pow] and [Math.log10] are not operations of binary64: crude
    values stand for them.  The attack, the hold and the forced stop do not
    call them. *)
Definition exampleMath64 : Binary64.MathOps :=
  {| Binary64.Math_pow := fun _ _ => 1; Binary64.Math_log10 := fun _ => 0 |}.

(** An envelope at 44100 frames a second whose attack has ended: it holds
    the amplitude 1. *)
Definition heldEnvelope : Binary64.AmplitudeEnvelope.t :=
  {| Binary64.AmplitudeEnvelope.parameter := exampleParameter64;
     Binary64.AmplitudeEnvelope._phase := EnvelopePhase.hold;
     Binary64.AmplitudeEnvelope.isNoteOff := false;
     Binary64.AmplitudeEnvelope.phaseTime := 0.01;
     Binary64.AmplitudeEnvelope.decayLevel := 0.5;
     Binary64.AmplitudeEnvelope.lastAmplitude := 1;
     Binary64.AmplitudeEnvelope.sampleRate := 44100 |}.

(** It is the envelope of a new voice after [noteOn()] and one call of
    [getAmplitude(441)]. *)
Lemma heldEnvelope_reached (M : Binary64.MathOps) :
  Binary64.AmplitudeEnvelope.getAmplitude (Binary64.audioWorkletScope 44100) 441
    (Binary64.AmplitudeEnvelope.noteOn
       (Binary64.AmplitudeEnvelope.new exampleParameter64 44100))
  = Ok (heldEnvelope, 1).
Proof. vm_compute. reflexivity. Qed.

(** The amplitudes of the eleven calls that follow [forceStop()], whatever
    [Math] is. *)
Lemma heldEnvelope_forceStop (M : Binary64.MathOps) :
  exists env,
    Binary64.getAmplitudes (Binary64.audioWorkletScope 44100) 441 11
      (Binary64.AmplitudeEnvelope.forceStop heldEnvelope)
    = Ok (env, [0.9; 0.8; 0.7000000000000001; 0.6000000000000001; 0.5000000000000001;
                0.40000000000000013; 0.30000000000000016; 0.20000000000000015;
                0.10000000000000014; 1.3877787807814457e-16; 0]) /\
    Binary64.AmplitudeEnvelope.phase env = EnvelopePhase.stopped.
Proof. eexists. split; vm_compute; reflexivity. Qed.

(** C4 as stated fails in the arithmetic of the code.  For an envelope that
    holds the amplitude 1, at 44100 frames a second and with buffers of 441
    frames, [ceil(forceStopReleaseTime * sampleRate / bufferSize)] is 10;
    the tenth call of [getAmplitude(441)] after [forceStop()] returns a
    positive amplitude and leaves the envelope in the forced-stop phase,
    still playing. *)
Lemma forceStop_outlasts_bound_in_binary64 :
  let host := Binary64.audioWorkletScope 44100 in
  Binary64.AmplitudeEnvelope.lastAmplitude heldEnvelope = 1 /\
  Binary64.forceStopReleaseTime * 44100 / 441 = 10 /\
  Qceiling (forceStopReleaseTime * 44100 / inject_Z 441) = 10%Z /\
  exists env values last,
    Binary64.getAmplitudes (M := exampleMath64) host 441 10
      (Binary64.AmplitudeEnvelope.forceStop heldEnvelope) = Ok (env, values) /\
    values !! 9%nat = Some last /\
    (0 <? last) = true /\
    Binary64.AmplitudeEnvelope.phase env = EnvelopePhase.forceStop /\
    Binary64.AmplitudeEnvelope.isPlaying env = true.
Proof.
  split; [reflexivity |]. split; [vm_compute; reflexivity |].
  split; [vm_compute; reflexivity |].
  eexists _, _, _. split; [vm_compute; reflexivity |].
  split; [reflexivity |]. split; vm_compute; auto.
Qed.

End ForceStopBinary64.

(** *** Rounding in binary64

    What the operations of binary64 do to finite numbers, from their
    definition in [SpecFloat]: the result of a multiplication, of a division
    and of a subtraction of finite numbers above 0 lies within one part in
    2^53 of the exact one. *)

Module Rounding.
Import SpecFloat FloatOps.

(** **** Digits *)

Lemma digits2_pos_spec (m : positive) :
  2 ^ (Zpos (digits2_pos m) - 1) <= Zpos m < 2 ^ Zpos (digits2_pos m).
Proof.
  induction m as [m IH | m IH |]; cbn [digits2_pos].
  - rewrite Pos2Z.inj_succ, Z.pow_succ_r by lia.
    replace (Z.succ (Zpos (digits2_pos m)) - 1) with (Z.succ (Zpos (digits2_pos m) - 1)) by lia.
    rewrite Z.pow_succ_r by lia. lia.
  - rewrite Pos2Z.inj_succ, Z.pow_succ_r by lia.
    replace (Z.succ (Zpos (digits2_pos m)) - 1) with (Z.succ (Zpos (digits2_pos m) - 1)) by lia.
    rewrite Z.pow_succ_r by lia. lia.
  - simpl. lia.
Qed.

Lemma digits2_pos_unique (m : positive) (k : Z) :
  2 ^ (k - 1) <= Zpos m < 2 ^ k -> Zpos (digits2_pos m) = k.
Proof.
  intros [Hlow Hhigh]. pose proof (digits2_pos_spec m) as [Hlow' Hhigh'].
  set (d := Zpos (digits2_pos m)) in *.
  assert (Hk : 0 < k).
  { destruct (Z.ltb_spec 0 k) as [| Hle]; [done |].
    assert (2 ^ k <= 1).
    { destruct (Z.eqb_spec k 0) as [-> | Hne]; [simpl; lia |].
      rewrite Z.pow_neg_r by lia. lia. }
    lia. }
  destruct (Z.lt_trichotomy d k) as [Hlt | [Heq | Hgt]]; [| done |].
  - assert (2 ^ d <= 2 ^ (k - 1)) by (apply Z.pow_le_mono_r; lia). lia.
  - assert (2 ^ k <= 2 ^ (d - 1)) by (apply Z.pow_le_mono_r; lia). lia.
Qed.

(** **** Shifting to the right *)

(** The record stands for the rational [num / den]: its integer part, and
    where its fractional part lies with respect to one half. *)
Definition represents (num den : Z) (r : shr_record) : Prop :=
  0 < den /\ 0 <= num /\
  shr_m r = num / den /\
  shr_r r = (den <=? 2 * (num mod den)) /\
  shr_s r = negb ((2 * (num mod den)) mod den =? 0).

Lemma represents_exact (m : Z) :
  0 <= m -> represents m 1 (shr_record_of_loc m loc_Exact).
Proof.
  intros Hm. unfold represents. cbn [shr_record_of_loc shr_m shr_r shr_s].
  rewrite Z.div_1_r, Z.mod_1_r. simpl. done.
Qed.

Lemma represents_shr_1 (num den : Z) (r : shr_record) :
  represents num den r -> represents num (2 * den) (shr_1 r).
Proof.
  intros (Hden & Hnum & Hm & Hr & Hs).
  destruct r as [m r s]. cbn [shr_m shr_r shr_s] in *.
  pose proof (Z.div_mod num den ltac:(lia)) as Hdiv.
  pose proof (Z.mod_pos_bound num den Hden) as Hrem.
  set (a := num / den) in *. set (b := num mod den) in *.
  assert (Ha : 0 <= a) by (apply Z.div_pos; lia).
  assert (Hsticky : orb r s = negb (b =? 0)).
  { subst r s. destruct (Z.leb_spec den (2 * b)) as [Hge | Hlt]; cbn [orb].
    - destruct (Z.eqb_spec b 0); [lia | done].
    - rewrite (Z.mod_small (2 * b) den) by lia.
      destruct (Z.eqb_spec (2 * b) 0), (Z.eqb_spec b 0); (done || lia). }
  assert (Hcase : forall p c, a = 2 * p + c -> 0 <= p -> (c = 0 \/ c = 1) ->
            represents num (2 * den) {| shr_m := p; shr_r := (c =? 1); shr_s := orb r s |}).
  { intros p c Hap Hp Hc. unfold represents. cbn [shr_m shr_r shr_s].
    assert (Hq : num / (2 * den) = p).
    { symmetry. apply (Z.div_unique num (2 * den) p (c * den + b)); [nia | nia]. }
    assert (Hb : num mod (2 * den) = c * den + b).
    { symmetry. apply (Z.mod_unique num (2 * den) p (c * den + b)); [nia | nia]. }
    rewrite Hq, Hb, Hsticky.
    split; [lia |]. split; [done |]. split; [done |].
    destruct Hc as [-> | ->].
    - split.
      + destruct (Z.leb_spec (2 * den) (2 * (0 * den + b))); [lia | done].
      + replace (2 * (0 * den + b)) with (2 * b) by lia.
        rewrite (Z.mod_small (2 * b) (2 * den)) by lia.
        destruct (Z.eqb_spec (2 * b) 0), (Z.eqb_spec b 0); (done || lia).
    - split.
      + destruct (Z.leb_spec (2 * den) (2 * (1 * den + b))); [done | lia].
      + replace (2 * (1 * den + b)) with (2 * b + 1 * (2 * den)) by lia.
        rewrite Z.mod_add by lia.
        rewrite (Z.mod_small (2 * b) (2 * den)) by lia.
        destruct (Z.eqb_spec (2 * b) 0), (Z.eqb_spec b 0); (done || lia). }
  subst m. destruct a as [| [p | p |] | p] eqn:Hadef; cbn [shr_1].
  - apply (Hcase 0 0); lia.
  - apply (Hcase (Zpos p) 1); lia.
  - apply (Hcase (Zpos p) 0); lia.
  - apply (Hcase 0 1); lia.
  - lia.
Qed.

Lemma represents_iter (num : Z) (p : positive) : forall (den : Z) (r : shr_record),
  represents num den r -> represents num (den * 2 ^ Zpos p) (iter_pos shr_1 p r).
Proof.
  induction p as [p IH | p IH |]; intros den r Hr; cbn [iter_pos].
  - apply represents_shr_1 in Hr. apply IH, IH in Hr.
    replace (den * 2 ^ Zpos p~1) with (2 * den * 2 ^ Zpos p * 2 ^ Zpos p); [done |].
    replace (Zpos p~1) with (Zpos p + Zpos p + 1) by lia.
    rewrite !Z.pow_add_r by lia. change (2 ^ 1) with 2. ring.
  - apply IH, IH in Hr.
    replace (den * 2 ^ Zpos p~0) with (den * 2 ^ Zpos p * 2 ^ Zpos p); [done |].
    replace (Zpos p~0) with (Zpos p + Zpos p) by lia.
    rewrite Z.pow_add_r by lia. ring.
  - apply represents_shr_1 in Hr.
    replace (den * 2 ^ 1) with (2 * den) by lia. done.
Qed.

(** **** Rounding to nearest, ties to even *)

Lemma round_represents (num den : Z) (r : shr_record) :
  represents num den r ->
  let m := round_nearest_even (shr_m r) (loc_of_shr_record r) in
  (m = num / den \/ m = num / den + 1) /\
  2 * Z.abs (m * den - num) <= den.
Proof.
  intros (Hden & Hnum & Hm & Hr & Hs).
  destruct r as [m r s]. cbn [shr_m shr_r shr_s] in *.
  pose proof (Z.div_mod num den ltac:(lia)) as Hdiv.
  pose proof (Z.mod_pos_bound num den Hden) as Hrem.
  set (a := num / den) in *. set (b := num mod den) in *. subst m.
  assert (Hhalf : den <= 2 * b -> (2 * b) mod den = 2 * b - den).
  { intros Hge. symmetry. apply (Z.mod_unique (2 * b) den 1); lia. }
  destruct (Z.leb_spec den (2 * b)) as [Hge | Hlt]; subst r;
    destruct (Z.eqb_spec ((2 * b) mod den) 0) as [Hzero | Hnonzero]; subst s;
    cbn [loc_of_shr_record negb round_nearest_even].
  - rewrite Hhalf in Hzero by done. destruct (Z.even a); split; (lia || nia).
  - split; [lia | nia].
  - rewrite Z.mod_small in Hzero by lia. split; [lia | nia].
  - split; [lia | nia].
Qed.


Lemma shr_m_of_loc (m : Z) (l : location) : shr_m (shr_record_of_loc m l) = m.
Proof. by destruct l as [| []]. Qed.

Lemma shr_represents (num den : Z) (r : shr_record) (e n : Z) :
  represents num den r -> 0 <= n ->
  exists r', shr r e n = (r', e + n) /\ represents num (den * 2 ^ n) r'.
Proof.
  intros Hr Hn. destruct n as [| p | p]; [| | lia].
  - exists r. cbn [shr]. rewrite Z.add_0_r, Z.pow_0_r, Z.mul_1_r. done.
  - exists (iter_pos shr_1 p r). split; [done |]. by apply represents_iter.
Qed.

(** **** [binary_round_aux], away from the subnormal numbers and from
    overflow *)

Lemma fexp_normal (k : Z) : -1074 <= k - 53 -> fexp prec emax k = k - 53.
Proof. unfold fexp, SpecFloat.emin, prec, emax. lia. Qed.

Lemma Zdigits2_unique (m k : Z) : 2 ^ (k - 1) <= m < 2 ^ k -> 0 < m -> Zdigits2 m = k.
Proof.
  intros Hm Hpos. destruct m as [| p | p]; [lia | | lia].
  cbn [Zdigits2]. by apply digits2_pos_unique.
Qed.

Lemma Zdigits2_spec (m : Z) :
  0 < m -> 2 ^ (Zdigits2 m - 1) <= m < 2 ^ Zdigits2 m.
Proof.
  intros Hpos. destruct m as [| p | p]; [lia | | lia].
  cbn [Zdigits2]. apply digits2_pos_spec.
Qed.

Lemma binary_round_aux_spec (sx : bool) (mx ex : Z) (lx : location) (num den : Z) :
  represents num den (shr_record_of_loc mx lx) ->
  0 < mx ->
  let d := Zdigits2 mx in
  53 <= d -> -1074 <= d + ex - 53 -> d + ex <= 1023 ->
  exists (m : positive) (e : Z),
    binary_round_aux prec emax sx mx ex lx = S754_finite sx m e /\
    d + ex - 53 <= e <= d + ex - 52 /\
    2 ^ 52 <= Zpos m < 2 ^ 53 /\
    2 * Z.abs (Zpos m * 2 ^ (e - ex) * den - num) <= den * 2 ^ (d - 53).
Proof.
  intros Hrec Hpos d Hd Hlow Hhigh.
  pose proof Hrec as (Hden & Hnum & Hmx & _). rewrite shr_m_of_loc in Hmx.
  pose proof (Zdigits2_spec mx Hpos) as Hdigits. fold d in Hdigits.
  unfold binary_round_aux, shr_fexp. fold d.
  rewrite (fexp_normal (d + ex)) by done.
  set (n := d + ex - 53 - ex).
  assert (Hn : n = d - 53) by (unfold n; lia).
  clearbody n.
  destruct (shr_represents num den _ ex n Hrec ltac:(lia)) as (r1 & -> & Hr1).
  pose proof Hr1 as (_ & _ & Hm1 & _).
  assert (Hpow : 0 < 2 ^ n) by (apply Z.pow_pos_nonneg; lia).
  rewrite <- Z.div_div in Hm1 by lia. rewrite <- Hmx in Hm1.
  assert (Hrange : 2 ^ 52 <= shr_m r1 < 2 ^ 53).
  { rewrite Hm1.
    assert (Hlo : 2 ^ 52 * 2 ^ n <= mx)
      by (rewrite <- Z.pow_add_r by lia; replace (52 + n) with (d - 1) by lia; lia).
    assert (Hhi : mx < 2 ^ 53 * 2 ^ n)
      by (rewrite <- Z.pow_add_r by lia; replace (53 + n) with d by lia; lia).
    split.
    - apply Z.div_le_lower_bound; lia.
    - apply Z.div_lt_upper_bound; lia. }
  destruct (round_represents num (den * 2 ^ n) r1 Hr1) as [Hround Herr].
  set (m1 := round_nearest_even (shr_m r1) (loc_of_shr_record r1)) in *.
  rewrite <- Z.div_div, <- Hmx, <- Hm1 in Hround by lia.
  destruct (Z.eq_dec m1 (2 ^ 53)) as [Hcarry | Hnocarry].
  - (* the mantissa is rounded up to a power of two *)
    rewrite Hcarry. change (Zdigits2 (2 ^ 53)) with 54.
    rewrite (fexp_normal (54 + (ex + n))) by lia.
    replace (54 + (ex + n) - 53 - (ex + n)) with 1 by lia.
    change (shr (shr_record_of_loc (2 ^ 53) loc_Exact) (ex + n) 1)
      with ({| shr_m := Zpos 4503599627370496; shr_r := false; shr_s := false |}, ex + n + 1).
    cbn [shr_m].
    destruct (Z.leb_spec (ex + n + 1) (emax - prec)) as [_ | Hover];
      [| unfold emax, prec in Hover; lia].
    exists 4503599627370496%positive, (ex + n + 1). split; [reflexivity |].
    split; [lia |]. split; [done |].
    replace (ex + n + 1 - ex) with (1 + n) by lia.
    rewrite Z.pow_add_r by lia. rewrite <- Hn.
    rewrite Hcarry in Herr.
    replace (4503599627370496 * (2 ^ 1 * 2 ^ n) * den - num)
      with (2 ^ 53 * (den * 2 ^ n) - num)
      by (change (2 ^ 53) with (4503599627370496 * 2 ^ 1); ring).
    done.
  - assert (Hm1range : 2 ^ 52 <= m1 < 2 ^ 53) by lia.
    rewrite (Zdigits2_unique m1 53) by lia.
    rewrite (fexp_normal (53 + (ex + n))) by lia.
    replace (53 + (ex + n) - 53 - (ex + n)) with 0 by lia.
    cbn [shr_record_of_loc shr shr_m].
    destruct m1 as [| m | m] eqn:Hm; [lia | | lia].
    destruct (Z.leb_spec (ex + n) (emax - prec)) as [_ | Hover];
      [| unfold emax, prec in Hover; lia].
    exists m, (ex + n). split; [reflexivity |].
    split; [lia |]. split; [done |].
    replace (ex + n - ex) with n by lia. rewrite <- Hn.
    replace (Zpos m * 2 ^ n * den - num) with (Zpos m * (den * 2 ^ n) - num) by ring.
    done.
Qed.


(** Whatever the exponents, a result has the sign that was asked for, and
    is not NaN. *)
Definition hasSign (sx : bool) (x : spec_float) : Prop :=
  match x with
  | S754_nan => False
  | S754_zero s | S754_infinity s | S754_finite s _ _ => s = sx
  end.

Lemma shr_nonneg (num den : Z) (r : shr_record) (e n : Z) :
  represents num den r -> 0 <= shr_m (fst (shr r e n)).
Proof.
  intros Hr.
  assert (Hany : exists den', represents num den' (fst (shr r e n))).
  { destruct n as [| p | p]; cbn [shr fst]; [by exists den | | by exists den].
    eexists. by apply represents_iter. }
  destruct Hany as (den' & Hden & Hnum & -> & _). apply Z.div_pos; lia.
Qed.

Lemma binary_round_aux_sign (sx : bool) (mx ex : Z) :
  0 <= mx -> hasSign sx (binary_round_aux prec emax sx mx ex loc_Exact).
Proof.
  intros Hmx. unfold binary_round_aux, shr_fexp.
  pose proof (shr_nonneg mx 1 _ ex (fexp prec emax (Zdigits2 mx + ex) - ex)
                (represents_exact mx Hmx)) as Hfirst.
  destruct (shr (shr_record_of_loc mx loc_Exact) ex _) as [r1 e1]. cbn [fst] in Hfirst.
  set (m1 := round_nearest_even (shr_m r1) (loc_of_shr_record r1)).
  assert (Hm1 : 0 <= m1).
  { unfold m1, round_nearest_even.
    destruct (loc_of_shr_record r1) as [| []]; [lia | | lia | lia].
    destruct (Z.even (shr_m r1)); lia. }
  pose proof (shr_nonneg m1 1 _ e1 (fexp prec emax (Zdigits2 m1 + e1) - e1)
                (represents_exact m1 Hm1)) as Hsecond.
  destruct (shr (shr_record_of_loc m1 loc_Exact) e1 _) as [r2 e2]. cbn [fst] in Hsecond.
  destruct (shr_m r2) as [| m | m]; [done | | lia].
  by destruct (e2 <=? emax - prec).
Qed.

(** **** Aligning mantissas *)

Lemma iter_xO (m d : positive) : Zpos (Pos.iter xO m d) = Zpos m * 2 ^ Zpos d.
Proof.
  revert m. induction d as [d IH | d IH |]; intros m; cbn [Pos.iter].
  - rewrite Pos2Z.inj_xO, !IH.
    replace (Zpos d~1) with (Zpos d + Zpos d + 1) by lia.
    rewrite !Z.pow_add_r by lia. change (2 ^ 1) with 2. ring.
  - rewrite !IH. replace (Zpos d~0) with (Zpos d + Zpos d) by lia.
    rewrite Z.pow_add_r by lia. ring.
  - rewrite Pos2Z.inj_xO. change (2 ^ 1) with 2. ring.
Qed.

Lemma shl_align_spec (mx : positive) (ex ex' : Z) :
  let '(m, e) := shl_align mx ex ex' in
  e = Z.min ex ex' /\ Zpos m = Zpos mx * 2 ^ (ex - e).
Proof.
  unfold shl_align. destruct (ex' - ex) as [| d | d] eqn:Hd.
  - split; [lia |]. rewrite Z.sub_diag. simpl. lia.
  - split; [lia |]. rewrite Z.sub_diag. simpl. lia.
  - split; [lia |]. rewrite iter_xO. f_equal. f_equal. lia.
Qed.


(** **** The value of a floating-point number *)

Definition pow2 (e : Z) : Q := (2 ^ e)%Q.

Lemma pow2_pos (e : Z) : (0 < pow2 e)%Q.
Proof. apply Qpower_0_lt. reflexivity. Qed.

Lemma pow2_add (a b : Z) : (pow2 (a + b) == pow2 a * pow2 b)%Q.
Proof. apply Qpower_plus. discriminate. Qed.

Lemma pow2_le (a b : Z) : a <= b -> (pow2 a <= pow2 b)%Q.
Proof. intros Hle. apply Qpower_le_compat_l; [done | discriminate]. Qed.

Lemma pow2_lt (a b : Z) : a < b -> (pow2 a < pow2 b)%Q.
Proof. intros Hlt. apply Qpower_lt_compat_l; [done | reflexivity]. Qed.

Lemma pow2_lt_inv (a b : Z) : (pow2 a < pow2 b)%Q -> a < b.
Proof. intros Hlt. apply (Qpower_lt_compat_l_inv 2); [done | reflexivity]. Qed.

Lemma pow2_Z (n : Z) : 0 <= n -> (pow2 n == inject_Z (2 ^ n))%Q.
Proof. intros Hn. unfold pow2. by rewrite Zpower_Qpower. Qed.

Lemma pow2_succ (e : Z) : (pow2 (e + 1) == 2 * pow2 e)%Q.
Proof. rewrite pow2_add. change (pow2 1) with 2%Q. ring. Qed.

Definition SF2Q (x : spec_float) : Q :=
  match x with
  | S754_finite s m e =>
      ((if s then - inject_Z (Zpos m) else inject_Z (Zpos m)) * pow2 e)%Q
  | _ => 0%Q
  end.

(** A mantissa of [d] digits at the exponent [e]. *)
Lemma magnitude (m e : Z) :
  0 < m ->
  (pow2 (Zdigits2 m + e - 1) <= inject_Z m * pow2 e < pow2 (Zdigits2 m + e))%Q.
Proof.
  intros Hm. pose proof (Zdigits2_spec m Hm) as [Hlow Hhigh].
  assert (Hd : 0 < Zdigits2 m) by (destruct m; [lia | done | lia]).
  pose proof (pow2_pos e) as He.
  replace (Zdigits2 m + e - 1) with ((Zdigits2 m - 1) + e) by lia.
  rewrite (pow2_add (Zdigits2 m - 1) e), (pow2_add (Zdigits2 m) e).
  rewrite (pow2_Z (Zdigits2 m - 1)), (pow2_Z (Zdigits2 m)) by lia.
  rewrite Zle_Qle in Hlow. rewrite Zlt_Qlt in Hhigh.
  split.
  - apply Qmult_le_compat_r; [exact Hlow | lra].
  - apply Qmult_lt_compat_r; [lra | exact Hhigh].
Qed.

(** **** Rounding, as a relative error *)

Definition unitRoundoff : Q := pow2 (-53).

Lemma binary_round_aux_relative (sx : bool) (mx ex : Z) (lx : location) (num den : Z) :
  represents num den (shr_record_of_loc mx lx) ->
  0 < mx -> 53 <= Zdigits2 mx ->
  let exact := (inject_Z num / inject_Z den * pow2 ex)%Q in
  (pow2 (-1021) <= exact)%Q -> (exact < pow2 1023)%Q ->
  exists (m : positive) (e : Z),
    binary_round_aux prec emax sx mx ex lx = S754_finite sx m e /\
    (exact * (1 - unitRoundoff) <= inject_Z (Zpos m) * pow2 e
     <= exact * (1 + unitRoundoff))%Q.
Proof.
  intros Hrec Hpos Hd exact Hlow Hhigh.
  pose proof Hrec as (Hden & Hnum & Hmx & _). rewrite shr_m_of_loc in Hmx.
  pose proof (Z.div_mod num den ltac:(lia)) as Hdiv.
  pose proof (Z.mod_pos_bound num den Hden) as Hrem.
  rewrite <- Hmx in Hdiv.
  set (d := Zdigits2 mx) in *.
  pose proof (pow2_pos ex) as Hex.
  assert (Hden' : (0 < inject_Z den)%Q) by (rewrite Zlt_Qlt in Hden; exact Hden).
  (* the mantissa is the integer part of the exact one *)
  assert (Hint : (inject_Z mx * pow2 ex <= exact < (inject_Z mx + 1) * pow2 ex)%Q).
  { assert (Hq : (inject_Z mx <= inject_Z num / inject_Z den < inject_Z mx + 1)%Q).
    { split.
      - apply Qle_shift_div_l; [done |].
        rewrite <- inject_Z_mult, <- Zle_Qle. nia.
      - apply Qlt_shift_div_r; [done |].
        change 1%Q with (inject_Z 1). rewrite <- inject_Z_plus, <- inject_Z_mult, <- Zlt_Qlt.
        nia. }
    unfold exact. split.
    - apply Qmult_le_compat_r; lra.
    - apply Qmult_lt_compat_r; lra. }
  pose proof (magnitude mx ex Hpos) as [Hmag Hmag']. fold d in Hmag, Hmag'.
  assert (Hexact : (pow2 (d + ex - 1) <= exact < pow2 (d + ex))%Q).
  { split; [lra |].
    assert (Hnext : (inject_Z (mx + 1) * pow2 ex <= pow2 (d + ex))%Q).
    { pose proof (Zdigits2_spec mx Hpos) as [_ Hup]. fold d in Hup.
      assert (Hle : mx + 1 <= 2 ^ d) by lia.
      assert (Hd0 : 0 <= d) by lia.
      rewrite pow2_add, (pow2_Z d) by done.
      rewrite Zle_Qle in Hle. apply Qmult_le_compat_r; lra. }
    rewrite inject_Z_plus in Hnext. change (inject_Z 1) with 1%Q in Hnext. lra. }
  assert (Hnormal : -1074 <= d + ex - 53).
  { assert (-1021 < d + ex) by (apply pow2_lt_inv; lra). lia. }
  assert (Hbounded : d + ex <= 1023).
  { assert (d + ex - 1 < 1023) by (apply pow2_lt_inv; lra). lia. }
  destruct (binary_round_aux_spec sx mx ex lx num den Hrec Hpos Hd Hnormal Hbounded)
    as (m & e & Hresult & He & _ & Herr).
  fold d in He, Herr.
  exists m, e. split; [exact Hresult |].
  (* from the integers to the rationals *)
  set (k := e - ex) in *. assert (Hk : 0 <= k) by lia.
  set (n := d - 53) in *. assert (Hn : 0 <= n) by lia.
  assert (He' : (pow2 e == inject_Z (2 ^ k) * pow2 ex)%Q).
  { replace e with (k + ex) by lia. by rewrite pow2_add, pow2_Z. }
  assert (Hhalf : (pow2 (d + ex - 1) * unitRoundoff * 2 == inject_Z (2 ^ n) * pow2 ex)%Q).
  { unfold unitRoundoff. rewrite <- (pow2_Z n) by done.
    rewrite <- !pow2_add. change 2%Q with (pow2 1) at 1. rewrite <- pow2_add.
    replace (d + ex - 1 + -53 + 1) with (n + ex) by lia. reflexivity. }
  assert (Hbound : (- (inject_Z den * inject_Z (2 ^ n))
                    <= 2 * (inject_Z (Zpos m) * inject_Z (2 ^ k) * inject_Z den - inject_Z num)
                    <= inject_Z den * inject_Z (2 ^ n))%Q).
  { assert (HT : (inject_Z (Zpos m * 2 ^ k * den - num)
                  == inject_Z (Zpos m) * inject_Z (2 ^ k) * inject_Z den - inject_Z num)%Q).
    { unfold Z.sub. rewrite inject_Z_plus, inject_Z_opp, !inject_Z_mult. ring. }
    rewrite <- HT, <- inject_Z_mult.
    change 2%Q with (inject_Z 2). rewrite <- inject_Z_mult, <- inject_Z_opp, <- !Zle_Qle.
    lia. }
  assert (Hscaled : (- (inject_Z (2 ^ n) * pow2 ex)
                     <= 2 * (inject_Z (Zpos m) * pow2 e - exact)
                     <= inject_Z (2 ^ n) * pow2 ex)%Q).
  { set (P := pow2 ex) in *. set (D := inject_Z den) in *.
    set (B := inject_Z (2 ^ n)) in *. set (N := inject_Z num) in *.
    set (W := (2 * (inject_Z (Zpos m) * inject_Z (2 ^ k) * D - N))%Q) in *.
    assert (Hscale : (0 < P / D)%Q) by (apply Qlt_shift_div_l; lra).
    assert (Heq : (2 * (inject_Z (Zpos m) * pow2 e - exact) == W * (P / D))%Q).
    { unfold exact, W. fold N D P. rewrite He'. field. lra. }
    assert (Hb : (B * P == D * B * (P / D))%Q) by (field; lra).
    assert (Hup : (W * (P / D) <= D * B * (P / D))%Q)
      by (apply Qmult_le_compat_r; lra).
    assert (Hdown : ((- (D * B)) * (P / D) <= W * (P / D))%Q)
      by (apply Qmult_le_compat_r; lra).
    rewrite Heq, Hb. split; lra. }
  assert (Hu : (0 < unitRoundoff)%Q) by apply pow2_pos.
  assert (Hprod : (pow2 (d + ex - 1) * unitRoundoff <= exact * unitRoundoff)%Q)
    by (apply Qmult_le_compat_r; lra).
  split; lra.
Qed.

(** **** Valid numbers *)

Lemma valid_canonical (s : bool) (m : positive) (e : Z) :
  valid_binary prec emax (S754_finite s m e) = true ->
  Zpos (digits2_pos m) <= 53 /\ -1074 <= e <= 971 /\
  (Zpos (digits2_pos m) = 53 \/ e = -1074).
Proof.
  unfold SpecFloat.valid_binary, bounded, canonical_mantissa, fexp, SpecFloat.emin, prec, emax.
  intros Hvalid. apply andb_true_iff in Hvalid as [Hcanonical Hbounded].
  apply Z.eqb_eq in Hcanonical. apply Z.leb_le in Hbounded. lia.
Qed.

Lemma valid_normal (s : bool) (m : positive) (e : Z) :
  valid_binary prec emax (S754_finite s m e) = true ->
  (pow2 (-1021) <= inject_Z (Zpos m) * pow2 e)%Q ->
  Zpos (digits2_pos m) = 53.
Proof.
  intros Hvalid Hlow. destruct (valid_canonical s m e Hvalid) as (Hd & He & [Hnormal | Hsub]);
    [done |].
  destruct (Z.eq_dec (Zpos (digits2_pos m)) 53) as [| Hne]; [done |].
  pose proof (magnitude (Zpos m) e ltac:(lia)) as [_ Hhigh]. cbn [Zdigits2] in Hhigh.
  assert (Hle : (pow2 (Zpos (digits2_pos m) + e) <= pow2 (-1022))%Q) by (apply pow2_le; lia).
  assert (Hlt : (pow2 (-1022) < pow2 (-1021))%Q) by (apply pow2_lt; lia).
  lra.
Qed.

(** **** Multiplication *)

Lemma SFmul_relative (mx my : positive) (ex ey : Z) :
  let X := (inject_Z (Zpos mx) * pow2 ex)%Q in
  let Y := (inject_Z (Zpos my) * pow2 ey)%Q in
  valid_binary prec emax (S754_finite false mx ex) = true ->
  (pow2 (-1021) <= X)%Q ->
  (pow2 (-1021) <= X * Y)%Q -> (X * Y < pow2 1023)%Q ->
  exists (m : positive) (e : Z),
    SFmul prec emax (S754_finite false mx ex) (S754_finite false my ey)
    = S754_finite false m e /\
    (X * Y * (1 - unitRoundoff) <= inject_Z (Zpos m) * pow2 e
     <= X * Y * (1 + unitRoundoff))%Q.
Proof.
  intros X Y Hvalid Hnormal Hlow Hhigh. cbn [SFmul xorb].
  pose proof (valid_normal false mx ex Hvalid Hnormal) as Hdx.
  assert (Hdigits : 53 <= Zdigits2 (Zpos (mx * my))).
  { pose proof (Zdigits2_spec (Zpos (mx * my)) ltac:(lia)) as [_ Hup].
    pose proof (digits2_pos_spec mx) as [Hmx _]. rewrite Hdx in Hmx.
    destruct (Z.le_gt_cases 53 (Zdigits2 (Zpos (mx * my)))) as [| Hsmall]; [done |].
    assert (2 ^ Zdigits2 (Zpos (mx * my)) <= 2 ^ 52) by (apply Z.pow_le_mono_r; lia).
    change (2 ^ (53 - 1)) with (2 ^ 52) in Hmx. nia. }
  assert (Hexact : (inject_Z (Zpos (mx * my)) / inject_Z 1 * pow2 (ex + ey) == X * Y)%Q).
  { unfold X, Y. rewrite Pos2Z.inj_mul, inject_Z_mult, pow2_add.
    change (inject_Z 1) with 1%Q. field. }
  destruct (binary_round_aux_relative false (Zpos (mx * my)) (ex + ey) loc_Exact
              (Zpos (mx * my)) 1 (represents_exact (Zpos (mx * my)) (Pos2Z.is_nonneg _))
              (Pos2Z.is_pos _) Hdigits)
    as (m & e & Hresult & Hbound); [by rewrite Hexact | by rewrite Hexact |].
  exists m, e. split; [exact Hresult |]. by rewrite <- Hexact.
Qed.

(** **** Division *)

Lemma new_location_represents (num den : Z) :
  0 < den -> 0 <= num ->
  represents num den (shr_record_of_loc (num / den) (new_location den (num mod den))).
Proof.
  intros Hden Hnum. unfold represents.
  pose proof (Z.mod_pos_bound num den Hden) as Hrem.
  set (r := num mod den) in *.
  split; [done |]. split; [done |]. rewrite shr_m_of_loc. split; [done |].
  assert (Hsmall : 2 * r < den -> (2 * r) mod den = 2 * r)
    by (intros; apply Z.mod_small; lia).
  assert (Hlarge : den <= 2 * r -> (2 * r) mod den = 2 * r - den)
    by (intros; symmetry; apply (Z.mod_unique (2 * r) den 1); lia).
  unfold new_location, new_location_even, new_location_odd.
  destruct (Z.even den) eqn:Heven.
  - destruct (Z.eqb_spec r 0) as [Hzero | Hnonzero].
    + rewrite Hzero. cbn [shr_record_of_loc shr_r shr_s].
      rewrite Z.mod_0_l by lia. destruct (Z.leb_spec den (2 * 0)); [lia | done].
    + destruct (Z.compare_spec (2 * r) den) as [Heq | Hlt | Hgt];
        cbn [shr_record_of_loc shr_r shr_s].
      * rewrite Heq, Z.mod_same, Z.leb_refl by lia. done.
      * rewrite Hsmall by lia.
        destruct (Z.leb_spec den (2 * r)), (Z.eqb_spec (2 * r) 0); (done || lia).
      * rewrite Hlarge by lia.
        destruct (Z.leb_spec den (2 * r)), (Z.eqb_spec (2 * r - den) 0); (done || lia).
  - assert (Hodd : 2 * r <> den).
    { intros Heq. rewrite <- Heq, Z.even_mul in Heven. done. }
    destruct (Z.eqb_spec r 0) as [Hzero | Hnonzero].
    + rewrite Hzero. cbn [shr_record_of_loc shr_r shr_s].
      rewrite Z.mod_0_l by lia. destruct (Z.leb_spec den (2 * 0)); [lia | done].
    + destruct (Z.compare_spec (2 * r + 1) den) as [Heq | Hlt | Hgt];
        cbn [shr_record_of_loc shr_r shr_s].
      * rewrite Hsmall by lia.
        destruct (Z.leb_spec den (2 * r)), (Z.eqb_spec (2 * r) 0); (done || lia).
      * rewrite Hsmall by lia.
        destruct (Z.leb_spec den (2 * r)), (Z.eqb_spec (2 * r) 0); (done || lia).
      * rewrite Hlarge by lia.
        destruct (Z.leb_spec den (2 * r)), (Z.eqb_spec (2 * r - den) 0); (done || lia).
Qed.

Lemma SFdiv_relative (mx my : positive) (ex ey : Z) :
  let X := (inject_Z (Zpos mx) * pow2 ex)%Q in
  let Y := (inject_Z (Zpos my) * pow2 ey)%Q in
  valid_binary prec emax (S754_finite false mx ex) = true ->
  valid_binary prec emax (S754_finite false my ey) = true ->
  (pow2 (-1021) <= X)%Q -> (pow2 (-1021) <= Y)%Q ->
  (pow2 (-1021) <= X / Y)%Q -> (X / Y < pow2 1023)%Q ->
  exists (m : positive) (e : Z),
    SFdiv prec emax (S754_finite false mx ex) (S754_finite false my ey)
    = S754_finite false m e /\
    (X / Y * (1 - unitRoundoff) <= inject_Z (Zpos m) * pow2 e
     <= X / Y * (1 + unitRoundoff))%Q.
Proof.
  intros X Y Hvx Hvy Hnx Hny Hlow Hhigh.
  pose proof (valid_normal false mx ex Hvx Hnx) as Hdx.
  pose proof (valid_normal false my ey Hvy Hny) as Hdy.
  pose proof (digits2_pos_spec mx) as [Hmx Hmx']. rewrite Hdx in Hmx, Hmx'.
  pose proof (digits2_pos_spec my) as [Hmy Hmy']. rewrite Hdy in Hmy, Hmy'.
  change (2 ^ (53 - 1)) with (2 ^ 52) in Hmx, Hmy.
  pose proof (pow2_pos ex) as Hpx. pose proof (pow2_pos ey) as Hpy.
  assert (HX : (0 < X)%Q) by (pose proof (pow2_pos (-1021)); lra).
  assert (HY : (0 < Y)%Q) by (pose proof (pow2_pos (-1021)); lra).
  assert (Hmy0 : (0 < inject_Z (Zpos my))%Q) by done.
  assert (Hsplit : (pow2 ex == pow2 (ex - ey) * pow2 ey)%Q).
  { rewrite <- pow2_add. by replace (ex - ey + ey) with ex by lia. }
  assert (Hquot : (X / Y == inject_Z (Zpos mx) / inject_Z (Zpos my) * pow2 (ex - ey))%Q).
  { unfold X, Y. rewrite Hsplit. field. split; lra. }
  (* the quotient of the mantissas lies between 1/2 and 2 *)
  assert (Hratio : (inject_Z (Zpos mx) / inject_Z (Zpos my) < 2)%Q).
  { apply Qlt_shift_div_r; [done |].
    change 2%Q with (inject_Z 2). rewrite <- inject_Z_mult, <- Zlt_Qlt. lia. }
  assert (Hexp : -1021 <= ex - ey).
  { pose proof (pow2_pos (ex - ey)) as Hp.
    assert (Hlt : (pow2 (-1021) < pow2 (ex - ey + 1))%Q).
    { rewrite pow2_succ.
      assert (inject_Z (Zpos mx) / inject_Z (Zpos my) * pow2 (ex - ey) < 2 * pow2 (ex - ey))%Q
        by (apply Qmult_lt_compat_r; lra).
      lra. }
    apply pow2_lt_inv in Hlt. lia. }
  cbn [SFdiv xorb]. unfold SFdiv_core_binary. cbn [Zdigits2]. rewrite Hdx, Hdy.
  rewrite (fexp_normal (53 + ex - (53 + ey))) by lia.
  replace (Z.min (53 + ex - (53 + ey) - 53) (ex - ey)) with (ex - ey - 53) by lia.
  replace (ex - ey - (ex - ey - 53)) with 53 by lia.
  rewrite Z.shiftl_mul_pow2 by lia.
  set (num := Zpos mx * 2 ^ 53).
  destruct (Z.div_eucl num (Zpos my)) as [q r] eqn:Hdiv.
  assert (Hq' : q = num / Zpos my) by (unfold Z.div; by rewrite Hdiv).
  assert (Hr' : r = num mod Zpos my) by (unfold Z.modulo; by rewrite Hdiv).
  subst q r. clear Hdiv.
  assert (Hq : 2 ^ 52 <= num / Zpos my).
  { apply Z.div_le_lower_bound; [lia |]. unfold num. lia. }
  assert (Hdigits : 53 <= Zdigits2 (num / Zpos my)).
  { pose proof (Zdigits2_spec (num / Zpos my) ltac:(lia)) as [_ Hup].
    destruct (Z.le_gt_cases 53 (Zdigits2 (num / Zpos my))) as [| Hsmall]; [done |].
    assert (2 ^ Zdigits2 (num / Zpos my) <= 2 ^ 52) by (apply Z.pow_le_mono_r; lia).
    lia. }
  assert (Hexact : (inject_Z num / inject_Z (Zpos my) * pow2 (ex - ey - 53) == X / Y)%Q).
  { rewrite Hquot. unfold num. rewrite inject_Z_mult, <- (pow2_Z 53) by lia.
    replace (ex - ey) with (53 + (ex - ey - 53)) at 2 by lia. rewrite pow2_add.
    field. lra. }
  destruct (binary_round_aux_relative false (num / Zpos my) (ex - ey - 53)
              (new_location (Zpos my) (num mod Zpos my)) num (Zpos my)
              (new_location_represents num (Zpos my) ltac:(lia) ltac:(unfold num; lia))
              ltac:(lia) Hdigits)
    as (m & e & Hresult & Hbound); [by rewrite Hexact | by rewrite Hexact |].
  exists m, e. split; [exact Hresult |]. by rewrite <- Hexact.
Qed.

(** **** Subtraction *)

(** A mantissa that is canonical at its exponent is not rounded. *)
Lemma binary_round_aux_exact (sx : bool) (m : positive) (e : Z) :
  fexp prec emax (Zpos (digits2_pos m) + e) = e -> e <= 971 ->
  binary_round_aux prec emax sx (Zpos m) e loc_Exact = S754_finite sx m e.
Proof.
  intros Hcanonical Hbounded. unfold binary_round_aux, shr_fexp. cbn [Zdigits2].
  rewrite Hcanonical, Z.sub_diag. cbn [shr shr_record_of_loc shr_m loc_of_shr_record
    shr_r shr_s round_nearest_even Zdigits2].
  rewrite Hcanonical, Z.sub_diag. cbn [shr shr_m].
  change (emax - prec) with 971. by destruct (Z.leb_spec e 971); [| lia].
Qed.

Lemma binary_round_relative (sx : bool) (p : positive) (ez : Z) :
  -1074 <= ez <= 971 ->
  let exact := (inject_Z (Zpos p) * pow2 ez)%Q in
  (exact < pow2 1023)%Q ->
  exists (m : positive) (e : Z),
    binary_round prec emax sx p ez = S754_finite sx m e /\
    (exact * (1 - unitRoundoff) <= inject_Z (Zpos m) * pow2 e
     <= exact * (1 + unitRoundoff))%Q.
Proof.
  intros Hez exact Hhigh. unfold binary_round.
  set (d := Zpos (digits2_pos p)).
  pose proof (digits2_pos_spec p) as Hdigits. fold d in Hdigits.
  assert (Hd : 0 < d) by done.
  pose proof (shl_align_spec p ez (fexp prec emax (d + ez))) as Halign.
  destruct (shl_align p ez (fexp prec emax (d + ez))) as [mz e'].
  destruct Halign as [He' Hmz].
  pose proof (pow2_pos ez) as Hpez.
  assert (Hexact_pos : (0 < exact)%Q).
  { unfold exact. apply Qmult_lt_0_compat; [done | exact Hpez]. }
  assert (Hu : (0 < unitRoundoff)%Q) by apply pow2_pos.
  destruct (Z.le_gt_cases (fexp prec emax (d + ez)) ez) as [Hshort | Hlong].
  - (* the difference fits: it is exact *)
    assert (He : e' = fexp prec emax (d + ez)) by lia.
    assert (Hdz : Zpos (digits2_pos mz) = d + ez - e').
    { apply digits2_pos_unique. rewrite Hmz.
      replace (d + ez - e' - 1) with ((d - 1) + (ez - e')) by lia.
      replace (d + ez - e') with (d + (ez - e')) by lia.
      rewrite !Z.pow_add_r by lia.
      assert (0 < 2 ^ (ez - e')) by (apply Z.pow_pos_nonneg; lia). nia. }
    rewrite binary_round_aux_exact.
    + exists mz, e'. split; [done |].
      assert (Hvalue : (inject_Z (Zpos mz) * pow2 e' == exact)%Q).
      { assert (Hsplit : (pow2 ez == pow2 (ez - e') * pow2 e')%Q).
        { rewrite <- pow2_add. by replace (ez - e' + e') with ez by lia. }
        unfold exact. rewrite Hmz, inject_Z_mult, <- (pow2_Z (ez - e')) by lia.
        rewrite Hsplit. ring. }
      rewrite Hvalue. split; nra.
    + rewrite Hdz. replace (d + ez - e' + e') with (d + ez) by lia. by rewrite He.
    + lia.
  - (* more than 53 digits: the difference is rounded *)
    assert (He : e' = ez) by lia.
    assert (Hmz' : mz = p).
    { rewrite He, Z.sub_diag in Hmz. simpl in Hmz. lia. }
    subst e' mz.
    assert (Hlarge : 54 <= d).
    { unfold fexp, SpecFloat.emin, prec, emax in Hlong. lia. }
    pose proof (magnitude (Zpos p) ez ltac:(done)) as [Hlow _]. cbn [Zdigits2] in Hlow.
    fold d in Hlow.
    assert (Hfloor : (pow2 (-1021) <= pow2 (d + ez - 1))%Q) by (apply pow2_le; lia).
    assert (Hsame : (inject_Z (Zpos p) / inject_Z 1 * pow2 ez == exact)%Q).
    { unfold exact. change (inject_Z 1) with 1%Q. field. }
    destruct (binary_round_aux_relative sx (Zpos p) ez loc_Exact (Zpos p) 1
                (represents_exact (Zpos p) (Pos2Z.is_nonneg _)) (Pos2Z.is_pos _))
      as (m & e & Hresult & Hbound).
    + cbn [Zdigits2]. fold d. lia.
    + rewrite Hsame. fold exact in Hlow. lra.
    + by rewrite Hsame.
    + exists m, e. split; [by rewrite He |]. by rewrite <- Hsame.
Qed.

Lemma SFleb_of_sign (x : spec_float) :
  hasSign true x -> SFleb x (S754_zero false) = true.
Proof. destruct x as [s | s | | s m e]; simpl; try done; by intros ->. Qed.

Lemma binary_normalize_nonpositive (m ez : Z) :
  m <= 0 -> SFleb (binary_normalize prec emax m ez false) (S754_zero false) = true.
Proof.
  intros Hm. destruct m as [| p | p]; [done | lia |].
  cbn [binary_normalize]. unfold binary_round.
  destruct (shl_align p ez _) as [mz e']. apply SFleb_of_sign.
  apply binary_round_aux_sign. lia.
Qed.

(** Both mantissas at the smaller of the exponents. *)
Lemma aligned_value (m : positive) (e ez : Z) :
  ez <= e ->
  (inject_Z (Zpos (fst (shl_align m e ez))) * pow2 ez == inject_Z (Zpos m) * pow2 e)%Q.
Proof.
  intros Hez. pose proof (shl_align_spec m e ez) as Halign.
  destruct (shl_align m e ez) as [m' e']. destruct Halign as [He' Hm']. cbn [fst].
  replace e' with ez in Hm' by lia.
  assert (Hsplit : (pow2 e == pow2 (e - ez) * pow2 ez)%Q).
  { rewrite <- pow2_add. by replace (e - ez + ez) with e by lia. }
  rewrite Hm', inject_Z_mult, <- (pow2_Z (e - ez)) by lia.
  rewrite Hsplit. ring.
Qed.

Lemma SFsub_positive (mx my : positive) (ex ey : Z) :
  let X := (inject_Z (Zpos mx) * pow2 ex)%Q in
  let Y := (inject_Z (Zpos my) * pow2 ey)%Q in
  valid_binary prec emax (S754_finite false mx ex) = true ->
  valid_binary prec emax (S754_finite false my ey) = true ->
  (Y < X)%Q -> (X - Y < pow2 1023)%Q ->
  exists (m : positive) (e : Z),
    SFsub prec emax (S754_finite false mx ex) (S754_finite false my ey)
    = S754_finite false m e /\
    ((X - Y) * (1 - unitRoundoff) <= inject_Z (Zpos m) * pow2 e
     <= (X - Y) * (1 + unitRoundoff))%Q.
Proof.
  intros X Y Hvx Hvy Hlt Hhigh.
  destruct (valid_canonical _ _ _ Hvx) as (_ & Hex & _).
  destruct (valid_canonical _ _ _ Hvy) as (_ & Hey & _).
  cbn [SFsub cond_Zopp]. set (ez := Z.min ex ey).
  pose proof (aligned_value mx ex ez ltac:(lia)) as Hx.
  pose proof (aligned_value my ey ez ltac:(lia)) as Hy.
  set (ax := Zpos (fst (shl_align mx ex ez))) in *.
  set (ay := Zpos (fst (shl_align my ey ez))) in *.
  pose proof (pow2_pos ez) as Hpez.
  assert (Hdiff : (inject_Z (ax - ay) * pow2 ez == X - Y)%Q).
  { unfold X, Y. rewrite <- Hx, <- Hy. unfold Z.sub.
    rewrite inject_Z_plus, inject_Z_opp. ring. }
  assert (Hpos : 0 < ax - ay).
  { destruct (Z.lt_ge_cases 0 (ax - ay)) as [| Hle]; [done |]. exfalso.
    assert (Hle' : (inject_Z (ax - ay) <= 0)%Q)
      by (change 0%Q with (inject_Z 0); by rewrite <- Zle_Qle).
    assert (inject_Z (ax - ay) * pow2 ez <= 0)%Q by nra. lra. }
  destruct (ax - ay) as [| p | p] eqn:Hp; [lia | | lia].
  cbn [binary_normalize].
  destruct (binary_round_relative false p ez ltac:(lia)) as (m & e & Hresult & Hbound).
  - by rewrite Hdiff.
  - exists m, e. split; [done |]. by rewrite <- Hdiff.
Qed.

Lemma SFsub_nonpositive (mx my : positive) (ex ey : Z) :
  let X := (inject_Z (Zpos mx) * pow2 ex)%Q in
  let Y := (inject_Z (Zpos my) * pow2 ey)%Q in
  (X <= Y)%Q ->
  SFleb (SFsub prec emax (S754_finite false mx ex) (S754_finite false my ey))
        (S754_zero false) = true.
Proof.
  intros X Y Hle. cbn [SFsub cond_Zopp]. set (ez := Z.min ex ey).
  pose proof (aligned_value mx ex ez ltac:(lia)) as Hx.
  pose proof (aligned_value my ey ez ltac:(lia)) as Hy.
  set (ax := Zpos (fst (shl_align mx ex ez))) in *.
  set (ay := Zpos (fst (shl_align my ey ez))) in *.
  pose proof (pow2_pos ez) as Hpez.
  apply binary_normalize_nonpositive.
  destruct (Z.le_gt_cases ax ay) as [| Hgt]; [lia |]. exfalso.
  assert (Hgt' : (inject_Z ay < inject_Z ax)%Q) by (by rewrite <- Zlt_Qlt).
  assert (inject_Z ay * pow2 ez < inject_Z ax * pow2 ez)%Q by nra.
  unfold X, Y in Hle. lra.
Qed.

Lemma SFsub_negative (mx my : positive) (ex ey : Z) :
  SFleb (SFsub prec emax (S754_finite true mx ex) (S754_finite false my ey))
        (S754_zero false) = true.
Proof.
  cbn [SFsub cond_Zopp]. apply binary_normalize_nonpositive. lia.
Qed.

(** **** Comparison *)

Lemma canonical_exponent_lt (mx my : positive) (ex ey : Z) :
  valid_binary prec emax (S754_finite false mx ex) = true ->
  valid_binary prec emax (S754_finite false my ey) = true ->
  ex < ey ->
  (inject_Z (Zpos mx) * pow2 ex < inject_Z (Zpos my) * pow2 ey)%Q.
Proof.
  intros Hvx Hvy Hlt.
  destruct (valid_canonical _ _ _ Hvx) as (Hdx & Hex & Hcx).
  destruct (valid_canonical _ _ _ Hvy) as (Hdy & Hey & Hcy).
  pose proof (magnitude (Zpos mx) ex ltac:(done)) as [_ Hhigh].
  pose proof (magnitude (Zpos my) ey ltac:(done)) as [Hlow _].
  cbn [Zdigits2] in Hhigh, Hlow.
  assert (Hle : (pow2 (Zpos (digits2_pos mx) + ex) <= pow2 (Zpos (digits2_pos my) + ey - 1))%Q)
    by (apply pow2_le; lia).
  lra.
Qed.

Lemma SFcompare_finite (mx my : positive) (ex ey : Z) :
  valid_binary prec emax (S754_finite false mx ex) = true ->
  valid_binary prec emax (S754_finite false my ey) = true ->
  SFcompare (S754_finite false mx ex) (S754_finite false my ey)
  = Some (inject_Z (Zpos mx) * pow2 ex ?= inject_Z (Zpos my) * pow2 ey)%Q.
Proof.
  intros Hvx Hvy. cbn [SFcompare]. f_equal. symmetry.
  destruct (Z.compare_spec ex ey) as [Heq | Hlt | Hgt].
  - subst ey. pose proof (pow2_pos ex) as Hp.
    change (Pos.compare_cont Eq mx my) with (Pos.compare mx my).
    destruct (Pos.compare_spec mx my) as [Hm | Hm | Hm].
    + subst my. by apply Qeq_alt.
    + apply Qlt_alt. apply Qmult_lt_compat_r; [done |]. rewrite <- Zlt_Qlt. lia.
    + apply Qgt_alt. apply Qmult_lt_compat_r; [done |]. rewrite <- Zlt_Qlt. lia.
  - apply Qlt_alt. by apply canonical_exponent_lt.
  - apply Qgt_alt. apply canonical_exponent_lt; [done | done | lia].
Qed.
End Rounding.

(** *** The numbers of the code as rational numbers *)

Module Float64.
Import PrimFloat SpecFloat FloatOps FloatAxioms Rounding.

(** The rational number that a finite binary64 number is. *)
Definition valueOf (x : float) : Q := SF2Q (Prim2SF x).

(** A finite number above 0, with its value. *)
Definition positiveFinite (x : float) (q : Q) : Prop :=
  exists (m : positive) (e : Z),
    Prim2SF x = S754_finite false m e /\ (q == inject_Z (Zpos m) * pow2 e)%Q.

Lemma positiveFinite_valueOf (x : float) (q : Q) :
  positiveFinite x q -> (valueOf x == q)%Q.
Proof. intros (m & e & Hx & Hq). unfold valueOf. by rewrite Hx, Hq. Qed.

Lemma positiveFinite_self (x : float) (m : positive) (e : Z) :
  Prim2SF x = S754_finite false m e -> positiveFinite x (inject_Z (Zpos m) * pow2 e).
Proof. intros Hx. by exists m, e. Qed.

Lemma positiveFinite_pos (x : float) (q : Q) : positiveFinite x q -> (0 < q)%Q.
Proof.
  intros (m & e & _ & Hq). rewrite Hq. apply Qmult_lt_0_compat; [done | apply pow2_pos].
Qed.

Lemma positiveFinite_valid (x : float) (m : positive) (e : Z) :
  Prim2SF x = S754_finite false m e ->
  SpecFloat.valid_binary prec emax (S754_finite false m e) = true.
Proof. intros <-. apply Prim2SF_valid. Qed.

Lemma zero_ltb (x : float) (q : Q) : positiveFinite x q -> (0 <? x)%float = true.
Proof. intros (m & e & Hx & _). by rewrite ltb_spec, Hx. Qed.

Lemma zero_leb (x : float) (q : Q) : positiveFinite x q -> (0 <=? x)%float = true.
Proof. intros (m & e & Hx & _). by rewrite leb_spec, Hx. Qed.

Lemma ltb_of_values (x y : float) (p q : Q) :
  positiveFinite x p -> positiveFinite y q -> (p < q)%Q -> (x <? y)%float = true.
Proof.
  intros (mx & ex & Hx & Hp) (my & ey & Hy & Hq) Hlt. rewrite Hp, Hq in Hlt.
  rewrite ltb_spec, Hx, Hy. unfold SFltb.
  rewrite SFcompare_finite by eauto using positiveFinite_valid.
  destruct (Qcompare _ _) eqn:Hcmp; [| done |].
  - apply Qeq_alt in Hcmp. lra.
  - apply Qgt_alt in Hcmp. lra.
Qed.

Lemma leb_of_values (x y : float) (p q : Q) :
  positiveFinite x p -> positiveFinite y q -> (p <= q)%Q -> (x <=? y)%float = true.
Proof.
  intros (mx & ex & Hx & Hp) (my & ey & Hy & Hq) Hle. rewrite Hp, Hq in Hle.
  rewrite leb_spec, Hx, Hy. unfold SFleb.
  rewrite SFcompare_finite by eauto using positiveFinite_valid.
  destruct (Qcompare _ _) eqn:Hcmp; [done | done |].
  apply Qgt_alt in Hcmp. lra.
Qed.

Lemma values_of_leb (x y : float) (p q : Q) :
  positiveFinite x p -> positiveFinite y q -> (x <=? y)%float = true -> (p <= q)%Q.
Proof.
  intros (mx & ex & Hx & Hp) (my & ey & Hy & Hq). rewrite Hp, Hq.
  rewrite leb_spec, Hx, Hy. unfold SFleb.
  rewrite SFcompare_finite by eauto using positiveFinite_valid.
  destruct (Qcompare _ _) eqn:Hcmp; [| | done]; intros _.
  - apply Qeq_alt in Hcmp. lra.
  - apply Qlt_alt in Hcmp. lra.
Qed.

(** A number between two finite numbers above 0 is one of them. *)
Lemma between_finite (x low high : float) (p q : Q) :
  positiveFinite low p -> positiveFinite high q ->
  (low <=? x)%float = true -> (x <=? high)%float = true ->
  exists v, positiveFinite x v /\ (p <= v <= q)%Q.
Proof.
  intros Hlow Hhigh Hle1 Hle2.
  destruct (Prim2SF x) as [s | s | | s m e] eqn:Hx.
  - exfalso. destruct Hlow as (ml & el & Hl & _). rewrite leb_spec, Hx, Hl in Hle1. done.
  - exfalso. destruct Hlow as (ml & el & Hl & _). destruct Hhigh as (mh & eh & Hh & _).
    rewrite leb_spec, Hx, Hl in Hle1. rewrite leb_spec, Hx, Hh in Hle2.
    by destruct s.
  - exfalso. destruct Hlow as (ml & el & Hl & _). rewrite leb_spec, Hx, Hl in Hle1. done.
  - destruct s.
    + exfalso. destruct Hlow as (ml & el & Hl & _). rewrite leb_spec, Hx, Hl in Hle1. done.
    + pose proof (positiveFinite_self x m e Hx) as Hfinite.
      eexists. split; [exact Hfinite |].
      split; eauto using values_of_leb.
Qed.

(** *** The operations of the code, on finite numbers above 0 *)

Definition normalRange (q : Q) : Prop := (pow2 (-1021) <= q < pow2 1023)%Q.

Lemma mul_relative (x y : float) (p q : Q) :
  positiveFinite x p -> positiveFinite y q ->
  normalRange p -> normalRange (p * q) ->
  exists v, positiveFinite (x * y)%float v /\
    (p * q * (1 - unitRoundoff) <= v <= p * q * (1 + unitRoundoff))%Q.
Proof.
  intros (mx & ex & Hx & Hp) (my & ey & Hy & Hq). unfold normalRange.
  rewrite Hp, Hq. intros [Hnormal _] [Hlow Hhigh].
  destruct (SFmul_relative mx my ex ey (positiveFinite_valid x mx ex Hx) Hnormal Hlow Hhigh)
    as (m & e & Hresult & Hbound).
  exists (inject_Z (Zpos m) * pow2 e)%Q. split; [| rewrite Hp, Hq; exact Hbound].
  apply positiveFinite_self. by rewrite mul_spec, Hx, Hy.
Qed.

Lemma div_relative (x y : float) (p q : Q) :
  positiveFinite x p -> positiveFinite y q ->
  normalRange p -> normalRange q -> normalRange (p / q) ->
  exists v, positiveFinite (x / y)%float v /\
    (p / q * (1 - unitRoundoff) <= v <= p / q * (1 + unitRoundoff))%Q.
Proof.
  intros (mx & ex & Hx & Hp) (my & ey & Hy & Hq). unfold normalRange.
  rewrite Hp, Hq. intros [Hnx _] [Hny _] [Hlow Hhigh].
  destruct (SFdiv_relative mx my ex ey (positiveFinite_valid x mx ex Hx)
              (positiveFinite_valid y my ey Hy) Hnx Hny Hlow Hhigh)
    as (m & e & Hresult & Hbound).
  exists (inject_Z (Zpos m) * pow2 e)%Q. split; [| rewrite Hp, Hq; exact Hbound].
  apply positiveFinite_self. by rewrite div_spec, Hx, Hy.
Qed.

(** [x - y] when [y] is the smaller: a finite number above 0. *)
Lemma sub_relative (x y : float) (p q : Q) :
  positiveFinite x p -> positiveFinite y q ->
  (q < p)%Q -> (p - q < pow2 1023)%Q ->
  exists v, positiveFinite (x - y)%float v /\
    ((p - q) * (1 - unitRoundoff) <= v <= (p - q) * (1 + unitRoundoff))%Q.
Proof.
  intros (mx & ex & Hx & Hp) (my & ey & Hy & Hq). rewrite Hp, Hq. intros Hlt Hhigh.
  destruct (SFsub_positive mx my ex ey (positiveFinite_valid x mx ex Hx)
              (positiveFinite_valid y my ey Hy) Hlt Hhigh)
    as (m & e & Hresult & Hbound).
  exists (inject_Z (Zpos m) * pow2 e)%Q. split; [| rewrite Hp, Hq; exact Hbound].
  apply positiveFinite_self. by rewrite sub_spec, Hx, Hy.
Qed.

(** [x - y] when [x] is not a number above [y]: not above 0. *)
Definition atMost (x : float) (q : Q) : Prop :=
  match Prim2SF x with
  | S754_nan | S754_infinity false => False
  | S754_finite false m e => (inject_Z (Zpos m) * pow2 e <= q)%Q
  | _ => True
  end.

Lemma atMost_finite (x : float) (p q : Q) : positiveFinite x p -> atMost x q -> (p <= q)%Q.
Proof. intros (m & e & Hx & Hp). unfold atMost. by rewrite Hx, Hp. Qed.

Lemma finite_atMost (x : float) (p q : Q) : positiveFinite x p -> (p <= q)%Q -> atMost x q.
Proof. intros (m & e & Hx & Hp). unfold atMost. by rewrite Hx, Hp. Qed.

Lemma atMost_weaken (x : float) (p q : Q) : atMost x p -> (p <= q)%Q -> atMost x q.
Proof.
  unfold atMost. destruct (Prim2SF x) as [s | s | | s m e]; try done.
  destruct s; [done |]. intros Hp Hq. lra.
Qed.

Lemma atMost_of_leb (x y : float) (q : Q) :
  positiveFinite y q -> (x <=? y)%float = true -> atMost x q.
Proof.
  intros Hy Hle. unfold atMost.
  destruct (Prim2SF x) as [s | s | | s m e] eqn:Hx; [done | | | ].
  - destruct s; [done |]. destruct Hy as (my & ey & Hy & _).
    rewrite leb_spec, Hx, Hy in Hle. done.
  - rewrite leb_spec, Hx in Hle. done.
  - destruct s; [done |].
    pose proof (positiveFinite_self x m e Hx) as Hfinite.
    eauto using values_of_leb.
Qed.

Lemma sub_not_above_zero (x y : float) (q : Q) :
  positiveFinite y q -> atMost x q -> (x - y <=? 0)%float = true.
Proof.
  intros (my & ey & Hy & Hq). unfold atMost. intros Hx.
  rewrite leb_spec, sub_spec, Hy. change (Prim2SF 0) with (S754_zero false).
  destruct (Prim2SF x) as [s | s | | s m e]; [by destruct s | by destruct s | done |].
  destruct s; [apply SFsub_negative |]. apply SFsub_nonpositive. by rewrite <- Hq.
Qed.

Lemma sub_above_zero (x y : float) (v : Q) :
  positiveFinite (x - y)%float v -> (x - y <=? 0)%float = false.
Proof. intros (m & e & Hx & _). by rewrite leb_spec, Hx. Qed.

End Float64.

(** *** The attenuation of a forced stop, as the code computes it *)

Section Attenuation.
Import PrimFloat SpecFloat FloatOps FloatAxioms Rounding Float64.
#[local] Set Warnings "-inexact-float".

Lemma unitRoundoff_value : (unitRoundoff == 1 # 9007199254740992)%Q.
Proof. vm_compute. reflexivity. Qed.

Lemma one_finite : positiveFinite 1 1.
Proof.
  exists 4503599627370496%positive, (-52). split; vm_compute; reflexivity.
Qed.

Lemma largest_rate_finite : positiveFinite 1048576 1048576.
Proof.
  exists 4503599627370496%positive, (-32). split; vm_compute; reflexivity.
Qed.

(** The binary64 number nearest to 0.1 is a little above it. *)
Lemma forceStopReleaseTime_finite :
  positiveFinite Binary64.forceStopReleaseTime (3602879701896397 # 36028797018963968).
Proof.
  exists 7205759403792794%positive, (-56). split; vm_compute; reflexivity.
Qed.

Lemma normalRange_moderate (q : Q) :
  (1 # 1099511627776 <= q <= 1099511627776)%Q -> normalRange q.
Proof.
  intros [Hlow Hhigh]. unfold normalRange.
  assert (Hsmall : (pow2 (-1021) <= pow2 (-40))%Q) by (apply pow2_le; lia).
  assert (Hlarge : (pow2 41 <= pow2 1023)%Q) by (apply pow2_le; lia).
  assert (Hsmall' : (pow2 (-40) == 1 # 1099511627776)%Q) by (vm_compute; reflexivity).
  assert (Hlarge' : (pow2 41 == 2199023255552)%Q) by (vm_compute; reflexivity).
  rewrite Hsmall' in Hsmall. rewrite Hlarge' in Hlarge. split; lra.
Qed.

Lemma attenuation_bound (rate bufferSize : float) (R B : Q) :
  positiveFinite rate R -> positiveFinite bufferSize B ->
  (1 <= R <= 1048576)%Q -> (1 <= B <= 1048576)%Q ->
  exists A,
    positiveFinite (1 / (Binary64.forceStopReleaseTime * rate) * bufferSize)%float A /\
    (B * (1 - 4 * unitRoundoff) <= A * (R / 10))%Q.
Proof.
  intros Hrate Hsize HR HB.
  pose proof unitRoundoff_value as Hu.
  (* forceStopReleaseTime * sampleRate *)
  destruct (mul_relative _ _ _ _ forceStopReleaseTime_finite Hrate) as (T & Htime & HT).
  { apply normalRange_moderate. lra. }
  { apply normalRange_moderate. lra. }
  rewrite Hu in HT.
  (* 1 / that *)
  assert (HTpos : (0 < T)%Q) by lra.
  assert (Hinv : (T * (1 / T) == 1)%Q) by (field; lra).
  assert (Hinv_low : (1 # 1048577 <= 1 / T)%Q).
  { apply Qle_shift_div_l; [done |]. lra. }
  assert (Hinv_high : (1 / T <= 11)%Q).
  { apply Qle_shift_div_r; [done |]. lra. }
  destruct (div_relative _ _ _ _ one_finite Htime) as (W & Hinverse & HW).
  { apply normalRange_moderate. lra. }
  { apply normalRange_moderate. lra. }
  { apply normalRange_moderate. lra. }
  rewrite Hu in HW.
  (* times bufferSize *)
  assert (HWpos : (0 < W)%Q) by lra.
  assert (HWB_low : (W * 1 <= W * B)%Q) by (apply Qmult_le_l; lra).
  assert (HWB_high : (W * B <= W * 1048576)%Q) by (apply Qmult_le_l; lra).
  destruct (mul_relative _ _ _ _ Hinverse Hsize) as (A & Hattenuation & HA).
  { apply normalRange_moderate. lra. }
  { apply normalRange_moderate. lra. }
  rewrite Hu in HA.
  exists A. split; [exact Hattenuation |].
  rewrite Hu.
  (* A * T is (1 - u)^2 * B at least, and T is (1 + u)^2 * R / 10 at most *)
  assert (HWT : (1 - (1 # 9007199254740992) <= W * T)%Q).
  { assert (H1 : (1 / T * (1 - (1 # 9007199254740992)) * T <= W * T)%Q)
      by (apply Qmult_le_compat_r; lra).
    assert (H2 : (1 / T * (1 - (1 # 9007199254740992)) * T
                  == (T * (1 / T)) * (1 - (1 # 9007199254740992)))%Q) by ring.
    rewrite H2, Hinv in H1. lra. }
  assert (HAT : (B * (1 - (1 # 9007199254740992)) * (1 - (1 # 9007199254740992))
                 <= A * T)%Q).
  { assert (H1 : (W * B * (1 - (1 # 9007199254740992)) * T <= A * T)%Q)
      by (apply Qmult_le_compat_r; lra).
    assert (H2 : ((1 - (1 # 9007199254740992)) * (B * (1 - (1 # 9007199254740992)))
                  <= W * T * (B * (1 - (1 # 9007199254740992))))%Q)
      by (apply Qmult_le_compat_r; lra).
    assert (H3 : (W * B * (1 - (1 # 9007199254740992)) * T
                  == W * T * (B * (1 - (1 # 9007199254740992))))%Q) by ring.
    rewrite H3 in H1. lra. }
  assert (HApos : (0 < A)%Q) by lra.
  assert (HAT' : (A * T <= A * ((3602879701896397 # 36028797018963968) * R
                                * (1 + (1 # 9007199254740992))))%Q)
    by (apply Qmult_le_l; lra).
  assert (Hsplit : (A * ((3602879701896397 # 36028797018963968) * R
                         * (1 + (1 # 9007199254740992)))
                    == A * (R / 10) * ((36028797018963970 # 36028797018963968)
                                       * (1 + (1 # 9007199254740992))))%Q) by (field; lra).
  rewrite Hsplit in HAT'.
  set (P := (A * (R / 10))%Q) in *.
  lra.
Qed.

End Attenuation.

(** *** The forced stop, call after call *)

Section ForceStopRounded.
Import PrimFloat SpecFloat FloatOps FloatAxioms Rounding Float64.
Import Binary64.AmplitudeEnvelope.
Context {M : Binary64.MathOps}.
Variable host : Binary64.Host.
Variable globalRate : float.
Hypothesis host_binds_sampleRate : Binary64.hostSampleRate host = Some globalRate.
Variable rate bufferSize : float.

(** The value of [attenuationPerFrame]. *)
Variable attenuation : Q.
Hypothesis attenuation_finite :
  positiveFinite (1 / (Binary64.forceStopReleaseTime * rate) * bufferSize)%float attenuation.
Hypothesis attenuation_large : (unitRoundoff < attenuation)%Q.

(** What a call takes off an amplitude, at least: the attenuation less the
    rounding of the subtraction. *)
Definition progress : Q := (attenuation - unitRoundoff)%Q.

Definition rampState64 (k : nat) (env : t) : Prop :=
  sampleRate env = rate /\
  ((phase env = EnvelopePhase.forceStop /\
    atMost (lastAmplitude env) (1 - countQ k * progress) /\
    ((0 < k)%nat -> exists v, positiveFinite (lastAmplitude env) v)) \/
   (phase env = EnvelopePhase.stopped /\ lastAmplitude env = 0%float)).

Definition rampValue64 (k : nat) (x : float) : Prop :=
  x = 0%float \/
  exists v, positiveFinite x v /\ (v <= 1 - countQ k * progress)%Q.

(** [y] after [x]: not above it, and below it when [x] is above 0. *)
Definition falls (x y : float) : Prop :=
  (y <=? x)%float = true /\ ((0 <? x)%float = true -> (y <? x)%float = true).

Lemma atMost_or_above (x : float) (bound q : Q) :
  atMost x bound ->
  atMost x q \/ exists v, positiveFinite x v /\ (q < v <= bound)%Q.
Proof.
  unfold atMost. destruct (Prim2SF x) as [s | s | | s m e] eqn:Hx; auto.
  destruct s; auto. intros Hbound.
  destruct (Qlt_le_dec q (inject_Z (Zpos m) * pow2 e)) as [Hlt | Hle]; auto.
  right. eexists. split; [exact (positiveFinite_self x m e Hx) | done].
Qed.

Lemma getAmplitude_ramp64 (k : nat) (env : t) :
  rampState64 k env ->
  exists env' value,
    getAmplitude host bufferSize env = Ok (env', value) /\
    rampState64 (S k) env' /\ lastAmplitude env' = value /\
    rampValue64 (S k) value /\
    ((0 < k)%nat -> falls (lastAmplitude env) value).
Proof using host_binds_sampleRate attenuation_finite attenuation_large.
  pose proof (pow2_pos (-53)) as Hu. fold unitRoundoff in Hu.
  pose proof (countQ_S k) as Hnext.
  assert (Hcount : (0 <= countQ k)%Q).
  { unfold countQ. change 0%Q with (inject_Z 0). rewrite <- Zle_Qle. lia. }
  assert (Hprogress : (0 < progress)%Q) by (unfold progress; lra).
  assert (Hspent : (0 <= countQ k * progress)%Q) by (apply Qmult_le_0_compat; lra).
  intros [Hrate [(Hphase & Hlast & Hreturned) | (Hphase & Hlast)]].
  - unfold getAmplitude, calculateAmplitude. unfold phase in *.
    rewrite Hphase, andb_false_r. cbn [EnvelopePhase.eqb orb]. rewrite Hphase.
    rewrite Hrate, host_binds_sampleRate.
    set (a := (1 / (Binary64.forceStopReleaseTime * rate) * bufferSize)%float) in *.
    destruct (atMost_or_above _ _ attenuation Hlast) as [Hbelow | (X & Hfinite & Habove & HX)].
    + (* the amplitude is used up: the envelope stops *)
      rewrite (sub_not_above_zero _ _ _ attenuation_finite Hbelow).
      unfold setPhase. rewrite Hphase. cbn [EnvelopePhase.eqb].
      eexists _, _. split; [reflexivity |]. cbn [sampleRate _phase lastAmplitude].
      split; [split; [done | right; done] |]. split; [done |]. split; [left; done |].
      intros Hk. destruct (Hreturned Hk) as (v & Hv).
      split; [by eapply zero_leb | done].
    + (* there is amplitude left *)
      assert (Hleft : (X - attenuation <= 1)%Q) by lra.
      destruct (sub_relative _ _ _ _ Hfinite attenuation_finite Habove) as (V & Hvalue & HV).
      { assert (Hone : (pow2 0 <= pow2 1023)%Q) by (apply pow2_le; lia).
        change (pow2 0) with 1%Q in Hone. lra. }
      assert (Hround : ((X - attenuation) * unitRoundoff <= 1 * unitRoundoff)%Q)
        by (apply Qmult_le_compat_r; lra).
      assert (Hupper : (V <= X - progress)%Q) by (unfold progress; lra).
      rewrite (sub_above_zero _ _ _ Hvalue).
      eexists _, _. split; [reflexivity |]. cbn [sampleRate _phase lastAmplitude].
      assert (Hbound : (V <= 1 - countQ (S k) * progress)%Q) by (rewrite Hnext; lra).
      split; [split; [done | left] |].
      { split; [done |]. split; [by eapply finite_atMost | by eauto]. }
      split; [done |]. split; [right; by eauto |].
      intros _. split.
      * eapply leb_of_values; [exact Hvalue | exact Hfinite | lra].
      * intros _. eapply ltb_of_values; [exact Hvalue | exact Hfinite | lra].
  - unfold getAmplitude, calculateAmplitude. unfold phase in *.
    rewrite Hphase, andb_false_r. cbn [EnvelopePhase.eqb orb]. rewrite Hphase.
    rewrite host_binds_sampleRate.
    eexists _, _. split; [reflexivity |]. cbn [sampleRate _phase lastAmplitude].
    split; [split; [done | right; done] |]. split; [done |]. split; [left; done |].
    intros _. rewrite Hlast. split; [done | done].
Qed.

Lemma getAmplitudes_ramp64 (n : nat) : forall (k : nat) (env : t),
  rampState64 k env ->
  exists env' values,
    Binary64.getAmplitudes host bufferSize n env = Ok (env', values) /\
    length values = n /\
    rampState64 (k + n) env' /\
    (forall i x, values !! i = Some x -> rampValue64 (k + S i) x) /\
    (forall x, values !! 0%nat = Some x -> (0 < k)%nat -> falls (lastAmplitude env) x) /\
    (forall i x y, values !! i = Some x -> values !! S i = Some y -> falls x y).
Proof using host_binds_sampleRate attenuation_finite attenuation_large.
  induction n as [| n IH]; intros k env Hstate.
  - exists env, []. rewrite Nat.add_0_r.
    split; [done |]. split; [done |]. split; [done |]. split; [done |]. split; done.
  - destruct (getAmplitude_ramp64 k env Hstate)
      as (env1 & value & Hcall & Hstate1 & Hlast1 & Hvalue & Hfalls).
    destruct (IH (S k) env1 Hstate1)
      as (env2 & values & Hrest & Hlen & Hstate2 & Hvalues & Hfirst & Hchain).
    exists env2, (value :: values). simpl. rewrite Hcall. simpl. rewrite Hrest. simpl.
    replace (k + S n)%nat with (S k + n)%nat by lia.
    split; [done |]. split; [by rewrite Hlen |]. split; [done |].
    split; [| split].
    + intros [| i] x Hx; simpl in Hx.
      * injection Hx as <-. by rewrite Nat.add_1_r.
      * replace (k + S (S i))%nat with (S k + S i)%nat by lia. auto.
    + intros x Hx. injection Hx as <-. exact Hfalls.
    + intros [| i] x y Hx Hy; simpl in Hx, Hy.
      * injection Hx as <-. rewrite <- Hlast1. apply Hfirst; [done | lia].
      * eauto.
Qed.

End ForceStopRounded.

Section ForceStopRoundedCalls.
Import PrimFloat.

(** C4 (amended).  In the arithmetic of the code, binary64, and in a scope
    that binds [sampleRate]: for an envelope whose sample rate lies between
    1 and 1048576 and whose last amplitude is 1 at most, and for a buffer
    size between 1 and 1048576, after [forceStop()], whatever the phase and
    the release time, every call of [getAmplitude(bufferSize)] returns; the
    amplitudes returned never grow, and fall strictly as long as they are
    above 0; each is above 0 or exactly 0; from the call number
    [ceil(forceStopReleaseTime * sampleRate / bufferSize) + 1] on they are
    exactly 0 and the phase is stopped. *)
Theorem forceStop_reaches_zero_in_binary64 {M : Binary64.MathOps}
    (host : Binary64.Host) (globalRate : PrimFloat.float)
    (env : Binary64.AmplitudeEnvelope.t) (bufferSize : PrimFloat.float) :
  Binary64.hostSampleRate host = Some globalRate ->
  PrimFloat.leb 1%float (Binary64.AmplitudeEnvelope.sampleRate env) = true ->
  PrimFloat.leb (Binary64.AmplitudeEnvelope.sampleRate env) 1048576%float = true ->
  PrimFloat.leb 1%float bufferSize = true ->
  PrimFloat.leb bufferSize 1048576%float = true ->
  PrimFloat.leb (Binary64.AmplitudeEnvelope.lastAmplitude env) 1%float = true ->
  let budget :=
    Z.to_nat (Qceiling (forceStopReleaseTime
                        * Float64.valueOf (Binary64.AmplitudeEnvelope.sampleRate env)
                        / Float64.valueOf bufferSize)) in
  forall n : nat,
  exists env' values,
    Binary64.getAmplitudes host bufferSize n (Binary64.AmplitudeEnvelope.forceStop env)
    = Ok (env', values) /\
    length values = n /\
    (forall i x y, values !! i = Some x -> values !! S i = Some y ->
       PrimFloat.leb y x = true /\
       (PrimFloat.ltb 0%float x = true -> PrimFloat.ltb y x = true)) /\
    (forall i x, values !! i = Some x -> x = 0%float \/ PrimFloat.ltb 0%float x = true) /\
    (forall i x, (budget + 1 <= S i)%nat -> values !! i = Some x -> x = 0%float) /\
    ((budget + 1 <= n)%nat ->
     Binary64.AmplitudeEnvelope.phase env' = EnvelopePhase.stopped).
Proof.
  intros Hhost Hrate_low Hrate_high Hsize_low Hsize_high Hlast budget n.
  set (rate := Binary64.AmplitudeEnvelope.sampleRate env) in *.
  destruct (Float64.between_finite rate _ _ _ _ one_finite largest_rate_finite
              Hrate_low Hrate_high) as (R & Hrate & HR).
  destruct (Float64.between_finite bufferSize _ _ _ _ one_finite largest_rate_finite
              Hsize_low Hsize_high) as (B & Hsize & HB).
  destruct (attenuation_bound rate bufferSize R B Hrate Hsize HR HB)
    as (A & Hattenuation & HA).
  pose proof unitRoundoff_value as Hu.
  pose proof (Float64.positiveFinite_pos _ _ Hattenuation) as HApos.
  change (R / 10)%Q with (R * (1 # 10))%Q in HA.
  assert (HAR : (A * (R * (1 # 10)) <= A * (1048576 * (1 # 10)))%Q)
    by (apply Qmult_le_l; lra).
  rewrite Hu in HA.
  assert (Hlarge : (Rounding.unitRoundoff < A)%Q) by (rewrite Hu; lra).
  (* the calls, one after the other *)
  assert (Hinit : rampState64 rate A 0 (Binary64.AmplitudeEnvelope.forceStop env)).
  { assert (Hatmost : Float64.atMost (Binary64.AmplitudeEnvelope.lastAmplitude env)
                        (1 - countQ 0 * progress A)).
    { eapply Float64.atMost_weaken; [exact (Float64.atMost_of_leb _ _ _ one_finite Hlast) |].
      assert (Hzero : (countQ 0 == 0)%Q) by reflexivity. rewrite Hzero. lra. }
    unfold Binary64.AmplitudeEnvelope.forceStop, Binary64.AmplitudeEnvelope.setPhase,
      rampState64, Binary64.AmplitudeEnvelope.phase.
    destruct (EnvelopePhase.eqb (Binary64.AmplitudeEnvelope._phase env)
                EnvelopePhase.forceStop) eqn:Hphase; simpl.
    - split; [done |]. left. split; [| split; [done | lia]].
      by destruct (Binary64.AmplitudeEnvelope._phase env).
    - split; [done |]. left. split; [done |]. split; [done | lia]. }
  destruct (getAmplitudes_ramp64 host globalRate Hhost rate bufferSize A Hattenuation
              Hlarge n 0 _ Hinit)
    as (env' & values & Hrun & Hlen & Hfinal & Hvalues & _ & Hchain).
  (* the attenuation adds up to 1 within the calls *)
  set (ratio := (forceStopReleaseTime * Float64.valueOf rate / Float64.valueOf bufferSize)%Q)
    in *.
  assert (Hratio : (ratio == (1 # 10) * R / B)%Q).
  { unfold ratio, forceStopReleaseTime.
    by rewrite (Float64.positiveFinite_valueOf _ _ Hrate),
      (Float64.positiveFinite_valueOf _ _ Hsize). }
  assert (Hratio_pos : (0 < ratio)%Q).
  { rewrite Hratio. apply Qlt_shift_div_l; lra. }
  assert (Hratio_high : (ratio <= 104858)%Q).
  { rewrite Hratio. apply Qle_shift_div_r; lra. }
  assert (Hone : (1 - 4 * (1 # 9007199254740992) <= ratio * A)%Q).
  { assert (Heq : (ratio * A == A * (R * (1 # 10)) / B)%Q) by (rewrite Hratio; field; lra).
    rewrite Heq. apply Qle_shift_div_l; lra. }
  pose proof (Qle_ceiling ratio) as Hceil.
  assert (Hceil_pos : 0 < Qceiling ratio).
  { rewrite Zlt_Qlt. change (inject_Z 0) with 0%Q. lra. }
  assert (Hbudget : (countQ budget == inject_Z (Qceiling ratio))%Q).
  { unfold countQ, budget. rewrite Z2Nat.id by lia. reflexivity. }
  assert (Hprogress : (0 < progress A)%Q) by (unfold progress; lra).
  assert (Hpast : forall k, (budget + 1 <= k)%nat -> (1 - countQ k * progress A <= 0)%Q).
  { intros k Hk.
    assert (Hcount : (ratio + 1 <= countQ k)%Q).
    { assert (Hle : (countQ (budget + 1) <= countQ k)%Q) by (by apply countQ_le).
      rewrite Nat.add_1_r, countQ_S, Hbudget in Hle. lra. }
    assert (Hmul : ((ratio + 1) * progress A <= countQ k * progress A)%Q)
      by (apply Qmult_le_compat_r; lra).
    assert (Hexpand : ((ratio + 1) * progress A
                       == ratio * A - ratio * Rounding.unitRoundoff + progress A)%Q)
      by (unfold progress; ring).
    rewrite Hexpand in Hmul. unfold progress in *. rewrite Hu in *. lra. }
  exists env', values. split; [done |]. split; [done |]. split; [| split; [| split]].
  - intros i x y Hx Hy. exact (Hchain i x y Hx Hy).
  - intros i x Hx. destruct (Hvalues i x Hx) as [-> | (v & Hv & _)]; [by left |].
    right. by eapply Float64.zero_ltb.
  - intros i x Hi Hx. destruct (Hvalues i x Hx) as [-> | (v & Hv & Hbound)]; [done |].
    exfalso. pose proof (Float64.positiveFinite_pos _ _ Hv).
    pose proof (Hpast (S i) Hi). simpl in Hbound. lra.
  - intros Hn. destruct Hfinal as [_ [(_ & Hbound & Hpos) | (Hphase & _)]]; [| done].
    exfalso. destruct (Hpos ltac:(lia)) as (v & Hv).
    pose proof (Float64.positiveFinite_pos _ _ Hv).
    pose proof (Float64.atMost_finite _ _ _ Hv Hbound).
    pose proof (Hpast n Hn). simpl in *. lra.
Qed.

(** Some bound on the sample rate is needed.  At 10^18 frames a second
    with buffers of one frame, the attenuation is lost in the rounding of
    the subtraction: the amplitude stays at 1 and the envelope in the
    forced-stop phase, however many calls are made. *)
Lemma forceStop_never_ends_at_huge_rate {M : Binary64.MathOps} (n : nat) :
  forall env : Binary64.AmplitudeEnvelope.t,
  Binary64.AmplitudeEnvelope.phase env = EnvelopePhase.forceStop ->
  Binary64.AmplitudeEnvelope.lastAmplitude env = 1%float ->
  Binary64.AmplitudeEnvelope.sampleRate env = 1e18%float ->
  exists env',
    Binary64.getAmplitudes (Binary64.audioWorkletScope 1e18%float) 1%float n env
    = Ok (env', replicate n 1%float) /\
    Binary64.AmplitudeEnvelope.phase env' = EnvelopePhase.forceStop.
Proof.
  induction n as [| n IH]; intros env Hphase Hlast Hrate.
  - by exists env.
  - assert (Hvalue : (1 - 1 / (Binary64.forceStopReleaseTime * 1e18) * 1)%float = 1%float)
      by (vm_compute; reflexivity).
    cbn [Binary64.getAmplitudes].
    unfold Binary64.AmplitudeEnvelope.getAmplitude,
      Binary64.AmplitudeEnvelope.calculateAmplitude.
    unfold Binary64.AmplitudeEnvelope.phase in *.
    rewrite Hphase, andb_false_r. cbn [EnvelopePhase.eqb orb]. rewrite Hphase.
    rewrite Hlast, Hrate, Hvalue.
    change (1 <=? 0)%float with false. cbn [Binary64.hostSampleRate
      Binary64.audioWorkletScope rbind].
    edestruct IH as (env' & Hrun & Hphase'); [| | | rewrite Hrun]; [done | done | done |].
    by exists env'.
Qed.

End ForceStopRoundedCalls.

(** ** WavetableOscillator *)

Definition sampleEndOf (osc : WavetableOscillator.t) : Q :=
  inject_Z (SampleParameter.sampleEnd (sampleParameter (WavetableOscillator.sample osc))).

Definition loopOf (osc : WavetableOscillator.t) : Loop :=
  SampleParameter.loop (sampleParameter (WavetableOscillator.sample osc)).

Section OscillatorPointer.
Import WavetableOscillator.

Variables modulatedSpeed leftGain rightGain : Q.

(** What a frame does to the pointer and to the playing flag. *)
Lemma processFrame_pointer (i : nat) (osc : t) (outputs : Outputs) :
  let frame := processFrame modulatedSpeed leftGain rightGain i osc outputs in
  let advanced := (sampleIndex osc + modulatedSpeed)%Q in
  let newIndex := default advanced (loopIndexOf osc advanced) in
  sample (fst (fst frame)) = sample osc /\
  _isNoteOff (fst (fst frame)) = _isNoteOff osc /\
  sampleIndex (fst (fst frame)) = newIndex /\
  (if Qle_bool (sampleEndOf osc) newIndex
   then _isPlaying (fst (fst frame)) = false /\ snd frame = false
   else _isPlaying (fst (fst frame)) = _isPlaying osc /\ snd frame = true).
Proof.
  unfold processFrame, sampleEndOf. simpl.
  destruct (Qle_bool _ (default _ _)); simpl; done.
Qed.

(** A pointer that reaches the end of the loop is taken back into it. *)
Lemma loopIndexOf_wraps (osc : t) (advanced : Q) :
  loopEnabled osc = true ->
  (inject_Z (loop_end (loopOf osc)) <= advanced)%Q ->
  exists wrapped,
    loopIndexOf osc advanced = Some wrapped /\
    (inject_Z (loop_start (loopOf osc)) <= wrapped)%Q /\
    (wrapped < inject_Z (loop_start (loopOf osc) + 1))%Q.
Proof.
  intros Henabled Hend. unfold loopIndexOf. fold (loopOf osc).
  rewrite Henabled. simpl.
  rewrite (proj2 (Qle_bool_iff _ _) Hend).
  eexists. split; [reflexivity |].
  pose proof (Qfloor_le advanced). pose proof (Qlt_floor advanced).
  rewrite inject_Z_plus in *. simpl in *. split; lra.
Qed.

(** Once the note is off, a sustain loop no longer takes the pointer back. *)
Lemma loopIndexOf_released (osc : t) (advanced : Q) :
  loop_type (loopOf osc) = loop_sustain ->
  _isNoteOff osc = true ->
  loopIndexOf osc advanced = None.
Proof.
  intros Htype Hoff. unfold loopIndexOf, loopEnabled. fold (loopOf osc).
  rewrite Htype, Hoff. done.
Qed.

(** The frames of one buffer for a released sustain-loop voice: the
    pointer moves by the speed at each frame, up to the first frame that
    takes it to the end of the sample, where the voice stops. *)
Lemma processFrames_released (count : nat) : forall (i : nat) (osc : t) (outputs : Outputs),
  loop_type (loopOf osc) = loop_sustain ->
  _isNoteOff osc = true ->
  (0 < count)%nat ->
  let osc' := fst (processFrames modulatedSpeed leftGain rightGain count i osc outputs) in
  exists k : nat,
    (1 <= k <= count)%nat /\
    (sampleIndex osc' == sampleIndex osc + countQ k * modulatedSpeed)%Q /\
    (forall j, (1 <= j < k)%nat ->
       (sampleIndex osc + countQ j * modulatedSpeed < sampleEndOf osc)%Q) /\
    (((sampleEndOf osc <= sampleIndex osc + countQ k * modulatedSpeed)%Q /\
      _isPlaying osc' = false) \/
     (k = count /\
      (sampleIndex osc + countQ k * modulatedSpeed < sampleEndOf osc)%Q /\
      _isPlaying osc' = _isPlaying osc)).
Proof.
  induction count as [| count IH]; intros i osc outputs Htype Hoff Hcount; [lia |].
  simpl.
  pose proof (processFrame_pointer i osc outputs) as Hframe. cbv zeta in Hframe.
  rewrite (loopIndexOf_released osc _ Htype Hoff) in Hframe. simpl in Hframe.
  destruct (processFrame modulatedSpeed leftGain rightGain i osc outputs)
    as [[osc1 outputs1] continue].
  simpl in Hframe. destruct Hframe as (Hsample & Hnoteoff & Hindex & Hend).
  destruct (Qle_bool (sampleEndOf osc) (sampleIndex osc + modulatedSpeed)) eqn:Hreached.
  - (* the frame reaches the end of the sample *)
    destruct Hend as [Hplaying ->]. simpl.
    apply Qle_bool_iff in Hreached.
    exists 1%nat. change (countQ 1) with 1%Q.
    split; [lia |]. split; [rewrite Hindex; lra |].
    split; [intros j Hj; lia |]. left. split; [lra | done].
  - destruct Hend as [Hplaying ->].
    assert (Hbelow : (sampleIndex osc + modulatedSpeed < sampleEndOf osc)%Q).
    { apply Qnot_le_lt. intros Hle. apply Qle_bool_iff in Hle. congruence. }
    destruct count as [| count'].
    + (* the last frame of the buffer *)
      simpl. exists 1%nat. change (countQ 1) with 1%Q.
      split; [lia |]. split; [rewrite Hindex; lra |].
      split; [intros j Hj; lia |]. right. split; [done |]. split; [lra | done].
    + assert (Htype1 : loop_type (loopOf osc1) = loop_sustain)
        by (unfold loopOf; rewrite Hsample; exact Htype).
      assert (Hoff1 : _isNoteOff osc1 = true) by congruence.
      destruct (IH (S i) osc1 outputs1 Htype1 Hoff1 ltac:(lia))
        as (k & Hk & Hpointer & Hbefore & Hlast).
      assert (Hend1 : sampleEndOf osc1 = sampleEndOf osc)
        by (unfold sampleEndOf; rewrite Hsample; done).
      rewrite Hend1, Hindex in *.
      exists (S k). rewrite (countQ_S k).
      split; [lia |]. split; [rewrite Hpointer; ring |]. split.
      * intros j Hj. destruct j as [| [| j]]; [lia | change (countQ 1) with 1%Q; lra |].
        specialize (Hbefore (S j) ltac:(lia)). rewrite (countQ_S (S j)). lra.
      * destruct Hlast as [[Hreach Hstop] | (-> & Hshort & Hkeep)].
        -- left. split; [lra | done].
        -- right. split; [done |]. split; [lra | congruence].
Qed.

End OscillatorPointer.

Section OscillatorFrames.
Import WavetableOscillator.
Variables modulatedSpeed leftGain rightGain : Q.

Lemma addAt_lookup (i j : nat) (x : Q) (arr : list Q) :
  length (addAt i x arr) = length arr /\
  addAt i x arr !! j
  = if decide (j = i) then (fun y => (y + x)%Q) <$> arr !! j else arr !! j.
Proof.
  unfold addAt. split; [apply length_alter |].
  destruct (decide (j = i)) as [-> | Hne].
  - apply list_lookup_alter_eq.
  - by apply list_lookup_alter_ne.
Qed.

(** A voice whose loop is in force stays below the end of the loop, hence
    of the sample, and keeps playing. *)
Lemma processFrames_looping (count : nat) : forall (i : nat) (osc : t) (outputs : Outputs),
  loopEnabled osc = true ->
  loop_start (loopOf osc) + 1 <= loop_end (loopOf osc)
    <= SampleParameter.sampleEnd (sampleParameter (sample osc)) ->
  let final := fst (processFrames modulatedSpeed leftGain rightGain count i osc outputs) in
  _isPlaying final = _isPlaying osc /\
  _isNoteOff final = _isNoteOff osc /\
  sample final = sample osc /\
  ((0 < count)%nat -> (sampleIndex final < inject_Z (loop_end (loopOf osc)))%Q).
Proof.
  induction count as [| count IH]; intros i osc outputs Henabled Hloop; cbv zeta.
  - simpl. split; [done |]. split; [done |]. split; [done |]. lia.
  - simpl.
    pose proof (processFrame_pointer modulatedSpeed leftGain rightGain i osc outputs) as Hframe.
    cbv zeta in Hframe.
    destruct (processFrame modulatedSpeed leftGain rightGain i osc outputs)
      as [[osc1 outputs1] continue].
    simpl in Hframe. destruct Hframe as (Hsample & Hnoteoff & Hindex & Hend).
    assert (Hbelow : (sampleIndex osc1 < inject_Z (loop_end (loopOf osc)))%Q).
    { rewrite Hindex.
      destruct (Qlt_le_dec (sampleIndex osc + modulatedSpeed) (inject_Z (loop_end (loopOf osc))))
        as [Hlt | Hge].
      - unfold loopIndexOf. fold (loopOf osc). rewrite Henabled. cbn [andb].
        destruct (Qle_bool (inject_Z (loop_end (loopOf osc)))
                    (sampleIndex osc + modulatedSpeed)) eqn:Hle; [| exact Hlt].
        apply Qle_bool_iff in Hle. lra.
      - destruct (loopIndexOf_wraps osc _ Henabled Hge) as (wrapped & -> & Hlow & Hhigh).
        change (wrapped < inject_Z (loop_end (loopOf osc)))%Q. assert (inject_Z (loop_start (loopOf osc) + 1) <= inject_Z (loop_end (loopOf osc)))%Q
          by (rewrite <- Zle_Qle; lia).
        lra. }
    assert (Hcontinue : _isPlaying osc1 = _isPlaying osc /\ continue = true).
    { destruct (Qle_bool (sampleEndOf osc) _) eqn:Hreached; [| done].
      apply Qle_bool_iff in Hreached. rewrite <- Hindex in Hreached. unfold sampleEndOf in Hreached.
      assert (inject_Z (loop_end (loopOf osc))
              <= inject_Z (SampleParameter.sampleEnd (sampleParameter (sample osc))))%Q
        by (rewrite <- Zle_Qle; lia).
      lra. }
    destruct Hcontinue as [Hplaying ->].
    assert (Hloop1 : loopOf osc1 = loopOf osc) by (unfold loopOf; by rewrite Hsample).
    assert (Henabled1 : loopEnabled osc1 = true).
    { unfold loopEnabled in *. by rewrite Hsample, Hnoteoff. }
    specialize (IH (S i) osc1 outputs1 Henabled1).
    rewrite Hloop1, Hsample in IH. specialize (IH Hloop). cbv zeta in IH.
    destruct IH as (Hp & Hn & Hs & Hidx).
    split; [congruence |]. split; [congruence |]. split; [congruence |].
    intros _. destruct count as [| count']; [done |]. apply Hidx. lia.
Qed.

End OscillatorFrames.

(** The speed at which [process] moves the pointer: [modulatedSpeed]. *)
Definition modulatedSpeedOf {M : MathOps} (osc : WavetableOscillator.t) : Q :=
  let p := sampleParameter (WavetableOscillator.sample osc) in
  let playSpeed :=
    ((WavetableOscillator.baseSpeed osc * WavetableOscillator.speed osc
      * SampleParameter.sampleRate p) / WavetableOscillator.sampleRate osc)%Q in
  let pitchLFOValue := Math_sin (LFO.phase (WavetableOscillator.pitchLFO osc)) in
  let pitchModulation :=
    (pitchLFOValue * WavetableOscillator.modulation osc
     * (WavetableOscillator.modulationDepthRange osc / 1200))%Q in
  (playSpeed * (1 + pitchModulation))%Q.

Section OscillatorCall.
Import WavetableOscillator.
Variables modulatedSpeed leftGain rightGain : Q.

(** The frames of a call, one more at the end: the frame [i + count] runs
    unless an earlier frame ended in [break]. *)
Lemma processFrames_snoc (count : nat) : forall (i : nat) (osc : t) (outputs : Outputs),
  _isPlaying osc = true ->
  processFrames modulatedSpeed leftGain rightGain (S count) i osc outputs
  = (let '(osc1, outputs1) :=
       processFrames modulatedSpeed leftGain rightGain count i osc outputs in
     if _isPlaying osc1
     then fst (processFrame modulatedSpeed leftGain rightGain (i + count) osc1 outputs1)
     else (osc1, outputs1)).
Proof.
  induction count as [| count IH]; intros i osc outputs Hplaying.
  - cbn [processFrames]. rewrite Hplaying, Nat.add_0_r.
    destruct (processFrame _ _ _ i osc outputs) as [[osc1 outputs1] continue].
    by destruct continue.
  - change (processFrames modulatedSpeed leftGain rightGain (S (S count)) i osc outputs)
      with (let '(osc', outputs', continue) :=
              processFrame modulatedSpeed leftGain rightGain i osc outputs in
            if continue
            then processFrames modulatedSpeed leftGain rightGain (S count) (S i) osc' outputs'
            else (osc', outputs')).
    change (processFrames modulatedSpeed leftGain rightGain (S count) i osc outputs)
      with (let '(osc', outputs', continue) :=
              processFrame modulatedSpeed leftGain rightGain i osc outputs in
            if continue
            then processFrames modulatedSpeed leftGain rightGain count (S i) osc' outputs'
            else (osc', outputs')).
    pose proof (processFrame_pointer modulatedSpeed leftGain rightGain i osc outputs) as Hframe.
    cbv zeta in Hframe.
    destruct (processFrame modulatedSpeed leftGain rightGain i osc outputs)
      as [[osc1 outputs1] continue].
    cbn [fst snd] in Hframe. destruct Hframe as (_ & _ & _ & Hend).
    destruct (Qle_bool _ _).
    + destruct Hend as [Hstop ->]. by rewrite Hstop.
    + destruct Hend as [Hkeep ->].
      rewrite (IH (S i) osc1 outputs1) by congruence.
      by replace (S i + count)%nat with (i + S count)%nat by lia.
Qed.

End OscillatorCall.

(** C5. In a scope that binds [sampleRate], [process] on a playing voice
    whose sample rate is not 0 (the speed is a quotient by it) runs the
    frames of the buffer from the pointer the voice has, at the modulated
    speed.  While the loop is continuous, or of the sustain type
    with the note still on, and given
    [loop.start + 1 <= loop.end <= sampleEnd]: a frame that advances the
    pointer to [loop.end] or beyond sets it to a value in
    [loop.start, loop.end), any other frame sets it to the advanced value,
    and the voice keeps playing.  On a sustain-loop voice whose note is off
    the pointer is never taken back: it advances by the speed at each
    frame, and the voice stops at the first frame that takes it to
    [sampleEnd]. *)
Theorem loop_wraps_until_note_off {M : MathOps} (host : Host) (globalRate : Q)
    (osc : WavetableOscillator.t) (outputs : Outputs) :
  hostSampleRate host = Some globalRate ->
  WavetableOscillator._isPlaying osc = true ->
  ~ (WavetableOscillator.sampleRate osc == 0)%Q ->
  let frameCount := length (fst outputs) in
  let speed := modulatedSpeedOf osc in
  exists leftGain rightGain started,
    let after (k : nat) :=
      fst (WavetableOscillator.processFrames speed leftGain rightGain k 0 started outputs) in
    WavetableOscillator.process host osc outputs
    = Ok (WavetableOscillator.processFrames speed leftGain rightGain frameCount 0
            started outputs) /\
    WavetableOscillator.sample started = WavetableOscillator.sample osc /\
    WavetableOscillator.sampleIndex started = WavetableOscillator.sampleIndex osc /\
    WavetableOscillator._isNoteOff started = WavetableOscillator._isNoteOff osc /\
    WavetableOscillator._isPlaying started = true /\
    (loop_type (loopOf osc) = loop_continuous \/
     (loop_type (loopOf osc) = loop_sustain /\ WavetableOscillator._isNoteOff osc = false) ->
     loop_start (loopOf osc) + 1 <= loop_end (loopOf osc)
       <= SampleParameter.sampleEnd (sampleParameter (WavetableOscillator.sample osc)) ->
     forall k : nat,
       (k < frameCount)%nat ->
       let advanced := (WavetableOscillator.sampleIndex (after k) + speed)%Q in
       WavetableOscillator._isPlaying (after (S k)) = true /\
       ((inject_Z (loop_end (loopOf osc)) <= advanced)%Q ->
        (inject_Z (loop_start (loopOf osc)) <= WavetableOscillator.sampleIndex (after (S k)))%Q /\
        (WavetableOscillator.sampleIndex (after (S k)) < inject_Z (loop_end (loopOf osc)))%Q) /\
       ((advanced < inject_Z (loop_end (loopOf osc)))%Q ->
        WavetableOscillator.sampleIndex (after (S k)) = advanced)) /\
    (loop_type (loopOf osc) = loop_sustain ->
     WavetableOscillator._isNoteOff osc = true ->
     (0 < frameCount)%nat ->
     exists k : nat,
       (1 <= k <= frameCount)%nat /\
       (WavetableOscillator.sampleIndex (after frameCount)
        == WavetableOscillator.sampleIndex osc + countQ k * speed)%Q /\
       (forall j, (1 <= j < k)%nat ->
          (WavetableOscillator.sampleIndex osc + countQ j * speed < sampleEndOf osc)%Q) /\
       ((k < frameCount)%nat \/
        (sampleEndOf osc - WavetableOscillator.sampleIndex osc
         <= countQ frameCount * speed)%Q ->
        (sampleEndOf osc <= WavetableOscillator.sampleIndex (after frameCount))%Q /\
        WavetableOscillator._isPlaying (after frameCount) = false)).
Proof.
  intros Hhost Hplaying _ frameCount speed.
  unfold WavetableOscillator.process. rewrite Hplaying. cbn [negb].
  unfold AmplitudeEnvelope.getAmplitude.
  destruct (AmplitudeEnvelope.calculateAmplitude _ _) as [env value].
  rewrite Hhost. cbn [rbind]. unfold LFO.getValue.
  eexists _, _, _. cbv zeta. split; [reflexivity |].
  cbn [WavetableOscillator.setPitchLFO WavetableOscillator.setEnvelope
       WavetableOscillator.sample WavetableOscillator.sampleIndex
       WavetableOscillator._isNoteOff WavetableOscillator._isPlaying].
  split; [done |]. split; [done |]. split; [done |]. split; [done |].
  match goal with
  | |- context [WavetableOscillator.processFrames ?s ?l ?r _ 0 ?o outputs] =>
      set (started := o); set (leftGain := l); set (rightGain := r);
      change s with speed
  end.
  assert (Hsample : WavetableOscillator.sample started = WavetableOscillator.sample osc) by done.
  assert (Hindex : WavetableOscillator.sampleIndex started = WavetableOscillator.sampleIndex osc)
    by done.
  assert (Hnoteoff : WavetableOscillator._isNoteOff started = WavetableOscillator._isNoteOff osc)
    by done.
  assert (Hstarted : WavetableOscillator._isPlaying started = true) by done.
  assert (HloopOf : loopOf started = loopOf osc) by done.
  assert (HendOf : sampleEndOf started = sampleEndOf osc) by done.
  clearbody started leftGain rightGain.
  split.
  - intros Hloop Hsize k Hk.
    assert (Henabled : WavetableOscillator.loopEnabled started = true).
    { unfold WavetableOscillator.loopEnabled. fold (loopOf started).
      rewrite HloopOf, Hnoteoff. destruct Hloop as [-> | [-> ->]]; done. }
    assert (Hsize' : loop_start (loopOf started) + 1 <= loop_end (loopOf started)
                     <= SampleParameter.sampleEnd
                          (sampleParameter (WavetableOscillator.sample started)))
      by (rewrite HloopOf, Hsample; exact Hsize).
    pose proof (processFrames_looping speed leftGain rightGain k 0 started outputs
                  Henabled Hsize') as Hbefore.
    cbv zeta in Hbefore.
    destruct Hbefore as (Hplaying_k & Hnoteoff_k & Hsample_k & _).
    rewrite (processFrames_snoc speed leftGain rightGain k 0 started outputs Hstarted).
    destruct (WavetableOscillator.processFrames speed leftGain rightGain k 0 started outputs)
      as [osc_k outputs_k].
    cbn [fst] in *. rewrite Hplaying_k, Hstarted. cbn [Nat.add].
    assert (Hloop_k : loopOf osc_k = loopOf osc)
      by (unfold loopOf; rewrite Hsample_k, Hsample; done).
    assert (Henabled_k : WavetableOscillator.loopEnabled osc_k = true).
    { unfold WavetableOscillator.loopEnabled in *. by rewrite Hsample_k, Hnoteoff_k. }
    pose proof (processFrame_pointer speed leftGain rightGain k osc_k outputs_k) as Hframe.
    cbv zeta in Hframe.
    destruct (WavetableOscillator.processFrame speed leftGain rightGain k osc_k outputs_k)
      as [[osc' outputs'] continue].
    cbn [fst snd] in *. destruct Hframe as (_ & _ & Hpointer & Hend).
    assert (Hinside : (inject_Z (loop_end (loopOf osc)) <= sampleEndOf osc_k)%Q).
    { unfold sampleEndOf. rewrite Hsample_k, Hsample, <- Zle_Qle. lia. }
    destruct (Qlt_le_dec (WavetableOscillator.sampleIndex osc_k + speed)
                (inject_Z (loop_end (loopOf osc)))) as [Hshort | Hreach].
    + assert (Hnone : WavetableOscillator.loopIndexOf osc_k
                        (WavetableOscillator.sampleIndex osc_k + speed) = None).
      { unfold WavetableOscillator.loopIndexOf. fold (loopOf osc_k).
        rewrite Hloop_k, Henabled_k. cbn [andb].
        destruct (Qle_bool (inject_Z (loop_end (loopOf osc))) _) eqn:Hle; [| done].
        apply Qle_bool_iff in Hle. lra. }
      rewrite Hnone in Hpointer, Hend. cbn [default from_option id] in Hpointer, Hend.
      assert (Hnot : Qle_bool (sampleEndOf osc_k)
                       (WavetableOscillator.sampleIndex osc_k + speed) = false).
      { destruct (Qle_bool (sampleEndOf osc_k) _) eqn:Hle; [| done].
        apply Qle_bool_iff in Hle. lra. }
      rewrite Hnot in Hend. destruct Hend as [Hkeep _].
      split; [congruence |]. split; [intros Hle; lra | intros _; exact Hpointer].
    + rewrite <- Hloop_k in Hreach.
      destruct (loopIndexOf_wraps osc_k _ Henabled_k Hreach) as (wrapped & Hwrap & Hlow & Hhigh).
      rewrite Hloop_k in Hreach, Hlow, Hhigh.
      rewrite Hwrap in Hpointer, Hend. cbn [default from_option id] in Hpointer, Hend.
      assert (Hbelow : (wrapped < inject_Z (loop_end (loopOf osc)))%Q).
      { eapply Qlt_le_trans; [exact Hhigh |]. rewrite <- Zle_Qle. lia. }
      assert (Hnot : Qle_bool (sampleEndOf osc_k) wrapped = false).
      { destruct (Qle_bool (sampleEndOf osc_k) wrapped) eqn:Hle; [| done].
        apply Qle_bool_iff in Hle. lra. }
      rewrite Hnot in Hend. destruct Hend as [Hkeep _].
      split; [congruence |]. split; [intros _; rewrite Hpointer; by split | intros Hlt; lra].
  - intros Htype Hoff Hcount.
    destruct (processFrames_released speed leftGain rightGain frameCount 0 started outputs)
      as (k & Hk & Hpointer & Hbefore & Hlast);
      [by rewrite HloopOf | congruence | done |].
    rewrite Hindex, HendOf, Hstarted in *.
    exists k. split; [done |]. split; [done |]. split; [done |].
    intros Henough. destruct Hlast as [[Hreach Hstop] | (-> & Hshort & _)].
    + split; [rewrite Hpointer; done | done].
    + exfalso. destruct Henough as [Hlt | Hle]; [lia | lra].
Qed.

(** ** SynthProcessorCore.noteOn *)

Definition classOf (s : Sample) : option Z :=
  SampleParameter.exclusiveClass (sampleParameter s).

(** The sweep that [noteOn] makes for the sample [s], on one voice. *)
Definition sweepFor (s : Sample) (osc : WavetableOscillator.t) : WavetableOscillator.t :=
  match classOf s with
  | Some cls => SynthProcessorCore.stealFrom cls osc
  | None => osc
  end.

(** The sweeps for the samples [ss], in order. *)
Definition sweepAll (ss : list Sample) (osc : WavetableOscillator.t) : WavetableOscillator.t :=
  fold_left (fun o s => sweepFor s o) ss osc.

Section NoteOn.
Import SynthProcessorCore.
Context {M : MathOps}.

(** The voice that [noteOn] creates for the sample [s]. *)
Definition createdVoice (rate : Q) (notePitch velocity : Z) (s : Sample)
    : WavetableOscillator.t :=
  WavetableOscillator.noteOn notePitch (inject_Z velocity / 127)%Q
    (WavetableOscillator.new s rate).

(** The voices created for [ss] as they are when [noteOn] returns: each
    has been through the sweeps of the samples after its own. *)
Fixpoint createdVoices (rate : Q) (notePitch velocity : Z) (ss : list Sample)
    : list WavetableOscillator.t :=
  match ss with
  | [] => []
  | s :: rest =>
      sweepAll rest (createdVoice rate notePitch velocity s)
        :: createdVoices rate notePitch velocity rest
  end.

Lemma createdVoice_attack rate notePitch velocity s :
  AmplitudeEnvelope.phase (WavetableOscillator.envelope (createdVoice rate notePitch velocity s))
  = EnvelopePhase.attack.
Proof. reflexivity. Qed.

Lemma forceStop_phase osc :
  AmplitudeEnvelope.phase (WavetableOscillator.envelope (WavetableOscillator.forceStop osc))
  = EnvelopePhase.forceStop.
Proof.
  unfold WavetableOscillator.forceStop, AmplitudeEnvelope.forceStop, AmplitudeEnvelope.setPhase,
    AmplitudeEnvelope.phase. simpl.
  destruct (EnvelopePhase.eqb _ _) eqn:Hphase; [| done].
  by destruct (AmplitudeEnvelope._phase (WavetableOscillator.envelope osc)).
Qed.

Lemma forceStop_idempotent osc :
  WavetableOscillator.forceStop (WavetableOscillator.forceStop osc)
  = WavetableOscillator.forceStop osc.
Proof.
  unfold WavetableOscillator.forceStop at 1. unfold AmplitudeEnvelope.forceStop.
  unfold AmplitudeEnvelope.setPhase at 1.
  pose proof (forceStop_phase osc) as Hphase. unfold AmplitudeEnvelope.phase in Hphase.
  rewrite Hphase. simpl. by destruct osc.
Qed.

(** A sweep touches the voices of its class, and forces them to stop. *)
Lemma sweepFor_spec s osc :
  sweepFor s osc =
    if decide (is_Some (classOf s) /\ WavetableOscillator.exclusiveClass osc = classOf s)
    then WavetableOscillator.forceStop osc else osc.
Proof.
  unfold sweepFor, stealFrom. destruct (classOf s) as [cls |].
  - destruct (decide (WavetableOscillator.exclusiveClass osc = Some cls)) as [Heq | Hne].
    + rewrite decide_True; [done |]. split; [by eexists | done].
    + rewrite decide_False; [done |]. intros [_ ?]. done.
  - rewrite decide_False; [done |]. intros [[? ?] _]. done.
Qed.

Lemma sweepAll_spec ss osc :
  sweepAll ss osc =
    if decide (Exists (fun s => is_Some (classOf s) /\
                                WavetableOscillator.exclusiveClass osc = classOf s) ss)
    then WavetableOscillator.forceStop osc else osc.
Proof.
  revert osc. induction ss as [| s ss IH]; intros osc.
  - destruct (decide _) as [Hex | _]; [by apply Exists_nil in Hex | done].
  - change (sweepAll (s :: ss) osc) with (sweepAll ss (sweepFor s osc)).
    rewrite IH, sweepFor_spec.
    destruct (decide (is_Some (classOf s) /\ WavetableOscillator.exclusiveClass osc = classOf s))
      as [Hs | Hs].
    + destruct (decide (Exists _ (s :: ss))) as [_ | Hno];
        [| exfalso; apply Hno; by apply Exists_cons_hd].
      rewrite forceStop_idempotent. by destruct (decide _).
    + destruct (decide (Exists _ ss)) as [Hss | Hss];
        destruct (decide (Exists _ (s :: ss))) as [Hall | Hall]; try done.
      * exfalso. apply Hall. by apply Exists_cons_tl.
      * exfalso. apply Exists_cons in Hall as [? | ?]; done.
Qed.

(** One turn of the loop of [noteOn], key by key. *)
Lemma startVoice_lookup rate notePitch velocity oscs s key :
  startVoice rate notePitch velocity oscs s !! key =
    if decide (key = notePitch)
    then Some (map (sweepFor s) (default [] (oscs !! notePitch))
                 ++ [createdVoice rate notePitch velocity s])
    else map (sweepFor s) <$> oscs !! key.
Proof.
  unfold startVoice, sweepFor, classOf.
  set (oscs1 := match oscs !! notePitch with
                | None => <[notePitch := []]> oscs
                | Some _ => oscs
                end).
  assert (Hsame : default [] (oscs1 !! notePitch) = default [] (oscs !! notePitch)).
  { unfold oscs1. destruct (oscs !! notePitch) eqn:Hold.
    - by rewrite Hold.
    - by rewrite lookup_insert_eq. }
  assert (Hother : key <> notePitch -> oscs1 !! key = oscs !! key).
  { intros Hne. unfold oscs1. destruct (oscs !! notePitch); [done |].
    by rewrite lookup_insert_ne. }
  destruct (decide (key = notePitch)) as [-> | Hne].
  - rewrite lookup_insert_eq. f_equal. f_equal.
    destruct (SampleParameter.exclusiveClass (sampleParameter s)) as [cls |].
    + rewrite lookup_fmap. rewrite <- Hsame.
      destruct (oscs1 !! notePitch); reflexivity.
    + rewrite Hsame. by rewrite map_id.
  - rewrite lookup_insert_ne by done.
    destruct (SampleParameter.exclusiveClass (sampleParameter s)) as [cls |].
    + rewrite lookup_fmap, Hother by done. done.
    + rewrite Hother by done. destruct (oscs !! key); simpl; [by rewrite map_id | done].
Qed.

(** The whole loop. *)
Lemma startVoices_lookup rate notePitch velocity (ss : list Sample) :
  forall oscs key,
  ss <> [] ->
  fold_left (startVoice rate notePitch velocity) ss oscs !! key =
    if decide (key = notePitch)
    then Some (map (sweepAll ss) (default [] (oscs !! notePitch))
                 ++ createdVoices rate notePitch velocity ss)
    else map (sweepAll ss) <$> oscs !! key.
Proof.
  induction ss as [| s rest IH]; intros oscs key Hne; [done |].
  simpl. destruct rest as [| s' rest'].
  - simpl. rewrite startVoice_lookup. reflexivity.
  - rewrite IH by done.
    destruct (decide (key = notePitch)) as [-> | Hkey].
    + rewrite startVoice_lookup. destruct (decide (notePitch = notePitch)); [| done].
      simpl. rewrite map_app, map_map. simpl. rewrite <- app_assoc. reflexivity.
    + rewrite startVoice_lookup. destruct (decide (key = notePitch)); [done |].
      destruct (oscs !! key); simpl; [| done]. rewrite map_map. reflexivity.
Qed.

(** The state of the channel when [noteOn] returns. *)
Lemma noteOn_channel channel notePitch velocity core :
  let state := default ChannelState.initialChannelState (channels core !! channel) in
  let samples := fst (getSamples channel notePitch velocity core) in
  channels (noteOn channel notePitch velocity core) !! channel =
    Some (match samples with
          | [] => state
          | _ :: _ =>
              ChannelState.setOscillators
                (fold_left (startVoice (sampleRate core) notePitch velocity) samples
                   (ChannelState.oscillators state)) state
          end).
Proof.
  unfold noteOn, getSamples, getChannelState.
  destruct (channels core !! channel) as [state |] eqn:Hstate; simpl.
  - rewrite Hstate. simpl.
    destruct (SampleTable.getSamples _ _ _ _ _); simpl; [done |].
    by rewrite lookup_insert_eq.
  - rewrite lookup_insert_eq. simpl.
    destruct (SampleTable.getSamples _ _ _ _ _); simpl; by rewrite lookup_insert_eq.
Qed.

End NoteOn.

Lemma list_lookup_map {A B : Type} (f : A -> B) (l : list A) (k : nat) (x : A) :
  l !! k = Some x -> map f l !! k = Some (f x).
Proof.
  intros Hx. change (map f l) with (f <$> l). by rewrite list_lookup_fmap, Hx.
Qed.

Lemma createdVoices_lookup {M : MathOps} rate notePitch velocity (ss : list Sample) :
  forall i s,
  ss !! i = Some s ->
  createdVoices rate notePitch velocity ss !! i
  = Some (sweepAll (drop (S i) ss) (createdVoice rate notePitch velocity s)).
Proof.
  induction ss as [| s0 ss IH]; intros i s Hs; [done |].
  destruct i as [| i]; simpl in *.
  - injection Hs as ->. by rewrite drop_0.
  - by apply IH.
Qed.

(** C3. A [noteOn] on a channel that has voices keeps every voice at its
    place in the list of its key; a voice whose sample declares the
    exclusive class that one of the resolved samples declares is force
    stopped (its envelope is in the forced-stop phase); a voice whose class
    is undefined or differs from the class of every resolved sample is left
    as it was. *)
Theorem noteOn_steals_exclusive_class {M : MathOps}
    (core : SynthProcessorCore.t) (channel notePitch velocity : Z) (state : ChannelState.t) :
  SynthProcessorCore.channels core !! channel = Some state ->
  let samples := fst (SynthProcessorCore.getSamples channel notePitch velocity core) in
  exists state',
    SynthProcessorCore.channels (SynthProcessorCore.noteOn channel notePitch velocity core)
      !! channel = Some state' /\
    forall key voices k osc,
      ChannelState.oscillators state !! key = Some voices ->
      voices !! k = Some osc ->
      exists voices' osc',
        ChannelState.oscillators state' !! key = Some voices' /\
        voices' !! k = Some osc' /\
        (forall s cls,
           s ∈ samples -> classOf s = Some cls ->
           WavetableOscillator.exclusiveClass osc = Some cls ->
           osc' = WavetableOscillator.forceStop osc /\
           AmplitudeEnvelope.phase (WavetableOscillator.envelope osc')
           = EnvelopePhase.forceStop) /\
        ((forall s, s ∈ samples ->
            classOf s = None \/ classOf s <> WavetableOscillator.exclusiveClass osc) ->
         osc' = osc).
Proof.
  intros Hstate samples.
  pose proof (noteOn_channel channel notePitch velocity core) as Hchannel.
  cbv zeta in Hchannel. fold samples in Hchannel. rewrite Hstate in Hchannel.
  simpl in Hchannel.
  eexists. split; [exact Hchannel |].
  intros key voices k osc Hvoices Hosc.
  assert (Hswept : exists voices',
            ChannelState.oscillators
              match samples with
              | [] => state
              | _ :: _ =>
                  ChannelState.setOscillators
                    (fold_left
                       (SynthProcessorCore.startVoice (SynthProcessorCore.sampleRate core)
                          notePitch velocity) samples (ChannelState.oscillators state)) state
              end !! key = Some voices' /\
            voices' !! k = Some (sweepAll samples osc)).
  { destruct samples as [| s ss] eqn:Hsamples.
    - exists voices. split; [exact Hvoices | exact Hosc].
    - cbn [ChannelState.oscillators ChannelState.setOscillators].
      rewrite startVoices_lookup by done.
      destruct (decide (key = notePitch)) as [-> | Hkey]; rewrite Hvoices.
      + eexists. split; [reflexivity |].
        apply lookup_app_l_Some. by apply (list_lookup_map (sweepAll (s :: ss)) voices).
      + eexists. split; [reflexivity |].
        by apply (list_lookup_map (sweepAll (s :: ss)) voices). }
  destruct Hswept as (voices' & Hvoices' & Hosc').
  exists voices', (sweepAll samples osc).
  split; [done |]. split; [done |].
  rewrite sweepAll_spec. split.
  - intros s cls Hs Hclass Hsame.
    rewrite decide_True.
    + split; [done | apply forceStop_phase].
    + apply Exists_exists. exists s. split; [done |]. rewrite Hclass. split; [by eexists | done].
  - intros Hother. rewrite decide_False; [done |].
    intros (s & Hs & [cls Hcls] & Hsame)%Exists_exists.
    destruct (Hother s Hs) as [Hnone | Hdiff]; congruence.
Qed.

(** C10. [noteOn] puts each new voice on the list of its key after the
    sweep for its own sample: the list ends with the new voices, in the
    order of the samples.  With one sample the new voice has not been
    through any sweep and its envelope is in the attack phase.  With
    several, the voice of a sample is force stopped by the sweep of a later
    sample of the same exclusive class. *)
Theorem noteOn_appends_after_sweep {M : MathOps}
    (core : SynthProcessorCore.t) (channel notePitch velocity : Z) :
  let state :=
    default ChannelState.initialChannelState (SynthProcessorCore.channels core !! channel) in
  let samples := fst (SynthProcessorCore.getSamples channel notePitch velocity core) in
  let old := default [] (ChannelState.oscillators state !! notePitch) in
  let rate := SynthProcessorCore.sampleRate core in
  samples <> [] ->
  exists state',
    SynthProcessorCore.channels (SynthProcessorCore.noteOn channel notePitch velocity core)
      !! channel = Some state' /\
    ChannelState.oscillators state' !! notePitch
    = Some (map (sweepAll samples) old ++ createdVoices rate notePitch velocity samples) /\
    (forall s,
       samples = [s] ->
       createdVoices rate notePitch velocity samples = [createdVoice rate notePitch velocity s] /\
       AmplitudeEnvelope.phase
         (WavetableOscillator.envelope (createdVoice rate notePitch velocity s))
       = EnvelopePhase.attack) /\
    (forall i j si sj cls,
       (i < j)%nat ->
       samples !! i = Some si -> samples !! j = Some sj ->
       classOf si = Some cls -> classOf sj = Some cls ->
       exists voice,
         createdVoices rate notePitch velocity samples !! i = Some voice /\
         voice = WavetableOscillator.forceStop (createdVoice rate notePitch velocity si) /\
         AmplitudeEnvelope.phase (WavetableOscillator.envelope voice)
         = EnvelopePhase.forceStop).
Proof.
  intros state samples old rate Hsome.
  pose proof (noteOn_channel channel notePitch velocity core) as Hchannel.
  cbv zeta in Hchannel. fold samples state in Hchannel.
  eexists. split; [exact Hchannel |].
  split; [| split].
  - destruct samples as [| s ss]; [done |].
    cbn [ChannelState.oscillators ChannelState.setOscillators].
    rewrite startVoices_lookup by done. rewrite decide_True by done. done.
  - intros s ->. done.
  - intros i j si sj cls Hij Hi Hj Hci Hcj.
    rewrite (createdVoices_lookup rate notePitch velocity samples i si Hi).
    eexists. split; [reflexivity |].
    rewrite sweepAll_spec, decide_True.
    + split; [done | apply forceStop_phase].
    + apply Exists_exists. exists sj. split.
      * apply list_elem_of_lookup. exists (j - S i)%nat.
        rewrite lookup_drop. replace (S i + (j - S i))%nat with j by lia. done.
      * rewrite Hcj. split; [by eexists |]. exact Hci.
Qed.

(** ** renderAudio *)

Section RenderOutcome.
Context {M : MathOps}.
Variable host : Host.

(** *** In a scope that binds [sampleRate] *)

Section BoundScope.
Variable globalRate : Q.
Hypothesis host_binds_sampleRate : hostSampleRate host = Some globalRate.

Lemma getAmplitude_returns bufferSize env :
  exists r, AmplitudeEnvelope.getAmplitude host bufferSize env = Ok r.
Proof using host_binds_sampleRate.
  unfold AmplitudeEnvelope.getAmplitude.
  destruct (AmplitudeEnvelope.calculateAmplitude bufferSize env) as [env1 value].
  rewrite host_binds_sampleRate. by eexists.
Qed.

Lemma oscillator_process_returns osc outputs :
  exists r, WavetableOscillator.process host osc outputs = Ok r.
Proof using host_binds_sampleRate.
  unfold WavetableOscillator.process.
  destruct (negb (WavetableOscillator._isPlaying osc)); [by eexists |].
  destruct (getAmplitude_returns (Z.of_nat (length (fst outputs)))
              (WavetableOscillator.envelope osc)) as [[env gain] Hgain].
  rewrite Hgain. simpl. by eexists.
Qed.

Lemma renderVoices_returns state voices : forall dry,
  exists r, SynthProcessorCore.renderVoices host state voices dry = Ok r.
Proof using host_binds_sampleRate.
  induction voices as [| osc rest IH]; intros dry; simpl; [by eexists |].
  destruct (oscillator_process_returns
              (WavetableOscillator.setChannelControls
                 (Math_pow 2 (ChannelState.pitchBend state / 12)%Q)
                 (ChannelState.volume state * ChannelState.expression state)%Q
                 (ChannelState.pan state) (ChannelState.modulation state) osc) dry)
    as [[rendered dry1] Hone].
  rewrite Hone. simpl.
  destruct (IH dry1) as [[kept dry2] Hrest]. rewrite Hrest. simpl. by eexists.
Qed.

Lemma forEachResult_returns {A S : Type} (body : S -> A -> Result S) (items : list A) :
  (forall s x, exists s', body s x = Ok s') ->
  forall s, exists s', forEachResult body items s = Ok s'.
Proof.
  intros Hbody. induction items as [| x rest IH]; intros s; simpl; [by eexists |].
  destruct (Hbody s x) as [s1 Hone]. rewrite Hone. simpl. apply IH.
Qed.

Lemma renderKey_returns st key :
  exists r, SynthProcessorCore.renderKey host st key = Ok r.
Proof using host_binds_sampleRate.
  destruct st as [state dry]. unfold SynthProcessorCore.renderKey.
  destruct (ChannelState.oscillators state !! key) as [voices |]; [| by eexists].
  destruct (renderVoices_returns state voices dry) as [[kept dry1] Hvoices].
  rewrite Hvoices. simpl. by eexists.
Qed.

Lemma renderChannel_returns st channel :
  exists r, SynthProcessorCore.renderChannel host st channel = Ok r.
Proof using host_binds_sampleRate.
  destruct st as [chs dry]. unfold SynthProcessorCore.renderChannel.
  destruct (chs !! channel) as [state |]; [| by eexists].
  destruct (forEachResult_returns (SynthProcessorCore.renderKey host)
              (keysInOrder (ChannelState.oscillators state)) renderKey_returns (state, dry))
    as [[state1 dry1] Hkeys].
  rewrite Hkeys. simpl. by eexists.
Qed.

(** [process] cannot fail. *)
Lemma process_returns currentFrame outputs core :
  exists r, SynthProcessorCore.process host currentFrame outputs core = Ok r.
Proof using host_binds_sampleRate.
  unfold SynthProcessorCore.process.
  set (core1 := fst (SynthProcessorCore.processScheduledEvents currentFrame core)).
  destruct (forEachResult_returns (SynthProcessorCore.renderChannel host)
              (keysInOrder (SynthProcessorCore.channels core1)) renderChannel_returns
              (SynthProcessorCore.channels core1,
               (replicate (length (fst outputs)) 0%Q, replicate (length (snd outputs)) 0%Q)))
    as [[chs dry] Hchannels].
  rewrite Hchannels. simpl.
  destruct (ReverbProcessor.process _ _ _ _) as [reverb outputs1]. by eexists.
Qed.

(** The loop ends with the buffers, or with the cancellation that a
    poll asked for. *)
Lemma renderLoop_outcome options bufSize iterCount audioBufferSize (count : nat) :
  forall i st,
  (exists final,
     renderLoop host options bufSize iterCount audioBufferSize count i st = Ok final) \/
  (renderLoop host options bufSize iterCount audioBufferSize count i st
   = Throw (Error "renderAudio cancelled") /\
   exists cancelled turn,
     RenderAudioOptions.cancel options = Some cancelled /\ cancelled turn = true).
Proof using host_binds_sampleRate.
  induction count as [| count IH]; intros i st; simpl; [left; by eexists |].
  destruct (process_returns (currentFrame st)
              (replicate (Z.to_nat bufSize) 0%Q, replicate (Z.to_nat bufSize) 0%Q)
              (synth st)) as [[synth1 buffer] Hprocess].
  rewrite Hprocess. simpl.
  destruct ((i >? iterCount) && isArrayZero (fst buffer) && isArrayZero (snd buffer));
    [left; by eexists |].
  destruct (Z.rem i 1000 =? 0); [| apply IH].
  destruct (RenderAudioOptions.cancel options) as [cancelled |] eqn:Hcancel; [| apply IH].
  destruct (cancelled i) eqn:Hturn; [| apply IH].
  right. split; [done |]. by exists cancelled, i.
Qed.

(** The part of C8 that holds in such a scope: [renderAudio] returns
    the buffers unless a poll of [cancel] answers true, and then fails
    with the cancellation error. *)
Lemma renderAudio_outcome samples events options :
  (exists audio, renderAudio host samples events options = Ok audio) \/
  (renderAudio host samples events options = Throw (Error "renderAudio cancelled") /\
   exists cancelled turn,
     RenderAudioOptions.cancel options = Some cancelled /\ cancelled turn = true).
Proof using host_binds_sampleRate.
  unfold renderAudio.
  destruct (addAll events _) as [synth1 sequenceNumber].
  match goal with
  | |- context [renderLoop host options ?b ?ic ?abs ?count ?i ?st] =>
      destruct (renderLoop_outcome options b ic abs count i st)
        as [[final Hloop] | [Hloop Hcancel]]; rewrite Hloop; simpl
  end.
  - left. by eexists.
  - right. done.
Qed.

(** A poll is made in the first turn of the loop: a [cancel] that
    answers true there ends the render with the cancellation error. *)
Lemma renderAudio_cancelled_at_first_poll samples events options cancelled :
  RenderAudioOptions.cancel options = Some cancelled ->
  cancelled 0 = true ->
  0 < default 500 (RenderAudioOptions.bufferSize options) ->
  (0 < default 44100 (RenderAudioOptions.sampleRate options))%Q ->
  0 <= getSongLength events ->
  renderAudio host samples events options = Throw (Error "renderAudio cancelled").
Proof using host_binds_sampleRate.
  intros Hcancel Hfirst Hsize Hrate Hlength. unfold renderAudio.
  destruct (addAll events _) as [synth1 sequenceNumber].
  set (bufSize := default 500 (RenderAudioOptions.bufferSize options)) in *.
  set (rate := default 44100%Q (RenderAudioOptions.sampleRate options)) in *.
  set (iterCount := Qceiling (inject_Z (getSongLength events) / inject_Z bufSize)).
  set (additional := Qceiling (silentTimeoutSec * rate / inject_Z bufSize)).
  assert (Hsize' : (0 < inject_Z bufSize)%Q)
    by (change 0%Q with (inject_Z 0); rewrite <- Zlt_Qlt; lia).
  assert (Hiter : 0 <= iterCount).
  { change 0 with (Qceiling 0). apply Qceiling_resp_le.
    apply Qle_shift_div_l; [done |].
    rewrite Qmult_0_l. change 0%Q with (inject_Z 0). rewrite <- Zle_Qle. lia. }
  assert (Hadditional : 0 < additional).
  { assert (Hpos : (0 < silentTimeoutSec * rate / inject_Z bufSize)%Q).
    { apply Qlt_shift_div_l; [done |]. unfold silentTimeoutSec. lra. }
    pose proof (Qle_ceiling (silentTimeoutSec * rate / inject_Z bufSize)) as Hceil.
    fold additional in Hceil. rewrite Zlt_Qlt. change (inject_Z 0) with 0%Q. lra. }
  destruct (Z.to_nat (iterCount + additional)) as [| count] eqn:Hcount; [lia |].
  simpl.
  match goal with
  | |- context [SynthProcessorCore.process host ?cf ?out ?core] =>
      destruct (process_returns cf out core) as [[synth2 buffer] Hprocess];
      rewrite Hprocess
  end.
  simpl.
  destruct (Z.gtb_spec 0 iterCount) as [Hgt | _]; [lia |]. simpl.
  rewrite Hcancel, Hfirst. done.
Qed.

End BoundScope.

End RenderOutcome.

(** *** In the scope of the worker *)

Definition exampleSamples : list SynthEvent :=
  [ LoadSampleEvent [1 # 2; 1 # 4; 1 # 8; 1 # 16]%Q 7;
    SampleParameterEvent (exampleParameter 7 None) (exampleRange 0 60 60) ].

Definition exampleEvents : list SynthEvent :=
  [ MIDIEvent (ChannelEvent 0 (NoteOn 60 100)) 0 0 ].

Definition defaultOptions : RenderAudioOptions.t :=
  {| RenderAudioOptions.sampleRate := None;
     RenderAudioOptions.bufferSize := None;
     RenderAudioOptions.cancel := None |}.

(** C8. With one loaded sample and one note, no [cancel] and the default
    options, [renderAudio] run in the scope of a dedicated worker, which
    binds no [sampleRate], does not return the buffers: the first buffer
    with a sounding voice ends in a [ReferenceError], raised by
    [getAmplitude]. *)
Theorem renderAudio_fails_in_worker_scope (M : MathOps) :
  renderAudio workerScope exampleSamples exampleEvents defaultOptions
  = Throw (ReferenceError "sampleRate").
Proof. vm_compute. reflexivity. Qed.

(** * Further properties *)

(** ** max and getSongLength *)

Lemma maxOf_fold (rest : list Z) : forall first,
  let m := fold_left (fun m x => if x >? m then x else m) rest first in
  (m = first \/ m ∈ rest) /\ first <= m /\ Forall (fun x => x <= m) rest.
Proof.
  induction rest as [| x rest IH]; intros first; simpl.
  - split; [by left |]. split; [lia | constructor].
  - destruct (IH (if x >? first then x else first)) as (Hin & Hle & Hall).
    destruct (Z.gtb_spec x first) as [Hgt | Hngt].
    + split; [right; destruct Hin as [-> | Hin]; [left | by right] |].
      split; [lia |]. constructor; [lia | done].
    + split; [destruct Hin as [-> | Hin]; [by left | right; by right] |].
      split; [lia |]. constructor; [lia | done].
Qed.

(** X1.  [max(arr)] is [undefined] for the empty array only; otherwise it is
    an element of the array that no element exceeds. *)
Theorem maxOf_is_greatest (arr : list Z) :
  match maxOf arr with
  | None => arr = []
  | Some m => m ∈ arr /\ Forall (fun x => x <= m) arr
  end.
Proof.
  destruct arr as [| first rest]; [done |]. simpl.
  destruct (maxOf_fold rest first) as (Hin & Hle & Hall). cbv zeta in *.
  split.
  - destruct Hin as [-> | Hin]; [left | by right].
  - constructor; [lia | done].
Qed.

(** X2.  [getSongLength] is 0 for no events, and no MIDI event has a larger
    delay; so the buffers that [renderAudio] plans for the song,
    [ceil(songLength / bufSize)] of [bufSize] frames, reach the delay of
    every MIDI event. *)
Theorem getSongLength_covers_every_delay
    (events : list SynthEvent) (bufSize : Z) (m : AnyEvent) (d n : Z) :
  0 < bufSize ->
  MIDIEvent m d n ∈ events ->
  getSongLength [] = 0 /\
  d <= getSongLength events /\
  d <= Qceiling (inject_Z (getSongLength events) / inject_Z bufSize) * bufSize.
Proof.
  intros Hsize Hin. split; [done |].
  assert (Hd : d <= getSongLength events).
  { unfold getSongLength.
    assert (Hdelay : d ∈ map (fun e => match e with MIDIEvent _ d _ => d | _ => 0 end) events).
    { apply list_elem_of_fmap. exists (MIDIEvent m d n). done. }
    destruct (map _ events) as [| first rest]; [by apply elem_of_nil in Hdelay |].
    destruct (maxOf_fold rest first) as (_ & Hle & Hall). cbv zeta in *.
    rewrite Forall_forall in Hall. simpl.
    apply elem_of_cons in Hdelay as [-> | Hdelay]; [exact Hle | by apply Hall]. }
  split; [done |].
  set (len := getSongLength events) in *.
  pose proof (Qle_ceiling (inject_Z len / inject_Z bufSize)) as Hceil.
  assert (Hpos : (0 < inject_Z bufSize)%Q)
    by (change 0%Q with (inject_Z 0); rewrite <- Zlt_Qlt; lia).
  assert (Hq : (inject_Z len <= inject_Z (Qceiling (inject_Z len / inject_Z bufSize) * bufSize))%Q).
  { rewrite inject_Z_mult.
    apply Qle_trans with ((inject_Z len / inject_Z bufSize) * inject_Z bufSize)%Q.
    - apply Qle_lteq. right. field. lra.
    - apply Qmult_le_compat_r; lra. }
  rewrite <- Zle_Qle in Hq. lia.
Qed.

(** ** Buffer *)

Lemma toInt32_range (z : Z) : - 2 ^ 31 <= toInt32 z < 2 ^ 31.
Proof. unfold toInt32. pose proof (Z.mod_pos_bound (z + 2 ^ 31) (2 ^ 32)). lia. Qed.

Lemma toInt32_small (z : Z) : - 2 ^ 31 <= z < 2 ^ 31 -> toInt32 z = z.
Proof. intros Hz. unfold toInt32. rewrite Z.mod_small; lia. Qed.

(** The byte [(v >> k) & 0xff] is the digit of weight [2 ^ k] of the 32-bit
    integer. *)
Lemma byteOf_spec (v k : Z) :
  0 <= k ->
  bitAnd (shiftRight v k) 0xff = (toInt32 v / 2 ^ k) mod 256.
Proof.
  intros Hk. unfold bitAnd, shiftRight.
  rewrite Z.shiftr_div_pow2 by done.
  set (x := toInt32 v / 2 ^ k).
  assert (Hx : - 2 ^ 31 <= x < 2 ^ 31).
  { pose proof (toInt32_range v) as Hv. unfold x.
    assert (0 < 2 ^ k) by (apply Z.pow_pos_nonneg; lia).
    split.
    - apply Z.div_le_lower_bound; [done |]. nia.
    - apply Z.div_lt_upper_bound; [done |]. nia. }
  rewrite (toInt32_small x Hx), (toInt32_small 255) by lia.
  change 255 with (Z.ones 8). rewrite Z.land_ones by lia.
  change (2 ^ 8) with 256.
  apply toInt32_small. pose proof (Z.mod_pos_bound x 256). lia.
Qed.

Lemma byteOf_zero (v : Z) : bitAnd v 0xff = toInt32 v mod 256.
Proof.
  pose proof (byteOf_spec v 0 ltac:(lia)) as H.
  unfold shiftRight in H. rewrite Z.shiftr_0_r in H.
  unfold bitAnd in *. rewrite (toInt32_small (toInt32 v)) in H by apply toInt32_range.
  rewrite H. by rewrite Z.div_1_r.
Qed.

(** The byte of the 32-bit integer [v] that begins at the bit [k]. *)
Definition byteAt (v k : Z) : Z := (toInt32 v / 2 ^ k) mod 256.

Lemma byteAt_range (v k : Z) : 0 <= byteAt v k < 256.
Proof. apply Z.mod_pos_bound. lia. Qed.

Lemma writeInt32_data (v : Z) (b : Buffer.t) :
  Buffer.data (Buffer.writeInt32 v b)
  = Buffer.data b ++ [byteAt v 24; byteAt v 16; byteAt v 8; byteAt v 0] /\
  Buffer.position (Buffer.writeInt32 v b) = Buffer.position b + 4.
Proof.
  unfold Buffer.writeInt32, Buffer.writeByte. cbn [Buffer.data Buffer.position].
  rewrite !byteOf_spec by lia. rewrite byteOf_zero. unfold byteAt.
  rewrite Z.div_1_r, <- !app_assoc. split; [done | lia].
Qed.

Lemma writeInt16_data (v : Z) (b : Buffer.t) :
  Buffer.data (Buffer.writeInt16 v b) = Buffer.data b ++ [byteAt v 8; byteAt v 0] /\
  Buffer.position (Buffer.writeInt16 v b) = Buffer.position b + 2.
Proof.
  unfold Buffer.writeInt16, Buffer.writeByte. cbn [Buffer.data Buffer.position].
  rewrite !byteOf_spec by lia. rewrite byteOf_zero. unfold byteAt.
  rewrite Z.div_1_r, <- !app_assoc. split; [done | lia].
Qed.

Lemma toInt32_mod (v : Z) : toInt32 v mod 2 ^ 32 = v mod 2 ^ 32.
Proof.
  unfold toInt32.
  replace ((v + 2 ^ 31) mod 2 ^ 32 - 2 ^ 31)
    with ((v + 2 ^ 31) mod 2 ^ 32 + (- 2 ^ 31)) by lia.
  rewrite Zplus_mod_idemp_l. f_equal. lia.
Qed.

Lemma byteAt_digits32 (v : Z) :
  byteAt v 24 * 2 ^ 24 + byteAt v 16 * 2 ^ 16 + byteAt v 8 * 2 ^ 8 + byteAt v 0 = v mod 2 ^ 32.
Proof.
  rewrite <- toInt32_mod. unfold byteAt. set (w := toInt32 v).
  change (2 ^ 24) with 16777216. change (2 ^ 16) with 65536.
  change (2 ^ 8) with 256. change (2 ^ 32) with 4294967296. change (2 ^ 0) with 1.
  Z.div_mod_to_equations. lia.
Qed.

Lemma byteAt_digits16 (v : Z) : byteAt v 8 * 2 ^ 8 + byteAt v 0 = v mod 2 ^ 16.
Proof.
  assert (Hv : v mod 2 ^ 16 = toInt32 v mod 2 ^ 16).
  { pose proof (toInt32_mod v) as Hw.
    change (2 ^ 32) with (2 ^ 16 * 2 ^ 16) in Hw.
    rewrite <- (Z.mod_mod_divide (toInt32 v) (2 ^ 16 * 2 ^ 16) (2 ^ 16)), Hw,
      Z.mod_mod_divide; [done | |]; by exists (2 ^ 16). }
  rewrite Hv. unfold byteAt. set (w := toInt32 v).
  change (2 ^ 8) with 256. change (2 ^ 16) with 65536. change (2 ^ 0) with 1.
  Z.div_mod_to_equations. lia.
Qed.

Lemma writeBytes_data (arr : list Z) : forall b : Buffer.t,
  Buffer.data (Buffer.writeBytes arr b) = Buffer.data b ++ arr /\
  Buffer.position (Buffer.writeBytes arr b) = Buffer.position b + Z.of_nat (length arr).
Proof.
  unfold Buffer.writeBytes.
  induction arr as [| v arr IH]; intros b; simpl.
  - rewrite app_nil_r. split; [done | lia].
  - destruct (IH (Buffer.writeByte v b)) as [-> ->]. cbn [Buffer.writeByte Buffer.data Buffer.position].
    rewrite <- app_assoc. split; [done | lia].
Qed.

(** X3.  [writeInt32] appends the four base-256 digits of the 32-bit
    integer, the most significant first, and [writeInt16] its two lowest
    digits: read back as a big-endian number they give [v] modulo [2 ^ 32]
    and modulo [2 ^ 16]; [toBytes] keeps them as they are. *)
Theorem writeInt32_is_big_endian (v : Z) (b : Buffer.t) :
  (exists b3 b2 b1 b0,
     Buffer.data (Buffer.writeInt32 v b) = Buffer.data b ++ [b3; b2; b1; b0] /\
     Forall (fun x => 0 <= x < 256) [b3; b2; b1; b0] /\
     b3 * 2 ^ 24 + b2 * 2 ^ 16 + b1 * 2 ^ 8 + b0 = v mod 2 ^ 32 /\
     Buffer.toBytes (Buffer.writeInt32 v b) = Buffer.toBytes b ++ [b3; b2; b1; b0]) /\
  (exists b1 b0,
     Buffer.data (Buffer.writeInt16 v b) = Buffer.data b ++ [b1; b0] /\
     Forall (fun x => 0 <= x < 256) [b1; b0] /\
     b1 * 2 ^ 8 + b0 = v mod 2 ^ 16 /\
     Buffer.toBytes (Buffer.writeInt16 v b) = Buffer.toBytes b ++ [b1; b0]).
Proof.
  split.
  - exists (byteAt v 24), (byteAt v 16), (byteAt v 8), (byteAt v 0).
    destruct (writeInt32_data v b) as [Hdata _].
    split; [exact Hdata |]. split; [repeat constructor; apply byteAt_range |].
    split; [apply byteAt_digits32 |].
    unfold Buffer.toBytes. rewrite Hdata, map_app. f_equal. cbn [map].
    unfold byteAt. by rewrite !Z.mod_mod by lia.
  - exists (byteAt v 8), (byteAt v 0).
    destruct (writeInt16_data v b) as [Hdata _].
    split; [exact Hdata |]. split; [repeat constructor; apply byteAt_range |].
    split; [apply byteAt_digits16 |].
    unfold Buffer.toBytes. rewrite Hdata, map_app. f_equal. cbn [map].
    unfold byteAt. by rewrite !Z.mod_mod by lia.
Qed.

(** The number that a list of bytes spells, the most significant first. *)
Definition bigEndian (bytes : list Z) : Z := fold_left (fun acc x => acc * 256 + x) bytes 0.

(** X4.  [writeChunk] appends the characters of the id, then the length of
    what [func] wrote to its own buffer, as four big-endian bytes, then
    those data; nothing of the chunk goes out before its length.  With every
    write, [position] advances by the number of entries appended. *)
Theorem writeChunk_frames_the_chunk (id : string) (func : Buffer.t -> Buffer.t) (b : Buffer.t) :
  let chunk := Buffer.data (func Buffer.new) in
  let written := Buffer.writeChunk id func b in
  (exists header,
     Buffer.data written = Buffer.data b ++ toCharCodes id ++ header ++ chunk /\
     length header = 4%nat /\
     Forall (fun x => 0 <= x < 256) header /\
     bigEndian header = Z.of_nat (length chunk) mod 2 ^ 32) /\
  Buffer.position written - Buffer.position b = Buffer.length written - Buffer.length b /\
  (forall v arr str,
     Buffer.position (Buffer.writeByte v b) - Buffer.position b
     = Buffer.length (Buffer.writeByte v b) - Buffer.length b /\
     Buffer.position (Buffer.writeBytes arr b) - Buffer.position b
     = Buffer.length (Buffer.writeBytes arr b) - Buffer.length b /\
     Buffer.position (Buffer.writeStr str b) - Buffer.position b
     = Buffer.length (Buffer.writeStr str b) - Buffer.length b /\
     Buffer.position (Buffer.writeInt32 v b) - Buffer.position b
     = Buffer.length (Buffer.writeInt32 v b) - Buffer.length b /\
     Buffer.position (Buffer.writeInt16 v b) - Buffer.position b
     = Buffer.length (Buffer.writeInt16 v b) - Buffer.length b).
Proof.
  intros chunk written.
  set (n := Buffer.length (func Buffer.new)).
  set (header := [byteAt n 24; byteAt n 16; byteAt n 8; byteAt n 0]).
  assert (Hdata : Buffer.data written = Buffer.data b ++ toCharCodes id ++ header ++ chunk /\
                  Buffer.position written
                  = Buffer.position b + Z.of_nat (length (toCharCodes id)) + 4
                    + Z.of_nat (length chunk)).
  { unfold written, Buffer.writeChunk, Buffer.writeStr. cbv zeta. fold n. fold chunk.
    destruct (writeBytes_data chunk
                (Buffer.writeInt32 n (Buffer.writeBytes (toCharCodes id) b))) as [-> ->].
    destruct (writeInt32_data n (Buffer.writeBytes (toCharCodes id) b)) as [-> ->].
    destruct (writeBytes_data (toCharCodes id) b) as [-> ->].
    rewrite <- !app_assoc. split; [done | lia]. }
  destruct Hdata as [Hdata Hpos].
  split; [| split].
  - exists header. split; [exact Hdata |]. split; [done |].
    split; [repeat constructor; apply byteAt_range |].
    unfold bigEndian, header. cbn [fold_left].
    pose proof (byteAt_digits32 n) as Hdigits. fold chunk in n.
    replace (Z.of_nat (length chunk)) with n by done. rewrite <- Hdigits. ring.
  - unfold Buffer.length. rewrite Hdata, Hpos, !length_app.
    change (length header) with 4%nat. lia.
  - intros v arr str. unfold Buffer.length, Buffer.writeStr.
    destruct (writeBytes_data arr b) as [-> ->].
    destruct (writeBytes_data (toCharCodes str) b) as [-> ->].
    destruct (writeInt32_data v b) as [-> ->].
    destruct (writeInt16_data v b) as [-> ->].
    cbn [Buffer.writeByte Buffer.data Buffer.position].
    rewrite !length_app. cbn [length]. lia.
Qed.

(** ** insertSorted and sortEvents *)

(** X5.  [insertSorted] puts the item into a sorted array at the first place
    that keeps it sorted: after the entries with a smaller key and before
    the entries with an equal or larger key, which keep their order. *)
Theorem insertSorted_goes_before_equal_keys {A : Type} (prop : A -> Z)
    (arr : list A) (item : A) :
  sortedBy prop arr ->
  exists k : nat,
    (k <= length arr)%nat /\
    insertSorted prop arr item = take k arr ++ item :: drop k arr /\
    Forall (fun x => prop x < prop item) (take k arr) /\
    Forall (fun x => prop item <= prop x) (drop k arr) /\
    sortedBy prop (insertSorted prop arr item).
Proof.
  intros Hsorted.
  destruct (searchSlot_spec prop arr item 0 (length arr) Hsorted) as (Hk & Hbefore & Hafter).
  - lia.
  - intros i x Hi. lia.
  - intros i x Hi Hx. apply lookup_lt_Some in Hx. lia.
  - exists (searchSlot prop arr item 0 (length arr)).
    split; [lia |]. split; [done |]. split; [| split].
    + apply Forall_forall. intros x Hx.
      apply list_elem_of_lookup in Hx as [i Hi].
      pose proof (lookup_lt_Some _ _ _ Hi) as Hlen. rewrite length_take in Hlen.
      rewrite lookup_take_lt in Hi by lia. apply (Hbefore i x); [lia | done].
    + apply Forall_forall. intros x Hx.
      apply list_elem_of_lookup in Hx as [i Hi].
      rewrite lookup_drop in Hi. apply (Hafter _ x) in Hi; [done | lia].
    + by apply insertSorted_sorted.
Qed.

(** X6.  [sortEvents] is a comparator that [Array.prototype.sort] can rely
    on: it answers -1, 0 or 1, swapping the arguments negates the answer, it
    is 0 only for equal frames and sequence numbers, and "not after" is
    transitive. *)
Theorem sortEvents_is_consistent (a b c : SynthEventScheduler.ScheduledEvent) :
  let cmp := SynthEventScheduler.sortEvents in
  (cmp a b = -1 \/ cmp a b = 0 \/ cmp a b = 1) /\
  cmp a b = - cmp b a /\
  (cmp a b = 0 <->
   SynthEventScheduler.scheduledFrame a = SynthEventScheduler.scheduledFrame b /\
   SynthEventScheduler.sequenceNumber a = SynthEventScheduler.sequenceNumber b) /\
  (cmp a b <= 0 -> cmp b c <= 0 -> cmp a c <= 0).
Proof.
  cbv zeta. unfold SynthEventScheduler.sortEvents.
  repeat match goal with
         | |- context [?x <? ?y] => destruct (Z.ltb_spec x y)
         | |- context [?x >? ?y] => destruct (Z.gtb_spec x y)
         end; repeat split; try lia; auto.
Qed.

(** ** The scheduler: what a run dispatches *)

(** The MIDI events that the [addEvent] calls of a run submit, as the
    scheduler stores them, in the order of the calls. *)
Definition submittedEvents (calls : list (Z * SchedulerCall))
    : list SynthEventScheduler.ScheduledEvent :=
  omap (fun call =>
          match snd call with
          | CallAddEvent (MIDIEvent m d n) =>
              Some {| SynthEventScheduler.midi := m;
                      SynthEventScheduler.delayTime := d;
                      SynthEventScheduler.sequenceNumber := n;
                      SynthEventScheduler.scheduledFrame := fst call + d |}
          | _ => None
          end) calls.

Lemma insertSorted_Permutation {A : Type} (prop : A -> Z) (arr : list A) (item : A) :
  insertSorted prop arr item ≡ₚ item :: arr.
Proof.
  unfold insertSorted, splice.
  rewrite <- Permutation_middle. by rewrite take_drop.
Qed.

Lemma popDue_split (currentFrame : Z) (scheduled : list SynthEventScheduler.ScheduledEvent) :
  forall current,
  exists due later,
    scheduled = due ++ later /\
    SynthEventScheduler.popDue currentFrame scheduled current = (later, current ++ due) /\
    Forall (fun e => SynthEventScheduler.scheduledFrame e <= currentFrame) due.
Proof.
  induction scheduled as [| e rest IH]; intros current; simpl.
  - exists [], []. simpl. rewrite app_nil_r. split; [done |]. split; [done | constructor].
  - destruct (Z.gtb_spec (SynthEventScheduler.scheduledFrame e) currentFrame) as [Hgt | Hle].
    + exists [], (e :: rest). simpl. rewrite app_nil_r. split; [done |]. split; [done | constructor].
    + destruct (IH (current ++ [e])) as (due & later & -> & Hpop & Hdue).
      exists (e :: due), later. rewrite Hpop, <- app_assoc.
      split; [done |]. split; [done |]. by constructor.
Qed.

Section SchedulerConservation.
Import SynthEventScheduler.
Context {W : Type}.
Variable this : W -> t.
Variable setThis : t -> W -> W.
Variable onImmediateEvent : SynthEvent -> W -> W.
Variable onDelayableEvent : AnyEvent -> W -> W.

Hypothesis this_setThis : forall s w, this (setThis s w) = s.
Hypothesis immediate_keeps : forall e w, this (onImmediateEvent e w) = this w.
Hypothesis delayable_purges : forall m w,
  this (onDelayableEvent m w) = this w \/
  exists channel, this (onDelayableEvent m w) = removeScheduledEvents channel (this w).

(** The events whose dispatch leaves the queues alone. *)
Variable quiet : AnyEvent -> Prop.
Hypothesis quiet_keeps : forall m w, quiet m -> this (onDelayableEvent m w) = this w.

Lemma dispatchCurrent_conserves (fuel : nat) :
  forall w,
  (length (currentEvents (this w)) <= fuel)%nat ->
  let result := dispatchCurrent this setThis onDelayableEvent fuel w in
  snd result ++ scheduledEvents (this (fst result))
    ⊆+ currentEvents (this w) ++ scheduledEvents (this w) /\
  (Forall (fun e => quiet (midi e)) (currentEvents (this w)) ->
   snd result = currentEvents (this w) /\
   scheduledEvents (this (fst result)) = scheduledEvents (this w)).
Proof using this_setThis delayable_purges quiet_keeps.
  induction fuel as [| fuel IH]; intros w Hlen.
  - destruct (currentEvents (this w)) as [| e rest] eqn:Hcurrent; [| simpl in Hlen; lia].
    simpl. split; [done |]. intros _. done.
  - simpl. destruct (currentEvents (this w)) as [| e rest] eqn:Hcurrent.
    + simpl. split; [done |]. intros _. done.
    + set (shifted := setThis _ w).
      assert (Hshifted : currentEvents (this shifted) = rest /\
                         scheduledEvents (this shifted) = scheduledEvents (this w))
        by (unfold shifted; rewrite this_setThis; done).
      destruct Hshifted as [Hrest Hsched].
      set (w' := onDelayableEvent (midi e) shifted).
      assert (Hsub : sublist (currentEvents (this w')) rest /\
                     sublist (scheduledEvents (this w')) (scheduledEvents (this w))).
      { unfold w'. destruct (delayable_purges (midi e) shifted) as [-> | [channel ->]].
        - by rewrite Hrest, Hsched.
        - rewrite <- Hrest, <- Hsched.
          destruct (removeScheduledEvents_sublist channel (this shifted)); done. }
      destruct Hsub as [Hsub1 Hsub2].
      assert (Hlen' : (length (currentEvents (this w')) <= fuel)%nat).
      { apply sublist_length in Hsub1. simpl in Hlen. lia. }
      specialize (IH w' Hlen').
      destruct (dispatchCurrent this setThis onDelayableEvent fuel w') as [final dispatched].
      simpl in IH. destruct IH as [IHsub IHquiet]. simpl. split.
      * apply submseteq_skip. etrans; [exact IHsub |].
        apply submseteq_app; by apply sublist_submseteq.
      * intros Hquiet. apply Forall_cons in Hquiet as [He Hquiet].
        assert (Hkeep : this w' = this shifted) by (unfold w'; by apply quiet_keeps).
        rewrite Hkeep, Hrest, Hsched in IHquiet.
        destruct (IHquiet Hquiet) as [-> ->]. done.
Qed.

Lemma processScheduledEvents_conserves (currentFrame : Z) (w : W) :
  currentEvents (this w) = [] ->
  let result :=
    processScheduledEvents this setThis onImmediateEvent onDelayableEvent currentFrame w in
  currentEvents (this (fst result)) = [] /\
  snd result ++ scheduledEvents (this (fst result)) ⊆+ scheduledEvents (this w) /\
  (Forall (fun e => quiet (midi e)) (scheduledEvents (this w)) ->
   snd result ++ scheduledEvents (this (fst result)) ≡ₚ scheduledEvents (this w)).
Proof using this_setThis immediate_keeps delayable_purges quiet_keeps.
  intros Hcurrent. unfold processScheduledEvents.
  set (w1 := processReverbEvents this setThis onImmediateEvent _ currentFrame w).
  destruct (processReverbEvents_keeps this setThis onImmediateEvent this_setThis immediate_keeps
              (length (scheduledReverbEvents (this w))) currentFrame w) as [Hsched1 Hcurrent1].
  fold w1 in Hsched1, Hcurrent1. rewrite Hcurrent in Hcurrent1.
  cbv zeta. rewrite Hsched1, Hcurrent1.
  destruct (scheduledEvents (this w)) as [| e0 rest0] eqn:Hqueue.
  { simpl. rewrite Hsched1. split; [done |]. split; [done |]. intros _. done. }
  rewrite <- Hqueue in *. clear e0 rest0 Hqueue.
  destruct (popDue_split currentFrame (scheduledEvents (this w)) [])
    as (due & later & Hsplit & Hpop & _).
  rewrite Hpop. simpl.
  set (batch := sort sortEvents due).
  set (w2 := setThis _ w1).
  assert (Hw2 : currentEvents (this w2) = batch /\ scheduledEvents (this w2) = later)
    by (unfold w2; rewrite this_setThis; done).
  destruct Hw2 as [Hbatch Hlater].
  pose proof (dispatchCurrent_conserves (length batch) w2) as Hrun.
  pose proof (dispatchCurrent_spec this setThis onDelayableEvent this_setThis delayable_purges
                (length batch) w2) as Hdone.
  rewrite Hbatch in Hdone. specialize (Hdone ltac:(lia)). cbv zeta in Hdone.
  destruct Hdone as [Hdone _].
  rewrite Hbatch, Hlater in Hrun. specialize (Hrun ltac:(lia)). cbv zeta in Hrun.
  destruct Hrun as [Hsub Hquiet]. split; [exact Hdone |].
  assert (Hperm : batch ++ later ≡ₚ scheduledEvents (this w)).
  { rewrite Hsplit. unfold batch. by rewrite sort_Permutation. }
  split.
  - etrans; [exact Hsub |]. by rewrite Hperm.
  - intros Hall. rewrite Hsplit in Hall. apply Forall_app in Hall as [Hdue _].
    assert (Hbatchquiet : Forall (fun e => quiet (midi e)) batch).
    { unfold batch. by rewrite sort_Permutation. }
    destruct (Hquiet Hbatchquiet) as [-> ->]. exact Hperm.
Qed.

(** Along a run: the batch is empty between the calls, what has been
    dispatched or is pending was submitted, no more often than it was
    submitted; and nothing is missing as long as every submitted event is
    quiet. *)
Lemma runCalls_conserves (calls : list (Z * SchedulerCall)) (w : W) :
  this w = empty ->
  let st := runCalls this setThis onImmediateEvent onDelayableEvent calls w in
  currentEvents (this (fst st)) = [] /\
  snd st ++ scheduledEvents (this (fst st)) ⊆+ submittedEvents calls /\
  (Forall (fun e => quiet (midi e)) (submittedEvents calls) ->
   snd st ++ scheduledEvents (this (fst st)) ≡ₚ submittedEvents calls).
Proof using this_setThis immediate_keeps delayable_purges quiet_keeps.
  intros Hempty.
  induction calls as [| [currentFrame call] calls IH] using rev_ind.
  - simpl. rewrite Hempty. simpl. split; [done |]. split; [done |]. intros _. done.
  - rewrite runCalls_snoc. cbv zeta in *.
    destruct (runCalls this setThis onImmediateEvent onDelayableEvent calls w)
      as [w0 log] eqn:Hrun.
    simpl in IH. destruct IH as (Hcurrent & Hsub & Hquiet).
    unfold submittedEvents in *. rewrite omap_app. simpl.
    unfold stepCall. simpl. destruct call as [e |].
    + destruct (addEvent_spec this setThis onImmediateEvent this_setThis immediate_keeps
                  currentFrame e w0) as [Hcur Hqueue].
      simpl. rewrite Hcur, Hqueue. split; [done |].
      destruct e as [data id | p range | amount d | m d n]; simpl;
        rewrite ?app_nil_r; try (split; [done | done]).
      rewrite insertSorted_Permutation.
      split.
      * rewrite <- Permutation_middle, (Permutation_app_comm _ [_]). simpl.
        by apply submseteq_skip.
      * intros Hall. apply Forall_app in Hall as [Hall _].
        rewrite <- Permutation_middle, (Permutation_app_comm _ [_]). simpl.
        by rewrite (Hquiet Hall).
    + pose proof (processScheduledEvents_conserves currentFrame w0 Hcurrent) as Hcons.
      cbv zeta in Hcons. destruct Hcons as (Hdone & Hsub' & Hquiet').
      simpl. rewrite app_nil_r. split; [exact Hdone |]. rewrite <- app_assoc. split.
      * etrans; [| exact Hsub]. by apply submseteq_app.
      * intros Hall. specialize (Hquiet Hall). rewrite <- Hquiet.
        apply Permutation_app; [done |]. apply Hquiet'.
        assert (Hpending : Forall (fun e => quiet (midi e)) (log ++ scheduledEvents (this w0)))
          by (by rewrite Hquiet).
        by apply Forall_app in Hpending as [_ Hpending].
Qed.

End SchedulerConservation.

(** The controller "all sounds off", the one event whose dispatch purges
    the queues. *)
Definition isAllSoundsOff (m : AnyEvent) : bool :=
  match m with
  | ChannelEvent _ (Controller controllerType _) =>
      controllerType =? MIDIControlEvents.ALL_SOUNDS_OFF
  | _ => false
  end.

Section CoreConservation.
Import SynthProcessorCore.
Context {M : MathOps}.

Lemma handleDelayableEvent_quiet m core :
  isAllSoundsOff m = false ->
  eventScheduler (handleDelayableEvent m core) = eventScheduler core.
Proof.
  intros Hquiet.
  destruct m as [channel body |]; [| done].
  destruct body as [n v | n v | v | v | controllerType v |]; simpl in *.
  - apply eventScheduler_noteOn.
  - apply eventScheduler_onChannelState.
  - apply eventScheduler_onChannelState.
  - apply eventScheduler_onChannelState.
  - unfold handleController. rewrite Hquiet.
    repeat match goal with
           | |- context [if ?b then _ else _] => destruct b
           end;
      try done;
      try (unfold updateRPN; done);
      try apply eventScheduler_onChannelState.
    + destruct (rpnLSB _) as [[| ? | ?] |]; try done.
      unfold setPitchBendSensitivity. by rewrite eventScheduler_onChannelState.
    + destruct (bankSelectMSB core !! channel); [| done].
      apply eventScheduler_onChannelState.
  - done.
Qed.

Lemma runCore_conserves (calls : list (Z * SchedulerCall)) (core : t) :
  eventScheduler core = SynthEventScheduler.empty ->
  dispatchLog calls core ++ pendingEvents calls core ⊆+ submittedEvents calls /\
  (Forall (fun e => isAllSoundsOff (SynthEventScheduler.midi e) = false)
     (submittedEvents calls) ->
   dispatchLog calls core ++ pendingEvents calls core ≡ₚ submittedEvents calls).
Proof.
  intros Hempty.
  pose proof (runCalls_conserves eventScheduler setEventScheduler handleImmediateEvent
                handleDelayableEvent ltac:(done) handleImmediateEvent_scheduler
                handleDelayableEvent_scheduler (fun m => isAllSoundsOff m = false)
                ltac:(intros; by apply handleDelayableEvent_quiet) calls core Hempty)
    as Hrun.
  cbv zeta in Hrun. destruct Hrun as (_ & Hsub & Hquiet). done.
Qed.

End CoreConservation.

(** X7.  Whatever the calls of a run, the events dispatched so far together
    with the events still pending are among the submitted events, each no
    more often than it was submitted: an event submitted once is not
    dispatched twice, nor dispatched and kept. *)
Theorem scheduler_dispatches_only_submitted {M : MathOps}
    (calls : list (Z * SchedulerCall)) (core : SynthProcessorCore.t) :
  SynthProcessorCore.eventScheduler core = SynthEventScheduler.empty ->
  dispatchLog calls core ++ pendingEvents calls core ⊆+ submittedEvents calls.
Proof. intros Hempty. by apply runCore_conserves. Qed.

(** X8.  In a run that submits no "all sounds off", no event is lost: the
    events dispatched and the events pending are the submitted events; and
    after a call of [processScheduledEvents] every submitted event scheduled
    for its frame or for an earlier one has been dispatched. *)
Theorem scheduler_loses_no_event {M : MathOps}
    (calls : list (Z * SchedulerCall)) (core : SynthProcessorCore.t) :
  SynthProcessorCore.eventScheduler core = SynthEventScheduler.empty ->
  Forall (fun e => isAllSoundsOff (SynthEventScheduler.midi e) = false)
    (submittedEvents calls) ->
  dispatchLog calls core ++ pendingEvents calls core ≡ₚ submittedEvents calls /\
  (forall earlier currentFrame e,
     calls = earlier ++ [(currentFrame, CallProcessScheduledEvents)] ->
     e ∈ submittedEvents calls ->
     SynthEventScheduler.scheduledFrame e <= currentFrame ->
     e ∈ dispatchLog calls core).
Proof.
  intros Hempty Hquiet.
  destruct (runCore_conserves calls core Hempty) as [_ Hperm].
  specialize (Hperm Hquiet). split; [exact Hperm |].
  intros earlier currentFrame e -> He Hdue.
  rewrite <- Hperm in He. apply elem_of_app in He as [He | He]; [done |].
  exfalso. unfold pendingEvents in He. rewrite runCore_step in He. simpl in He.
  destruct (runCalls_wellFormed SynthProcessorCore.eventScheduler
              SynthProcessorCore.setEventScheduler SynthProcessorCore.handleImmediateEvent
              SynthProcessorCore.handleDelayableEvent ltac:(done)
              handleImmediateEvent_scheduler
              handleDelayableEvent_scheduler earlier core Hempty)
    as [Hcurrent Hsorted].
  pose proof (processScheduledEvents_spec SynthProcessorCore.eventScheduler
                SynthProcessorCore.setEventScheduler SynthProcessorCore.handleImmediateEvent
                SynthProcessorCore.handleDelayableEvent ltac:(done)
                handleImmediateEvent_scheduler
                handleDelayableEvent_scheduler currentFrame _
                Hcurrent Hsorted) as Hspec.
  cbv zeta in Hspec. destruct Hspec as (_ & _ & Hlater & _).
  rewrite Forall_forall in Hlater. specialize (Hlater e He). lia.
Qed.

(** X9.  A call of [addEvent] dispatches nothing.  A call of
    [processScheduledEvents] dispatches events that were pending and are due
    at its frame, none before its scheduled frame, in the order of scheduled
    frame and sequence number. *)
Theorem scheduler_never_dispatches_early {M : MathOps}
    (earlier : list (Z * SchedulerCall)) (currentFrame : Z) (core : SynthProcessorCore.t) :
  SynthProcessorCore.eventScheduler core = SynthEventScheduler.empty ->
  (forall e,
     dispatchLog (earlier ++ [(currentFrame, CallAddEvent e)]) core
     = dispatchLog earlier core) /\
  exists batch,
    dispatchLog (earlier ++ [(currentFrame, CallProcessScheduledEvents)]) core
    = dispatchLog earlier core ++ batch /\
    Forall (fun e => e ∈ pendingEvents earlier core /\
                     SynthEventScheduler.scheduledFrame e <= currentFrame) batch /\
    StronglySorted dispatchOrder batch.
Proof.
  intros Hempty. split.
  - intros e. unfold dispatchLog. by rewrite runCore_step.
  - destruct (runCalls_wellFormed SynthProcessorCore.eventScheduler
                SynthProcessorCore.setEventScheduler SynthProcessorCore.handleImmediateEvent
                SynthProcessorCore.handleDelayableEvent ltac:(done)
                handleImmediateEvent_scheduler
                handleDelayableEvent_scheduler earlier core Hempty)
      as [Hcurrent Hsorted].
    pose proof (processScheduledEvents_spec SynthProcessorCore.eventScheduler
                  SynthProcessorCore.setEventScheduler SynthProcessorCore.handleImmediateEvent
                  SynthProcessorCore.handleDelayableEvent ltac:(done)
                  handleImmediateEvent_scheduler
                  handleDelayableEvent_scheduler currentFrame _
                  Hcurrent Hsorted) as Hspec.
    cbv zeta in Hspec. destruct Hspec as (_ & _ & _ & Horder & Hdue).
    eexists. unfold dispatchLog. rewrite runCore_step. simpl.
    split; [reflexivity |]. split; [exact Hdue | exact Horder].
Qed.

(** ** The core: what an event leaves alone *)

(** What belongs to no channel: the sample rate, the sample table and the
    reverb. *)
Definition sharedParts (core : SynthProcessorCore.t) : Q * SampleTable.t * ReverbProcessor.t :=
  (SynthProcessorCore.sampleRate core, SynthProcessorCore.sampleTable core,
   SynthProcessorCore.reverbProcessor core).

(** What the core and its handler keep for one channel. *)
Definition channelParts (channel : Z) (core : SynthProcessorCore.t)
    : option ChannelState.t * option RPN * option Z :=
  (SynthProcessorCore.channels core !! channel,
   SynthProcessorCore.rpnEvents core !! channel,
   SynthProcessorCore.bankSelectMSB core !! channel).

Section CoreFrame.
Import SynthProcessorCore.
Context {M : MathOps}.

Lemma onChannelState_spec channel f core :
  sharedParts (onChannelState channel f core) = sharedParts core /\
  eventScheduler (onChannelState channel f core) = eventScheduler core /\
  rpnEvents (onChannelState channel f core) = rpnEvents core /\
  bankSelectMSB (onChannelState channel f core) = bankSelectMSB core /\
  channels (onChannelState channel f core)
  = <[channel := f (default ChannelState.initialChannelState (channels core !! channel))]>
      (channels core).
Proof.
  unfold onChannelState, getChannelState, sharedParts.
  destruct (channels core !! channel) as [state |] eqn:Hstate; simpl; [done |].
  by rewrite insert_insert_eq.
Qed.

Lemma onChannelState_frame channel f core other :
  other <> channel ->
  sharedParts (onChannelState channel f core) = sharedParts core /\
  channelParts other (onChannelState channel f core) = channelParts other core.
Proof.
  intros Hother. destruct (onChannelState_spec channel f core) as (Hs & _ & Hr & Hb & Hc).
  split; [done |]. unfold channelParts. rewrite Hr, Hb, Hc.
  by rewrite lookup_insert_ne.
Qed.

Lemma noteOn_frame channel notePitch velocity core other :
  other <> channel ->
  sharedParts (noteOn channel notePitch velocity core) = sharedParts core /\
  channelParts other (noteOn channel notePitch velocity core) = channelParts other core.
Proof.
  intros Hother. unfold noteOn, getSamples, getChannelState, sharedParts, channelParts.
  destruct (channels core !! channel) as [state |] eqn:Hstate; simpl.
  - rewrite Hstate. destruct (SampleTable.getSamples _ _ _ _ _); simpl; [done |].
    by rewrite lookup_insert_ne.
  - rewrite lookup_insert_eq. destruct (SampleTable.getSamples _ _ _ _ _); simpl.
    + by rewrite lookup_insert_ne.
    + by rewrite !lookup_insert_ne.
Qed.

Lemma handleController_frame channel controllerType value core other :
  other <> channel ->
  sharedParts (handleController channel controllerType value core) = sharedParts core /\
  channelParts other (handleController channel controllerType value core)
  = channelParts other core.
Proof.
  intros Hother. unfold handleController.
  repeat match goal with
         | |- context [if ?b then _ else _] => destruct b
         end;
    try (by apply onChannelState_frame);
    try (unfold sharedParts, channelParts, updateRPN; simpl;
         rewrite ?lookup_delete_ne, ?lookup_insert_ne by done; done).
  - destruct (rpnLSB _) as [[| ? | ?] |];
      try (unfold sharedParts, channelParts, updateRPN; simpl;
           rewrite ?lookup_insert_ne by done; done).
    unfold setPitchBendSensitivity.
    destruct (onChannelState_frame channel
                (ChannelState.setPitchBendSensitivity (inject_Z value))
                (updateRPN channel
                   (fun old => {| rpnMSB := rpnMSB old; rpnLSB := rpnLSB old;
                                  dataMSB := Some value; dataLSB := dataLSB old |}) core)
                other Hother) as [-> ->].
    unfold sharedParts, channelParts, updateRPN; simpl.
    by rewrite ?lookup_insert_ne by done.
  - unfold allSoundsOff.
    destruct (onChannelState_frame channel
                (ChannelState.forEachOscillator WavetableOscillator.forceStop)
                (setEventScheduler
                   (SynthEventScheduler.removeScheduledEvents channel (eventScheduler core))
                   core) other Hother) as [-> ->].
    done.
  - destruct (bankSelectMSB core !! channel); [| done]. by apply onChannelState_frame.
Qed.

Lemma handleDelayableEvent_frame m core :
  sharedParts (handleDelayableEvent m core) = sharedParts core /\
  (forall other, channelOf m <> Some other ->
     channelParts other (handleDelayableEvent m core) = channelParts other core).
Proof.
  destruct m as [channel body |]; [| done].
  assert (Hframe : forall other, other <> channel ->
            sharedParts (handleDelayableEvent (ChannelEvent channel body) core)
            = sharedParts core /\
            channelParts other (handleDelayableEvent (ChannelEvent channel body) core)
            = channelParts other core).
  { intros other Hother.
    destruct body as [n v | n v | v | v | controllerType v |]; simpl.
    - by apply noteOn_frame.
    - by apply onChannelState_frame.
    - by apply onChannelState_frame.
    - by apply onChannelState_frame.
    - by apply handleController_frame.
    - done. }
  split.
  - apply (Hframe (channel + 1)). lia.
  - intros other Hother. apply Hframe. simpl in Hother. congruence.
Qed.

End CoreFrame.

(** X10.  A MIDI event of a channel changes nothing of another channel,
    neither its state and voices nor what the handler remembers of its
    controllers, and no MIDI event changes the sample table, the sample
    rate or the reverb; an event that carries no channel changes nothing at
    all. *)
Theorem channel_event_stays_in_its_channel {M : MathOps}
    (m : AnyEvent) (core : SynthProcessorCore.t) :
  sharedParts (SynthProcessorCore.handleDelayableEvent m core) = sharedParts core /\
  (forall other : Z,
     channelOf m <> Some other ->
     channelParts other (SynthProcessorCore.handleDelayableEvent m core)
     = channelParts other core) /\
  (channelOf m = None -> SynthProcessorCore.handleDelayableEvent m core = core).
Proof.
  destruct (handleDelayableEvent_frame m core) as [Hshared Hother].
  split; [done |]. split; [done |].
  intros Hnone. by destruct m.
Qed.

(** ** The scheduler: reverb control events *)

(** The reverb events at the head of the queue that are due at a frame,
    and the rest of the queue. *)
Fixpoint splitDue (currentFrame : Z) (queue : list SynthEventScheduler.ScheduledReverbEvent)
    : list SynthEventScheduler.ScheduledReverbEvent
      * list SynthEventScheduler.ScheduledReverbEvent :=
  match queue with
  | [] => ([], [])
  | e :: rest =>
      if SynthEventScheduler.reverbScheduledFrame e >? currentFrame then ([], queue)
      else (e :: fst (splitDue currentFrame rest), snd (splitDue currentFrame rest))
  end.

(** [setReverb] for each event of a list, the first event first. *)
Definition applyReverbEvents (events : list SynthEventScheduler.ScheduledReverbEvent)
    (r : ReverbProcessor.t) : ReverbProcessor.t :=
  fold_left (fun r e => ReverbProcessor.setReverb (SynthEventScheduler.amount e) r) events r.

Lemma splitDue_app (currentFrame : Z) (queue : list SynthEventScheduler.ScheduledReverbEvent) :
  queue = fst (splitDue currentFrame queue) ++ snd (splitDue currentFrame queue) /\
  Forall (fun e => SynthEventScheduler.reverbScheduledFrame e <= currentFrame)
    (fst (splitDue currentFrame queue)).
Proof.
  induction queue as [| e rest [IH1 IH2]]; simpl; [done |].
  destruct (Z.gtb_spec (SynthEventScheduler.reverbScheduledFrame e) currentFrame); simpl.
  - done.
  - split; [by f_equal | by constructor].
Qed.

Section CoreReverbEvents.
Import SynthProcessorCore.
Context {M : MathOps}.

Lemma processReverbEvents_core (fuel : nat) (currentFrame : Z) : forall core,
  (length (SynthEventScheduler.scheduledReverbEvents (eventScheduler core)) <= fuel)%nat ->
  let queue := SynthEventScheduler.scheduledReverbEvents (eventScheduler core) in
  let core' :=
    SynthEventScheduler.processReverbEvents eventScheduler setEventScheduler
      handleImmediateEvent fuel currentFrame core in
  reverbProcessor core' = applyReverbEvents (fst (splitDue currentFrame queue))
                            (reverbProcessor core) /\
  SynthEventScheduler.scheduledReverbEvents (eventScheduler core')
  = snd (splitDue currentFrame queue) /\
  SynthEventScheduler.currentReverbEvents (eventScheduler core')
  = SynthEventScheduler.currentReverbEvents (eventScheduler core) /\
  SynthEventScheduler.scheduledEvents (eventScheduler core')
  = SynthEventScheduler.scheduledEvents (eventScheduler core) /\
  SynthEventScheduler.currentEvents (eventScheduler core')
  = SynthEventScheduler.currentEvents (eventScheduler core) /\
  channels core' = channels core /\
  sampleTable core' = sampleTable core.
Proof.
  induction fuel as [| fuel IH]; intros core Hlen; cbv zeta.
  - destruct (SynthEventScheduler.scheduledReverbEvents (eventScheduler core)) eqn:Hqueue;
      [| simpl in Hlen; lia].
    simpl. rewrite Hqueue. done.
  - simpl.
    destruct (SynthEventScheduler.scheduledReverbEvents (eventScheduler core))
      as [| e rest] eqn:Hqueue; [done |].
    simpl. destruct (Z.gtb_spec (SynthEventScheduler.reverbScheduledFrame e) currentFrame).
    + simpl. rewrite Hqueue. done.
    + set (next := setReverb _ _).
      assert (Hnext : SynthEventScheduler.scheduledReverbEvents (eventScheduler next) = rest)
        by done.
      specialize (IH next). rewrite Hnext in IH. simpl in Hlen.
      specialize (IH ltac:(lia)). cbv zeta in IH.
      destruct IH as (-> & -> & -> & -> & -> & -> & ->). done.
Qed.

Lemma dispatchCurrent_core (fuel : nat) : forall core,
  let core' :=
    fst (SynthEventScheduler.dispatchCurrent eventScheduler setEventScheduler
           handleDelayableEvent fuel core) in
  sharedParts core' = sharedParts core /\
  SynthEventScheduler.scheduledReverbEvents (eventScheduler core')
  = SynthEventScheduler.scheduledReverbEvents (eventScheduler core) /\
  SynthEventScheduler.currentReverbEvents (eventScheduler core')
  = SynthEventScheduler.currentReverbEvents (eventScheduler core).
Proof.
  induction fuel as [| fuel IH]; intros core; cbv zeta; [done |].
  simpl. destruct (SynthEventScheduler.currentEvents (eventScheduler core)) as [| e rest];
    [done |].
  set (shifted := setEventScheduler _ core).
  set (next := handleDelayableEvent (SynthEventScheduler.midi e) shifted).
  specialize (IH next). cbv zeta in IH.
  destruct (SynthEventScheduler.dispatchCurrent _ _ _ fuel next) as [final dispatched].
  simpl in *. destruct IH as (-> & -> & ->).
  destruct (handleDelayableEvent_frame (SynthEventScheduler.midi e) shifted) as [Hshared _].
  fold next in Hshared. rewrite Hshared.
  split; [done |].
  destruct (handleDelayableEvent_scheduler (SynthEventScheduler.midi e) shifted)
    as [Hsame | [channel Hpurged]]; fold next in Hsame || fold next in Hpurged.
  - by rewrite Hsame.
  - by rewrite Hpurged.
Qed.

Lemma processScheduledEvents_reverb (currentFrame : Z) (core : t) :
  let queue := SynthEventScheduler.scheduledReverbEvents (eventScheduler core) in
  let core' := fst (processScheduledEvents currentFrame core) in
  reverbProcessor core' = applyReverbEvents (fst (splitDue currentFrame queue))
                            (reverbProcessor core) /\
  SynthEventScheduler.scheduledReverbEvents (eventScheduler core')
  = snd (splitDue currentFrame queue) /\
  SynthEventScheduler.currentReverbEvents (eventScheduler core')
  = SynthEventScheduler.currentReverbEvents (eventScheduler core).
Proof.
  cbv zeta. unfold processScheduledEvents, SynthEventScheduler.processScheduledEvents.
  pose proof (processReverbEvents_core
                (length (SynthEventScheduler.scheduledReverbEvents (eventScheduler core)))
                currentFrame core ltac:(lia)) as Hloop.
  cbv zeta in Hloop.
  set (core1 := SynthEventScheduler.processReverbEvents _ _ _ _ currentFrame core) in *.
  destruct Hloop as (Hreverb & Hqueue & Hcurrent & _).
  destruct (SynthEventScheduler.scheduledEvents (eventScheduler core1)) as [| e0 rest0];
    [done |].
  destruct (SynthEventScheduler.popDue _ _ _) as [scheduled current].
  set (core2 := setEventScheduler _ core1).
  pose proof (dispatchCurrent_core
                (length (SynthEventScheduler.sort SynthEventScheduler.sortEvents current))
                core2) as Hdispatch.
  cbv zeta in Hdispatch. destruct Hdispatch as (Hshared & -> & ->).
  unfold sharedParts in Hshared. injection Hshared as _ _ ->.
  done.
Qed.

Lemma addEvent_reverb (currentFrame : Z) (e : SynthEvent) (core : t) :
  let queue := SynthEventScheduler.scheduledReverbEvents (eventScheduler core) in
  SynthEventScheduler.currentReverbEvents (eventScheduler (addEvent currentFrame e core))
  = SynthEventScheduler.currentReverbEvents (eventScheduler core) /\
  match e with
  | ReverbControlEvent amount d =>
      if d >? 0 then
        reverbProcessor (addEvent currentFrame e core) = reverbProcessor core /\
        SynthEventScheduler.scheduledReverbEvents (eventScheduler (addEvent currentFrame e core))
        = insertSorted SynthEventScheduler.reverbScheduledFrame queue
            {| SynthEventScheduler.amount := amount;
               SynthEventScheduler.reverbDelayTime := d;
               SynthEventScheduler.reverbScheduledFrame := currentFrame + d |}
      else
        reverbProcessor (addEvent currentFrame e core)
        = ReverbProcessor.setReverb amount (reverbProcessor core) /\
        SynthEventScheduler.scheduledReverbEvents (eventScheduler (addEvent currentFrame e core))
        = queue
  | _ =>
      reverbProcessor (addEvent currentFrame e core) = reverbProcessor core /\
      SynthEventScheduler.scheduledReverbEvents (eventScheduler (addEvent currentFrame e core))
      = queue
  end.
Proof.
  cbv zeta. unfold addEvent, SynthEventScheduler.addEvent.
  destruct e as [data id | p range | amount d | m d n]; simpl; try done.
  by destruct (d >? 0).
Qed.

End CoreReverbEvents.

(** X11.  A reverb control event with a positive delay is queued by
    [addEvent] and changes nothing yet; with a delay of 0 or less its amount
    is set at once.  [processScheduledEvents] takes the events that are due
    off the head of the queue and sets their amounts in turn, the dispatch
    of MIDI events changing neither the reverb nor the queue. *)
Theorem reverb_events_take_effect_when_due {M : MathOps}
    (currentFrame : Z) (core : SynthProcessorCore.t) :
  let queue :=
    SynthEventScheduler.scheduledReverbEvents (SynthProcessorCore.eventScheduler core) in
  let processed := fst (SynthProcessorCore.processScheduledEvents currentFrame core) in
  (SynthProcessorCore.reverbProcessor processed
   = applyReverbEvents (fst (splitDue currentFrame queue))
       (SynthProcessorCore.reverbProcessor core) /\
   SynthEventScheduler.scheduledReverbEvents (SynthProcessorCore.eventScheduler processed)
   = snd (splitDue currentFrame queue)) /\
  (forall amount d,
     let added := SynthProcessorCore.addEvent currentFrame (ReverbControlEvent amount d) core in
     if d >? 0 then
       SynthProcessorCore.reverbProcessor added = SynthProcessorCore.reverbProcessor core /\
       SynthEventScheduler.scheduledReverbEvents (SynthProcessorCore.eventScheduler added)
       = insertSorted SynthEventScheduler.reverbScheduledFrame queue
           {| SynthEventScheduler.amount := amount;
              SynthEventScheduler.reverbDelayTime := d;
              SynthEventScheduler.reverbScheduledFrame := currentFrame + d |}
     else
       SynthProcessorCore.reverbProcessor added
       = ReverbProcessor.setReverb amount (SynthProcessorCore.reverbProcessor core) /\
       SynthEventScheduler.scheduledReverbEvents (SynthProcessorCore.eventScheduler added)
       = queue).
Proof.
  cbv zeta. split.
  - destruct (processScheduledEvents_reverb currentFrame core) as (H1 & H2 & _). done.
  - intros amount d.
    destruct (addEvent_reverb currentFrame (ReverbControlEvent amount d) core) as [_ H].
    exact H.
Qed.

Lemma insertSorted_nil {A : Type} (prop : A -> Z) (item : A) :
  insertSorted prop [] item = [item].
Proof.
  destruct (searchSlot_spec prop [] item 0 0) as (Hk & _); [constructor | simpl; lia | | |].
  - intros i x Hi. lia.
  - intros i x _ Hx. done.
  - unfold insertSorted. simpl in *.
    replace (searchSlot prop [] item 0 0) with 0%nat by lia. done.
Qed.

Lemma insertSorted_same_key {A : Type} (prop : A -> Z) (first item : A) :
  prop first = prop item ->
  insertSorted prop [first] item = [item; first].
Proof.
  intros Hsame.
  destruct (searchSlot_spec prop [first] item 0 1) as (Hk & Hbefore & _).
  - repeat constructor.
  - simpl. lia.
  - intros i x Hi. lia.
  - intros i x Hi Hx. apply lookup_lt_Some in Hx. simpl in Hx. lia.
  - unfold insertSorted. simpl in *.
    destruct (searchSlot prop [first] item 0 1) as [| k]; [done |].
    specialize (Hbefore 0%nat first ltac:(lia) eq_refl). lia.
Qed.

(** X12.  Of two reverb control events queued for the same frame, the one
    submitted last is put first in the queue: when the frame comes, its
    amount is set first and the amount of the event submitted first is set
    last, and stays. *)
Theorem reverb_events_of_one_frame_apply_in_reverse {M : MathOps}
    (core : SynthProcessorCore.t) (frame1 delay1 frame2 delay2 currentFrame : Z)
    (amount1 amount2 : Q) :
  SynthEventScheduler.scheduledReverbEvents (SynthProcessorCore.eventScheduler core) = [] ->
  0 < delay1 -> 0 < delay2 ->
  frame1 + delay1 = frame2 + delay2 ->
  frame1 + delay1 <= currentFrame ->
  let submitted :=
    SynthProcessorCore.addEvent frame2 (ReverbControlEvent amount2 delay2)
      (SynthProcessorCore.addEvent frame1 (ReverbControlEvent amount1 delay1) core) in
  let processed := fst (SynthProcessorCore.processScheduledEvents currentFrame submitted) in
  SynthProcessorCore.reverbProcessor processed
  = ReverbProcessor.setReverb amount1
      (ReverbProcessor.setReverb amount2 (SynthProcessorCore.reverbProcessor core)) /\
  ReverbProcessor.wetLevel (SynthProcessorCore.reverbProcessor processed)
  = Qmax 0 (Qmin 1 amount1) /\
  SynthEventScheduler.scheduledReverbEvents (SynthProcessorCore.eventScheduler processed) = [].
Proof.
  intros Hqueue Hd1 Hd2 Hsame Hdue submitted processed. subst processed submitted.
  set (core1 := SynthProcessorCore.addEvent frame1 (ReverbControlEvent amount1 delay1) core).
  set (submitted := SynthProcessorCore.addEvent frame2 (ReverbControlEvent amount2 delay2) core1).
  set (processed := fst (SynthProcessorCore.processScheduledEvents currentFrame submitted)).
  destruct (addEvent_reverb frame1 (ReverbControlEvent amount1 delay1) core) as [_ H1].
  cbv zeta in H1. fold core1 in H1.
  destruct (Z.gtb_spec delay1 0) as [_ | ?]; [| lia].
  destruct H1 as [Hreverb1 Hqueue1]. rewrite Hqueue, insertSorted_nil in Hqueue1.
  destruct (addEvent_reverb frame2 (ReverbControlEvent amount2 delay2) core1) as [_ H2].
  cbv zeta in H2. fold submitted in H2.
  destruct (Z.gtb_spec delay2 0) as [_ | ?]; [| lia].
  destruct H2 as [Hreverb2 Hqueue2].
  rewrite Hqueue1, insertSorted_same_key in Hqueue2 by (simpl; lia).
  destruct (processScheduledEvents_reverb currentFrame submitted) as (Hreverb & Hrest & _).
  fold processed in Hreverb, Hrest.
  rewrite Hqueue2 in Hreverb, Hrest. simpl in Hreverb, Hrest.
  destruct (Z.gtb_spec (frame2 + delay2) currentFrame) as [? | _]; [lia |].
  destruct (Z.gtb_spec (frame1 + delay1) currentFrame) as [? | _]; [lia |].
  simpl in Hreverb, Hrest. rewrite Hreverb2, Hreverb1 in Hreverb.
  split; [exact Hreverb |]. split; [by rewrite Hreverb | exact Hrest].
Qed.

Section CoreQueues.
Import SynthProcessorCore.
Context {M : MathOps}.

Lemma runCore_reverb_queue (calls : list (Z * SchedulerCall)) (core : t) :
  eventScheduler core = SynthEventScheduler.empty ->
  let s := eventScheduler (fst (runCore calls core)) in
  SynthEventScheduler.currentReverbEvents s = [] /\
  sortedBy SynthEventScheduler.reverbScheduledFrame
    (SynthEventScheduler.scheduledReverbEvents s).
Proof.
  intros Hempty. cbv zeta.
  induction calls as [| [currentFrame call] calls [IH1 IH2]] using rev_ind.
  - unfold runCore, runCalls. simpl. rewrite Hempty. split; [done | constructor].
  - rewrite runCore_step. destruct call as [e |]; simpl.
    + destruct (addEvent_reverb currentFrame e (fst (runCore calls core))) as [-> Hqueue].
      split; [done |].
      destruct e as [data id | p range | amount d | m d n];
        try (destruct Hqueue as [_ ->]; done).
      destruct (d >? 0); destruct Hqueue as [_ ->]; [| done].
      by apply insertSorted_sorted.
    + destruct (processScheduledEvents_reverb currentFrame (fst (runCore calls core)))
        as (_ & -> & ->).
      split; [done |].
      eapply StronglySorted_sublist; [| exact IH2].
      destruct (splitDue_app currentFrame
                  (SynthEventScheduler.scheduledReverbEvents
                     (eventScheduler (fst (runCore calls core))))) as [Hsplit _].
      rewrite Hsplit at 2. by apply sublist_inserts_l.
Qed.

End CoreQueues.

(** X13.  Between the calls of a run the scheduler is tidy: the batch of
    popped events is empty, and the queue of MIDI events and the queue of
    reverb events are sorted by scheduled frame. *)
Theorem scheduler_queues_stay_sorted {M : MathOps}
    (calls : list (Z * SchedulerCall)) (core : SynthProcessorCore.t) :
  SynthProcessorCore.eventScheduler core = SynthEventScheduler.empty ->
  let s := SynthProcessorCore.eventScheduler (fst (runCore calls core)) in
  SynthEventScheduler.currentEvents s = [] /\
  SynthEventScheduler.currentReverbEvents s = [] /\
  sortedBy SynthEventScheduler.scheduledFrame (SynthEventScheduler.scheduledEvents s) /\
  sortedBy SynthEventScheduler.reverbScheduledFrame
    (SynthEventScheduler.scheduledReverbEvents s).
Proof.
  intros Hempty. cbv zeta.
  destruct (runCalls_wellFormed SynthProcessorCore.eventScheduler
              SynthProcessorCore.setEventScheduler SynthProcessorCore.handleImmediateEvent
              SynthProcessorCore.handleDelayableEvent ltac:(done)
              handleImmediateEvent_scheduler handleDelayableEvent_scheduler calls core Hempty)
    as [Hcurrent Hsorted].
  destruct (runCore_reverb_queue calls core Hempty) as [Hreverb Hqueue].
  done.
Qed.

(** ** ReverbProcessor *)

(** X14.  Whatever the amount, [setReverb] leaves the wet level between 0
    and 1 and the dry level between 0.3 and 1, with [dryLevel = 1 - 0.7 *
    wetLevel]; an amount between 0 and 1 is the wet level.  The delay lines
    and their indices are not touched. *)
Theorem setReverb_keeps_levels_in_range (amount : Q) (r : ReverbProcessor.t) :
  let r' := ReverbProcessor.setReverb amount r in
  (0 <= ReverbProcessor.wetLevel r' <= 1)%Q /\
  (3 # 10 <= ReverbProcessor.dryLevel r' <= 1)%Q /\
  (ReverbProcessor.dryLevel r' == 1 - (7 # 10) * ReverbProcessor.wetLevel r')%Q /\
  ((0 <= amount <= 1)%Q -> (ReverbProcessor.wetLevel r' == amount)%Q) /\
  ReverbProcessor.delayLines r' = ReverbProcessor.delayLines r /\
  ReverbProcessor.delayIndices r' = ReverbProcessor.delayIndices r.
Proof.
  cbv zeta. unfold ReverbProcessor.setReverb. cbn [ReverbProcessor.wetLevel
    ReverbProcessor.dryLevel ReverbProcessor.delayLines ReverbProcessor.delayIndices].
  set (wet := Qmax 0 (Qmin 1 amount)).
  assert (Hwet : (0 <= wet <= 1)%Q).
  { unfold wet. split; [apply Q.le_max_l |].
    apply Q.max_lub; [lra | apply Q.le_min_l]. }
  split; [exact Hwet |]. split; [lra |]. split; [ring |]. split; [| done].
  intros Hamount. unfold wet.
  rewrite (Q.min_r 1 amount) by lra. apply Q.max_r. lra.
Qed.

Lemma lookup_insert_same_length {A : Type} (l1 l2 : list A) (k i : nat) (v : A) :
  length l1 = length l2 ->
  (i <> k -> l1 !! i = l2 !! i) ->
  <[k := v]> l1 !! i = <[k := v]> l2 !! i.
Proof.
  intros Hlen Hsame. destruct (decide (i = k)) as [-> | Hne].
  - destruct (decide (k < length l1)%nat).
    + rewrite !list_lookup_insert_eq by lia. done.
    + rewrite !lookup_ge_None_2; [done | |]; rewrite length_insert; lia.
  - rewrite !list_lookup_insert_ne by done. auto.
Qed.

Section ReverbOverwrites.
Import ReverbProcessor.
Variables leftInput rightInput : list Q.

Lemma processSample_outputs (r : t) (i : nat) :
  exists r' left right,
    forall outs : Outputs,
      processSample leftInput rightInput (r, outs) i
      = (r', (<[i := left]> (fst outs), <[i := right]> (snd outs))).
Proof.
  unfold processSample.
  destruct (fold_left _ _ _) as [[lines indices] summed].
  eexists _, _, _. intros [leftOutput rightOutput]. reflexivity.
Qed.

Lemma process_prefix_overwrites (r : t) (outs1 outs2 : Outputs) (k : nat) :
  length (fst outs1) = length (fst outs2) ->
  length (snd outs1) = length (snd outs2) ->
  let st1 := fold_left (processSample leftInput rightInput) (seq 0 k) (r, outs1) in
  let st2 := fold_left (processSample leftInput rightInput) (seq 0 k) (r, outs2) in
  fst st1 = fst st2 /\
  length (fst (snd st1)) = length (fst (snd st2)) /\
  length (snd (snd st1)) = length (snd (snd st2)) /\
  (forall i, (i < k)%nat ->
     fst (snd st1) !! i = fst (snd st2) !! i /\ snd (snd st1) !! i = snd (snd st2) !! i).
Proof.
  intros Hleft Hright. induction k as [| k IH]; cbv zeta.
  - simpl. split; [done |]. split; [done |]. split; [done |]. intros i Hi. lia.
  - rewrite seq_S, !fold_left_app. cbn [fold_left Nat.add].
    cbv zeta in IH. destruct IH as (Hstate & Hl & Hr & Hsame).
    destruct (fold_left _ (seq 0 k) (r, outs1)) as [r1 o1].
    destruct (fold_left _ (seq 0 k) (r, outs2)) as [r2 o2].
    cbn [fst snd] in *. subst r2.
    destruct (processSample_outputs r1 k) as (r' & left & right & Hstep).
    rewrite !Hstep. cbn [fst snd]. rewrite !length_insert.
    split; [done |]. split; [done |]. split; [done |].
    intros i Hi.
    split; apply lookup_insert_same_length; try done; intros Hne; apply Hsame; lia.
Qed.

End ReverbOverwrites.

(** Every delay line has the length that [delayTimes] gives it, which is
    not 0, and its index points inside it. *)
Definition delayLinesReady (r : ReverbProcessor.t) : Prop :=
  length (ReverbProcessor.delayIndices r) = length (ReverbProcessor.delayLines r) /\
  length (ReverbProcessor.delayTimes r) = length (ReverbProcessor.delayLines r) /\
  forall d line index time,
    ReverbProcessor.delayLines r !! d = Some line ->
    ReverbProcessor.delayIndices r !! d = Some index ->
    ReverbProcessor.delayTimes r !! d = Some time ->
    length line = Z.to_nat time /\ 0 <= index < time.

Section ReverbDelayLines.
Import ReverbProcessor.

Lemma writeAt_length (i : Z) (x : Q) (arr : list Q) : length (writeAt i x arr) = length arr.
Proof. unfold writeAt. destruct (i <? 0); [done | apply length_insert]. Qed.

(** The loop over the delay lines, as far as the line [m]. *)
Lemma taps_spec (r : t) (inputSample : Q) (lines : list (list Q)) (indices : list Z) (m : nat) :
  length indices = length lines ->
  length (delayTimes r) = length lines ->
  (m <= length lines)%nat ->
  forall summed,
  let st := fold_left (tap r inputSample) (seq 0 m) (lines, indices, summed) in
  length (fst (fst st)) = length lines /\
  length (snd (fst st)) = length lines /\
  (forall d, (m <= d)%nat ->
     fst (fst st) !! d = lines !! d /\ snd (fst st) !! d = indices !! d) /\
  (forall d line index time, (d < m)%nat ->
     lines !! d = Some line -> indices !! d = Some index -> delayTimes r !! d = Some time ->
     snd (fst st) !! d = Some ((index + 1) mod time) /\
     exists line', fst (fst st) !! d = Some line' /\ length line' = length line).
Proof.
  intros Hindices Htimes. induction m as [| m IH]; intros Hm summed; cbv zeta.
  - simpl. split; [done |]. split; [done |]. split; [done |]. intros; lia.
  - rewrite seq_S, fold_left_app. cbn [fold_left Nat.add].
    specialize (IH ltac:(lia) summed). cbv zeta in IH.
    destruct (fold_left _ (seq 0 m) _) as [[lines1 indices1] summed1].
    cbn [fst snd] in *. destruct IH as (Hl & Hi & Hrest & Hdone).
    unfold tap. cbn [fst snd]. rewrite !length_insert.
    split; [done |]. split; [done |]. split.
    + intros d Hd. rewrite !list_lookup_insert_ne by lia. apply Hrest. lia.
    + intros d line index time Hd Hline Hindex Htime.
      destruct (decide (d = m)) as [-> | Hne].
      * destruct (Hrest m ltac:(lia)) as [Hline1 Hindex1].
        rewrite Hline in Hline1. rewrite Hindex in Hindex1.
        rewrite (nth_lookup_Some _ _ _ _ Hline1), (nth_lookup_Some _ _ _ _ Hindex1),
          (nth_lookup_Some _ _ _ _ Htime).
        rewrite !list_lookup_insert_eq by (apply lookup_lt_Some in Hline, Hindex; lia).
        split; [done |]. eexists. split; [done |]. apply writeAt_length.
      * rewrite !list_lookup_insert_ne by done. apply (Hdone d line index time); [lia | done ..].
Qed.

Lemma processSample_delayLines (leftInput rightInput : list Q) (r : t) (outs : Outputs)
    (i : nat) :
  delayLinesReady r ->
  let r' := fst (processSample leftInput rightInput (r, outs) i) in
  delayLinesReady r' /\
  delayTimes r' = delayTimes r /\
  length (delayLines r') = length (delayLines r) /\
  forall d index time,
    delayIndices r !! d = Some index -> delayTimes r !! d = Some time ->
    delayIndices r' !! d = Some ((index + 1) mod time).
Proof.
  intros (Hindices & Htimes & Hready). cbv zeta. unfold processSample.
  destruct outs as [leftOutput rightOutput].
  pose proof (taps_spec r
                ((readAt leftInput (Z.of_nat i) + readAt rightInput (Z.of_nat i)) * (1 # 2))%Q
                (delayLines r) (delayIndices r) (length (delayLines r))
                Hindices Htimes ltac:(lia) 0%Q) as Hspec.
  cbv zeta in Hspec.
  destruct (fold_left _ _ _) as [[lines indices] summed].
  cbn [fst snd delayLines delayIndices delayTimes] in *.
  destruct Hspec as (Hl & Hi & _ & Hdone).
  assert (Hstep : forall d index time,
            delayIndices r !! d = Some index -> delayTimes r !! d = Some time ->
            indices !! d = Some ((index + 1) mod time) /\
            exists line', lines !! d = Some line' /\ length line' = Z.to_nat time /\ 0 < time).
  { intros d index time Hindex Htime.
    pose proof (lookup_lt_Some _ _ _ Hindex) as Hd.
    destruct (lookup_lt_is_Some_2 (delayLines r) d ltac:(lia)) as [line Hline].
    destruct (Hdone d line index time ltac:(lia) Hline Hindex Htime)
      as (Hnext & line' & Hline' & Hlen).
    destruct (Hready d line index time Hline Hindex Htime) as [Hlength Hrange].
    split; [done |]. exists line'. split; [done |]. split; [lia | lia]. }
  unfold delayLinesReady. cbn [fst delayLines delayIndices delayTimes].
  split; [| split; [done | split; [done |]]].
  - split; [lia |]. split; [lia |].
    intros d line' index' time Hline' Hindex' Htime.
    pose proof (lookup_lt_Some _ _ _ Htime) as Hd.
    destruct (lookup_lt_is_Some_2 (delayIndices r) d ltac:(lia)) as [index Hindex].
    destruct (Hstep d index time Hindex Htime) as (Hnext & line & Hline & Hlen & Hpos).
    rewrite Hline in Hline'. injection Hline' as <-.
    rewrite Hnext in Hindex'. injection Hindex' as <-.
    split; [done |]. apply Z.mod_pos_bound. lia.
  - intros d index time Hindex Htime. by destruct (Hstep d index time Hindex Htime).
Qed.

Lemma process_delayLines (leftInput rightInput : list Q) (k : nat) :
  forall (r : t) (outs : Outputs),
  delayLinesReady r ->
  let r' := fst (fold_left (processSample leftInput rightInput) (seq 0 k) (r, outs)) in
  delayLinesReady r' /\
  delayTimes r' = delayTimes r /\
  length (delayLines r') = length (delayLines r) /\
  forall d index time,
    delayIndices r !! d = Some index -> delayTimes r !! d = Some time ->
    delayIndices r' !! d = Some ((index + Z.of_nat k) mod time).
Proof.
  induction k as [| k IH]; intros r outs Hready; cbv zeta.
  - simpl. split; [done |]. split; [done |]. split; [done |].
    intros d index time Hindex Htime.
    destruct Hready as (Hi & Ht & Hready).
    pose proof (lookup_lt_Some _ _ _ Hindex) as Hd.
    destruct (lookup_lt_is_Some_2 (delayLines r) d ltac:(lia)) as [line Hline].
    destruct (Hready d line index time Hline Hindex Htime) as [_ Hrange].
    rewrite Z.add_0_r, Z.mod_small by done. done.
  - rewrite seq_S, fold_left_app. cbn [fold_left Nat.add].
    specialize (IH r outs Hready). cbv zeta in IH.
    destruct (fold_left _ (seq 0 k) (r, outs)) as [r1 outs1]. cbn [fst] in IH.
    destruct IH as (Hready1 & Htimes1 & Hlen1 & Hindex1).
    destruct (processSample_delayLines leftInput rightInput r1 outs1 k Hready1)
      as (Hready2 & Htimes2 & Hlen2 & Hindex2).
    split; [done |]. split; [congruence |]. split; [congruence |].
    intros d index time Hindex Htime.
    rewrite (Hindex2 d ((index + Z.of_nat k) mod time) time).
    + f_equal. rewrite Zplus_mod_idemp_l. f_equal. lia.
    + by apply Hindex1.
    + by rewrite Htimes1.
Qed.

End ReverbDelayLines.

(** The constructor makes the delay lines as long as [delayTimes] says; the
    shortest has [floor(19 * sampleRate / 1000)] frames. *)
Lemma new_delayLinesReady (rate : Q) :
  (1000 # 19 <= rate)%Q -> delayLinesReady (ReverbProcessor.new rate).
Proof.
  intros Hrate. unfold delayLinesReady, ReverbProcessor.new.
  cbn [ReverbProcessor.delayLines ReverbProcessor.delayIndices ReverbProcessor.delayTimes].
  rewrite length_replicate, !length_map. split; [done |]. split; [done |].
  intros d line index time Hline Hindex Htime.
  apply lookup_replicate in Hindex as [-> _].
  apply list_lookup_fmap_Some in Hline as (time' & -> & Htime').
  rewrite Htime in Htime'. injection Htime' as <-.
  rewrite length_replicate. split; [done |].
  split; [lia |].
  apply list_lookup_fmap_Some in Htime as (ms & -> & Hms).
  assert (Hms19 : 19 <= ms).
  { apply list_elem_of_lookup_2 in Hms.
    repeat (apply elem_of_cons in Hms as [-> | Hms]; [lia |]).
    by apply elem_of_nil in Hms. }
  assert (Hq : (1 <= inject_Z ms * rate / 1000)%Q).
  { apply Qle_shift_div_l; [lra |].
    assert (Hq19 : (inject_Z 19 <= inject_Z ms)%Q) by (rewrite <- Zle_Qle; done).
    assert (Hrate0 : (0 <= rate)%Q) by lra.
    assert (Hprod : (0 <= (inject_Z ms - 19) * rate)%Q)
      by (apply Qmult_le_0_compat; change 19%Q with (inject_Z 19); lra).
    lra. }
  apply (Qfloor_resp_le 1) in Hq. change (Qfloor 1) with 1 in Hq. lia.
Qed.

(** X15.  The delay lines are circular buffers.  For a sample rate of
    1000/19 frames a second at least, the lines of a new processor have the
    lengths of [delayTimes], none empty, and their indices point inside
    them; [process] keeps it so, whatever the buffers, and moves each index
    forward by the number of frames, modulo the length of its line. *)
Theorem reverb_delay_lines_are_circular (r : ReverbProcessor.t)
    (leftInput rightInput : list Q) (outputs : Outputs) (rate : Q) :
  ((1000 # 19 <= rate)%Q -> delayLinesReady (ReverbProcessor.new rate)) /\
  (delayLinesReady r ->
   let r' := fst (ReverbProcessor.process r leftInput rightInput outputs) in
   delayLinesReady r' /\
   ReverbProcessor.delayTimes r' = ReverbProcessor.delayTimes r /\
   forall d index time,
     ReverbProcessor.delayIndices r !! d = Some index ->
     ReverbProcessor.delayTimes r !! d = Some time ->
     ReverbProcessor.delayIndices r' !! d
     = Some ((index + Z.of_nat (length leftInput)) mod time)).
Proof.
  split.
  - apply new_delayLinesReady.
  - intros Hready. cbv zeta. unfold ReverbProcessor.process.
    destruct (process_delayLines leftInput rightInput (length leftInput) r outputs Hready)
      as (Hready' & Htimes & _ & Hindex).
    done.
Qed.

(** X16.  [process] overwrites its output buffers.  With delay lines as the
    constructor makes them, inputs of one length and output buffers no
    longer than the inputs, what the buffers held before has no influence
    on what they hold after, nor on the delay lines; and a frame of the
    right output differs from the same frame of the left output by the dry
    parts only, the wet part being the same in both. *)
Theorem reverb_process_overwrites_outputs (r : ReverbProcessor.t)
    (leftInput rightInput : list Q) (outputs1 outputs2 : Outputs) :
  delayLinesReady r ->
  length rightInput = length leftInput ->
  length (fst outputs1) = length (fst outputs2) ->
  length (snd outputs1) = length (snd outputs2) ->
  (length (fst outputs1) <= length leftInput)%nat ->
  (length (snd outputs1) <= length leftInput)%nat ->
  ReverbProcessor.process r leftInput rightInput outputs1
  = ReverbProcessor.process r leftInput rightInput outputs2 /\
  (forall i x y,
     fst (snd (ReverbProcessor.process r leftInput rightInput outputs1)) !! i = Some x ->
     snd (snd (ReverbProcessor.process r leftInput rightInput outputs1)) !! i = Some y ->
     (x - readAt leftInput (Z.of_nat i) * ReverbProcessor.dryLevel r
      == y - readAt rightInput (Z.of_nat i) * ReverbProcessor.dryLevel r)%Q).
Proof.
  intros _ _ Hleft Hright Hl Hr. split.
  - unfold ReverbProcessor.process.
    pose proof (process_prefix_overwrites leftInput rightInput r outputs1 outputs2
                  (length leftInput) Hleft Hright) as Hsame.
    cbv zeta in Hsame. destruct Hsame as (Hstate & Hlen1 & Hlen2 & Hsame).
    pose proof (process_prefix leftInput rightInput r outputs1 (length leftInput))
      as (_ & _ & Hl1 & Hr1 & _).
    destruct (fold_left _ _ (r, outputs1)) as [r1 [l1 r1']].
    destruct (fold_left _ _ (r, outputs2)) as [r2 [l2 r2']].
    simpl in *. subst r2. f_equal. f_equal.
    + apply list_eq. intros i. destruct (decide (i < length leftInput)%nat).
      * by apply Hsame.
      * rewrite !lookup_ge_None_2 by lia. done.
    + apply list_eq. intros i. destruct (decide (i < length leftInput)%nat).
      * by apply Hsame.
      * rewrite !lookup_ge_None_2 by lia. done.
  - intros i x y Hx Hy. unfold ReverbProcessor.process in Hx, Hy.
    pose proof (process_prefix leftInput rightInput r outputs1 (length leftInput))
      as (_ & _ & Hl1 & Hr1 & _ & Hdone).
    pose proof (lookup_lt_Some _ _ _ Hx) as Hi. rewrite Hl1 in Hi.
    destruct (Hdone i ltac:(lia)) as (reverbSample & Hleft' & Hright').
    pose proof (lookup_lt_Some _ _ _ Hy) as Hi'. rewrite Hr1 in Hi'.
    rewrite Hleft' in Hx by lia. rewrite Hright' in Hy by lia.
    injection Hx as <-. injection Hy as <-. ring.
Qed.

(** ** AmplitudeEnvelope: the phases *)

Section EnvelopePhases.
Import AmplitudeEnvelope.
Context {M : MathOps}.

Lemma getAmplitude_stopped (host : Host) (globalRate : Q) (bufferSize : Z) (env : t) :
  hostSampleRate host = Some globalRate ->
  phase env = EnvelopePhase.stopped ->
  exists env',
    getAmplitude host bufferSize env = Ok (env', 0%Q) /\
    phase env' = EnvelopePhase.stopped /\ lastAmplitude env' = 0%Q /\
    isNoteOff env' = isNoteOff env.
Proof.
  intros Hhost Hphase. unfold getAmplitude, calculateAmplitude. unfold phase in *.
  rewrite Hphase, andb_false_r. cbn [EnvelopePhase.eqb orb]. rewrite Hphase, Hhost.
  eexists. split; [reflexivity |]. done.
Qed.

(** The phase [attack] is entered by [noteOn()] only. *)
Lemma calculateAmplitude_attack (bufferSize : Z) (env : t) :
  phase (fst (calculateAmplitude bufferSize env)) = EnvelopePhase.attack ->
  phase env = EnvelopePhase.attack /\
  fst (calculateAmplitude bufferSize env) = env /\
  snd (calculateAmplitude bufferSize env)
  = (lastAmplitude env
     + (1 / (attackTime (parameter env) * sampleRate env)) * inject_Z bufferSize)%Q /\
  (snd (calculateAmplitude bufferSize env) < 1)%Q.
Proof.
  unfold calculateAmplitude, phase, setPhase.
  destruct env as [p ph off time level last rate]. simpl.
  destruct ph, off; simpl;
    repeat match goal with
           | |- context [if ?b then _ else _] => destruct b eqn:?
           end; simpl; try discriminate.
  all: intros _; split; [done |]; split; [done |]; split; [done |].
  all: apply Qnot_le_lt; intros Hle; apply Qle_bool_iff in Hle; congruence.
Qed.

End EnvelopePhases.

(** X17.  A stopped envelope stays stopped: in a scope that binds
    [sampleRate], every [getAmplitude] call returns 0 and leaves the phase
    stopped, so that [isPlaying] stays false. *)
Theorem stopped_envelope_stays_silent {M : MathOps}
    (host : Host) (globalRate : Q) (bufferSize : Z) (n : nat) (env : AmplitudeEnvelope.t) :
  hostSampleRate host = Some globalRate ->
  AmplitudeEnvelope.phase env = EnvelopePhase.stopped ->
  exists env',
    getAmplitudes host bufferSize n env = Ok (env', replicate n 0%Q) /\
    AmplitudeEnvelope.phase env' = EnvelopePhase.stopped /\
    AmplitudeEnvelope.isPlaying env' = false.
Proof.
  intros Hhost. revert env. induction n as [| n IH]; intros env Hphase.
  - exists env. split; [done |]. split; [done |].
    unfold AmplitudeEnvelope.isPlaying. by rewrite Hphase.
  - destruct (getAmplitude_stopped host globalRate bufferSize env Hhost Hphase)
      as (env1 & Hcall & Hphase1 & _).
    destruct (IH env1 Hphase1) as (env2 & Hrest & Hphase2 & Hplaying).
    exists env2. simpl. rewrite Hcall. simpl. rewrite Hrest. done.
Qed.

(** X18.  A note-off does not cut the attack or the hold short: in these
    phases [getAmplitude] returns the same amplitude and moves to the same
    phase whether the note is off or not.  In the decay and sustain phases
    the first call after the note-off starts the release, from the last
    amplitude returned, or stops the envelope. *)
Theorem noteOff_waits_for_the_decay {M : MathOps}
    (host : Host) (bufferSize : Z) (env : AmplitudeEnvelope.t) :
  let released := AmplitudeEnvelope.noteOff env in
  (AmplitudeEnvelope.phase env = EnvelopePhase.attack \/
   AmplitudeEnvelope.phase env = EnvelopePhase.hold ->
   forall env' value,
     AmplitudeEnvelope.getAmplitude host bufferSize env = Ok (env', value) ->
     AmplitudeEnvelope.getAmplitude host bufferSize released
     = Ok (AmplitudeEnvelope.noteOff env', value)) /\
  (AmplitudeEnvelope.phase env = EnvelopePhase.decay \/
   AmplitudeEnvelope.phase env = EnvelopePhase.sustain ->
   forall env' value,
     AmplitudeEnvelope.getAmplitude host bufferSize released = Ok (env', value) ->
     (AmplitudeEnvelope.phase env' = EnvelopePhase.release \/
      AmplitudeEnvelope.phase env' = EnvelopePhase.stopped /\ value = 0%Q) /\
     AmplitudeEnvelope.decayLevel env' = AmplitudeEnvelope.lastAmplitude env).
Proof.
  cbv zeta. split.
  - intros Hphase env' value.
    unfold AmplitudeEnvelope.getAmplitude, AmplitudeEnvelope.calculateAmplitude,
      AmplitudeEnvelope.noteOff, AmplitudeEnvelope.phase, AmplitudeEnvelope.setPhase in *.
    destruct env as [p ph off time level last rate]. simpl in *.
    destruct (hostSampleRate host) as [globalRate |];
      destruct Hphase as [-> | ->], off; simpl;
      repeat match goal with
             | |- context [if ?b then _ else _] => destruct b eqn:?
             end; simpl; intros [= <- <-]; done.
  - intros Hphase env' value.
    unfold AmplitudeEnvelope.getAmplitude, AmplitudeEnvelope.calculateAmplitude,
      AmplitudeEnvelope.noteOff, AmplitudeEnvelope.phase, AmplitudeEnvelope.setPhase in *.
    destruct env as [p ph off time level last rate]. simpl in *.
    destruct (hostSampleRate host) as [globalRate |];
      destruct Hphase as [-> | ->]; simpl;
      repeat match goal with
             | |- context [if ?b then _ else _] => destruct b eqn:?
             end; simpl; intros [= <- <-]; simpl; auto.
Qed.

(** What one call adds to the amplitude in the attack phase. *)
Definition amplificationPerCall (bufferSize : Z) (env : AmplitudeEnvelope.t) : Q :=
  ((1 / (attackTime (AmplitudeEnvelope.parameter env) * AmplitudeEnvelope.sampleRate env))
   * inject_Z bufferSize)%Q.

Section AttackRamp.
Import AmplitudeEnvelope.
Context {M : MathOps}.
Variable host : Host.
Variable bufferSize : Z.

Lemma getAmplitude_attack (env env' : t) (value : Q) :
  getAmplitude host bufferSize env = Ok (env', value) ->
  phase env' = EnvelopePhase.attack ->
  phase env = EnvelopePhase.attack /\
  parameter env' = parameter env /\ sampleRate env' = sampleRate env /\
  lastAmplitude env' = value /\
  value = (lastAmplitude env + amplificationPerCall bufferSize env)%Q /\
  (value < 1)%Q.
Proof.
  unfold getAmplitude. intros Hcall Hphase.
  pose proof (calculateAmplitude_attack bufferSize env) as Hattack.
  destruct (calculateAmplitude bufferSize env) as [env1 value1].
  destruct (hostSampleRate host) as [globalRate |]; [| done].
  injection Hcall as <- <-. simpl in *.
  destruct (Hattack Hphase) as (Hp & -> & Hvalue & Hlt). done.
Qed.

Lemma getAmplitudes_attack (n : nat) : forall (env env' : t) (values : list Q),
  getAmplitudes host bufferSize n env = Ok (env', values) ->
  phase env' = EnvelopePhase.attack ->
  phase env = EnvelopePhase.attack /\
  parameter env' = parameter env /\ sampleRate env' = sampleRate env /\
  forall i x, values !! i = Some x ->
    (x == lastAmplitude env + countQ (S i) * amplificationPerCall bufferSize env)%Q /\
    (x < 1)%Q.
Proof.
  induction n as [| n IH]; intros env env' values Hrun Hphase.
  - injection Hrun as <- <-. split; [done |]. split; [done |]. split; [done |].
    intros i x Hx. done.
  - simpl in Hrun.
    destruct (getAmplitude host bufferSize env) as [[env1 value] |] eqn:Hcall; [| done].
    simpl in Hrun.
    destruct (getAmplitudes host bufferSize n env1) as [[env2 rest] |] eqn:Hrest; [| done].
    injection Hrun as <- <-.
    destruct (IH env1 env2 rest Hrest Hphase) as (Hphase1 & Hp & Hr & Hvalues).
    destruct (getAmplitude_attack env env1 value Hcall Hphase1)
      as (Hphase0 & Hp0 & Hr0 & Hlast & Hvalue & Hlt).
    split; [done |]. split; [congruence |]. split; [congruence |].
    intros [| i] x Hx; simpl in Hx.
    + injection Hx as <-. split; [| done]. rewrite Hvalue.
      change (countQ 1) with 1%Q. ring.
    + destruct (Hvalues i x Hx) as [Heq Hlt']. split; [| done].
      rewrite Heq, Hlast, Hvalue.
      assert (Hstep : amplificationPerCall bufferSize env1 = amplificationPerCall bufferSize env)
        by (unfold amplificationPerCall; by rewrite Hp0, Hr0).
      rewrite Hstep, (countQ_S (S i)). ring.
Qed.

End AttackRamp.

(** X19.  The attack is a linear ramp capped at 1, for an attack time and a
    sample rate that are not 0.  A call in the attack phase returns the
    last amplitude plus [bufferSize / (attackTime * sampleRate)], and stays
    in the attack, if that is below 1; otherwise it returns exactly 1 and
    starts the hold.  As long as the envelope is in the attack after [n]
    calls, it was in the attack before, and the call number [i] returned
    the amplitude it began with plus [i] such steps. *)
Theorem attack_is_a_linear_ramp {M : MathOps}
    (host : Host) (bufferSize : Z) (env : AmplitudeEnvelope.t) :
  ~ (attackTime (AmplitudeEnvelope.parameter env) * AmplitudeEnvelope.sampleRate env == 0)%Q ->
  (AmplitudeEnvelope.phase env = EnvelopePhase.attack ->
   forall env' value,
     AmplitudeEnvelope.getAmplitude host bufferSize env = Ok (env', value) ->
     (AmplitudeEnvelope.phase env' = EnvelopePhase.attack /\
      value = (AmplitudeEnvelope.lastAmplitude env + amplificationPerCall bufferSize env)%Q /\
      (value < 1)%Q) \/
     (AmplitudeEnvelope.phase env' = EnvelopePhase.hold /\ value = 1%Q /\
      (1 <= AmplitudeEnvelope.lastAmplitude env + amplificationPerCall bufferSize env)%Q)) /\
  (forall n env' values,
     getAmplitudes host bufferSize n env = Ok (env', values) ->
     AmplitudeEnvelope.phase env' = EnvelopePhase.attack ->
     AmplitudeEnvelope.phase env = EnvelopePhase.attack /\
     forall i x, values !! i = Some x ->
       (x == AmplitudeEnvelope.lastAmplitude env
             + countQ (S i) * amplificationPerCall bufferSize env)%Q /\
       (x < 1)%Q).
Proof.
  intros _. split.
  - intros Hphase env' value.
    unfold AmplitudeEnvelope.getAmplitude, AmplitudeEnvelope.calculateAmplitude,
      amplificationPerCall, AmplitudeEnvelope.phase, AmplitudeEnvelope.setPhase in *.
    destruct env as [p ph off time level last rate]. simpl in *. subst ph.
    rewrite andb_false_r. simpl.
    destruct (hostSampleRate host) as [globalRate |];
      destruct (Qle_bool 1 _) eqn:Hle; simpl; intros [= <- <-]; simpl.
    + right. split; [done |]. split; [done |]. by apply Qle_bool_iff.
    + left. split; [done |]. split; [done |].
      apply Qnot_le_lt. intros Hle'. apply Qle_bool_iff in Hle'. congruence.
  - intros n env' values Hrun Hphase.
    destruct (getAmplitudes_attack host bufferSize n env env' values Hrun Hphase)
      as (Hphase0 & _ & _ & Hvalues).
    done.
Qed.

(** ** WavetableOscillator: the frames *)

(** X20.  A frame of [process], for a voice whose pointer is inside its
    sample ([0 <= sampleIndex < sampleEnd <= buffer.length]) and whose loop
    starts inside it, reads two samples of the wave, both inside the
    buffer, and adds to the frame [i] of each output buffer, and to no
    other frame, a level times the gain of the channel; the level is
    interpolated between the two samples and lies between them, and it is
    the sample under the pointer when the pointer is on a whole index. *)
Theorem processFrame_interpolates
    (modulatedSpeed leftGain rightGain : Q) (i : nat)
    (osc : WavetableOscillator.t) (outputs : Outputs) :
  (0 <= WavetableOscillator.sampleIndex osc < sampleEndOf osc)%Q ->
  SampleParameter.sampleEnd (sampleParameter (WavetableOscillator.sample osc))
    <= Z.of_nat (length (buffer (WavetableOscillator.sample osc))) ->
  0 <= loop_start (loopOf osc)
    < SampleParameter.sampleEnd (sampleParameter (WavetableOscillator.sample osc)) ->
  let frame := WavetableOscillator.processFrame modulatedSpeed leftGain rightGain i osc outputs in
  let outputs' := snd (fst frame) in
  let pointer := WavetableOscillator.sampleIndex osc in
  let current := readAt (buffer (WavetableOscillator.sample osc)) (Qfloor pointer) in
  exists (nextIndex : Z) (level : Q),
    let next := readAt (buffer (WavetableOscillator.sample osc)) nextIndex in
    0 <= Qfloor pointer < Z.of_nat (length (buffer (WavetableOscillator.sample osc))) /\
    0 <= nextIndex < Z.of_nat (length (buffer (WavetableOscillator.sample osc))) /\
    (level == current + (next - current) * (pointer - inject_Z (Qfloor pointer)))%Q /\
    (Qmin current next <= level <= Qmax current next)%Q /\
    ((pointer == inject_Z (Qfloor pointer))%Q -> (level == current)%Q) /\
    length (fst outputs') = length (fst outputs) /\
    length (snd outputs') = length (snd outputs) /\
    (forall j,
       fst outputs' !! j
       = (if decide (j = i) then (fun y => (y + level * leftGain)%Q) <$> fst outputs !! j
          else fst outputs !! j) /\
       snd outputs' !! j
       = (if decide (j = i) then (fun y => (y + level * rightGain)%Q) <$> snd outputs !! j
          else snd outputs !! j)).
Proof.
  intros Hpointer Hbuffer Hstart.
  cbv zeta. unfold WavetableOscillator.processFrame.
  set (index := Qfloor (WavetableOscillator.sampleIndex osc)).
  set (nextIndex := match WavetableOscillator.loopIndexOf osc _ with
                    | Some wrapped => Qfloor wrapped
                    | None => _
                    end).
  set (current := readAt _ index). set (next := readAt _ nextIndex).
  set (level := (current + (next - current)
                 * (WavetableOscillator.sampleIndex osc - inject_Z index))%Q).
  exists nextIndex, level. fold next.
  pose proof (Qfloor_le (WavetableOscillator.sampleIndex osc)) as Hlow.
  pose proof (Qlt_floor (WavetableOscillator.sampleIndex osc)) as Hhigh.
  fold index in Hlow, Hhigh. rewrite inject_Z_plus in Hhigh.
  change (inject_Z 1) with 1%Q in Hhigh.
  assert (Hfrac : (0 <= WavetableOscillator.sampleIndex osc - inject_Z index < 1)%Q)
    by (split; lra).
  set (frac := (WavetableOscillator.sampleIndex osc - inject_Z index)%Q) in *.
  set (sampleEnd :=
         SampleParameter.sampleEnd (sampleParameter (WavetableOscillator.sample osc))) in *.
  assert (Hindex : 0 <= index < sampleEnd).
  { split.
    - change 0 with (Qfloor 0). apply Qfloor_resp_le. lra.
    - rewrite Zlt_Qlt. unfold sampleEndOf in Hpointer. fold sampleEnd in Hpointer. lra. }
  split; [lia |]. split.
  { subst nextIndex. unfold WavetableOscillator.loopIndexOf. fold (loopOf osc).
    destruct (_ && _).
    - set (advanced := (WavetableOscillator.sampleIndex osc + modulatedSpeed)%Q).
      pose proof (Qfloor_le advanced) as Hfloor. pose proof (Qlt_floor advanced) as Hceil.
      rewrite inject_Z_plus in Hceil. change (inject_Z 1) with 1%Q in Hceil.
      set (wrapped := (inject_Z (loop_start (loopOf osc))
                       + (advanced - inject_Z (Qfloor advanced)))%Q).
      assert (Hwrapped : Qfloor wrapped = loop_start (loopOf osc)).
      { pose proof (Qfloor_le wrapped) as Hw1. pose proof (Qlt_floor wrapped) as Hw2.
        rewrite inject_Z_plus in Hw2. change (inject_Z 1) with 1%Q in Hw2.
        assert (inject_Z (Qfloor wrapped) < inject_Z (loop_start (loopOf osc) + 1))%Q
          by (rewrite inject_Z_plus; change (inject_Z 1) with 1%Q; unfold wrapped in *; lra).
        assert (inject_Z (loop_start (loopOf osc)) < inject_Z (Qfloor wrapped + 1))%Q
          by (rewrite inject_Z_plus; change (inject_Z 1) with 1%Q; unfold wrapped in *; lra).
        rewrite <- Zlt_Qlt in *. lia. }
      rewrite Hwrapped. lia.
    - lia. }
  split; [reflexivity |]. split.
  { unfold level. fold frac.
    destruct (Qlt_le_dec current next) as [Hlt | Hge].
    - rewrite (Q.min_l current next), (Q.max_r current next) by lra.
      assert (0 <= (next - current) * frac)%Q by (apply Qmult_le_0_compat; lra).
      assert (0 <= (next - current) * (1 - frac))%Q by (apply Qmult_le_0_compat; lra).
      split; lra.
    - rewrite (Q.min_r current next), (Q.max_l current next) by lra.
      assert (0 <= (current - next) * frac)%Q by (apply Qmult_le_0_compat; lra).
      assert (0 <= (current - next) * (1 - frac))%Q by (apply Qmult_le_0_compat; lra).
      split; lra. }
  split.
  { intros Hwhole. unfold level. fold frac.
    assert (Hzero : (frac == 0)%Q) by (unfold frac; lra). rewrite Hzero. ring. }
  destruct (Qle_bool _ _); cbn [fst snd];
    (split; [apply (addAt_lookup i 0%nat) |]; split; [apply (addAt_lookup i 0%nat) |];
     intros j; split; apply addAt_lookup).
Qed.

(** X21.  A voice whose loop is in force (a continuous loop, or a sustain
    loop with the note still on) is not ended by the frames of [process]:
    given [loop.start + 1 <= loop.end <= sampleEnd], after any number of
    frames its playing flag is as before, and its pointer is below the end
    of the loop and of the sample. *)
Theorem looping_voice_plays_on
    (modulatedSpeed leftGain rightGain : Q) (count i : nat)
    (osc : WavetableOscillator.t) (outputs : Outputs) :
  loop_type (loopOf osc) = loop_continuous \/
  (loop_type (loopOf osc) = loop_sustain /\ WavetableOscillator._isNoteOff osc = false) ->
  loop_start (loopOf osc) + 1 <= loop_end (loopOf osc)
    <= SampleParameter.sampleEnd (sampleParameter (WavetableOscillator.sample osc)) ->
  let final :=
    fst (WavetableOscillator.processFrames modulatedSpeed leftGain rightGain
           count i osc outputs) in
  WavetableOscillator._isPlaying final = WavetableOscillator._isPlaying osc /\
  ((0 < count)%nat ->
   (WavetableOscillator.sampleIndex final < inject_Z (loop_end (loopOf osc)))%Q /\
   (WavetableOscillator.sampleIndex final < sampleEndOf osc)%Q).
Proof.
  intros Htype Hloop.
  assert (Henabled : WavetableOscillator.loopEnabled osc = true).
  { unfold WavetableOscillator.loopEnabled. fold (loopOf osc).
    destruct Htype as [-> | [-> ->]]; done. }
  destruct (processFrames_looping modulatedSpeed leftGain rightGain count i osc outputs
              Henabled Hloop) as (Hplaying & _ & _ & Hbelow).
  cbv zeta. split; [done |]. intros Hcount. specialize (Hbelow Hcount).
  split; [done |]. unfold sampleEndOf.
  assert (inject_Z (loop_end (loopOf osc))
          <= inject_Z (SampleParameter.sampleEnd
                         (sampleParameter (WavetableOscillator.sample osc))))%Q
    by (rewrite <- Zle_Qle; lia).
  lra.
Qed.

Section OscillatorOneShot.
Import WavetableOscillator.
Variables modulatedSpeed leftGain rightGain : Q.

Lemma loopIndexOf_disabled (osc : t) (advanced : Q) :
  loopEnabled osc = false -> loopIndexOf osc advanced = None.
Proof. intros Hoff. unfold loopIndexOf. by rewrite Hoff. Qed.

Lemma processFrames_unlooped (count : nat) : forall (i : nat) (osc : t) (outputs : Outputs),
  loopEnabled osc = false ->
  (0 < count)%nat ->
  let osc' := fst (processFrames modulatedSpeed leftGain rightGain count i osc outputs) in
  exists k : nat,
    (1 <= k <= count)%nat /\
    (sampleIndex osc' == sampleIndex osc + countQ k * modulatedSpeed)%Q /\
    (forall j, (1 <= j < k)%nat ->
       (sampleIndex osc + countQ j * modulatedSpeed < sampleEndOf osc)%Q) /\
    (((sampleEndOf osc <= sampleIndex osc + countQ k * modulatedSpeed)%Q /\
      _isPlaying osc' = false) \/
     (k = count /\
      (sampleIndex osc + countQ k * modulatedSpeed < sampleEndOf osc)%Q /\
      _isPlaying osc' = _isPlaying osc)).
Proof.
  induction count as [| count IH]; intros i osc outputs Hoff Hcount; [lia |].
  simpl.
  pose proof (processFrame_pointer modulatedSpeed leftGain rightGain i osc outputs) as Hframe.
  cbv zeta in Hframe.
  rewrite (loopIndexOf_disabled osc _ Hoff) in Hframe. simpl in Hframe.
  destruct (processFrame modulatedSpeed leftGain rightGain i osc outputs)
    as [[osc1 outputs1] continue].
  simpl in Hframe. destruct Hframe as (Hsample & Hnoteoff & Hindex & Hend).
  destruct (Qle_bool (sampleEndOf osc) (sampleIndex osc + modulatedSpeed)) eqn:Hreached.
  - destruct Hend as [Hplaying ->]. simpl.
    apply Qle_bool_iff in Hreached.
    exists 1%nat. change (countQ 1) with 1%Q.
    split; [lia |]. split; [rewrite Hindex; lra |].
    split; [intros j Hj; lia |]. left. split; [lra | done].
  - destruct Hend as [Hplaying ->].
    assert (Hbelow : (sampleIndex osc + modulatedSpeed < sampleEndOf osc)%Q).
    { apply Qnot_le_lt. intros Hle. apply Qle_bool_iff in Hle. congruence. }
    destruct count as [| count'].
    + simpl. exists 1%nat. change (countQ 1) with 1%Q.
      split; [lia |]. split; [rewrite Hindex; lra |].
      split; [intros j Hj; lia |]. right. split; [done |]. split; [lra | done].
    + assert (Hoff1 : loopEnabled osc1 = false)
        by (unfold loopEnabled in *; by rewrite Hsample, Hnoteoff).
      destruct (IH (S i) osc1 outputs1 Hoff1 ltac:(lia))
        as (k & Hk & Hpointer & Hbefore & Hlast).
      assert (Hend1 : sampleEndOf osc1 = sampleEndOf osc)
        by (unfold sampleEndOf; rewrite Hsample; done).
      rewrite Hend1, Hindex in *.
      exists (S k). rewrite (countQ_S k).
      split; [lia |]. split; [rewrite Hpointer; ring |]. split.
      * intros j Hj. destruct j as [| [| j]]; [lia | change (countQ 1) with 1%Q; lra |].
        specialize (Hbefore (S j) ltac:(lia)). rewrite (countQ_S (S j)). lra.
      * destruct Hlast as [[Hreach Hstop] | (-> & Hshort & Hkeep)].
        -- left. split; [lra | done].
        -- right. split; [done |]. split; [lra | congruence].
Qed.

End OscillatorOneShot.

(** X22.  A sample without a loop is played once: over the frames of a call
    the pointer moves by the speed at each frame and is never taken back;
    the frames end with the first one that takes the pointer to [sampleEnd],
    the voice is then no longer playing and the pointer moves no further;
    this happens within the call whenever [count] steps reach [sampleEnd].
    *)
Theorem one_shot_sample_plays_to_its_end
    (modulatedSpeed leftGain rightGain : Q) (count i : nat)
    (osc : WavetableOscillator.t) (outputs : Outputs) :
  loop_type (loopOf osc) = no_loop ->
  (0 < count)%nat ->
  let final :=
    fst (WavetableOscillator.processFrames modulatedSpeed leftGain rightGain
           count i osc outputs) in
  exists k : nat,
    (1 <= k <= count)%nat /\
    (WavetableOscillator.sampleIndex final
     == WavetableOscillator.sampleIndex osc + countQ k * modulatedSpeed)%Q /\
    (forall j, (1 <= j < k)%nat ->
       (WavetableOscillator.sampleIndex osc + countQ j * modulatedSpeed < sampleEndOf osc)%Q) /\
    (k < count ->
     (sampleEndOf osc <= WavetableOscillator.sampleIndex final)%Q /\
     WavetableOscillator._isPlaying final = false)%nat /\
    ((sampleEndOf osc - WavetableOscillator.sampleIndex osc <= countQ count * modulatedSpeed)%Q ->
     (sampleEndOf osc <= WavetableOscillator.sampleIndex final)%Q /\
     WavetableOscillator._isPlaying final = false).
Proof.
  intros Htype Hcount.
  assert (Hoff : WavetableOscillator.loopEnabled osc = false).
  { unfold WavetableOscillator.loopEnabled. fold (loopOf osc). by rewrite Htype. }
  destruct (processFrames_unlooped modulatedSpeed leftGain rightGain count i osc outputs
              Hoff Hcount) as (k & Hk & Hpointer & Hbefore & Hlast).
  cbv zeta. exists k. split; [done |]. split; [done |]. split; [done |]. split.
  - intros Hearly. destruct Hlast as [[Hreach Hstop] | (-> & _)]; [| lia].
    split; [rewrite Hpointer; lra | done].
  - intros Henough. destruct Hlast as [[Hreach Hstop] | (-> & Hshort & _)].
    + split; [rewrite Hpointer; lra | done].
    + lra.
Qed.

(** ** The core: controllers *)

(** The state of a channel as a method finds it: the initial state if the
    channel has none. *)
Definition channelState (channel : Z) (core : SynthProcessorCore.t) : ChannelState.t :=
  default ChannelState.initialChannelState (SynthProcessorCore.channels core !! channel).

Section CoreControllers.
Import SynthProcessorCore.
Context {M : MathOps}.

Lemma channelState_onChannelState channel f core :
  channelState channel (onChannelState channel f core) = f (channelState channel core).
Proof.
  unfold channelState. destruct (onChannelState_spec channel f core) as (_ & _ & _ & _ & ->).
  by rewrite lookup_insert_eq.
Qed.

End CoreControllers.

(** X23.  The bank of a channel changes with the bank-select LSB only, and
    only once the channel has received a bank-select MSB: the MSB alone
    changes no state of any channel, the LSB that follows sets the bank to
    [(msb << 7) + lsb], which is [msb * 128 + lsb] for an MSB below [2 ^
    24], and an LSB that no MSB preceded is ignored. *)
Theorem bank_select_needs_msb_then_lsb {M : MathOps}
    (core : SynthProcessorCore.t) (channel msb lsb : Z) :
  let handle := SynthProcessorCore.handleDelayableEvent in
  let afterMSB :=
    handle (ChannelEvent channel (Controller MIDIControlEvents.MSB_BANK msb)) core in
  let afterLSB :=
    handle (ChannelEvent channel (Controller MIDIControlEvents.LSB_BANK lsb)) afterMSB in
  SynthProcessorCore.channels afterMSB = SynthProcessorCore.channels core /\
  channelState channel afterLSB
  = ChannelState.setBank (shiftLeft msb 7 + lsb) (channelState channel core) /\
  (0 <= msb < 2 ^ 24 -> shiftLeft msb 7 + lsb = msb * 128 + lsb) /\
  (SynthProcessorCore.bankSelectMSB core !! channel = None ->
   handle (ChannelEvent channel (Controller MIDIControlEvents.LSB_BANK lsb)) core = core).
Proof.
  cbv zeta. split; [done |]. split; [| split].
  - cbn. rewrite lookup_insert_eq.
    unfold SynthProcessorCore.bankSelect. rewrite channelState_onChannelState. done.
  - intros Hmsb. unfold shiftLeft. rewrite Z.shiftl_mul_pow2 by lia.
    rewrite toInt32_small; lia.
  - intros Hnone. cbn. by rewrite Hnone.
Qed.

(** X24.  The rhythm channel (channel 9) plays the bank 128 whatever bank
    the channel has selected: [getSamples] looks its notes up under the bank
    128 and the instrument of the channel, and a bank select on the channel
    changes nothing of what a note finds. *)
Theorem rhythm_channel_plays_bank_128
    (core : SynthProcessorCore.t) (key velocity newBank : Z) :
  fst (SynthProcessorCore.getSamples RHYTHM_CHANNEL key velocity core)
  = SampleTable.getSamples (SynthProcessorCore.sampleTable core) RHYTHM_BANK
      (ChannelState.instrument (channelState RHYTHM_CHANNEL core)) key velocity /\
  fst (SynthProcessorCore.getSamples RHYTHM_CHANNEL key velocity
         (SynthProcessorCore.bankSelect RHYTHM_CHANNEL newBank core))
  = fst (SynthProcessorCore.getSamples RHYTHM_CHANNEL key velocity core).
Proof.
  assert (Hget : forall c,
            fst (SynthProcessorCore.getSamples RHYTHM_CHANNEL key velocity c)
            = SampleTable.getSamples (SynthProcessorCore.sampleTable c) RHYTHM_BANK
                (ChannelState.instrument (channelState RHYTHM_CHANNEL c)) key velocity).
  { intros c. unfold SynthProcessorCore.getSamples, SynthProcessorCore.getChannelState,
      channelState.
    by destruct (SynthProcessorCore.channels c !! RHYTHM_CHANNEL). }
  split; [apply Hget |]. rewrite !Hget.
  unfold SynthProcessorCore.bankSelect. rewrite channelState_onChannelState.
  destruct (onChannelState_spec RHYTHM_CHANNEL (ChannelState.setBank newBank) core)
    as (Hshared & _).
  unfold sharedParts in Hshared. injection Hshared as _ -> _. done.
Qed.

(** X25.  A data-entry MSB that follows an RPN LSB select with the value 0
    sets the pitch-bend sensitivity of the channel to the value of the data
    entry, whatever RPN MSB the channel selected before.  When it follows an
    NRPN select, or an RPN select with the value 127, it changes no channel
    state. *)
Theorem pitch_bend_sensitivity_follows_rpn_zero {M : MathOps}
    (core : SynthProcessorCore.t) (channel value : Z) :
  let handle := SynthProcessorCore.handleDelayableEvent in
  let entry := ChannelEvent channel (Controller MIDIControlEvents.MSB_DATA_ENTRY value) in
  channelState channel
    (handle entry
       (handle (ChannelEvent channel (Controller MIDIControlEvents.REGIST_PARM_NUM_LSB 0))
          core))
  = ChannelState.setPitchBendSensitivity (inject_Z value) (channelState channel core) /\
  (forall controllerType v,
     controllerType = MIDIControlEvents.NONREG_PARM_NUM_MSB \/
     controllerType = MIDIControlEvents.NONREG_PARM_NUM_LSB \/
     (controllerType = MIDIControlEvents.REGIST_PARM_NUM_MSB /\ v = 127) \/
     (controllerType = MIDIControlEvents.REGIST_PARM_NUM_LSB /\ v = 127) ->
     SynthProcessorCore.channels
       (handle entry (handle (ChannelEvent channel (Controller controllerType v)) core))
     = SynthProcessorCore.channels core).
Proof.
  cbv zeta. split.
  - cbn. unfold SynthProcessorCore.updateRPN. cbn. rewrite lookup_insert_eq. cbn.
    unfold SynthProcessorCore.setPitchBendSensitivity.
    rewrite channelState_onChannelState. done.
  - intros controllerType v Hclear.
    destruct Hclear as [-> | [-> | [[-> ->] | [-> ->]]]]; cbn;
      unfold SynthProcessorCore.updateRPN; cbn; rewrite lookup_delete_eq; done.
Qed.

(** ** The core: voices *)

(** The voices that a channel holds for a key. *)
Definition voicesOf (channel key : Z) (core : SynthProcessorCore.t)
    : list WavetableOscillator.t :=
  default [] (ChannelState.oscillators (channelState channel core) !! key).

Section CoreVoices.
Import SynthProcessorCore.

Lemma voicesOf_forEachOscillator channel key f g core :
  (forall state, ChannelState.oscillators (g state) = ChannelState.oscillators state) ->
  voicesOf channel key
    (onChannelState channel (fun state => ChannelState.forEachOscillator f (g state)) core)
  = map f (voicesOf channel key core).
Proof.
  intros Hg. unfold voicesOf. rewrite channelState_onChannelState.
  unfold ChannelState.forEachOscillator. cbn [ChannelState.oscillators ChannelState.setOscillators].
  rewrite lookup_fmap, Hg. by destruct (ChannelState.oscillators _ !! key).
Qed.

Lemma voicesOf_noteOff channel key core :
  voicesOf channel key (noteOff channel key core)
  = map (releaseOrHold (ChannelState.hold (channelState channel core)))
      (voicesOf channel key core) /\
  ChannelState.hold (channelState channel (noteOff channel key core))
  = ChannelState.hold (channelState channel core).
Proof.
  unfold voicesOf, noteOff. rewrite channelState_onChannelState.
  destruct (ChannelState.oscillators (channelState channel core) !! key) as [voices |] eqn:Hkey.
  - cbn [ChannelState.oscillators ChannelState.setOscillators ChannelState.hold].
    by rewrite lookup_insert_eq.
  - by rewrite Hkey.
Qed.

Lemma voicesOf_hold channel key value core :
  voicesOf channel key (hold channel value core)
  = (if 64 <=? value then voicesOf channel key core
     else map (fun osc => if WavetableOscillator.isHold osc
                          then WavetableOscillator.noteOff osc else osc)
            (voicesOf channel key core)) /\
  ChannelState.hold (channelState channel (hold channel value core)) = (64 <=? value).
Proof.
  unfold voicesOf, hold. rewrite channelState_onChannelState.
  destruct (64 <=? value); [done |].
  unfold ChannelState.forEachOscillator.
  cbn [ChannelState.oscillators ChannelState.setOscillators ChannelState.setHold ChannelState.hold].
  rewrite lookup_fmap. by destruct (ChannelState.oscillators _ !! key).
Qed.

End CoreVoices.

(** X26.  The sustain pedal.  With the pedal down (a value of 64 or more), a
    note-off leaves the voices of the key as they sound and only marks them;
    when the pedal goes up (a value below 64) the marked voices get their
    note-off.  Without the pedal the note-off reaches them at once. *)
Theorem sustain_pedal_defers_note_off
    (core : SynthProcessorCore.t) (channel key down up : Z) :
  64 <= down -> up < 64 ->
  Forall (fun osc => WavetableOscillator.isNoteOff osc = false) (voicesOf channel key core) ->
  let pedalDown := SynthProcessorCore.hold channel down core in
  let keyUp := SynthProcessorCore.noteOff channel key pedalDown in
  let pedalUp := SynthProcessorCore.hold channel up keyUp in
  voicesOf channel key pedalDown = voicesOf channel key core /\
  voicesOf channel key keyUp
  = map (WavetableOscillator.setIsHold true) (voicesOf channel key core) /\
  voicesOf channel key pedalUp
  = map (fun osc => WavetableOscillator.noteOff (WavetableOscillator.setIsHold true osc))
      (voicesOf channel key core) /\
  (ChannelState.hold (channelState channel core) = false ->
   voicesOf channel key (SynthProcessorCore.noteOff channel key core)
   = map WavetableOscillator.noteOff (voicesOf channel key core)).
Proof.
  intros Hdown Hup Hsounding. cbv zeta.
  destruct (voicesOf_hold channel key down core) as [Hvoices1 Hhold1].
  destruct (Z.leb_spec 64 down) as [_ | ?]; [| lia].
  destruct (voicesOf_noteOff channel key (SynthProcessorCore.hold channel down core))
    as [Hvoices2 Hhold2].
  rewrite Hhold1 in Hvoices2, Hhold2. rewrite Hvoices1 in Hvoices2.
  assert (Hmarked : map (SynthProcessorCore.releaseOrHold true) (voicesOf channel key core)
                    = map (WavetableOscillator.setIsHold true) (voicesOf channel key core)).
  { apply map_ext_Forall. eapply Forall_impl; [exact Hsounding |].
    intros osc Hosc. unfold SynthProcessorCore.releaseOrHold. by rewrite Hosc. }
  rewrite Hmarked in Hvoices2.
  destruct (voicesOf_hold channel key up
              (SynthProcessorCore.noteOff channel key
                 (SynthProcessorCore.hold channel down core))) as [Hvoices3 _].
  destruct (Z.leb_spec 64 up) as [? | _]; [lia |].
  rewrite Hvoices2, map_map in Hvoices3.
  split; [done |]. split; [done |]. split; [done |].
  intros Hnopedal. destruct (voicesOf_noteOff channel key core) as [-> _].
  rewrite Hnopedal. apply map_ext_Forall. eapply Forall_impl; [exact Hsounding |].
  intros osc Hosc. unfold SynthProcessorCore.releaseOrHold. by rewrite Hosc.
Qed.

(** X27.  "All sounds off" force-stops every voice of the channel and "all
    notes off" gives every voice of the channel its note-off, the pedal
    being down or not; both leave the voices in their places. *)
Theorem all_sounds_off_reaches_every_voice
    (core : SynthProcessorCore.t) (channel key : Z) :
  voicesOf channel key (SynthProcessorCore.allSoundsOff channel core)
  = map WavetableOscillator.forceStop (voicesOf channel key core) /\
  Forall (fun osc => AmplitudeEnvelope.phase (WavetableOscillator.envelope osc)
                     = EnvelopePhase.forceStop)
    (voicesOf channel key (SynthProcessorCore.allSoundsOff channel core)) /\
  voicesOf channel key (SynthProcessorCore.allNotesOff channel core)
  = map WavetableOscillator.noteOff (voicesOf channel key core) /\
  Forall (fun osc => WavetableOscillator.isNoteOff osc = true /\
                     AmplitudeEnvelope.isNoteOff (WavetableOscillator.envelope osc) = true)
    (voicesOf channel key (SynthProcessorCore.allNotesOff channel core)).
Proof.
  assert (Hstop : voicesOf channel key (SynthProcessorCore.allSoundsOff channel core)
                  = map WavetableOscillator.forceStop (voicesOf channel key core)).
  { unfold SynthProcessorCore.allSoundsOff.
    rewrite (voicesOf_forEachOscillator channel key WavetableOscillator.forceStop
               (fun state => state)) by done.
    done. }
  assert (Hoff : voicesOf channel key (SynthProcessorCore.allNotesOff channel core)
                 = map WavetableOscillator.noteOff (voicesOf channel key core)).
  { unfold SynthProcessorCore.allNotesOff.
    by rewrite (voicesOf_forEachOscillator channel key WavetableOscillator.noteOff
                  (fun state => state)). }
  split; [exact Hstop |]. split; [| split; [exact Hoff |]].
  - rewrite Hstop. apply Forall_forall. intros osc Hosc.
    apply list_elem_of_fmap in Hosc as (osc0 & -> & _). apply forceStop_phase.
  - rewrite Hoff. apply Forall_forall. intros osc Hosc.
    apply list_elem_of_fmap in Hosc as (osc0 & -> & _). done.
Qed.

(** X28.  A note-on for which [getSamples] finds no sample starts no voice
    and stops none: it leaves the core as [getChannelState] leaves it, with
    the state of the channel created if there was none. *)
Theorem noteOn_without_sample_starts_nothing {M : MathOps}
    (core : SynthProcessorCore.t) (channel key velocity : Z) :
  fst (SynthProcessorCore.getSamples channel key velocity core) = [] ->
  SynthProcessorCore.noteOn channel key velocity core
  = snd (SynthProcessorCore.getChannelState channel core) /\
  (forall c k, voicesOf c k (SynthProcessorCore.noteOn channel key velocity core)
               = voicesOf c k core).
Proof.
  intros Hnone.
  assert (Hsame : SynthProcessorCore.noteOn channel key velocity core
                  = snd (SynthProcessorCore.getChannelState channel core)).
  { unfold SynthProcessorCore.noteOn, SynthProcessorCore.getSamples,
      SynthProcessorCore.getChannelState in *.
    destruct (SynthProcessorCore.channels core !! channel) as [state |] eqn:Hstate; simpl in *.
    - rewrite Hstate. simpl. by rewrite Hnone.
    - rewrite lookup_insert_eq. simpl. by rewrite Hnone. }
  split; [exact Hsame |]. intros c k. rewrite Hsame.
  unfold voicesOf, channelState, SynthProcessorCore.getChannelState.
  destruct (SynthProcessorCore.channels core !! channel) as [state |] eqn:Hstate; [done |].
  simpl. destruct (decide (c = channel)) as [-> | Hne].
  - by rewrite lookup_insert_eq, Hstate.
  - by rewrite lookup_insert_ne.
Qed.

(** X29.  What the channel controllers store.  A value from 0 to 127 gives a
    main volume, an expression and a modulation from 0 to 1, and a pan from
    -1 (at 0) to 1 (at 127) that is never 0: no value puts a channel in the
    centre.  A pitch-bend value from 0 to 0x3fff gives a bend within the
    sensitivity of the channel on either side, which is 0 at 0x2000. *)
Theorem controller_values_scale_to_ranges
    (core : SynthProcessorCore.t) (channel value bend : Z) :
  0 <= value <= 127 ->
  0 <= bend <= 0x3fff ->
  let volume :=
    ChannelState.volume (channelState channel (SynthProcessorCore.setMainVolume channel value core)) in
  let expression :=
    ChannelState.expression
      (channelState channel (SynthProcessorCore.expression channel value core)) in
  let modulation :=
    ChannelState.modulation
      (channelState channel (SynthProcessorCore.modulation channel value core)) in
  let pan := ChannelState.pan (channelState channel (SynthProcessorCore.setPan channel value core)) in
  let sensitivity := ChannelState.pitchBendSensitivity (channelState channel core) in
  let pitchBend :=
    ChannelState.pitchBend (channelState channel (SynthProcessorCore.pitchBend channel bend core)) in
  (0 <= volume <= 1)%Q /\ (0 <= expression <= 1)%Q /\ (0 <= modulation <= 1)%Q /\
  (-1 <= pan <= 1)%Q /\ ~ (pan == 0)%Q /\
  (value = 0 -> (pan == -1)%Q) /\ (value = 127 -> (pan == 1)%Q) /\
  ((0 <= sensitivity)%Q -> (- sensitivity <= pitchBend <= sensitivity)%Q) /\
  (bend = 0x2000 -> (pitchBend == 0)%Q).
Proof.
  intros Hvalue Hbend. cbv zeta.
  unfold SynthProcessorCore.setMainVolume, SynthProcessorCore.expression,
    SynthProcessorCore.modulation, SynthProcessorCore.setPan, SynthProcessorCore.pitchBend.
  rewrite !channelState_onChannelState.
  cbn [ChannelState.volume ChannelState.setVolume ChannelState.expression
       ChannelState.setExpression ChannelState.modulation ChannelState.setModulation
       ChannelState.pan ChannelState.setPan ChannelState.pitchBend ChannelState.setPitchBend].
  assert (Hq : (0 <= inject_Z value <= 127)%Q).
  { split; [change 0%Q with (inject_Z 0) | change 127%Q with (inject_Z 127)];
      rewrite <- Zle_Qle; lia. }
  assert (Hunit : (0 <= inject_Z value / 127 <= 1)%Q).
  { split; [apply Qle_shift_div_l | apply Qle_shift_div_r]; lra. }
  split; [exact Hunit |]. split; [exact Hunit |]. split; [exact Hunit |].
  split; [split; lra |]. split.
  { intros Hzero.
    assert (Hhalf : (inject_Z value * 2 == 127)%Q).
    { assert (H127 : (inject_Z value == (inject_Z value / 127) * 127)%Q) by (field; lra).
      lra. }
    unfold Qeq in Hhalf. simpl in Hhalf. lia. }
  split; [intros ->; reflexivity |]. split; [intros ->; reflexivity |].
  assert (Hb : (0 <= inject_Z bend <= 16383)%Q).
  { split; [change 0%Q with (inject_Z 0) | change 16383%Q with (inject_Z 16383)];
      rewrite <- Zle_Qle; lia. }
  change (inject_Z 8192) with 8192%Q.
  assert (Hscaled : (-1 <= inject_Z bend / 8192 - 1 <= 1)%Q).
  { assert (0 <= inject_Z bend / 8192 <= 2)%Q
      by (split; [apply Qle_shift_div_l | apply Qle_shift_div_r]; lra).
    split; lra. }
  split.
  - intros Hsens.
    set (s := ChannelState.pitchBendSensitivity (channelState channel core)) in *.
    set (x := (inject_Z bend / 8192 - 1)%Q) in *.
    assert (0 <= (x + 1) * s)%Q by (apply Qmult_le_0_compat; lra).
    assert (0 <= (1 - x) * s)%Q by (apply Qmult_le_0_compat; lra).
    split; lra.
  - intros ->.
    assert (Hzero : forall x y : Q, (x == 0)%Q -> (x * y == 0)%Q) by (intros x y ->; ring).
    apply Hzero. unfold Qeq. reflexivity.
Qed.

(** ** The core: process *)

Lemma processFrame_lengths (modulatedSpeed leftGain rightGain : Q) (i : nat)
    (osc : WavetableOscillator.t) (outputs : Outputs) :
  let outputs' :=
    snd (fst (WavetableOscillator.processFrame modulatedSpeed leftGain rightGain
                i osc outputs)) in
  length (fst outputs') = length (fst outputs) /\
  length (snd outputs') = length (snd outputs).
Proof.
  unfold WavetableOscillator.processFrame. cbv zeta.
  destruct (Qle_bool _ _); cbn [fst snd]; unfold addAt; by rewrite !length_alter.
Qed.

Lemma processFrames_lengths (modulatedSpeed leftGain rightGain : Q) (count : nat) :
  forall (i : nat) (osc : WavetableOscillator.t) (outputs : Outputs),
  let outputs' :=
    snd (WavetableOscillator.processFrames modulatedSpeed leftGain rightGain
           count i osc outputs) in
  length (fst outputs') = length (fst outputs) /\
  length (snd outputs') = length (snd outputs).
Proof.
  induction count as [| count IH]; intros i osc outputs; cbv zeta; [done |].
  cbn [WavetableOscillator.processFrames].
  pose proof (processFrame_lengths modulatedSpeed leftGain rightGain i osc outputs) as Hframe.
  cbv zeta in Hframe.
  destruct (WavetableOscillator.processFrame _ _ _ i osc outputs) as [[osc1 outputs1] continue].
  cbn [fst snd] in Hframe.
  destruct continue; [| done].
  specialize (IH (S i) osc1 outputs1). cbv zeta in IH. lia.
Qed.

Lemma keysInOrder_elem_of {V : Type} (m : gmap Z V) (key : Z) :
  key ∈ keysInOrder m <-> is_Some (m !! key).
Proof.
  unfold keysInOrder. rewrite merge_sort_Permutation.
  rewrite list_elem_of_fmap. split.
  - intros ([k v] & -> & Hin). apply elem_of_map_to_list in Hin. by eexists.
  - intros [v Hv]. exists (key, v). split; [done |]. by apply elem_of_map_to_list.
Qed.

Section CoreProcess.
Import SynthProcessorCore.
Context {M : MathOps}.
Variable host : Host.

(** The voices that the filter of [process] keeps. *)
Definition allPlaying (voices : list WavetableOscillator.t) : Prop :=
  Forall (fun osc => WavetableOscillator.isPlaying osc = true) voices.

Lemma renderVoices_playing state voices : forall dry kept dry',
  renderVoices host state voices dry = Ok (kept, dry') ->
  allPlaying kept /\
  length (fst dry') = length (fst dry) /\ length (snd dry') = length (snd dry).
Proof.
  induction voices as [| osc rest IH]; intros dry kept dry' Hrun; simpl in Hrun.
  - injection Hrun as <- <-. split; [constructor | done].
  - destruct (WavetableOscillator.process host _ dry) as [[rendered dry1] |] eqn:Hprocess;
      [| done].
    simpl in Hrun.
    destruct (renderVoices host state rest dry1) as [[kept' dry2] |] eqn:Hrest; [| done].
    simpl in Hrun. injection Hrun as <- <-.
    destruct (IH dry1 kept' dry2 Hrest) as (Hkept & Hl & Hr).
    assert (Hlen : length (fst dry1) = length (fst dry) /\ length (snd dry1) = length (snd dry)).
    { unfold WavetableOscillator.process in Hprocess.
      destruct (negb _); [by injection Hprocess as <- <- |].
      destruct (AmplitudeEnvelope.getAmplitude _ _ _) as [[env gain] |]; [| done].
      destruct (LFO.getValue _ _) as [lfo value].
      cbn in Hprocess.
      lazymatch type of Hprocess with
      | context [WavetableOscillator.processFrames ?s ?l ?r ?n ?i ?o ?d] =>
          pose proof (processFrames_lengths s l r n i o d) as Hlen;
          destruct (WavetableOscillator.processFrames s l r n i o d) as [osc2 outputs2]
      end.
      injection Hprocess as <- <-. exact Hlen. }
    split; [| lia].
    destruct (WavetableOscillator.isPlaying rendered) eqn:Hplaying; [| done].
    by constructor.
Qed.

End CoreProcess.

Section CoreProcessLoops.
Import SynthProcessorCore.
Context {M : MathOps}.
Variable host : Host.

(** The voices that the channel state holds for the key are all playing. *)
Definition keyPlaying (key : Z) (state : ChannelState.t) : Prop :=
  forall voices, ChannelState.oscillators state !! key = Some voices -> allPlaying voices.

(** The dry buffers keep their lengths. *)
Definition dryLengths (dry dry' : Outputs) : Prop :=
  length (fst dry') = length (fst dry) /\ length (snd dry') = length (snd dry).

Lemma renderKey_spec state dry key state' dry' :
  renderKey host (state, dry) key = Ok (state', dry') ->
  keyPlaying key state' /\
  (forall other, other <> key ->
     ChannelState.oscillators state' !! other = ChannelState.oscillators state !! other) /\
  (forall other, keyPlaying other state -> keyPlaying other state') /\
  (forall other, is_Some (ChannelState.oscillators state' !! other) ->
     is_Some (ChannelState.oscillators state !! other)) /\
  dryLengths dry dry'.
Proof.
  unfold renderKey, keyPlaying.
  destruct (ChannelState.oscillators state !! key) as [voices |] eqn:Hkey.
  - destruct (renderVoices host state voices dry) as [[kept dry1] |] eqn:Hrun; [| done].
    intros [= <- <-].
    destruct (renderVoices_playing host state voices dry kept dry1 Hrun) as (Hkept & Hlen).
    cbn [ChannelState.oscillators ChannelState.setOscillators].
    split; [| split; [| split; [| split]]].
    + intros voices'. rewrite lookup_insert_eq. by intros [= <-].
    + intros other Hother. by rewrite lookup_insert_ne.
    + intros other Hplaying voices'.
      destruct (decide (other = key)) as [-> | Hother].
      * rewrite lookup_insert_eq. by intros [= <-].
      * rewrite lookup_insert_ne; [apply Hplaying | done].
    + intros other.
      destruct (decide (other = key)) as [-> | Hother].
      * by rewrite Hkey.
      * by rewrite lookup_insert_ne.
    + exact Hlen.
  - intros [= <- <-]. rewrite Hkey. by repeat split.
Qed.

Lemma renderKeys_spec keys : forall state dry state' dry',
  forEachResult (renderKey host) keys (state, dry) = Ok (state', dry') ->
  (forall key, key ∈ keys -> keyPlaying key state') /\
  (forall key, keyPlaying key state -> keyPlaying key state') /\
  (forall key, is_Some (ChannelState.oscillators state' !! key) ->
     is_Some (ChannelState.oscillators state !! key)) /\
  dryLengths dry dry'.
Proof.
  induction keys as [| key rest IH]; intros state dry state' dry' Hrun;
    cbn [forEachResult] in Hrun.
  - injection Hrun as <- <-. split; [by intros key Hin; apply elem_of_nil in Hin |].
    by repeat split.
  - destruct (renderKey host (state, dry) key) as [[state1 dry1] |] eqn:Hstep; [| done].
    simpl in Hrun.
    destruct (renderKey_spec _ _ _ _ _ Hstep) as (Hkey & _ & Hkeeps & Hdom & Hlen).
    destruct (IH _ _ _ _ Hrun) as (Hrest & Hkeeps' & Hdom' & Hlen').
    split; [| split; [| split]].
    + intros key' Hin. apply elem_of_cons in Hin as [-> | Hin]; [exact (Hkeeps' _ Hkey) | exact (Hrest _ Hin)].
    + intros key' Hplaying. exact (Hkeeps' _ (Hkeeps _ Hplaying)).
    + intros key' Hsome. exact (Hdom _ (Hdom' _ Hsome)).
    + unfold dryLengths in *. lia.
Qed.

(** The voices of the channel are all playing, at every key. *)
Definition channelPlaying (channel : Z) (chs : gmap Z ChannelState.t) : Prop :=
  forall state key, chs !! channel = Some state -> keyPlaying key state.

Lemma renderChannel_spec chs dry channel chs' dry' :
  renderChannel host (chs, dry) channel = Ok (chs', dry') ->
  channelPlaying channel chs' /\
  (forall other, channelPlaying other chs -> channelPlaying other chs') /\
  (forall other, is_Some (chs' !! other) -> is_Some (chs !! other)) /\
  dryLengths dry dry'.
Proof.
  unfold renderChannel, channelPlaying.
  destruct (chs !! channel) as [state |] eqn:Hchannel.
  - destruct (forEachResult _ _ _) as [[state1 dry1] |] eqn:Hrun; [| done].
    intros [= <- <-].
    destruct (renderKeys_spec _ _ _ _ _ Hrun) as (Hkeys & _ & Hdom & Hlen).
    assert (Hall : forall key, keyPlaying key state1).
    { intros key voices Hvoices.
      apply (Hkeys key); [| done].
      apply keysInOrder_elem_of, Hdom. by eexists. }
    split; [| split; [| split]].
    + intros state' key. rewrite lookup_insert_eq. intros [= <-]. apply Hall.
    + intros other Hplaying state' key.
      destruct (decide (other = channel)) as [-> | Hother].
      * rewrite lookup_insert_eq. intros [= <-]. apply Hall.
      * rewrite lookup_insert_ne; [apply Hplaying | done].
    + intros other.
      destruct (decide (other = channel)) as [-> | Hother].
      * by rewrite Hchannel.
      * by rewrite lookup_insert_ne.
    + exact Hlen.
  - intros [= <- <-]. rewrite Hchannel. by repeat split.
Qed.

Lemma renderChannels_spec channels : forall chs dry chs' dry',
  forEachResult (renderChannel host) channels (chs, dry) = Ok (chs', dry') ->
  (forall channel, channel ∈ channels -> channelPlaying channel chs') /\
  (forall channel, channelPlaying channel chs -> channelPlaying channel chs') /\
  (forall channel, is_Some (chs' !! channel) -> is_Some (chs !! channel)) /\
  dryLengths dry dry'.
Proof.
  induction channels as [| channel rest IH]; intros chs dry chs' dry' Hrun;
    cbn [forEachResult] in Hrun.
  - injection Hrun as <- <-. split; [by intros channel Hin; apply elem_of_nil in Hin |].
    by repeat split.
  - destruct (renderChannel host (chs, dry) channel) as [[chs1 dry1] |] eqn:Hstep; [| done].
    simpl in Hrun.
    destruct (renderChannel_spec _ _ _ _ _ Hstep) as (Hchannel & Hkeeps & Hdom & Hlen).
    destruct (IH _ _ _ _ Hrun) as (Hrest & Hkeeps' & Hdom' & Hlen').
    split; [| split; [| split]].
    + intros channel' Hin.
      apply elem_of_cons in Hin as [-> | Hin]; [exact (Hkeeps' _ Hchannel) | exact (Hrest _ Hin)].
    + intros channel' Hplaying. exact (Hkeeps' _ (Hkeeps _ Hplaying)).
    + intros channel' Hsome. exact (Hdom _ (Hdom' _ Hsome)).
    + unfold dryLengths in *. lia.
Qed.

End CoreProcessLoops.

(** X30.  When [process] returns, it leaves playing voices only, in every
    channel and at every key, whatever the scheduled events of the call
    started or stopped: a voice that is not playing after its own
    [process] is dropped from the list of its key.  The output buffers keep
    their lengths. *)
Theorem process_drops_finished_voices {M : MathOps} (host : Host) (currentFrame : Z)
    (outputs outputs' : Outputs) (core core' : SynthProcessorCore.t) :
  SynthProcessorCore.process host currentFrame outputs core = Ok (core', outputs') ->
  (forall channel key,
     Forall (fun osc => WavetableOscillator.isPlaying osc = true)
       (voicesOf channel key core')) /\
  length (fst outputs') = length (fst outputs) /\
  length (snd outputs') = length (snd outputs).
Proof.
  unfold SynthProcessorCore.process.
  set (core1 := fst (SynthProcessorCore.processScheduledEvents currentFrame core)).
  destruct (forEachResult _ _ _) as [[chs dry] |] eqn:Hrun; [| done].
  cbn.
  destruct (ReverbProcessor.process _ _ _ _) as [reverb outputs1] eqn:Hreverb.
  intros [= <- <-].
  split.
  - destruct (renderChannels_spec host _ _ _ _ _ Hrun) as (Hchannels & _ & Hdom & _).
    intros channel key. unfold voicesOf, channelState.
    cbn [SynthProcessorCore.channels SynthProcessorCore.setReverbProcessor
         SynthProcessorCore.setChannels].
    destruct (chs !! channel) as [state |] eqn:Hchannel; cbn [default from_option id].
    + destruct (ChannelState.oscillators state !! key) as [voices |] eqn:Hkey;
        cbn [default from_option id]; [| constructor].
      apply (Hchannels channel) with (state := state) (key := key); [| done | done].
      apply keysInOrder_elem_of, Hdom. by eexists.
    + unfold ChannelState.initialChannelState. cbn [ChannelState.oscillators].
      rewrite lookup_empty. constructor.
  - destruct (renderChannels_spec host _ _ _ _ _ Hrun) as (_ & _ & _ & Hl & Hr).
    cbn [fst snd] in Hl, Hr. rewrite !length_replicate in Hl, Hr.
    pose proof (process_prefix (fst dry) (snd dry)
                  (SynthProcessorCore.reverbProcessor core1) outputs (length (fst dry)))
      as Hprefix.
    cbv zeta in Hprefix. unfold ReverbProcessor.process in Hreverb.
    rewrite Hreverb in Hprefix. cbn [fst snd] in Hprefix.
    destruct Hprefix as (_ & _ & Hl' & Hr' & _). done.
Qed.

(** * The theorems at concrete inputs *)

(** A [Math] that computes, for the examples: crude values only. *)
Definition exampleMath : MathOps :=
  {| Math_pow := fun _ _ => 1%Q;
     Math_log10 := fun _ => 0%Q;
     Math_sin := fun _ => 0%Q;
     Math_cos := fun _ => 1%Q;
     Math_PI := (355 # 113)%Q |}.

Lemma reverb_amount_zero_is_dry_witness :
  let r := ReverbProcessor.new 1000 in
  let leftInput := [1 # 2; 1 # 4]%Q in
  let rightInput := [- (1 # 2); 0]%Q in
  let outputs : Outputs := ([7; 7]%Q, [7; 7]%Q) in
  length rightInput = length leftInput /\
  length (fst outputs) = length leftInput /\
  length (snd outputs) = length leftInput /\
  Forall2 Qeq
    (fst (snd (ReverbProcessor.process (ReverbProcessor.setReverb 0 r)
                 leftInput rightInput outputs)))
    leftInput.
Proof.
  intros r leftInput rightInput outputs.
  split; [reflexivity |]. split; [reflexivity |]. split; [reflexivity |].
  apply (reverb_amount_zero_is_dry r leftInput rightInput outputs); reflexivity.
Defined.

Definition exampleCalls : list (Z * SchedulerCall) :=
  [ (0, CallAddEvent (MIDIEvent (ChannelEvent 0 (NoteOn 60 100)) 20 0));
    (0, CallAddEvent (MIDIEvent (ChannelEvent 0 (NoteOn 61 100)) 10 1));
    (0, CallAddEvent (MIDIEvent (ChannelEvent 1 (NoteOn 62 100)) 10 2));
    (0, CallProcessScheduledEvents);
    (10, CallProcessScheduledEvents);
    (40, CallProcessScheduledEvents) ].

Definition scheduledAt (m : AnyEvent) (d n frame : Z) : SynthEventScheduler.ScheduledEvent :=
  {| SynthEventScheduler.midi := m; SynthEventScheduler.delayTime := d;
     SynthEventScheduler.sequenceNumber := n; SynthEventScheduler.scheduledFrame := frame |}.

Lemma scheduler_dispatch_order_witness :
  let core := SynthProcessorCore.new 100 in
  let late := scheduledAt (ChannelEvent 0 (NoteOn 60 100)) 20 0 20 in
  let early := scheduledAt (ChannelEvent 0 (NoteOn 61 100)) 10 1 10 in
  let log := dispatchLog (M := exampleMath) exampleCalls core in
  SynthProcessorCore.eventScheduler core = SynthEventScheduler.empty /\
  StronglySorted Z.le (map fst exampleCalls) /\
  log = [early; scheduledAt (ChannelEvent 1 (NoteOn 62 100)) 10 2 10; late] /\
  forall i j, log !! i = Some early -> log !! j = Some late -> (i < j)%nat.
Proof.
  intros core late early log.
  assert (Hframes : StronglySorted Z.le (map fst exampleCalls)).
  { apply (bool_decide_unpack _). vm_compute. reflexivity. }
  split; [reflexivity |]. split; [exact Hframes |]. split; [vm_compute; reflexivity |].
  apply (proj1 (scheduler_dispatch_order (M := exampleMath) exampleCalls core
                  eq_refl Hframes) early late).
  - reflexivity.
  - simpl. lia.
Defined.

Definition exampleData : list Q := [1 # 2; 1 # 4; 1 # 8; 1 # 16]%Q.

(** A core with two samples of the exclusive class 1 on the keys 60 and 61
    of instrument 0. *)
Definition exampleCore : SynthProcessorCore.t :=
  SynthProcessorCore.addSampleParameter (exampleParameter 8 (Some 1)) (exampleRange 0 60 60)
    (SynthProcessorCore.addSampleParameter (exampleParameter 7 (Some 1)) (exampleRange 0 60 61)
       (SynthProcessorCore.addSample exampleData 8
          (SynthProcessorCore.addSample exampleData 7 (SynthProcessorCore.new 100)))).

(** The same core with one voice sounding on the key 61. *)
Definition ringingCore : SynthProcessorCore.t :=
  SynthProcessorCore.noteOn (M := exampleMath) 0 61 100 exampleCore.

Definition exampleSample (id : Z) : Sample :=
  {| registered := {| parameter := exampleParameter id (Some 1);
                      registeredVelRange := (0, 127) |};
     buffer := exampleData |}.

Lemma noteOn_steals_exclusive_class_witness :
  let state :=
    default ChannelState.initialChannelState (SynthProcessorCore.channels ringingCore !! 0) in
  SynthProcessorCore.channels ringingCore !! 0 = Some state /\
  exists state' voices' osc',
    SynthProcessorCore.channels (SynthProcessorCore.noteOn (M := exampleMath) 0 60 90 ringingCore)
      !! 0 = Some state' /\
    ChannelState.oscillators state' !! 61 = Some voices' /\
    voices' !! 0%nat = Some osc' /\
    AmplitudeEnvelope.phase (WavetableOscillator.envelope osc') = EnvelopePhase.forceStop.
Proof.
  intros state.
  assert (Hstate : SynthProcessorCore.channels ringingCore !! 0 = Some state)
    by (vm_compute; reflexivity).
  split; [exact Hstate |].
  destruct (noteOn_steals_exclusive_class (M := exampleMath) ringingCore 0 60 90 state Hstate)
    as (state' & Hstate' & Hvoices).
  destruct (Hvoices 61 [createdVoice (M := exampleMath) 100 61 100 (exampleSample 7)] 0%nat
              (createdVoice (M := exampleMath) 100 61 100 (exampleSample 7)))
    as (voices' & osc' & Hkey & Hosc & Hstolen & _).
  - vm_compute. reflexivity.
  - reflexivity.
  - exists state', voices', osc'.
    split; [exact Hstate' |]. split; [exact Hkey |]. split; [exact Hosc |].
    apply (Hstolen (exampleSample 7) 1).
    + vm_compute. apply list_elem_of_here.
    + reflexivity.
    + reflexivity.
Defined.

Lemma noteOn_appends_after_sweep_witness :
  let samples := fst (SynthProcessorCore.getSamples 0 60 90 exampleCore) in
  samples <> [] /\
  exists state',
    SynthProcessorCore.channels (SynthProcessorCore.noteOn (M := exampleMath) 0 60 90 exampleCore)
      !! 0 = Some state' /\
    ChannelState.oscillators state' !! 60
    = Some [ WavetableOscillator.forceStop
               (createdVoice (M := exampleMath) 100 60 90 (exampleSample 7));
             createdVoice (M := exampleMath) 100 60 90 (exampleSample 8) ].
Proof.
  intros samples.
  assert (Hsome : samples <> []) by (vm_compute; discriminate).
  split; [exact Hsome |].
  destruct (noteOn_appends_after_sweep (M := exampleMath) exampleCore 0 60 90 Hsome)
    as (state' & Hstate' & Hkey & _).
  exists state'. split; [exact Hstate' |].
  rewrite Hkey. vm_compute. reflexivity.
Defined.

Definition sustainedEnvelope : AmplitudeEnvelope.t :=
  {| AmplitudeEnvelope.parameter := exampleEnvelope;
     AmplitudeEnvelope._phase := EnvelopePhase.sustain;
     AmplitudeEnvelope.isNoteOff := false;
     AmplitudeEnvelope.phaseTime := 0;
     AmplitudeEnvelope.decayLevel := 1 # 2;
     AmplitudeEnvelope.lastAmplitude := 1;
     AmplitudeEnvelope.sampleRate := 44100 |}.

Lemma forceStop_reaches_zero_without_rounding_witness :
  hostSampleRate (audioWorkletScope 44100) = Some 44100%Q /\
  (0 < AmplitudeEnvelope.sampleRate sustainedEnvelope)%Q /\
  0 < 441 /\
  (AmplitudeEnvelope.lastAmplitude sustainedEnvelope <= 1)%Q /\
  exists env' values,
    getAmplitudes (M := exampleMath) (audioWorkletScope 44100) 441 10
      (AmplitudeEnvelope.forceStop sustainedEnvelope) = Ok (env', values) /\
    length values = 10%nat /\
    values !! 9%nat = Some 0%Q /\
    AmplitudeEnvelope.phase env' = EnvelopePhase.stopped.
Proof.
  assert (Hrate : (0 < AmplitudeEnvelope.sampleRate sustainedEnvelope)%Q) by reflexivity.
  assert (Hlast : (AmplitudeEnvelope.lastAmplitude sustainedEnvelope <= 1)%Q)
    by (vm_compute; discriminate).
  split; [reflexivity |]. split; [exact Hrate |]. split; [lia |]. split; [exact Hlast |].
  destruct (forceStop_reaches_zero_without_rounding (M := exampleMath)
              (audioWorkletScope 44100) 44100
              sustainedEnvelope 441 eq_refl Hrate ltac:(lia) Hlast 10)
    as (env' & values & Hrun & Hlen & _ & _ & Hzero & Hstopped).
  exists env', values. split; [exact Hrun |]. split; [exact Hlen |]. split.
  - destruct (values !! 9%nat) as [x |] eqn:Hx.
    + f_equal. apply (Hzero 9%nat x); [vm_compute; lia | exact Hx].
    + apply lookup_ge_None in Hx. lia.
  - apply Hstopped. vm_compute. lia.
Defined.

Section ForceStopRoundedExample.
Import PrimFloat.

Lemma forceStop_reaches_zero_in_binary64_witness :
  let host := Binary64.audioWorkletScope 44100%float in
  Binary64.hostSampleRate host = Some 44100%float /\
  PrimFloat.leb 1%float (Binary64.AmplitudeEnvelope.sampleRate heldEnvelope) = true /\
  PrimFloat.leb (Binary64.AmplitudeEnvelope.sampleRate heldEnvelope) 1048576%float = true /\
  PrimFloat.leb 1%float 441%float = true /\
  PrimFloat.leb 441%float 1048576%float = true /\
  PrimFloat.leb (Binary64.AmplitudeEnvelope.lastAmplitude heldEnvelope) 1%float = true /\
  Z.to_nat (Qceiling (forceStopReleaseTime
                      * Float64.valueOf (Binary64.AmplitudeEnvelope.sampleRate heldEnvelope)
                      / Float64.valueOf 441%float)) = 10%nat /\
  exists env' values,
    Binary64.getAmplitudes (M := exampleMath64) host 441%float 11
      (Binary64.AmplitudeEnvelope.forceStop heldEnvelope) = Ok (env', values) /\
    length values = 11%nat /\
    (forall x, values !! 10%nat = Some x -> x = 0%float) /\
    Binary64.AmplitudeEnvelope.phase env' = EnvelopePhase.stopped.
Proof.
  intros host.
  assert (Hbudget : Z.to_nat (Qceiling (forceStopReleaseTime
                      * Float64.valueOf (Binary64.AmplitudeEnvelope.sampleRate heldEnvelope)
                      / Float64.valueOf 441%float)) = 10%nat) by (vm_compute; reflexivity).
  repeat (split; [vm_compute; reflexivity |]).
  destruct (forceStop_reaches_zero_in_binary64 (M := exampleMath64) host 44100%float
              heldEnvelope 441%float) with (n := 11%nat)
    as (env' & values & Hrun & Hlen & _ & _ & Hzero & Hstopped);
    try (vm_compute; reflexivity).
  rewrite Hbudget in Hzero, Hstopped.
  exists env', values. split; [exact Hrun |]. split; [exact Hlen |].
  split; [| apply Hstopped; lia].
  intros x Hx. apply (Hzero 10%nat x); [lia | exact Hx].
Defined.

End ForceStopRoundedExample.

(** A voice on a sample of four frames with the loop [1, 3), its pointer at
    5/2. *)
Definition loopingVoice (type : LoopType) : WavetableOscillator.t :=
  WavetableOscillator.setPointer (5 # 2) true
    (WavetableOscillator.noteOn (M := exampleMath) 60 1
       (WavetableOscillator.new
          {| registered :=
               {| parameter :=
                    {| SampleParameter.sampleID := 7;
                       SampleParameter.pitch := 60;
                       SampleParameter.loop :=
                         {| loop_type := type; loop_start := 1; loop_end := 3 |};
                       SampleParameter.sampleStart := 0;
                       SampleParameter.sampleEnd := 4;
                       SampleParameter.sampleRate := 100;
                       SampleParameter.amplitudeEnvelope := exampleEnvelope;
                       SampleParameter.scaleTuning := 1;
                       SampleParameter.pan := 0;
                       SampleParameter.exclusiveClass := None;
                       SampleParameter.volume := 1 |};
                  registeredVelRange := (0, 127) |};
             buffer := exampleData |} 100)).

Lemma loop_wraps_until_note_off_witness :
  let silence : Outputs := ([0; 0; 0; 0]%Q, [0; 0; 0; 0]%Q) in
  let looping := loopingVoice loop_continuous in
  let host := audioWorkletScope 100 in
  hostSampleRate host = Some 100%Q /\
  WavetableOscillator._isPlaying looping = true /\
  ~ (WavetableOscillator.sampleRate looping == 0)%Q /\
  exists osc' outputs',
    WavetableOscillator.process (M := exampleMath) host looping silence = Ok (osc', outputs') /\
    WavetableOscillator._isPlaying osc' = true.
Proof.
  intros silence looping host.
  assert (Hrate : ~ (WavetableOscillator.sampleRate looping == 0)%Q)
    by (vm_compute; discriminate).
  split; [reflexivity |]. split; [reflexivity |]. split; [exact Hrate |].
  destruct (loop_wraps_until_note_off (M := exampleMath) host 100 looping silence
              eq_refl eq_refl Hrate)
    as (leftGain & rightGain & started & Hrun & _ & _ & _ & _ & Hwrap & _).
  destruct (Hwrap (or_introl eq_refl) ltac:(vm_compute; split; discriminate) 3%nat
              ltac:(simpl; lia)) as [Hplaying _].
  change (length (fst silence)) with 4%nat in Hrun.
  destruct (WavetableOscillator.processFrames _ _ _ 4 0 started silence) as [osc' outputs'].
  exists osc', outputs'. split; [exact Hrun | exact Hplaying].
Defined.

Definition exampleScheduler : SynthEventScheduler.t :=
  {| SynthEventScheduler.scheduledEvents :=
       [ scheduledAt (ChannelEvent 0 (NoteOn 60 100)) 10 0 10;
         scheduledAt (ChannelEvent 1 (NoteOn 62 100)) 10 1 10;
         scheduledAt NonChannelEvent 20 2 20;
         scheduledAt (ChannelEvent 0 (NoteOff 60 0)) 30 3 30 ];
     SynthEventScheduler.scheduledReverbEvents :=
       [ {| SynthEventScheduler.amount := 1 # 2;
            SynthEventScheduler.reverbDelayTime := 5;
            SynthEventScheduler.reverbScheduledFrame := 5 |} ];
     SynthEventScheduler.currentEvents :=
       [ scheduledAt (ChannelEvent 0 (PitchBend 0)) 0 4 0;
         scheduledAt (ChannelEvent 2 (PitchBend 0)) 0 5 0 ];
     SynthEventScheduler.currentReverbEvents := [] |}.

Lemma removeScheduledEvents_only_that_channel_witness :
  let after := SynthEventScheduler.removeScheduledEvents 0 exampleScheduler in
  (forall e, SynthEventScheduler.onOtherChannel 0 e = true ->
             channelOf (SynthEventScheduler.midi e) <> Some 0) /\
  List.filter (SynthEventScheduler.onOtherChannel 0) (SynthEventScheduler.scheduledEvents after)
  = [ scheduledAt (ChannelEvent 1 (NoteOn 62 100)) 10 1 10;
      scheduledAt NonChannelEvent 20 2 20 ] /\
  SynthEventScheduler.scheduledReverbEvents after
  = SynthEventScheduler.scheduledReverbEvents exampleScheduler.
Proof.
  intros after.
  assert (Hkeep : forall e, SynthEventScheduler.onOtherChannel 0 e = true ->
                            channelOf (SynthEventScheduler.midi e) <> Some 0).
  { intros e He. apply onOtherChannel_spec. exact He. }
  destruct (removeScheduledEvents_only_that_channel 0 exampleScheduler)
    as (_ & Hothers & _ & _ & Hreverb & _).
  destruct (Hothers (SynthEventScheduler.onOtherChannel 0) Hkeep) as [Hscheduled _].
  split; [exact Hkeep |]. split; [| exact Hreverb].
  fold after in Hscheduled. rewrite Hscheduled. reflexivity.
Defined.

(** ** The further properties *)

Lemma getSongLength_covers_every_delay_witness :
  let noteOff := MIDIEvent (ChannelEvent 0 (NoteOff 60 0)) 1200 1 in
  let events := [MIDIEvent (ChannelEvent 0 (NoteOn 60 100)) 0 0; noteOff] in
  0 < 500 /\ noteOff ∈ events /\
  1200 <= getSongLength events /\
  1200 <= Qceiling (inject_Z (getSongLength events) / inject_Z 500) * 500.
Proof.
  intros noteOff events.
  assert (Hin : noteOff ∈ events) by (right; left).
  split; [lia |]. split; [exact Hin |].
  exact (proj2 (getSongLength_covers_every_delay events 500
                  (ChannelEvent 0 (NoteOff 60 0)) 1200 1 ltac:(lia) Hin)).
Defined.

Lemma insertSorted_goes_before_equal_keys_witness :
  let arr := [(1, 0); (3, 1); (3, 2); (5, 3)] in
  sortedBy fst arr /\
  exists k : nat,
    insertSorted fst arr (3, 4) = take k arr ++ (3, 4) :: drop k arr /\
    Forall (fun x => fst x < 3) (take k arr) /\
    Forall (fun x => 3 <= fst x) (drop k arr).
Proof.
  intros arr.
  assert (Hsorted : sortedBy fst arr).
  { unfold sortedBy, arr. repeat (constructor; simpl); lia. }
  split; [exact Hsorted |].
  destruct (insertSorted_goes_before_equal_keys fst arr (3, 4) Hsorted)
    as (k & _ & Hinsert & Hbefore & Hafter & _).
  exists k. split; [exact Hinsert |]. split; [exact Hbefore | exact Hafter].
Defined.

Lemma scheduler_dispatches_only_submitted_witness :
  let core := SynthProcessorCore.new 100 in
  SynthProcessorCore.eventScheduler core = SynthEventScheduler.empty /\
  dispatchLog (M := exampleMath) exampleCalls core
    ++ pendingEvents (M := exampleMath) exampleCalls core
  ⊆+ submittedEvents exampleCalls.
Proof.
  intros core. split; [reflexivity |].
  apply (scheduler_dispatches_only_submitted (M := exampleMath) exampleCalls core).
  reflexivity.
Defined.

Lemma scheduler_loses_no_event_witness :
  let core := SynthProcessorCore.new 100 in
  SynthProcessorCore.eventScheduler core = SynthEventScheduler.empty /\
  Forall (fun e => isAllSoundsOff (SynthEventScheduler.midi e) = false)
    (submittedEvents exampleCalls) /\
  dispatchLog (M := exampleMath) exampleCalls core
    ++ pendingEvents (M := exampleMath) exampleCalls core
  ≡ₚ submittedEvents exampleCalls.
Proof.
  intros core.
  assert (Hquiet : Forall (fun e => isAllSoundsOff (SynthEventScheduler.midi e) = false)
                     (submittedEvents exampleCalls)).
  { vm_compute. repeat constructor. }
  split; [reflexivity |]. split; [exact Hquiet |].
  exact (proj1 (scheduler_loses_no_event (M := exampleMath) exampleCalls core eq_refl Hquiet)).
Defined.

Lemma scheduler_never_dispatches_early_witness :
  let core := SynthProcessorCore.new 100 in
  let late := MIDIEvent (ChannelEvent 0 (NoteOff 60 0)) 0 3 in
  SynthProcessorCore.eventScheduler core = SynthEventScheduler.empty /\
  dispatchLog (M := exampleMath) (exampleCalls ++ [(50, CallAddEvent late)]) core
  = dispatchLog (M := exampleMath) exampleCalls core.
Proof.
  intros core late. split; [reflexivity |].
  exact (proj1 (scheduler_never_dispatches_early (M := exampleMath) exampleCalls 50 core
                  eq_refl) late).
Defined.

Lemma reverb_events_of_one_frame_apply_in_reverse_witness :
  let core := SynthProcessorCore.new 100 in
  let submitted :=
    SynthProcessorCore.addEvent 5 (ReverbControlEvent (3 # 4) 5)
      (SynthProcessorCore.addEvent 0 (ReverbControlEvent (1 # 4) 10) core) in
  let processed :=
    fst (SynthProcessorCore.processScheduledEvents (M := exampleMath) 10 submitted) in
  SynthEventScheduler.scheduledReverbEvents (SynthProcessorCore.eventScheduler core) = [] /\
  0 < 10 /\ 0 < 5 /\ 0 + 10 = 5 + 5 /\ 0 + 10 <= 10 /\
  ReverbProcessor.wetLevel (SynthProcessorCore.reverbProcessor processed)
  = Qmax 0 (Qmin 1 (1 # 4)).
Proof.
  intros core submitted processed.
  split; [reflexivity |]. split; [lia |]. split; [lia |]. split; [lia |]. split; [lia |].
  exact (proj1 (proj2 (reverb_events_of_one_frame_apply_in_reverse (M := exampleMath)
                         core 0 10 5 5 10 (1 # 4) (3 # 4)
                         eq_refl ltac:(lia) ltac:(lia) ltac:(lia) ltac:(lia)))).
Defined.

Lemma scheduler_queues_stay_sorted_witness :
  let core := SynthProcessorCore.new 100 in
  let s := SynthProcessorCore.eventScheduler
             (fst (runCore (M := exampleMath) (firstn 4 exampleCalls) core)) in
  SynthProcessorCore.eventScheduler core = SynthEventScheduler.empty /\
  SynthEventScheduler.currentEvents s = [] /\
  sortedBy SynthEventScheduler.scheduledFrame (SynthEventScheduler.scheduledEvents s).
Proof.
  intros core s. split; [reflexivity |].
  destruct (scheduler_queues_stay_sorted (M := exampleMath) (firstn 4 exampleCalls) core eq_refl)
    as (Hcurrent & _ & Hsorted & _).
  split; [exact Hcurrent | exact Hsorted].
Defined.

Lemma reverb_process_overwrites_outputs_witness :
  let r := ReverbProcessor.new 1000 in
  let leftInput := [1 # 2; 1 # 4]%Q in
  let rightInput := [- (1 # 2); 0]%Q in
  let outputs1 : Outputs := ([7; 7]%Q, [7; 7]%Q) in
  let outputs2 : Outputs := ([0; 0]%Q, [0; 0]%Q) in
  delayLinesReady r /\
  length rightInput = length leftInput /\
  length (fst outputs1) = length (fst outputs2) /\
  length (snd outputs1) = length (snd outputs2) /\
  (length (fst outputs1) <= length leftInput)%nat /\
  (length (snd outputs1) <= length leftInput)%nat /\
  ReverbProcessor.process r leftInput rightInput outputs1
  = ReverbProcessor.process r leftInput rightInput outputs2.
Proof.
  intros r leftInput rightInput outputs1 outputs2.
  assert (Hready : delayLinesReady r)
    by (apply new_delayLinesReady; vm_compute; discriminate).
  split; [exact Hready |]. split; [reflexivity |].
  split; [reflexivity |]. split; [reflexivity |].
  split; [simpl; lia |]. split; [simpl; lia |].
  exact (proj1 (reverb_process_overwrites_outputs r leftInput rightInput outputs1 outputs2
                  Hready eq_refl eq_refl eq_refl ltac:(simpl; lia) ltac:(simpl; lia))).
Defined.

Definition stoppedEnvelope : AmplitudeEnvelope.t :=
  {| AmplitudeEnvelope.parameter := exampleEnvelope;
     AmplitudeEnvelope._phase := EnvelopePhase.stopped;
     AmplitudeEnvelope.isNoteOff := true;
     AmplitudeEnvelope.phaseTime := 0;
     AmplitudeEnvelope.decayLevel := 1 # 2;
     AmplitudeEnvelope.lastAmplitude := 1 # 4;
     AmplitudeEnvelope.sampleRate := 44100 |}.

Lemma stopped_envelope_stays_silent_witness :
  hostSampleRate (audioWorkletScope 44100) = Some 44100%Q /\
  AmplitudeEnvelope.phase stoppedEnvelope = EnvelopePhase.stopped /\
  exists env',
    getAmplitudes (M := exampleMath) (audioWorkletScope 44100) 441 3 stoppedEnvelope
    = Ok (env', [0; 0; 0]%Q) /\
    AmplitudeEnvelope.isPlaying env' = false.
Proof.
  split; [reflexivity |]. split; [reflexivity |].
  destruct (stopped_envelope_stays_silent (M := exampleMath) (audioWorkletScope 44100) 44100
              441 3 stoppedEnvelope eq_refl eq_refl)
    as (env' & Hrun & _ & Hplaying).
  exists env'. split; [exact Hrun | exact Hplaying].
Defined.

Lemma looping_voice_plays_on_witness :
  let silence : Outputs := ([0; 0; 0; 0]%Q, [0; 0; 0; 0]%Q) in
  let looping := loopingVoice loop_continuous in
  loop_type (loopOf looping) = loop_continuous /\
  loop_start (loopOf looping) + 1 <= loop_end (loopOf looping)
    <= SampleParameter.sampleEnd (sampleParameter (WavetableOscillator.sample looping)) /\
  WavetableOscillator._isPlaying
    (fst (WavetableOscillator.processFrames (3 # 4) 1 1 4 0 looping silence)) = true.
Proof.
  intros silence looping.
  assert (Hloop : loop_start (loopOf looping) + 1 <= loop_end (loopOf looping)
                    <= SampleParameter.sampleEnd
                         (sampleParameter (WavetableOscillator.sample looping))).
  { vm_compute. split; discriminate. }
  split; [reflexivity |]. split; [exact Hloop |].
  exact (proj1 (looping_voice_plays_on (3 # 4) 1 1 4 0 looping silence
                  (or_introl eq_refl) Hloop)).
Defined.

Lemma one_shot_sample_plays_to_its_end_witness :
  let silence : Outputs := ([0; 0; 0; 0]%Q, [0; 0; 0; 0]%Q) in
  let voice := loopingVoice no_loop in
  loop_type (loopOf voice) = no_loop /\ (0 < 4)%nat /\
  WavetableOscillator._isPlaying
    (fst (WavetableOscillator.processFrames (3 # 4) 1 1 4 0 voice silence)) = false.
Proof.
  intros silence voice.
  split; [reflexivity |]. split; [lia |].
  destruct (one_shot_sample_plays_to_its_end (3 # 4) 1 1 4 0 voice silence
              eq_refl ltac:(lia))
    as (k & _ & _ & _ & _ & Hend).
  apply Hend. vm_compute. discriminate.
Defined.

Lemma sustain_pedal_defers_note_off_witness :
  let pedalDown := SynthProcessorCore.hold 0 127 ringingCore in
  let keyUp := SynthProcessorCore.noteOff 0 61 pedalDown in
  let pedalUp := SynthProcessorCore.hold 0 0 keyUp in
  64 <= 127 /\ 0 < 64 /\
  Forall (fun osc => WavetableOscillator.isNoteOff osc = false) (voicesOf 0 61 ringingCore) /\
  voicesOf 0 61 keyUp = map (WavetableOscillator.setIsHold true) (voicesOf 0 61 ringingCore) /\
  voicesOf 0 61 pedalUp
  = map (fun osc => WavetableOscillator.noteOff (WavetableOscillator.setIsHold true osc))
      (voicesOf 0 61 ringingCore).
Proof.
  intros pedalDown keyUp pedalUp.
  assert (Hsounding : Forall (fun osc => WavetableOscillator.isNoteOff osc = false)
                        (voicesOf 0 61 ringingCore)).
  { vm_compute. repeat constructor. }
  split; [lia |]. split; [lia |]. split; [exact Hsounding |].
  destruct (sustain_pedal_defers_note_off ringingCore 0 61 127 0
              ltac:(lia) ltac:(lia) Hsounding)
    as (_ & HkeyUp & HpedalUp & _).
  split; [exact HkeyUp | exact HpedalUp].
Defined.

Lemma noteOn_without_sample_starts_nothing_witness :
  fst (SynthProcessorCore.getSamples 0 72 100 exampleCore) = [] /\
  forall c k,
    voicesOf c k (SynthProcessorCore.noteOn (M := exampleMath) 0 72 100 exampleCore)
    = voicesOf c k exampleCore.
Proof.
  assert (Hnone : fst (SynthProcessorCore.getSamples 0 72 100 exampleCore) = [])
    by (vm_compute; reflexivity).
  split; [exact Hnone |].
  exact (proj2 (noteOn_without_sample_starts_nothing (M := exampleMath)
                  exampleCore 0 72 100 Hnone)).
Defined.

Lemma controller_values_scale_to_ranges_witness :
  0 <= 64 <= 127 /\ 0 <= 0x2000 <= 0x3fff /\
  ~ (ChannelState.pan (channelState 0 (SynthProcessorCore.setPan 0 64 exampleCore)) == 0)%Q /\
  (ChannelState.pitchBend (channelState 0 (SynthProcessorCore.pitchBend 0 0x2000 exampleCore))
   == 0)%Q.
Proof.
  split; [lia |]. split; [lia |].
  destruct (controller_values_scale_to_ranges exampleCore 0 64 0x2000 ltac:(lia) ltac:(lia))
    as (_ & _ & _ & _ & Hpan & _ & _ & _ & Hbend).
  split; [exact Hpan | exact (Hbend eq_refl)].
Defined.

Lemma process_drops_finished_voices_witness :
  let silence : Outputs := ([0; 0]%Q, [0; 0]%Q) in
  exists core' outputs',
    SynthProcessorCore.process (M := exampleMath) (audioWorkletScope 100) 0 silence ringingCore
    = Ok (core', outputs') /\
    (forall channel key,
       Forall (fun osc => WavetableOscillator.isPlaying osc = true)
         (voicesOf channel key core')) /\
    length (fst outputs') = 2%nat.
Proof.
  intros silence.
  destruct (SynthProcessorCore.process (M := exampleMath) (audioWorkletScope 100) 0 silence
              ringingCore) as [[core' outputs'] | err] eqn:Hrun.
  - exists core', outputs'. split; [reflexivity |].
    destruct (process_drops_finished_voices (M := exampleMath) (audioWorkletScope 100) 0
                silence outputs' ringingCore core' Hrun) as (Hplaying & Hleft & _).
    split; [exact Hplaying | exact Hleft].
  - vm_compute in Hrun. discriminate Hrun.
Defined.

(** An envelope at 44100 frames a second that has just been started. *)
Definition attackingEnvelope : AmplitudeEnvelope.t :=
  {| AmplitudeEnvelope.parameter := exampleEnvelope;
     AmplitudeEnvelope._phase := EnvelopePhase.attack;
     AmplitudeEnvelope.isNoteOff := false;
     AmplitudeEnvelope.phaseTime := 0;
     AmplitudeEnvelope.decayLevel := 1 # 2;
     AmplitudeEnvelope.lastAmplitude := 0;
     AmplitudeEnvelope.sampleRate := 44100 |}.

Lemma attack_is_a_linear_ramp_witness :
  ~ (attackTime (AmplitudeEnvelope.parameter attackingEnvelope)
     * AmplitudeEnvelope.sampleRate attackingEnvelope == 0)%Q /\
  exists env' value,
    AmplitudeEnvelope.getAmplitude (M := exampleMath) (audioWorkletScope 44100) 147
      attackingEnvelope = Ok (env', value) /\
    AmplitudeEnvelope.phase env' = EnvelopePhase.attack /\
    value = (0 + amplificationPerCall 147 attackingEnvelope)%Q.
Proof.
  assert (Hnonzero : ~ (attackTime (AmplitudeEnvelope.parameter attackingEnvelope)
                        * AmplitudeEnvelope.sampleRate attackingEnvelope == 0)%Q)
    by (vm_compute; discriminate).
  split; [exact Hnonzero |].
  destruct (AmplitudeEnvelope.getAmplitude (M := exampleMath) (audioWorkletScope 44100) 147
              attackingEnvelope) as [[env' value] | err] eqn:Hrun.
  - exists env', value. split; [reflexivity |].
    destruct (proj1 (attack_is_a_linear_ramp (M := exampleMath) (audioWorkletScope 44100) 147
                       attackingEnvelope Hnonzero) eq_refl env' value Hrun)
      as [(Hphase & Hvalue & _) | (_ & _ & Hreached)].
    + split; [exact Hphase | exact Hvalue].
    + exfalso. revert Hreached. vm_compute. intros Hreached. apply Hreached. reflexivity.
  - vm_compute in Hrun. discriminate Hrun.
Defined.

Lemma processFrame_interpolates_witness :
  let silence : Outputs := ([0; 0; 0; 0]%Q, [0; 0; 0; 0]%Q) in
  let voice := loopingVoice no_loop in
  let samples := buffer (WavetableOscillator.sample voice) in
  let sampleEnd :=
    SampleParameter.sampleEnd (sampleParameter (WavetableOscillator.sample voice)) in
  (0 <= WavetableOscillator.sampleIndex voice < sampleEndOf voice)%Q /\
  sampleEnd <= Z.of_nat (length samples) /\
  0 <= loop_start (loopOf voice) < sampleEnd /\
  exists (nextIndex : Z) (level : Q),
    0 <= nextIndex < Z.of_nat (length samples) /\
    fst (snd (fst (WavetableOscillator.processFrame (3 # 4) 1 1 0 voice silence))) !! 0%nat
    = Some (0 + level * 1)%Q.
Proof.
  intros silence voice samples sampleEnd.
  assert (Hpointer : (0 <= WavetableOscillator.sampleIndex voice < sampleEndOf voice)%Q)
    by (vm_compute; split; [discriminate | reflexivity]).
  assert (Hbuffer : sampleEnd <= Z.of_nat (length samples)) by (vm_compute; discriminate).
  assert (Hstart : 0 <= loop_start (loopOf voice) < sampleEnd)
    by (vm_compute; split; [discriminate | reflexivity]).
  split; [exact Hpointer |]. split; [exact Hbuffer |]. split; [exact Hstart |].
  destruct (processFrame_interpolates (3 # 4) 1 1 0 voice silence Hpointer Hbuffer Hstart)
    as (nextIndex & level & _ & Hnext & _ & _ & _ & _ & _ & Houtputs).
  exists nextIndex, level. split; [exact Hnext |].
  rewrite (proj1 (Houtputs 0%nat)). reflexivity.
Defined.
